(** * MCAST scan-and-score pipeline (src/src/mcast.c)

    A shallow embedding of the match retention heap, the score reservoir,
    the provisional EVD fit, the match extraction loop and the significance
    finalizer of [mcast.c], with the properties of the specification proved
    about them. *)

From Stdlib Require Import Strings.String.
From Stdlib Require Import ZArith QArith Qround Bool List Lia Lqa.
From Stdlib Require Import Sorting.Sorted Sorting.Permutation.
Import ListNotations.

Local Open Scope Z_scope.

(** ** C doubles

    The p-values, scores and GC-contents of [mcast.c] are C doubles.  The
    program compares them, tests them with [isnan], and adds, subtracts or
    multiplies them.  A double is modelled as [NaN] or a rational number:
    the comparisons are the IEEE ones (every comparison with a NaN is
    false); the arithmetic is exact, rounding is not modelled, and no
    theorem below relies on an arithmetic identity. *)

Inductive double : Type :=
| NaN : double
| Fin : Q -> double.

Definition isnan (a : double) : bool :=
  match a with NaN => true | Fin _ => false end.

(** [a <= b] in C. *)
Definition dle (a b : double) : bool :=
  match a, b with
  | Fin x, Fin y => Qle_bool x y
  | _, _ => false
  end.

(** [a < b] in C. *)
Definition dlt (a b : double) : bool :=
  match a, b with
  | Fin x, Fin y => negb (Qle_bool y x)
  | _, _ => false
  end.

(** [a >= b] and [a > b] in C. *)
Definition dge (a b : double) : bool := dle b a.
Definition dgt (a b : double) : bool := dlt b a.

Definition dadd (a b : double) : double :=
  match a, b with
  | Fin x, Fin y => Fin (x + y)
  | _, _ => NaN
  end.

Definition dsub (a b : double) : double :=
  match a, b with
  | Fin x, Fin y => Fin (x - y)
  | _, _ => NaN
  end.

Definition dmul (a b : double) : double :=
  match a, b with
  | Fin x, Fin y => Fin (x * y)
  | _, _ => NaN
  end.

(** Conversion of a C [int] to a double. *)
Definition of_int (n : Z) : double := Fin (inject_Z n).

Definition one : double := Fin 1.

(** ** Match records

    [MCAST_MATCH_T] (mcast-match.h) through the fields that [mcast.c] sets
    and reads; the motif hits and the copied subsequences are left out. *)

Record MCAST_MATCH_T : Type := mkMatch {
  match_seq_name : string;
  match_start : Z;
  match_stop : Z;
  match_score : double;
  match_gc : double;
  match_gc_bin : Z;
  match_pvalue : double;
  match_evalue : double;
  match_qvalue : double
}.

Definition get_mcast_match_pvalue (m : MCAST_MATCH_T) : double := match_pvalue m.
Definition get_mcast_match_score (m : MCAST_MATCH_T) : double := match_score m.
Definition get_mcast_match_gc (m : MCAST_MATCH_T) : double := match_gc m.

Definition set_mcast_match_pvalue (m : MCAST_MATCH_T) (p : double) : MCAST_MATCH_T :=
  mkMatch (match_seq_name m) (match_start m) (match_stop m) (match_score m)
          (match_gc m) (match_gc_bin m) p (match_evalue m) (match_qvalue m).

Definition set_mcast_match_gc_bin (m : MCAST_MATCH_T) (b : Z) : MCAST_MATCH_T :=
  mkMatch (match_seq_name m) (match_start m) (match_stop m) (match_score m)
          (match_gc m) b (match_pvalue m) (match_evalue m) (match_qvalue m).

Definition set_mcast_match_evalue (m : MCAST_MATCH_T) (e : double) : MCAST_MATCH_T :=
  mkMatch (match_seq_name m) (match_start m) (match_stop m) (match_score m)
          (match_gc m) (match_gc_bin m) (match_pvalue m) e (match_qvalue m).

Definition set_mcast_match_qvalue (m : MCAST_MATCH_T) (q : double) : MCAST_MATCH_T :=
  mkMatch (match_seq_name m) (match_start m) (match_stop m) (match_score m)
          (match_gc m) (match_gc_bin m) (match_pvalue m) (match_evalue m) q.

(** ** The match heap

    Modelled from the spec: [heap.c] ([create_heap], [add_node_heap],
    [pop_heap_root], [get_node], [get_num_nodes], [get_max_size]) and the
    comparison [compare_mcast_matches] of [mcast-match.c] are not among the
    sources.  The specification describes a bounded heap of match records
    with the worst p-value at the root, a NaN (unset) p-value sorting as
    most significant, and [size <= capacity] at all times.  The heap is
    modelled by the list of its nodes in the order in which [pop_heap_root]
    returns them, the root first. *)

(** [more_significant a b]: p-value [a] sorts at or below [b] in the heap
    order; NaN is below every number. *)
Definition more_significant (a b : double) : bool :=
  match a, b with
  | NaN, _ => true
  | Fin _, NaN => false
  | Fin x, Fin y => Qle_bool x y
  end.

Record HEAP : Type := mkHeap {
  max_size : Z;
  node_list : list MCAST_MATCH_T
}.

Definition create_heap (max : Z) : HEAP := mkHeap max [].

Definition get_num_nodes (h : HEAP) : Z := Z.of_nat (length (node_list h)).

Definition get_max_size (h : HEAP) : Z := max_size h.

Definition pop_heap_root (h : HEAP) : option MCAST_MATCH_T * HEAP :=
  match node_list h with
  | [] => (None, h)
  | root :: rest => (Some root, mkHeap (max_size h) rest)
  end.

(** The place of a new node among the nodes: behind every node that is at
    least as weak (ties leave the heap in insertion order). *)
Fixpoint insert_node (m : MCAST_MATCH_T) (nodes : list MCAST_MATCH_T)
  : list MCAST_MATCH_T :=
  match nodes with
  | [] => [m]
  | x :: rest =>
      if more_significant (match_pvalue m) (match_pvalue x)
      then x :: insert_node m rest
      else m :: nodes
  end.

(** A heap with room takes the node.  A full heap keeps its size: the new
    node takes the place of the root when the root is strictly weaker, and
    is turned away otherwise. *)
Definition add_node_heap (h : HEAP) (m : MCAST_MATCH_T) : HEAP :=
  if get_num_nodes h <? max_size h
  then mkHeap (max_size h) (insert_node m (node_list h))
  else
    match node_list h with
    | root :: rest =>
        if more_significant (match_pvalue root) (match_pvalue m)
        then h
        else mkHeap (max_size h) (insert_node m rest)
    | [] => h
    end.

(** The nodes of a heap are in pop order: each at least as weak as all
    that follow. *)
Definition weaker_first (a b : MCAST_MATCH_T) : Prop :=
  more_significant (match_pvalue b) (match_pvalue a) = true.

Definition heap_ordered (h : HEAP) : Prop :=
  StronglySorted weaker_first (node_list h).

(** ** purge_match_heap (mcast.c, lines 586-638) *)

Record PURGE : Type := mkPurge {
  purge_min_pvalue_discarded : double;   (* the value returned *)
  purge_freed : list MCAST_MATCH_T;      (* the victims, in the order freed *)
  purge_heap : HEAP                      (* the heap afterwards *)
}.

(** The [for] loop of lines 604-608: [count] times, pop the root, note its
    p-value and free it. *)
Fixpoint delete_bottom_half (count : nat) (h : HEAP) (min_pvalue_discarded : double)
  : PURGE :=
  match count with
  | O => mkPurge min_pvalue_discarded [] h
  | S count' =>
      match pop_heap_root h with
      | (Some victim, h') =>
          let r := delete_bottom_half count' h' (get_mcast_match_pvalue victim) in
          mkPurge (purge_min_pvalue_discarded r) (victim :: purge_freed r) (purge_heap r)
      | (None, _) => mkPurge min_pvalue_discarded [] h
      end
  end.

(** The [while] loop of lines 610-626, over the nodes in pop order: while
    the root's p-value is [>=] the minimum discarded, pop and free it; stop
    when the heap is empty. *)
Fixpoint delete_tied (nodes : list MCAST_MATCH_T) (min_pvalue_discarded : double)
  : list MCAST_MATCH_T * list MCAST_MATCH_T :=
  match nodes with
  | [] => ([], [])
  | victim :: rest =>
      if dge (get_mcast_match_pvalue victim) min_pvalue_discarded
      then let (freed, kept) := delete_tied rest min_pvalue_discarded in
           (victim :: freed, kept)
      else ([], nodes)
  end.

Definition num_matches_to_delete (h : HEAP) : Z := Z.quot (get_num_nodes h) 2.

Definition purge_match_heap (match_heap : HEAP) : PURGE :=
  let first := delete_bottom_half (Z.to_nat (num_matches_to_delete match_heap))
                                  match_heap one in
  let min_pvalue_discarded := purge_min_pvalue_discarded first in
  let (freed, kept) := delete_tied (node_list (purge_heap first)) min_pvalue_discarded in
  mkPurge min_pvalue_discarded
          (purge_freed first ++ freed)
          (mkHeap (max_size (purge_heap first)) kept).

(** ** Score samples and the score reservoir ([SCORE], [SCORE_SET]) *)

Record SCORE : Type := mkScore {
  score_s : double;        (* unscaled score *)
  score_t : Z;             (* length of the match *)
  score_nhits : Z;
  score_span : Z;
  score_gc : double;
  score_serial_no : Z
}.

(** [scores] holds the [n] filled slots of the array of capacity
    [max_scores_saved].  The counters are C ints; they are modelled without
    an upper bound. *)
Record SCORE_SET : Type := mkScoreSet {
  scores : list SCORE;
  n : Z;
  max_scores_saved : Z;
  num_scores_seen : Z;
  max_t : Z;
  total_length : Z
}.

(** [a / b] in C, for the one quotient of [mcast.c], whose divisor is zero
    only when its dividend is zero as well. *)
Definition ddiv (a b : double) : double :=
  match a, b with
  | Fin x, Fin y => if Qeq_bool y 0 then NaN else Fin (x / y)
  | _, _ => NaN
  end.

(** Conversion of a double to [int]: truncation toward zero. *)
Definition to_int (q : Q) : Z := Z.quot (Qnum q) (Zpos (Qden q)).

(** [scores[i] = x]: slot [n] is the first free slot of the array; a slot
    beyond it is not written by [mcast.c]. *)
Fixpoint write_slot (l : list SCORE) (i : nat) (x : SCORE) : list SCORE :=
  match l, i with
  | [], O => [x]
  | [], S _ => []
  | _ :: rest, O => x :: rest
  | y :: rest, S i' => y :: write_slot rest i' x
  end.

(** Lines 875-885: the sample is written to its slot. *)
Definition store_score (score_set : SCORE_SET) (score_index : Z) (x : SCORE) : SCORE_SET :=
  mkScoreSet (write_slot (scores score_set) (Z.to_nat score_index) x)
             (n score_set) (max_scores_saved score_set) (num_scores_seen score_set)
             (if max_t score_set <? score_t x then score_t x else max_t score_set)
             (total_length score_set).

(** ** The sequence window and the matches found in it *)

(** [SEQ_T] as the scan loop reads it. *)
Record SEQ_T : Type := mkSeq {
  seq_name : string;
  seq_length : Z;
  seq_offset : Z;
  seq_is_complete : bool
}.

(** [MATCH_T] ([partial_match]) as the scan loop reads it. *)
Record MATCH_T : Type := mkRawMatch {
  start_match : Z;
  end_match : Z;
  raw_score : double;          (* get_score *)
  raw_seq_length : Z;          (* get_match_seq_length *)
  raw_nhits : Z
}.

(** One pass of the outer loop of [mcast_read_and_score]: the window, the
    matches that the successive calls of [find_next_match] (dp.c) return
    for it, the call after the last one returning false, and the length of
    the window once [remove_flanking_xs] has trimmed it. *)
Record SEGMENT : Type := mkSegment {
  segment_seq : SEQ_T;
  segment_found : list MATCH_T;
  segment_trimmed_length : Z
}.

(** What the scan writes to stderr, with the records concerned. *)
Inductive EVENT : Type :=
| InitialDistribution (evd_n : Z) (rescored : list MCAST_MATCH_T)
    (* "Initial distribution calculation": the fit and, when it succeeded,
       the records of the heap as they were re-scored *)
| Purging (smallest_discarded : double) (victims : list MCAST_MATCH_T).
    (* "Purging matches." ... "Smallest p-value discarded is" *)

(** A call either returns or ends the program through [die]. *)
Inductive RUN (A : Type) : Type :=
| Finished (a : A)
| Fatal (message : string).

Arguments Finished {A}.
Arguments Fatal {A}.

(** ** The collaborators of the scan

    The EVD fit (fitevd.c), the Mersenne twister (mtwist.c), the cumulative
    GC counts of a sequence (seq.c), the alphabet (alphabet.c), the
    q-value computation (qvalue.c), the comparison of [mcast-match.c] used
    for the final sort, the generation of random sequences (gendb.c) and
    two macros are not among the sources.  The program is modelled over
    them. *)

(** [EVD_SET] through the fields that [mcast.c] sets and reads; [EVD] is
    one fitted distribution. *)
Record EVD_SET (EVD : Type) : Type := mkEvdSet {
  evds : list EVD;
  evd_n : Z;                (* number of fitted bins; 0: not fit *)
  evd_N : Z;                (* p-value multiplier for the E-value *)
  evd_outliers : Z;
  evd_min_e : double;
  evd_sum_log_e : double
}.

Arguments mkEvdSet {EVD}.
Arguments evds {EVD}.
Arguments evd_n {EVD}.
Arguments evd_N {EVD}.
Arguments evd_outliers {EVD}.
Arguments evd_min_e {EVD}.
Arguments evd_sum_log_e {EVD}.

Class Externals : Type := {
  EVD : Type;
  calc_distr : SCORE_SET -> EVD_SET EVD;
  evd_set_bin : double -> EVD_SET EVD -> Z;
  evd_set_pvalue : double -> double -> Z -> EVD_SET EVD -> double;
  mt_state : Type;
  mts_drand : mt_state -> Q * mt_state;        (* a number in [0,1) *)
  get_seq_gc : Z -> SEQ_T -> double;
  LOG_SMALL : double;
  OVERLAP_SIZE : Z;
  allocate_mcast_match : MCAST_MATCH_T;        (* a fresh record *)
  BIG : double;
  sort_array : list double -> list double;
  compare_mcast_match_pvalues : MCAST_MATCH_T -> MCAST_MATCH_T -> Z;
  compute_qvalues : Z -> list double -> list double -> list double;
  ALPH_T : Type;
  alph_dna : ALPH_T;
  alph_equal : ALPH_T -> ALPH_T -> bool;
  alph_size_core : ALPH_T -> Z;
  alph_size_pairs : ALPH_T -> Z;
  set_up_score_set : SCORE_SET;                (* a score set with no score *)
  synthetic_distr : SCORE_SET -> mt_state -> RUN (EVD_SET EVD)
    (* lines 1353-1487: the rounds of random sequences and the fit; [Fatal]
       when the file of a round cannot be created (lines 1385-1388) *)
}.

(** ** The scan: [calc_init_distr] and [mcast_read_and_score] *)

Section Scan.

Context {X : Externals}.

Definition IGNORE_QUERY_LENGTH : Z := 1.

(** The state of [mcast_read_and_score]: its arguments that it updates, its
    local variables, and what it has written to stderr, latest first. *)
Record SCAN : Type := mkScan {
  serial_no : Z;                      (* a double holding a count *)
  mcast_match_heap : option HEAP;     (* NULL when no match is stored *)
  score_set : SCORE_SET;
  initial_evd_set : EVD_SET EVD;
  prng : mt_state;
  num_seqs : Z;
  num_segments : Z;
  num_matches : Z;
  start_pos : Z;
  min_pvalue_discarded : double;
  got_init_evd : bool;
  events : list EVENT
}.

(** Lines 849-866: the counter of scores seen goes up, and the sample gets
    a slot or none; a random number is drawn only once the reservoir is
    full. *)
Definition choose_slot (score_set : SCORE_SET) (prng : mt_state)
  : option Z * SCORE_SET * mt_state :=
  let seen := num_scores_seen score_set + 1 in
  if n score_set <? max_scores_saved score_set
  then (Some (n score_set),
        mkScoreSet (scores score_set) (n score_set + 1) (max_scores_saved score_set)
                   seen (max_t score_set) (total_length score_set),
        prng)
  else
    let (u, prng') := mts_drand prng in
    let score_index := to_int (inject_Z seen * u) in
    (if score_index <? max_scores_saved score_set then Some score_index else None,
     mkScoreSet (scores score_set) (n score_set) (max_scores_saved score_set)
                seen (max_t score_set) (total_length score_set),
     prng').

(** Lines 868-873: the GC-content around the match. *)
Definition GC_WIN_SIZE : Z := 500.

Definition gc_around (sequence : SEQ_T) (pm : MATCH_T) : double :=
  let start := Z.max 0 (start_match pm - GC_WIN_SIZE) in
  let end_ := Z.min (seq_length sequence - 1) (end_match pm + GC_WIN_SIZE) in
  ddiv (dsub (get_seq_gc end_ sequence) (get_seq_gc start sequence))
       (of_int (end_ - start)).

(** Lines 843-886: a score above [LOG_SMALL] is counted and sampled; the
    result is the GC-content of the match (0.0 for a tiny score) with the
    updated score set, serial number and generator. *)
Definition save_score (sequence : SEQ_T) (pm : MATCH_T) (viterbi_score : double)
    (score_set : SCORE_SET) (serial_no : Z) (prng : mt_state)
  : double * SCORE_SET * Z * mt_state :=
  if dgt viterbi_score LOG_SMALL then
    let '(slot, score_set1, prng1) := choose_slot score_set prng in
    let gc := gc_around sequence pm in
    match slot with
    | Some score_index =>
        (gc,
         store_score score_set1 score_index
           (mkScore viterbi_score (raw_seq_length pm) (raw_nhits pm)
                    (end_match pm - start_match pm + 1) gc serial_no),
         serial_no + 1, prng1)
    | None => (gc, score_set1, serial_no, prng1)
    end
  else (Fin 0, score_set, serial_no, prng).

(** The loop body of lines 671-679 of [calc_init_distr]: a provisional
    GC bin and p-value for a stored match. *)
Definition rescore (evd_set : EVD_SET EVD) (dp_threshold : double) (m : MCAST_MATCH_T)
  : MCAST_MATCH_T :=
  let score := dsub (get_mcast_match_score m) dp_threshold in
  let gc := get_mcast_match_gc m in
  let gc_bin := evd_set_bin gc evd_set in
  let m1 := set_mcast_match_gc_bin m gc_bin in
  let pvalue := evd_set_pvalue score gc IGNORE_QUERY_LENGTH evd_set in
  set_mcast_match_pvalue m1 pvalue.

(** [num_matches] times [pop_heap_root], into an array. *)
Fixpoint pop_all (count : nat) (h : HEAP) : list MCAST_MATCH_T * HEAP :=
  match count with
  | O => ([], h)
  | S count' =>
      match pop_heap_root h with
      | (Some m, h') => let (ms, h'') := pop_all count' h' in (m :: ms, h'')
      | (None, _) => ([], h)
      end
  end.

(** [calc_init_distr] (lines 650-688): the fit, the flag, and the heap with
    its records re-scored when the fit succeeded. *)
Definition calc_init_distr (score_set : SCORE_SET) (mcast_match_heap : HEAP)
    (dp_threshold : double) : EVD_SET EVD * HEAP * bool * list MCAST_MATCH_T :=
  let evd_set := calc_distr score_set in
  let got_init_evd := 0 <? evd_n evd_set in
  if got_init_evd then
    let num_matches := get_num_nodes mcast_match_heap in
    let (popped, emptied) := pop_all (Z.to_nat num_matches) mcast_match_heap in
    let mcast_matches := map (rescore evd_set dp_threshold) popped in
    (evd_set, fold_left add_node_heap mcast_matches emptied, true, mcast_matches)
  else (evd_set, mcast_match_heap, false, []).

(** The record built at lines 967-980 for a match that is stored. *)
Definition build_mcast_match (sequence : SEQ_T) (pm : MATCH_T)
    (viterbi_score dp_thresh pvalue gc : double) (gc_bin : Z) : MCAST_MATCH_T :=
  mkMatch (seq_name sequence)
          (seq_offset sequence + start_match pm - 1)
          (seq_offset sequence + end_match pm - 1)
          (dadd viterbi_score dp_thresh)
          gc gc_bin pvalue
          (match_evalue allocate_mcast_match)
          (match_qvalue allocate_mcast_match).

(** Lines 893-901: the provisional fit, attempted once the reservoir is
    full for as long as no fit has succeeded. *)
Definition init_distr_stage (dp_thresh : double) (score_set1 : SCORE_SET) (st : SCAN)
  : EVD_SET EVD * option HEAP * bool * list EVENT :=
  match mcast_match_heap st with
  | Some h =>
      if (max_scores_saved score_set1 <=? n score_set1) && negb (got_init_evd st)
      then
        let '(evd_set, h', got, rescored) := calc_init_distr score_set1 h dp_thresh in
        (evd_set, Some h', got,
         InitialDistribution (evd_n evd_set) rescored :: events st)
      else (initial_evd_set st, Some h, got_init_evd st, events st)
  | None => (initial_evd_set st, None, got_init_evd st, events st)
  end.

(** Lines 981-996: the record goes to the heap, and a heap that is full
    after that is purged. *)
Definition store_match (h : HEAP) (mcast_match : MCAST_MATCH_T)
    (min_pvalue_discarded : double) (events : list EVENT)
  : HEAP * double * list EVENT :=
  let h2 := add_node_heap h mcast_match in
  let num_nodes := get_num_nodes h2 in
  let max_nodes := get_max_size h2 in
  if num_nodes =? max_nodes then
    let r := purge_match_heap h2 in
    (purge_heap r, purge_min_pvalue_discarded r,
     Purging (purge_min_pvalue_discarded r) (purge_freed r) :: events)
  else (h2, min_pvalue_discarded, events).

(** Lines 836-1007: the body of the match loop for a match that is neither
    deferred nor skipped. *)
Definition process_match (dp_thresh : double) (sequence : SEQ_T) (pm : MATCH_T)
    (st : SCAN) : SCAN :=
  let viterbi_score := dsub (raw_score pm) dp_thresh in
  let '(gc, score_set1, serial_no1, prng1) :=
    save_score sequence pm viterbi_score (score_set st) (serial_no st) (prng st) in
  let '(evd_set1, heap1, got_init_evd1, events1) :=
    init_distr_stage dp_thresh score_set1 st in
  (* lines 903-908 *)
  let pvalue := if got_init_evd1 then evd_set_pvalue viterbi_score gc 1 evd_set1 else NaN in
  let gc_bin := if got_init_evd1 then evd_set_bin gc evd_set1 else -1 in
  (* lines 910-1007 *)
  match heap1 with
  | Some h =>
      if dlt pvalue (min_pvalue_discarded st) || isnan pvalue then
        let mcast_match :=
          build_mcast_match sequence pm viterbi_score dp_thresh pvalue gc gc_bin in
        let '(h3, min_pvalue_discarded3, events3) :=
          store_match h mcast_match (min_pvalue_discarded st) events1 in
        mkScan serial_no1 (Some h3) score_set1 evd_set1 prng1
               (num_seqs st) (num_segments st) (num_matches st + 1) (start_pos st)
               min_pvalue_discarded3 got_init_evd1 events3
      else
        mkScan serial_no1 heap1 score_set1 evd_set1 prng1
               (num_seqs st) (num_segments st) (num_matches st) (start_pos st)
               (min_pvalue_discarded st) got_init_evd1 events1
  | None =>
      mkScan serial_no1 heap1 score_set1 evd_set1 prng1
             (num_seqs st) (num_segments st) (num_matches st) (start_pos st)
             (min_pvalue_discarded st) got_init_evd1 events1
  end.

Definition set_start_pos (st : SCAN) (p : Z) : SCAN :=
  mkScan (serial_no st) (mcast_match_heap st) (score_set st) (initial_evd_set st)
         (prng st) (num_seqs st) (num_segments st) (num_matches st) p
         (min_pvalue_discarded st) (got_init_evd st) (events st).

(** What one pass of the match loop (lines 807-1008) does with the match
    that [find_next_match] has returned. *)
Inductive ACTION : Type :=
| Deferred        (* break: the match starts in the overlap region *)
| Skipped         (* continue: the match starts at the scan cursor *)
| Recorded.       (* the match goes through lines 834-1007 *)

(** The comparison of line 820 is taken over the integers: the
    declarations of [get_seq_length] and [OVERLAP_SIZE] are not among the
    sources. *)
Definition match_action (sequence : SEQ_T) (pm : MATCH_T) (start_pos : Z) : ACTION :=
  if negb (seq_is_complete sequence)
     && (start_match pm >? seq_length sequence - OVERLAP_SIZE)
  then Deferred
  else if start_match pm =? start_pos then Skipped
  else Recorded.

(** The match loop of lines 807-1008 over the matches found in a window. *)
Fixpoint find_matches (dp_thresh : double) (sequence : SEQ_T) (found : list MATCH_T)
    (st : SCAN) : SCAN :=
  match found with
  | [] => st
  | pm :: more =>
      match match_action sequence pm (start_pos st) with
      | Deferred => st
      | Skipped =>
          find_matches dp_thresh sequence more (set_start_pos st (end_match pm + 1))
      | Recorded =>
          find_matches dp_thresh sequence more
            (process_match dp_thresh sequence pm (set_start_pos st (end_match pm + 1)))
      end
  end.

Definition add_total_length (score_set : SCORE_SET) (d : Z) : SCORE_SET :=
  mkScoreSet (scores score_set) (n score_set) (max_scores_saved score_set)
             (num_scores_seen score_set) (max_t score_set) (total_length score_set + d).

(** Lines 1010-1066: after the matches of a window.  [next] is the window
    that the readers deliver next, if any. *)
Definition after_segment (seg : SEGMENT) (next : option SEGMENT) (st : SCAN) : SCAN :=
  if negb (seq_is_complete (segment_seq seg)) then
    let size_to_remove := segment_trimmed_length seg - OVERLAP_SIZE in
    let start_pos1 := start_pos st - size_to_remove in
    let start_pos2 := if start_pos1 <? 0 then 0 else start_pos1 in
    let score_set1 :=
      match next with
      | Some nx => add_total_length (score_set st)
                                    (seq_length (segment_seq nx) - OVERLAP_SIZE)
      | None => score_set st
      end in
    mkScan (serial_no st) (mcast_match_heap st) score_set1 (initial_evd_set st)
           (prng st) (num_seqs st) (num_segments st + 1) (num_matches st) start_pos2
           (min_pvalue_discarded st) (got_init_evd st) (events st)
  else
    let score_set1 :=
      match next with
      | Some nx => add_total_length (score_set st) (seq_length (segment_seq nx))
      | None => score_set st
      end in
    mkScan (serial_no st) (mcast_match_heap st) score_set1 (initial_evd_set st)
           (prng st) (num_seqs st + 1) (num_segments st + 1) (num_matches st) 0
           (min_pvalue_discarded st) (got_init_evd st) (events st).

(** The outer loop of lines 739-1066 over the windows that the readers
    deliver. *)
Fixpoint scan_segments (dp_thresh : double) (segments : list SEGMENT) (st : SCAN)
  : SCAN :=
  match segments with
  | [] => st
  | seg :: rest =>
      let st1 := find_matches dp_thresh (segment_seq seg) (segment_found seg) st in
      scan_segments dp_thresh rest (after_segment seg (hd_error rest) st1)
  end.

(** Lines 713-737: the state with which the outer loop is entered. *)
Definition start_scan (serial_no : Z) (mcast_match_heap : option HEAP)
    (score_set : SCORE_SET) (initial_evd_set : EVD_SET EVD)
    (segments : list SEGMENT) (prng : mt_state) : SCAN :=
  let score_set0 :=
    match segments with
    | seg :: _ => add_total_length score_set (seq_length (segment_seq seg))
    | [] => score_set
    end in
  mkScan serial_no mcast_match_heap score_set0 initial_evd_set prng
         0 0 0 0 one (0 <? evd_n initial_evd_set) [].

(** [mcast_read_and_score] (lines 699-1078): the state at its return; the
    value returned is the field [min_pvalue_discarded]. *)
Definition mcast_read_and_score (serial_no : Z) (mcast_match_heap : option HEAP)
    (score_set : SCORE_SET) (initial_evd_set : EVD_SET EVD)
    (segments : list SEGMENT) (dp_thresh : double) (prng : mt_state) : SCAN :=
  scan_segments dp_thresh segments
    (start_scan serial_no mcast_match_heap score_set initial_evd_set segments prng).

(** The states that a scan entered with [st0] goes through: after a match
    is skipped, after a match is recorded, after a window. *)
Inductive scan_state (dp_thresh : double) (st0 : SCAN) : SCAN -> Prop :=
| scan_entered : scan_state dp_thresh st0 st0
| scan_skipped st pm :
    scan_state dp_thresh st0 st ->
    scan_state dp_thresh st0 (set_start_pos st (end_match pm + 1))
| scan_recorded st sequence pm :
    scan_state dp_thresh st0 st ->
    scan_state dp_thresh st0
      (process_match dp_thresh sequence pm (set_start_pos st (end_match pm + 1)))
| scan_window_done st seg next :
    scan_state dp_thresh st0 st ->
    scan_state dp_thresh st0 (after_segment seg next st).

(** The records freed by the purges of a scan, and the values that its
    purges returned, latest first. *)
Fixpoint purged (evs : list EVENT) : list MCAST_MATCH_T :=
  match evs with
  | [] => []
  | Purging _ victims :: rest => victims ++ purged rest
  | InitialDistribution _ _ :: rest => purged rest
  end.

Fixpoint purge_returns (evs : list EVENT) : list double :=
  match evs with
  | [] => []
  | Purging m _ :: rest => m :: purge_returns rest
  | InitialDistribution _ _ :: rest => purge_returns rest
  end.

(** The number of times the records of the heap were re-scored. *)
Fixpoint rescorings (evs : list EVENT) : nat :=
  match evs with
  | [] => O
  | InitialDistribution evd_n _ :: rest =>
      if 0 <? evd_n then S (rescorings rest) else rescorings rest
  | Purging _ _ :: rest => rescorings rest
  end.

Definition retained (st : SCAN) : list MCAST_MATCH_T :=
  match mcast_match_heap st with
  | Some h => node_list h
  | None => []
  end.

(** ** The significance finalizer: [calc_pq_values] (lines 1084-1169) *)

(** [qsort] under [compare_mcast_match_pvalues], as an insertion sort: the
    array is permuted, whatever the comparison. *)
Fixpoint insert_by_pvalue (m : MCAST_MATCH_T) (sorted : list MCAST_MATCH_T)
  : list MCAST_MATCH_T :=
  match sorted with
  | [] => [m]
  | x :: rest =>
      if compare_mcast_match_pvalues m x <=? 0 then m :: sorted
      else x :: insert_by_pvalue m rest
  end.

Definition qsort (matches : list MCAST_MATCH_T) : list MCAST_MATCH_T :=
  fold_right insert_by_pvalue [] matches.

(** Lines 1159-1164: the q-values go to the matches, in order. *)
Fixpoint set_qvalues (matches : list MCAST_MATCH_T) (qvalues : list double)
  : list MCAST_MATCH_T :=
  match matches, qvalues with
  | m :: ms, q :: qs => set_mcast_match_qvalue m q :: set_qvalues ms qs
  | _, _ => matches
  end.

(** The slots [0 .. n-1] of the array of scores. *)
Definition saved_scores (score_set : SCORE_SET) : list SCORE :=
  firstn (Z.to_nat (n score_set)) (scores score_set).

(** Lines 1121-1127: p-value and E-value of one stored match. *)
Definition set_pvalue_evalue (evd_set : EVD_SET EVD) (dp_thresh : double) (n : Z)
    (m : MCAST_MATCH_T) : MCAST_MATCH_T :=
  let score := dsub (get_mcast_match_score m) dp_thresh in
  let gc := get_mcast_match_gc m in
  let gc_bin := evd_set_bin gc evd_set in
  let m1 := set_mcast_match_gc_bin m gc_bin in
  let pvalue := evd_set_pvalue score gc IGNORE_QUERY_LENGTH evd_set in
  let m2 := set_mcast_match_pvalue m1 pvalue in
  set_mcast_match_evalue m2 (dmul (of_int n) pvalue).

Definition calc_pq_values (matches : list MCAST_MATCH_T) (evd_set : EVD_SET EVD)
    (score_set : SCORE_SET) (dp_thresh : double) (n : Z)
  : list MCAST_MATCH_T * EVD_SET EVD :=
  if evd_n evd_set <=? 0 then (matches, evd_set)       (* no EVD available *)
  else
    let evd_set1 := mkEvdSet (evds evd_set) (evd_n evd_set) (evd_N evd_set)
                             0 BIG (Fin 0) in
    let sampled_pvalues :=
      sort_array
        (map (fun sc => evd_set_pvalue (score_s sc) (score_gc sc)
                                       IGNORE_QUERY_LENGTH evd_set1)
             (saved_scores score_set)) in
    let matches1 := map (set_pvalue_evalue evd_set1 dp_thresh n) matches in
    let matches2 := qsort matches1 in
    let pvalues := map get_mcast_match_pvalue matches2 in
    let qvalues :=
      compute_qvalues (num_scores_seen score_set) pvalues sampled_pvalues in
    (set_qvalues matches2 qvalues, evd_set1).

(** ** The program: [mcast_generate_synth_seq], [mcast], [read_motifs], [main] *)

(** The stages of [mcast] that a run has entered. *)
Inductive PHASE : Type :=
| ReadAndScore            (* the real sequences are read and scored *)
| GenerateSynthetic       (* mcast_generate_synth_seq is entered *)
| PrintResults.           (* mcast_print_results is entered *)

(** What [mcast_print_results] hands to the writers of the reports. *)
Record REPORT : Type := mkReport {
  stats_available : bool;
  report_matches : list MCAST_MATCH_T;
  report_evd_set : EVD_SET EVD;
  report_p_thresh : double
}.

(** [mcast_generate_synth_seq] (lines 1306-1488): the check of the alphabet
    at lines 1348-1352, then the rounds, each of which dies when its file
    cannot be created, and the fit. *)
Definition mcast_generate_synth_seq (score_set : SCORE_SET) (alph : ALPH_T)
    (prng : mt_state) : RUN (EVD_SET EVD) :=
  if negb (alph_size_core alph =? 4) || negb (alph_size_pairs alph =? 2)
  then Fatal "Unable to generate random sequences"
  else synthetic_distr score_set prng.

Record MCAST_OPTIONS_T : Type := mkOptions {
  text_only : bool;
  max_stored_scores : Z;
  dp_thresh : double;            (* scan_options.dp_thresh, once set *)
  p_thresh : double              (* scan_options.p_thresh *)
}.

Definition set_max_scores_saved (score_set : SCORE_SET) (max : Z) : SCORE_SET :=
  mkScoreSet (scores score_set) (n score_set) max (num_scores_seen score_set)
             (max_t score_set) (total_length score_set).

Definition set_evd_N (evd_set : EVD_SET EVD) (N : Z) : EVD_SET EVD :=
  mkEvdSet (evds evd_set) (evd_n evd_set) N (evd_outliers evd_set)
           (evd_min_e evd_set) (evd_sum_log_e evd_set).

Definition empty_evd_set : EVD_SET EVD := mkEvdSet [] 0 0 0 (Fin 0) (Fin 0).

(** [mcast_print_results] (lines 1212-1297). *)
Definition mcast_print_results (options : MCAST_OPTIONS_T) (output_dir_created : bool)
    (evd_set : EVD_SET EVD) (mcast_matches : list MCAST_MATCH_T) (p_thresh : double)
  : RUN REPORT :=
  let stats_available := 0 <? evd_n evd_set in
  if negb (text_only options) && negb output_dir_created
  then Fatal "Couldn't create output directory"
  else Finished (mkReport stats_available mcast_matches evd_set p_thresh).

(** [mcast] (lines 1498-1773), over the alphabet of the HMM, the windows
    that the readers deliver and the seeded generator: the stages entered
    and the outcome. *)
Definition mcast (options : MCAST_OPTIONS_T) (output_dir_created : bool)
    (alph : ALPH_T) (segments : list SEGMENT) (prng0 : mt_state)
  : list PHASE * RUN REPORT :=
  if negb (text_only options) && negb output_dir_created
  then ([], Fatal "Couldn't create output directory")
  else
    let score_set0 := set_max_scores_saved set_up_score_set (max_stored_scores options) in
    let heap0 := create_heap (max_stored_scores options) in
    (* lines 1652-1669 *)
    let st := mcast_read_and_score 0 (Some heap0) score_set0 empty_evd_set
                                   segments (dp_thresh options) prng0 in
    (* lines 1671-1678 *)
    let num_matches := Z.of_nat (List.length (retained st)) in
    let mcast_matches := retained st in
    (* lines 1680-1710 *)
    if 0 <? num_matches then
      match mcast_generate_synth_seq (score_set st) alph (prng st) with
      | Fatal message => ([ReadAndScore; GenerateSynthetic], Fatal message)
      | Finished evd_set =>
          if 0 <? evd_n evd_set then
            let evd_set1 := set_evd_N evd_set (num_scores_seen (score_set st)) in
            let (matches1, evd_set2) :=
              calc_pq_values mcast_matches evd_set1 (score_set st)
                             (dp_thresh options) (evd_N evd_set1) in
            let p_thresh1 :=
              if dlt (min_pvalue_discarded st) (p_thresh options)
              then min_pvalue_discarded st else p_thresh options in
            ([ReadAndScore; GenerateSynthetic; PrintResults],
             mcast_print_results options output_dir_created evd_set2 matches1 p_thresh1)
          else
            ([ReadAndScore; GenerateSynthetic; PrintResults],
             mcast_print_results options output_dir_created evd_set mcast_matches
                                 (p_thresh options))
      end
    else
      ([ReadAndScore; PrintResults],
       mcast_print_results options output_dir_created (initial_evd_set st)
                           mcast_matches (p_thresh options)).

Inductive MOTIF_FORMAT_T : Type := MEME_FORMAT | TRANSFAC_FORMAT.

(** [read_motifs] (lines 442-543), over the alphabet of the motif file and
    the number of motifs it yields: the alphabet of the run. *)
Definition read_motifs (motif_format : MOTIF_FORMAT_T) (file_alph : ALPH_T)
    (num_motifs : Z) : RUN ALPH_T :=
  match motif_format with
  | MEME_FORMAT =>
      if negb (alph_equal alph_dna file_alph)
      then Fatal "The provided motifs don't seem to be in the DNA alphabet."
      else if num_motifs <=? 0 then Fatal "No valid motifs could be read"
      else Finished file_alph
  | TRANSFAC_FORMAT =>
      if num_motifs <=? 0 then Fatal "No valid motifs could be read"
      else Finished alph_dna
  end.

(** [main] (lines 1781-1854): the motifs are read, the HMM is built over
    their alphabet, and [mcast] runs. *)
Definition main (options : MCAST_OPTIONS_T) (motif_format : MOTIF_FORMAT_T)
    (file_alph : ALPH_T) (num_motifs : Z) (output_dir_created : bool)
    (segments : list SEGMENT) (prng0 : mt_state) : list PHASE * RUN REPORT :=
  match read_motifs motif_format file_alph num_motifs with
  | Fatal message => ([], Fatal message)
  | Finished alph => mcast options output_dir_created alph segments prng0
  end.

End Scan.

(** ** The reservoir as an experiment on the indices drawn *)

(** Lines 849-866 with [score_index], the index computed at line 862, as
    an argument. *)
Definition choose_slot_at (score_set : SCORE_SET) (score_index : Z)
  : option Z * SCORE_SET :=
  let seen := num_scores_seen score_set + 1 in
  if n score_set <? max_scores_saved score_set
  then (Some (n score_set),
        mkScoreSet (scores score_set) (n score_set + 1) (max_scores_saved score_set)
                   seen (max_t score_set) (total_length score_set))
  else
    (if score_index <? max_scores_saved score_set then Some score_index else None,
     mkScoreSet (scores score_set) (n score_set) (max_scores_saved score_set)
                seen (max_t score_set) (total_length score_set)).

(** Lines 849-885 for one sample and one index. *)
Definition record_score (score_set : SCORE_SET) (x : SCORE) (score_index : Z)
  : SCORE_SET :=
  match choose_slot_at score_set score_index with
  | (Some i, score_set1) => store_score score_set1 i x
  | (None, score_set1) => score_set1
  end.

(** The reservoir of capacity [max] after a stream of samples, the k-th
    sample (k = 0, 1, ...) arriving with the k-th index. *)
Definition reservoir (max : Z) (samples : list SCORE) (indices : list Z) : SCORE_SET :=
  fold_left (fun ss xd => record_score ss (fst xd) (snd xd))
            (combine samples indices)
            (mkScoreSet [] 0 max 0 0 0).

(** The index drawn when the k-th sample arrives lies in [0, k+1).  All the
    sequences of indices for a stream of [N] samples: *)
Fixpoint index_sequences (N : nat) : list (list Z) :=
  match N with
  | O => [[]]
  | S k =>
      flat_map (fun ds => map (fun d => ds ++ [Z.of_nat d]) (seq 0 (S k)))
               (index_sequences k)
  end.

Definition double_eqb (a b : double) : bool :=
  match a, b with
  | NaN, NaN => true
  | Fin x, Fin y => (Qnum x =? Qnum y) && Pos.eqb (Qden x) (Qden y)
  | _, _ => false
  end.

(** The same sample, field by field. *)
Definition score_eqb (x y : SCORE) : bool :=
  double_eqb (score_s x) (score_s y) && (score_t x =? score_t y)
  && (score_nhits x =? score_nhits y) && (score_span x =? score_span y)
  && double_eqb (score_gc x) (score_gc y)
  && (score_serial_no x =? score_serial_no y).

Definition in_reservoir (x : SCORE) (score_set : SCORE_SET) : bool :=
  existsb (score_eqb x) (scores score_set).

(** In how many of the sequences of indices the reservoir ends in a state
    that satisfies [P]. *)
Definition count_runs (P : SCORE_SET -> bool) (max : Z) (samples : list SCORE) : nat :=
  List.length
    (filter (fun ds => P (reservoir max samples ds))
            (index_sequences (List.length samples))).

(** In how many of them a sample ends in the reservoir. *)
Definition times_sampled (max : Z) (samples : list SCORE) (x : SCORE) : nat :=
  count_runs (in_reservoir x) max samples.

(** The samples of [chosen] are those of [l], whatever the order. *)
Definition same_scores (chosen l : list SCORE) : bool :=
  forallb (fun s => existsb (score_eqb s) l) chosen
  && forallb (fun a => existsb (score_eqb a) chosen) l.

(** In how many of them the reservoir ends holding exactly the samples of
    [chosen]. *)
Definition times_drawn (max : Z) (samples chosen : list SCORE) : nat :=
  count_runs (fun score_set => same_scores chosen (scores score_set)) max samples.

(** A stream of four samples with the scores 1, 2, 3 and 4. *)
Definition toy_score (k : Z) : SCORE := mkScore (Fin (inject_Z k)) 10 1 10 (Fin 0) 0.

Definition four_scores : list SCORE := map toy_score [1; 2; 3; 4].

(** ** The reservoir as an experiment on the numbers drawn

    The scan computes the index of line 862 from a number that the
    generator draws.  The experiment: a stream of matches is recorded by the
    body of the match loop, one match after the other, with a generator
    that returns the numbers of a given list. *)

Section Draws.

Context {X : Externals}.

(** The sample that lines 875-885 store for a match, its serial number
    apart. *)
Definition sample_of (dp_thresh : double) (m : SEQ_T * MATCH_T) : SCORE :=
  mkScore (dsub (raw_score (snd m)) dp_thresh) (raw_seq_length (snd m))
          (raw_nhits (snd m)) (end_match (snd m) - start_match (snd m) + 1)
          (gc_around (fst m) (snd m)) 0.

Definition without_serial (x : SCORE) : SCORE :=
  mkScore (score_s x) (score_t x) (score_nhits x) (score_span x) (score_gc x) 0.

(** The samples in the reservoir of a scan, their serial numbers apart. *)
Definition sampled (st : SCAN) : list SCORE :=
  map without_serial (scores (score_set st)).

(** The state of a scan with another generator. *)
Definition set_prng (st : SCAN) (g : mt_state) : SCAN :=
  mkScan (serial_no st) (mcast_match_heap st) (score_set st) (initial_evd_set st)
         g (num_seqs st) (num_segments st) (num_matches st) (start_pos st)
         (min_pvalue_discarded st) (got_init_evd st) (events st).

(** Lines 836-1007 for the matches of a stream, one after the other. *)
Definition record_matches (dp_thresh : double) (stream : list (SEQ_T * MATCH_T))
    (st : SCAN) : SCAN :=
  fold_left (fun st m => process_match dp_thresh (fst m) (snd m) st) stream st.

End Draws.

(** The indices that line 862 computes from the numbers [us], drawn one
    for each sample from the sample after [seen] samples on. *)
Fixpoint drawn_indices (seen : Z) (us : list Q) : list Z :=
  match us with
  | [] => []
  | u :: rest => to_int (inject_Z (seen + 1) * u) :: drawn_indices (seen + 1) rest
  end.

(** All the sequences of [L] numbers of the grid 0, 1/M, ..., (M-1)/M. *)
Fixpoint draw_sequences (M L : nat) : list (list Q) :=
  match L with
  | O => [[]]
  | S l =>
      flat_map (fun us => map (fun j => us ++ [Z.of_nat j # Pos.of_nat M]) (seq 0 M))
               (draw_sequences M l)
  end.

(** In how many of these sequences of draws the samples that the scan ends
    with satisfy [P]; [samples_after us] are the samples in the reservoir
    at the end of the scan whose generator returns the numbers [us]. *)
Definition count_draws (P : list SCORE -> bool) (M L : nat)
    (samples_after : list Q -> list SCORE) : nat :=
  List.length (filter (fun us => P (samples_after us)) (draw_sequences M L)).

(** ** Concrete collaborators and inputs for the examples *)

(** Collaborators whose provisional fit of a score set yields [fit_bins]
    bins and whose synthetic fit yields [synth_bins] bins; a p-value is
    the score it is computed from. *)
Definition toy_externals (fit_bins : SCORE_SET -> Z) (synth_bins : Z) : Externals :=
  {| EVD := unit;
     calc_distr := fun score_set => mkEvdSet [] (fit_bins score_set) 0 0 (Fin 0) (Fin 0);
     evd_set_bin := fun _ _ => 0;
     evd_set_pvalue := fun score _ _ _ => score;
     mt_state := unit;
     mts_drand := fun s => (0%Q, s);
     get_seq_gc := fun _ _ => Fin 0;
     LOG_SMALL := Fin (-5000000000);
     OVERLAP_SIZE := 1000;
     allocate_mcast_match := mkMatch EmptyString 0 0 NaN NaN 0 NaN NaN NaN;
     BIG := Fin 10000000000;
     sort_array := fun l => l;
     compare_mcast_match_pvalues := fun _ _ => 0;
     compute_qvalues := fun _ pvalues _ => pvalues;
     ALPH_T := Z * Z;
     alph_dna := (4, 2);
     alph_equal := fun a b => (fst a =? fst b) && (snd a =? snd b);
     alph_size_core := fst;
     alph_size_pairs := snd;
     set_up_score_set := mkScoreSet [] 0 0 0 0 0;
     synthetic_distr :=
       fun _ _ => Finished (mkEvdSet [] synth_bins 0 0 (Fin 0) (Fin 0)) |}.

Definition toy_match (p : double) : MCAST_MATCH_T :=
  mkMatch EmptyString 0 0 (Fin 0) (Fin 0) 0 p NaN NaN.

(** A heap of three records with p-values 0.3, 0.2 and 0.1. *)
Definition heap_of_three : HEAP :=
  mkHeap 3 [toy_match (Fin (3 # 10)); toy_match (Fin (2 # 10)); toy_match (Fin (1 # 10))].

(** A heap of four records with p-values 0.4, 0.2, 0.2 and 0.1. *)
Definition heap_of_four : HEAP :=
  mkHeap 4 [toy_match (Fin (4 # 10)); toy_match (Fin (2 # 10));
            toy_match (Fin (2 # 10)); toy_match (Fin (1 # 10))].

(** A complete window of 5000 symbols with three matches, of scores 1/2,
    1/4 and 1/8. *)
Definition three_matches : list SEGMENT :=
  [mkSegment (mkSeq EmptyString 5000 0 true)
             [mkRawMatch 10 20 (Fin (1 # 2)) 11 1;
              mkRawMatch 30 40 (Fin (1 # 4)) 11 1;
              mkRawMatch 50 60 (Fin (1 # 8)) 11 1]
             5000].

(** The window alone, its first match alone, and its second match. *)
Definition toy_window : SEQ_T := mkSeq EmptyString 5000 0 true.

Definition one_match : list SEGMENT :=
  [mkSegment toy_window [mkRawMatch 10 20 (Fin (1 # 2)) 11 1] 5000].

Definition second_match : MATCH_T := mkRawMatch 30 40 (Fin (1 # 4)) 11 1.

(** A match that starts at position 0, and a match with a tiny score. *)
Definition cursor_match : MATCH_T := mkRawMatch 0 10 (Fin (1 # 2)) 11 1.

Definition tiny_match : MATCH_T := mkRawMatch 30 40 (Fin (-10000000000)) 11 1.

(** Text output only, max_stored_scores = 2, dp_thresh = 0, p_thresh = 1. *)
Definition toy_options : MCAST_OPTIONS_T := mkOptions true 2 (Fin 0) (Fin 1).

(** The same window with the scores rising: 1/8, 1/4 and 1/2. *)
Definition three_matches_rising : list SEGMENT :=
  [mkSegment (mkSeq EmptyString 5000 0 true)
             [mkRawMatch 10 20 (Fin (1 # 8)) 11 1;
              mkRawMatch 30 40 (Fin (1 # 4)) 11 1;
              mkRawMatch 50 60 (Fin (1 # 2)) 11 1]
             5000].

(** A provisional fit that succeeds at once, one that succeeds from the
    third score on, and one that never succeeds. *)
Definition early_fit : Externals := toy_externals (fun _ => 1) 1.

Definition late_fit : Externals :=
  toy_externals (fun score_set => if 3 <=? num_scores_seen score_set then 1 else 0) 1.

Definition no_fit : Externals := toy_externals (fun _ => 0) 0.

(** The collaborators of [no_fit] with a generator that returns the numbers
    of a list, one after the other. *)
Definition replayed_draws : Externals :=
  {| EVD := unit;
     calc_distr := fun _ => mkEvdSet [] 0 0 0 (Fin 0) (Fin 0);
     evd_set_bin := fun _ _ => 0;
     evd_set_pvalue := fun score _ _ _ => score;
     mt_state := list Q;
     mts_drand := fun us => match us with
                            | u :: rest => (u, rest)
                            | [] => (0%Q, [])
                            end;
     get_seq_gc := fun _ _ => Fin 0;
     LOG_SMALL := Fin (-5000000000);
     OVERLAP_SIZE := 1000;
     allocate_mcast_match := mkMatch EmptyString 0 0 NaN NaN 0 NaN NaN NaN;
     BIG := Fin 10000000000;
     sort_array := fun l => l;
     compare_mcast_match_pvalues := fun _ _ => 0;
     compute_qvalues := fun _ pvalues _ => pvalues;
     ALPH_T := Z * Z;
     alph_dna := (4, 2);
     alph_equal := fun a b => (fst a =? fst b) && (snd a =? snd b);
     alph_size_core := fst;
     alph_size_pairs := snd;
     set_up_score_set := mkScoreSet [] 0 0 0 0 0;
     synthetic_distr := fun _ _ => Finished (mkEvdSet [] 0 0 0 (Fin 0) (Fin 0)) |}.

(** A stream of four matches of the window, with the scores 1/2, 1/4, 1/8
    and 1/16. *)
Definition four_matches : list (SEQ_T * MATCH_T) :=
  [(toy_window, mkRawMatch 10 20 (Fin (1 # 2)) 11 1);
   (toy_window, mkRawMatch 30 40 (Fin (1 # 4)) 11 1);
   (toy_window, mkRawMatch 50 60 (Fin (1 # 8)) 11 1);
   (toy_window, mkRawMatch 70 80 (Fin (1 # 16)) 11 1)].

(** The scan of [mcast] for [max_stored_scores = K], a threshold of 0 and
    the given windows. *)
Definition toy_scan (X : Externals) (K : Z) (segments : list SEGMENT) (g : mt_state)
  : SCAN :=
  mcast_read_and_score 0 (Some (create_heap K)) (mkScoreSet [] 0 K 0 0 0)
                       empty_evd_set segments (Fin 0) g.

(** The heap invariant as the specification words it, with the [<=] of C. *)
Definition purged_not_below_retained {X : Externals} (st : SCAN) : Prop :=
  forall r1 r2,
    In r1 (purged (events st)) -> In r2 (retained st) ->
    dle (match_pvalue r2) (match_pvalue r1) = true.

(** Part (a) of the rule for matches at the scan cursor as the
    specification words it: whatever the window, a match that starts at
    the cursor is skipped and the cursor moves past its end. *)
Definition skipped_at_cursor {X : Externals} : Prop :=
  forall dp_thresh sequence pm more st,
    start_match pm = start_pos st ->
    find_matches dp_thresh sequence (pm :: more) st
    = find_matches dp_thresh sequence more (set_start_pos st (end_match pm + 1)).

(** A window of 5000 symbols that is not the last of its sequence, and a
    match in its trailing overlap region. *)
Definition open_window : SEQ_T := mkSeq EmptyString 5000 0 false.

Definition late_match : MATCH_T := mkRawMatch 4500 4520 (Fin (1 # 2)) 21 1.

(** The ceiling of s/2. *)
Definition ceil_half (s : nat) : nat := Nat.div (s + 1) 2.

(** The purge as the specification words it: the weakest ceiling-of-s/2
    records go first, whatever else is freed after them. *)
Definition purge_removes_ceil_half (h : HEAP) : Prop :=
  exists tied,
    purge_freed (purge_match_heap h)
    = firstn (ceil_half (List.length (node_list h))) (node_list h) ++ tied.

(** ** The invariant of the retention heap during a scan

    For a heap of capacity [K], the bar [min_pd] of line 911, the flag
    [got] of the provisional fit and the events so far. *)

Definition unset (m : MCAST_MATCH_T) : Prop := isnan (match_pvalue m) = true.

(** [later] did not rise above [earlier]. *)
Definition not_above (later earlier : double) : Prop := dlt earlier later = false.

Record retention_inv (K : Z) (h : HEAP) (min_pd : double) (got : bool)
    (evs : list EVENT) : Prop := mkRetentionInv {
  inv_capacity : max_size h = K;
  inv_ordered : heap_ordered h;
  inv_bounded : get_num_nodes h <= K;
  (* between two matches a heap of capacity >= 2 has room *)
  inv_room : 2 <= K -> get_num_nodes h < K;
  (* before the provisional fit no p-value is set *)
  inv_unset : got = false ->
              Forall unset (node_list h) /\ Forall unset (purged evs)
              /\ rescorings evs = O;
  (* no record kept is >= a record purged *)
  inv_apart : forall e d, In e (node_list h) -> In d (purged evs) ->
              dge (match_pvalue e) (match_pvalue d) = false;
  (* no record purged is below the bar *)
  inv_bar : Forall (fun d => dlt (match_pvalue d) min_pd = false) (purged evs);
  inv_small : K <= 1 -> min_pd = one /\ Forall (eq one) (purge_returns evs);
  inv_large : 2 <= K ->
              Forall (fun a => exists d, In d (purged evs) /\ match_pvalue d = a)
                     (purge_returns evs);
  inv_returns : StronglySorted not_above (purge_returns evs);
  inv_rescored : (rescorings evs <= 1)%nat
}.

(** The invariant on the state of a scan that stores its matches. *)
Definition scan_inv {X : Externals} (K : Z) (st : SCAN) : Prop :=
  exists h,
    mcast_match_heap st = Some h
    /\ retention_inv K h (min_pvalue_discarded st) (got_init_evd st) (events st).


(** The scan of the real sequences that [mcast] runs. *)
Definition real_scan {X : Externals} (options : MCAST_OPTIONS_T)
    (segments : list SEGMENT) (prng0 : mt_state) : SCAN :=
  mcast_read_and_score 0 (Some (create_heap (max_stored_scores options)))
    (set_max_scores_saved set_up_score_set (max_stored_scores options))
    empty_evd_set segments (dp_thresh options) prng0.

(** The state of a reservoir of capacity [K] that has seen [N] samples. *)
Record reservoir_state (K N : nat) (samples : list SCORE) (score_set : SCORE_SET)
  : Prop := mkReservoirState {
  rs_max : max_scores_saved score_set = Z.of_nat K;
  rs_seen : num_scores_seen score_set = Z.of_nat N;
  rs_n : n score_set = Z.of_nat (List.length (scores score_set));
  rs_size : List.length (scores score_set) = Nat.min N K;
  rs_incl : forall z, In z (scores score_set) -> In z samples;
  rs_nodup : NoDup samples -> NoDup (scores score_set)
}.

(** * The rest of [mcast.c]

    What follows covers the code of [mcast.c] around the places that the
    properties above are about: the accounting of [mcast_read_and_score],
    the rounds of [mcast_generate_synth_seq], [get_min_max_pvalue],
    [motif_num_cmp] and the loop of [read_motifs], [process_command_line],
    and the choice of the reader of the priors in [main]. *)

(** ** The accounting of the scan *)

(** The length that the windows of a scan add to [total_length] (lines
    735-737, 1040 and 1053-1055): the first window of a sequence counts in
    full, a window that continues a sequence counts without the overlap
    that it repeats.  [continued] tells whether the window before was not
    the last of its sequence. *)
Fixpoint window_lengths {X : Externals} (continued : bool) (segments : list SEGMENT)
  : Z :=
  match segments with
  | [] => 0
  | seg :: rest =>
      (seq_length (segment_seq seg) - if continued then OVERLAP_SIZE else 0)
      + window_lengths (negb (seq_is_complete (segment_seq seg))) rest
  end.

(** The score reservoir as the scan keeps it: the array is filled from
    slot 0 up to [n], never beyond its capacity; while it is not full it
    holds every score seen; its samples carry different serial numbers,
    all below the next one to be given; and [max_t] is no less than the
    length recorded with any sample. *)
Record reservoir_inv (score_set : SCORE_SET) (serial_no : Z) : Prop := mkReservoirInv {
  ri_filled : n score_set = Z.of_nat (List.length (scores score_set));
  ri_capacity : n score_set <= max_scores_saved score_set;
  ri_seen : n score_set <= num_scores_seen score_set;
  ri_all : n score_set < max_scores_saved score_set ->
           num_scores_seen score_set = n score_set;
  ri_serial : Forall (fun sc => score_serial_no sc < serial_no) (scores score_set);
  ri_distinct : NoDup (map score_serial_no (scores score_set));
  ri_max_t : Forall (fun sc => score_t sc <= max_t score_set) (scores score_set)
}.

(** ** [motif_num_cmp] (lines 415-434) *)

(** A C [int] is taken to have 32 bits.  [-i] overflows for [INT_MIN]; the
    result of the usual machines is modelled: [INT_MIN] again. *)
Definition INT_MIN : Z := -2147483648.
Definition INT_MAX : Z := 2147483647.

Definition is_int (i : Z) : Prop := INT_MIN <= i <= INT_MAX.

Definition int_neg (i : Z) : Z := if i =? INT_MIN then INT_MIN else - i.

(** The comparison of two motif numbers that orders the tree of motifs. *)
Definition motif_num_cmp (i1 i2 : Z) : Z :=
  let abs_i1 := if i1 <? 0 then int_neg i1 else i1 in
  let abs_i2 := if i2 <? 0 then int_neg i2 else i2 in
  if abs_i1 <? abs_i2 then -1              (* sort motifs ascending *)
  else if abs_i1 >? abs_i2 then 1
  else if i1 >? i2 then -1                 (* put reverse complements second *)
  else if i1 =? i2 then 0
  else 1.

(** ** The motifs of a MEME file: the loop of [read_motifs] (lines 482-517)

    The motif library (motif.c, motif-in.c) and the red-black tree
    (red-black-tree.c) are not among the sources.  A motif is modelled by
    what [read_motifs] asks of it. *)
Class MotifLibrary : Type := {
  MOTIF_T : Type;
  get_motif_length : MOTIF_T -> Z;
  set_motif_strands : MOTIF_T -> MOTIF_T;
  dup_rc_motif : MOTIF_T -> MOTIF_T        (* a copy, reverse complemented *)
}.

Section Motifs.

Context {M : MotifLibrary}.

(** The tree of motifs is modelled by the list of its nodes in the order
    of the comparison it was created with, which is the order in which
    [motif_tree_to_array] lists them; [rbtree_make] puts a node for a new
    key at its place and leaves the tree as it is when it has the key. *)
Definition RBTREE_T : Type := list (Z * MOTIF_T).

Fixpoint rbtree_make (key_compare : Z -> Z -> Z) (tree : RBTREE_T) (key : Z)
    (value : MOTIF_T) : RBTREE_T :=
  match tree with
  | [] => [(key, value)]
  | (k, v) :: rest =>
      let c := key_compare key k in
      if c <? 0 then (key, value) :: tree
      else if c =? 0 then tree
      else (k, v) :: rbtree_make key_compare rest key value
  end.

Definition motif_tree_to_array (tree : RBTREE_T) : list MOTIF_T := map snd tree.

(** The variables of the loop. *)
Record MOTIF_LOOP : Type := mkMotifLoop {
  motif_i : Z;
  rc_motif_i : Z;
  total_width : Z;
  n_skipped_total : Z;
  n_skipped_width : Z;
  motifs : RBTREE_T
}.

(** One pass of the loop of lines 483-505, for the motif that
    [mread_next_motif] returns; the counters are modelled without an upper
    bound. *)
Definition read_motif (max_total_width : Z) (st : MOTIF_LOOP) (motif : MOTIF_T)
  : MOTIF_LOOP :=
  let width := get_motif_length motif in
  if width <? 2 then
    mkMotifLoop (motif_i st + 1) (rc_motif_i st - 1) (total_width st)
                (n_skipped_total st) (n_skipped_width st + 1) (motifs st)
  else
    let total_width1 := total_width st + width in
    if (max_total_width =? -1) || (total_width1 <=? max_total_width) then
      let motif1 := set_motif_strands motif in
      let tree1 := rbtree_make motif_num_cmp (motifs st) (motif_i st) motif1 in
      let tree2 := rbtree_make motif_num_cmp tree1 (rc_motif_i st) (dup_rc_motif motif1) in
      mkMotifLoop (motif_i st + 1) (rc_motif_i st - 1) total_width1
                  (n_skipped_total st) (n_skipped_width st) tree2
    else
      mkMotifLoop (motif_i st + 1) (rc_motif_i st - 1) total_width1
                  (n_skipped_total st + 1) (n_skipped_width st) (motifs st).

Definition read_motifs_loop (max_total_width : Z) (file_motifs : list MOTIF_T)
  : MOTIF_LOOP :=
  fold_left (read_motif max_total_width) file_motifs (mkMotifLoop 1 (-1) 0 0 0 []).

(** Lines 510-516: whether the two messages about skipped motifs are
    written. *)
Definition warns_too_short (st : MOTIF_LOOP) : bool := 0 <? n_skipped_width st.

Definition warns_total_width (max_total_width : Z) (st : MOTIF_LOOP) : bool :=
  negb (max_total_width =? -1) && (max_total_width <? total_width st).

(** The MEME_FORMAT branch of [read_motifs] (lines 466-520) with the check
    of lines 540-542, over the motifs of the file and whether its alphabet
    equals the DNA alphabet: the array of motifs. *)
Definition read_meme_motifs (max_total_width : Z) (alph_is_dna : bool)
    (file_motifs : list MOTIF_T) : RUN (list MOTIF_T) :=
  if negb alph_is_dna
  then Fatal "The provided motifs don't seem to be in the DNA alphabet."
  else
    let motif_array :=
      motif_tree_to_array (motifs (read_motifs_loop max_total_width file_motifs)) in
    let num_motifs := Z.of_nat (List.length motif_array) in
    if num_motifs <=? 0 then Fatal "No valid motifs could be read"
    else Finished motif_array.

(** The motifs of the file that are wide enough, a motif with its reverse
    complement as the loop makes them, and the combined width of motifs. *)
Definition wide_enough (file_motifs : list MOTIF_T) : list MOTIF_T :=
  filter (fun motif => negb (get_motif_length motif <? 2)) file_motifs.

Definition with_reverse_complement (motif : MOTIF_T) : list MOTIF_T :=
  [set_motif_strands motif; dup_rc_motif (set_motif_strands motif)].

Definition combined_width (l : list MOTIF_T) : Z :=
  fold_right (fun motif acc => get_motif_length motif + acc) 0 l.

(** What holds of the variables of the loop once the motifs [processed]
    have been read: the numbers of the next motif and of its reverse
    complement, the widths counted, the keys of the tree, and the motifs
    kept, which are the first of the motifs that are wide enough. *)
Record motif_loop_inv (max_total_width : Z) (processed : list MOTIF_T)
    (st : MOTIF_LOOP) : Prop := mkMotifLoopInv {
  li_motif_i : motif_i st = 1 + Z.of_nat (List.length processed);
  li_rc_motif_i : rc_motif_i st = - motif_i st;
  li_total_width : total_width st = combined_width (wide_enough processed);
  li_skipped_width :
    n_skipped_width st
    = Z.of_nat (List.length processed)
      - Z.of_nat (List.length (wide_enough processed));
  li_keys : Forall (fun kv => - motif_i st < fst kv < motif_i st) (motifs st);
  li_kept :
    exists kept rest,
      wide_enough processed = kept ++ rest
      /\ motif_tree_to_array (motifs st) = flat_map with_reverse_complement kept
      /\ n_skipped_total st = Z.of_nat (List.length rest)
      /\ (max_total_width = -1 -> rest = [])
      /\ (max_total_width <> -1 -> kept <> [] ->
          combined_width kept <= max_total_width)
      /\ (forall motif rest', rest = motif :: rest' ->
          max_total_width < combined_width (kept ++ [motif]))
}.

End Motifs.

(** Motifs that are their widths, for the examples. *)
Definition toy_motifs : MotifLibrary :=
  {| MOTIF_T := Z;
     get_motif_length := fun w => Z.abs w;
     set_motif_strands := fun w => w;
     dup_rc_motif := fun w => - w |}.

(** ** [process_command_line] (lines 159-347)

    The option reader (simple-getopt.c) and the C library are not among
    the sources.  The command line is modelled by what the successive
    calls of [simple_getopt] return for it, an option with its value or an
    error, and by the arguments that are left after the options; [atoi],
    [atof] and the reading of an unsigned 32-bit number by [sscanf] are
    taken as functions of the text. *)

Class CLibrary : Type := {
  atoi : string -> Z;
  atof : string -> double;
  sscanf_u32 : string -> option Z          (* None: no number could be read *)
}.

Module CommandLine.

Inductive OUTPUT_THRESH_TYPE_T : Type := EVALUE | PVALUE | QVALUE.

(** [struct mcast_options]; a file name that is NULL is [None]. *)
Record mcast_options : Type := mkMcastOptions {
  motif_filename : option string;
  seq_filename : option string;
  output_dirname : string;
  allow_clobber : bool;
  text_only : bool;
  motif_format : MOTIF_FORMAT_T;
  max_total_width : Z;
  hard_mask : bool;
  parse_genomic_coord : bool;
  bg_filename : option string;
  psp_filename : option string;
  alpha : double;
  prior_distribution_filename : option string;
  motif_pthresh : double;
  max_gap : Z;
  output_thresh_type : OUTPUT_THRESH_TYPE_T;
  e_thresh : double;
  p_thresh : double;
  q_thresh : double;
  max_stored_scores : Z;
  seed : Z
}.

Definition set_motif_filename (o : mcast_options) (v : option string) : mcast_options :=
  mkMcastOptions v (seq_filename o) (output_dirname o) (allow_clobber o) (text_only o) (motif_format o) (max_total_width o) (hard_mask o) (parse_genomic_coord o) (bg_filename o) (psp_filename o) (alpha o) (prior_distribution_filename o) (motif_pthresh o) (max_gap o) (output_thresh_type o) (e_thresh o) (p_thresh o) (q_thresh o) (max_stored_scores o) (seed o).

Definition set_seq_filename (o : mcast_options) (v : option string) : mcast_options :=
  mkMcastOptions (motif_filename o) v (output_dirname o) (allow_clobber o) (text_only o) (motif_format o) (max_total_width o) (hard_mask o) (parse_genomic_coord o) (bg_filename o) (psp_filename o) (alpha o) (prior_distribution_filename o) (motif_pthresh o) (max_gap o) (output_thresh_type o) (e_thresh o) (p_thresh o) (q_thresh o) (max_stored_scores o) (seed o).

Definition set_output_dirname (o : mcast_options) (v : string) : mcast_options :=
  mkMcastOptions (motif_filename o) (seq_filename o) v (allow_clobber o) (text_only o) (motif_format o) (max_total_width o) (hard_mask o) (parse_genomic_coord o) (bg_filename o) (psp_filename o) (alpha o) (prior_distribution_filename o) (motif_pthresh o) (max_gap o) (output_thresh_type o) (e_thresh o) (p_thresh o) (q_thresh o) (max_stored_scores o) (seed o).

Definition set_allow_clobber (o : mcast_options) (v : bool) : mcast_options :=
  mkMcastOptions (motif_filename o) (seq_filename o) (output_dirname o) v (text_only o) (motif_format o) (max_total_width o) (hard_mask o) (parse_genomic_coord o) (bg_filename o) (psp_filename o) (alpha o) (prior_distribution_filename o) (motif_pthresh o) (max_gap o) (output_thresh_type o) (e_thresh o) (p_thresh o) (q_thresh o) (max_stored_scores o) (seed o).

Definition set_text_only (o : mcast_options) (v : bool) : mcast_options :=
  mkMcastOptions (motif_filename o) (seq_filename o) (output_dirname o) (allow_clobber o) v (motif_format o) (max_total_width o) (hard_mask o) (parse_genomic_coord o) (bg_filename o) (psp_filename o) (alpha o) (prior_distribution_filename o) (motif_pthresh o) (max_gap o) (output_thresh_type o) (e_thresh o) (p_thresh o) (q_thresh o) (max_stored_scores o) (seed o).

Definition set_motif_format (o : mcast_options) (v : MOTIF_FORMAT_T) : mcast_options :=
  mkMcastOptions (motif_filename o) (seq_filename o) (output_dirname o) (allow_clobber o) (text_only o) v (max_total_width o) (hard_mask o) (parse_genomic_coord o) (bg_filename o) (psp_filename o) (alpha o) (prior_distribution_filename o) (motif_pthresh o) (max_gap o) (output_thresh_type o) (e_thresh o) (p_thresh o) (q_thresh o) (max_stored_scores o) (seed o).

Definition set_max_total_width (o : mcast_options) (v : Z) : mcast_options :=
  mkMcastOptions (motif_filename o) (seq_filename o) (output_dirname o) (allow_clobber o) (text_only o) (motif_format o) v (hard_mask o) (parse_genomic_coord o) (bg_filename o) (psp_filename o) (alpha o) (prior_distribution_filename o) (motif_pthresh o) (max_gap o) (output_thresh_type o) (e_thresh o) (p_thresh o) (q_thresh o) (max_stored_scores o) (seed o).

Definition set_hard_mask (o : mcast_options) (v : bool) : mcast_options :=
  mkMcastOptions (motif_filename o) (seq_filename o) (output_dirname o) (allow_clobber o) (text_only o) (motif_format o) (max_total_width o) v (parse_genomic_coord o) (bg_filename o) (psp_filename o) (alpha o) (prior_distribution_filename o) (motif_pthresh o) (max_gap o) (output_thresh_type o) (e_thresh o) (p_thresh o) (q_thresh o) (max_stored_scores o) (seed o).

Definition set_parse_genomic_coord (o : mcast_options) (v : bool) : mcast_options :=
  mkMcastOptions (motif_filename o) (seq_filename o) (output_dirname o) (allow_clobber o) (text_only o) (motif_format o) (max_total_width o) (hard_mask o) v (bg_filename o) (psp_filename o) (alpha o) (prior_distribution_filename o) (motif_pthresh o) (max_gap o) (output_thresh_type o) (e_thresh o) (p_thresh o) (q_thresh o) (max_stored_scores o) (seed o).

Definition set_bg_filename (o : mcast_options) (v : option string) : mcast_options :=
  mkMcastOptions (motif_filename o) (seq_filename o) (output_dirname o) (allow_clobber o) (text_only o) (motif_format o) (max_total_width o) (hard_mask o) (parse_genomic_coord o) v (psp_filename o) (alpha o) (prior_distribution_filename o) (motif_pthresh o) (max_gap o) (output_thresh_type o) (e_thresh o) (p_thresh o) (q_thresh o) (max_stored_scores o) (seed o).

Definition set_psp_filename (o : mcast_options) (v : option string) : mcast_options :=
  mkMcastOptions (motif_filename o) (seq_filename o) (output_dirname o) (allow_clobber o) (text_only o) (motif_format o) (max_total_width o) (hard_mask o) (parse_genomic_coord o) (bg_filename o) v (alpha o) (prior_distribution_filename o) (motif_pthresh o) (max_gap o) (output_thresh_type o) (e_thresh o) (p_thresh o) (q_thresh o) (max_stored_scores o) (seed o).

Definition set_alpha (o : mcast_options) (v : double) : mcast_options :=
  mkMcastOptions (motif_filename o) (seq_filename o) (output_dirname o) (allow_clobber o) (text_only o) (motif_format o) (max_total_width o) (hard_mask o) (parse_genomic_coord o) (bg_filename o) (psp_filename o) v (prior_distribution_filename o) (motif_pthresh o) (max_gap o) (output_thresh_type o) (e_thresh o) (p_thresh o) (q_thresh o) (max_stored_scores o) (seed o).

Definition set_prior_distribution_filename (o : mcast_options) (v : option string) : mcast_options :=
  mkMcastOptions (motif_filename o) (seq_filename o) (output_dirname o) (allow_clobber o) (text_only o) (motif_format o) (max_total_width o) (hard_mask o) (parse_genomic_coord o) (bg_filename o) (psp_filename o) (alpha o) v (motif_pthresh o) (max_gap o) (output_thresh_type o) (e_thresh o) (p_thresh o) (q_thresh o) (max_stored_scores o) (seed o).

Definition set_motif_pthresh (o : mcast_options) (v : double) : mcast_options :=
  mkMcastOptions (motif_filename o) (seq_filename o) (output_dirname o) (allow_clobber o) (text_only o) (motif_format o) (max_total_width o) (hard_mask o) (parse_genomic_coord o) (bg_filename o) (psp_filename o) (alpha o) (prior_distribution_filename o) v (max_gap o) (output_thresh_type o) (e_thresh o) (p_thresh o) (q_thresh o) (max_stored_scores o) (seed o).

Definition set_max_gap (o : mcast_options) (v : Z) : mcast_options :=
  mkMcastOptions (motif_filename o) (seq_filename o) (output_dirname o) (allow_clobber o) (text_only o) (motif_format o) (max_total_width o) (hard_mask o) (parse_genomic_coord o) (bg_filename o) (psp_filename o) (alpha o) (prior_distribution_filename o) (motif_pthresh o) v (output_thresh_type o) (e_thresh o) (p_thresh o) (q_thresh o) (max_stored_scores o) (seed o).

Definition set_output_thresh_type (o : mcast_options) (v : OUTPUT_THRESH_TYPE_T) : mcast_options :=
  mkMcastOptions (motif_filename o) (seq_filename o) (output_dirname o) (allow_clobber o) (text_only o) (motif_format o) (max_total_width o) (hard_mask o) (parse_genomic_coord o) (bg_filename o) (psp_filename o) (alpha o) (prior_distribution_filename o) (motif_pthresh o) (max_gap o) v (e_thresh o) (p_thresh o) (q_thresh o) (max_stored_scores o) (seed o).

Definition set_e_thresh (o : mcast_options) (v : double) : mcast_options :=
  mkMcastOptions (motif_filename o) (seq_filename o) (output_dirname o) (allow_clobber o) (text_only o) (motif_format o) (max_total_width o) (hard_mask o) (parse_genomic_coord o) (bg_filename o) (psp_filename o) (alpha o) (prior_distribution_filename o) (motif_pthresh o) (max_gap o) (output_thresh_type o) v (p_thresh o) (q_thresh o) (max_stored_scores o) (seed o).

Definition set_p_thresh (o : mcast_options) (v : double) : mcast_options :=
  mkMcastOptions (motif_filename o) (seq_filename o) (output_dirname o) (allow_clobber o) (text_only o) (motif_format o) (max_total_width o) (hard_mask o) (parse_genomic_coord o) (bg_filename o) (psp_filename o) (alpha o) (prior_distribution_filename o) (motif_pthresh o) (max_gap o) (output_thresh_type o) (e_thresh o) v (q_thresh o) (max_stored_scores o) (seed o).

Definition set_q_thresh (o : mcast_options) (v : double) : mcast_options :=
  mkMcastOptions (motif_filename o) (seq_filename o) (output_dirname o) (allow_clobber o) (text_only o) (motif_format o) (max_total_width o) (hard_mask o) (parse_genomic_coord o) (bg_filename o) (psp_filename o) (alpha o) (prior_distribution_filename o) (motif_pthresh o) (max_gap o) (output_thresh_type o) (e_thresh o) (p_thresh o) v (max_stored_scores o) (seed o).

Definition set_max_stored_scores (o : mcast_options) (v : Z) : mcast_options :=
  mkMcastOptions (motif_filename o) (seq_filename o) (output_dirname o) (allow_clobber o) (text_only o) (motif_format o) (max_total_width o) (hard_mask o) (parse_genomic_coord o) (bg_filename o) (psp_filename o) (alpha o) (prior_distribution_filename o) (motif_pthresh o) (max_gap o) (output_thresh_type o) (e_thresh o) (p_thresh o) (q_thresh o) v (seed o).

Definition set_seed (o : mcast_options) (v : Z) : mcast_options :=
  mkMcastOptions (motif_filename o) (seq_filename o) (output_dirname o) (allow_clobber o) (text_only o) (motif_format o) (max_total_width o) (hard_mask o) (parse_genomic_coord o) (bg_filename o) (psp_filename o) (alpha o) (prior_distribution_filename o) (motif_pthresh o) (max_gap o) (output_thresh_type o) (e_thresh o) (p_thresh o) (q_thresh o) (max_stored_scores o) v.
(** How a call ends: it returns, or the program ends through [die],
    through [usage], or with the version printed and [EXIT_SUCCESS]. *)
Inductive OUTCOME (A : Type) : Type :=
| Returned (a : A)
| Died (message : string)
| UsageError (message : string)
| VersionPrinted.

Arguments Returned {A}.
Arguments Died {A}.
Arguments UsageError {A}.
Arguments VersionPrinted {A}.

(** What a call of [simple_getopt] returns before the options are
    exhausted: an option with its value (c > 0) or an error (c < 0). *)
Inductive GETOPT : Type :=
| GetoptOption (option_name option_value : string)
| GetoptError (message : string).

Definition DEFAULT_ALPHA : double := Fin 1.
Definition DEFAULT_MOTIF_PTHRESH : double := Fin (5 # 10000).
Definition DEFAULT_MAX_GAP : Z := 50.
Definition DEFAULT_OUTPUT_ETHRESH : double := Fin 10.
Definition DEFAULT_MAX_STORED_SCORES : Z := 100000.
Definition DEFAULT_SEED : Z := 0.

(** The largest finite double. *)
Definition DBL_MAX : double := Fin (inject_Z ((2 ^ 53 - 1) * 2 ^ 971)).

(** Lines 165-186. *)
Definition default_options : mcast_options :=
  mkMcastOptions None None "mcast_out" true false MEME_FORMAT (-1) false true
                 None None DEFAULT_ALPHA None DEFAULT_MOTIF_PTHRESH DEFAULT_MAX_GAP
                 EVALUE DEFAULT_OUTPUT_ETHRESH (Fin 1) (Fin 1)
                 DEFAULT_MAX_STORED_SCORES DEFAULT_SEED.

Section Options.

Context {C : CLibrary}.

Local Open Scope string_scope.

(** Lines 228-314: the value of one option goes to its variable;
    [verbosity] is the global variable of that name. *)
Definition assign_option (option_name option_value : string) (o : mcast_options)
    (verbosity : Z) : OUTCOME (mcast_options * Z) :=
  if (option_name =? "bfile") || (option_name =? "bgfile") then
    Returned (set_bg_filename o (Some option_value), verbosity)
  else if option_name =? "hardmask" then
    Returned (set_hard_mask o true, verbosity)
  else if option_name =? "max-gap" then
    let o1 := set_max_gap o (atoi option_value) in
    if (max_gap o1 <? 0)%Z then Died "max_gap must be positve!"
    else Returned (o1, verbosity)
  else if option_name =? "max-stored-scores" then
    let o1 := set_max_stored_scores o (atoi option_value) in
    if (max_stored_scores o1 <? 0)%Z then Died "max-stored-scores must be positve!"
    else Returned (o1, verbosity)
  else if option_name =? "max-total-width" then
    let o1 := set_max_total_width o (atoi option_value) in
    if (max_total_width o1 <? 1)%Z then Died "max-total-width must be positve!"
    else Returned (o1, verbosity)
  else if option_name =? "motif-pthresh" then
    let o1 := set_motif_pthresh o (atof option_value) in
    if dlt (motif_pthresh o1) (Fin 0) || dgt (motif_pthresh o1) (Fin 1)
    then Died "Motif p-value threshold must be between 0.0 and 1.0!"
    else Returned (o1, verbosity)
  else if option_name =? "o" then
    Returned (set_allow_clobber (set_output_dirname o option_value) false, verbosity)
  else if option_name =? "oc" then
    Returned (set_allow_clobber (set_output_dirname o option_value) true, verbosity)
  else if option_name =? "output-ethresh" then
    let o1 := set_e_thresh (set_output_thresh_type o EVALUE) (atof option_value) in
    if dle (e_thresh o1) (Fin 0) then Died "E-value threshold must be positve!"
    else Returned (set_q_thresh (set_p_thresh o1 (Fin 1)) (Fin 1), verbosity)
  else if option_name =? "output-pthresh" then
    let o1 := set_p_thresh (set_e_thresh (set_output_thresh_type o PVALUE) DBL_MAX)
                           (atof option_value) in
    if dlt (p_thresh o1) (Fin 0) || dgt (p_thresh o1) (Fin 1)
    then Died "p-value threshold must be between 0.0 and 1.0!"
    else Returned (set_q_thresh o1 (Fin 1), verbosity)
  else if option_name =? "alpha" then
    let o1 := set_alpha o (atof option_value) in
    if dlt (alpha o1) (Fin 0) || dgt (alpha o1) (Fin 1)
    then Died "alpha must be between 0.0 and 1.0!"
    else Returned (o1, verbosity)
  else if option_name =? "output-qthresh" then
    let o1 := set_q_thresh
                (set_p_thresh (set_e_thresh (set_output_thresh_type o QVALUE) (Fin 1))
                              (Fin 1))
                (atof option_value) in
    if dlt (q_thresh o1) (Fin 0) || dgt (q_thresh o1) (Fin 1)
    then Died "q-value threshold must be between 0.0 and 1.0!"
    else Returned (o1, verbosity)
  else if option_name =? "parse-genomic-coord" then
    Returned (set_parse_genomic_coord o true, verbosity)
  else if option_name =? "no-pgc" then
    Returned (set_parse_genomic_coord o false, verbosity)
  else if option_name =? "psp" then
    Returned (set_psp_filename o (Some option_value), verbosity)
  else if option_name =? "prior-dist" then
    Returned (set_prior_distribution_filename o (Some option_value), verbosity)
  else if option_name =? "seed" then
    match sscanf_u32 option_value with
    | Some seed => Returned (set_seed o seed, verbosity)
    | None => Died "Seed could not be interpreted as an unsigned 32bit integer"
    end
  else if option_name =? "text" then
    Returned (set_text_only o true, verbosity)
  else if option_name =? "transfac" then
    Returned (set_motif_format o TRANSFAC_FORMAT, verbosity)
  else if option_name =? "verbosity" then
    Returned (o, atoi option_value)
  else if option_name =? "version" then
    VersionPrinted
  else Returned (o, verbosity).

(** The loop of lines 216-315 over what [simple_getopt] returns. *)
Fixpoint read_options (parsed : list GETOPT) (o : mcast_options) (verbosity : Z)
  : OUTCOME (mcast_options * Z) :=
  match parsed with
  | [] => Returned (o, verbosity)
  | GetoptError message :: _ =>
      UsageError ("Error processing command line options: " ++ message)
  | GetoptOption option_name option_value :: more =>
      match assign_option option_name option_value o verbosity with
      | Returned (o1, verbosity1) => read_options more o1 verbosity1
      | stop => stop
      end
  end.

(** [process_command_line]: the options, then the two required arguments
    (lines 317-330; [arguments] are those from [argv[option_index]] on,
    none of which is NULL), then the check that the two options of the
    position specific priors come together (lines 332-346). *)
Definition process_command_line (parsed : list GETOPT) (arguments : list string)
    (verbosity : Z) : OUTCOME (mcast_options * Z) :=
  match read_options parsed default_options verbosity with
  | Returned (o, verbosity1) =>
      match arguments with
      | [motifs_argument; sequences_argument] =>
          let o1 := set_seq_filename (set_motif_filename o (Some motifs_argument))
                                     (Some sequences_argument) in
          match psp_filename o1, prior_distribution_filename o1 with
          | Some _, None =>
              Died "Setting the --psp option requires that the --prior-dist option be set as well."
          | None, Some _ =>
              Died "Setting the --prior-dist option requires that the --psp option be set as well."
          | _, _ => Returned (o1, verbosity1)
          end
      | _ => UsageError ""
      end
  | stop => stop
  end.

(** The names of the three options that set an output threshold. *)
Definition sets_threshold (item : GETOPT) : bool :=
  match item with
  | GetoptOption option_name _ =>
      (option_name =? "output-ethresh") || (option_name =? "output-pthresh")
      || (option_name =? "output-qthresh")
  | GetoptError _ => false
  end.

(** What the checks of the loop leave true of the options. *)
Definition checked_options (o : mcast_options) : Prop :=
  (0 <= max_gap o)%Z
  /\ (0 <= max_stored_scores o)%Z
  /\ (max_total_width o = -1 \/ 1 <= max_total_width o)%Z
  /\ dlt (motif_pthresh o) (Fin 0) = false /\ dgt (motif_pthresh o) (Fin 1) = false
  /\ dlt (alpha o) (Fin 0) = false /\ dgt (alpha o) (Fin 1) = false.

(** At most one output threshold is in force. *)
Definition one_threshold (o : mcast_options) : Prop :=
  match output_thresh_type o with
  | EVALUE =>
      dle (e_thresh o) (Fin 0) = false /\ p_thresh o = Fin 1 /\ q_thresh o = Fin 1
  | PVALUE =>
      e_thresh o = DBL_MAX /\ q_thresh o = Fin 1
      /\ dlt (p_thresh o) (Fin 0) = false /\ dgt (p_thresh o) (Fin 1) = false
  | QVALUE =>
      e_thresh o = Fin 1 /\ p_thresh o = Fin 1
      /\ dlt (q_thresh o) (Fin 0) = false /\ dgt (q_thresh o) (Fin 1) = false
  end.

(** What the check [e_thresh <= 0] lets through: a number above 0, or NaN,
    with which every comparison of C is false. *)
Definition nan_or_positive (a : double) : Prop :=
  a = NaN \/ exists q, a = Fin q /\ (0 < q)%Q.

(** What the check [thresh < 0 || thresh > 1] lets through: a number of
    [0, 1], or NaN. *)
Definition nan_or_in_unit (a : double) : Prop :=
  a = NaN \/ exists q, a = Fin q /\ (0 <= q)%Q /\ (q <= 1)%Q.

(** No threshold is a NaN. *)
Definition thresholds_are_numbers (o : mcast_options) : Prop :=
  isnan (e_thresh o) = false /\ isnan (p_thresh o) = false
  /\ isnan (q_thresh o) = false.

End Options.

End CommandLine.

(** A C library for the examples: every number reads as 7. *)
Definition toy_library : CLibrary :=
  {| atoi := fun _ => 7; atof := fun _ => Fin (7 # 10); sscanf_u32 := fun _ => Some 7 |}.

(** A C library whose [atof] reads every text as it reads "nan". *)
Definition nan_library : CLibrary :=
  {| atoi := fun _ => 7; atof := fun _ => NaN; sscanf_u32 := fun _ => Some 7 |}.

(** ** The rounds of [mcast_generate_synth_seq] (lines 1329-1469) *)

(** Lines 1329-1335: the smallest and the largest GC content among the
    samples of the reservoir, starting from 1 and 0. *)
Definition gc_range (score_set : SCORE_SET) : double * double :=
  fold_left
    (fun range sc =>
       let gc := score_gc sc in
       let min_gc := if dlt gc (fst range) then gc else fst range in
       let max_gc := if dgt gc (snd range) then gc else snd range in
       (min_gc, max_gc))
    (saved_scores score_set) (Fin 1, Fin 0).

(** Lines 1353-1356: the indices of the four symbols, from the index of
    the complement of a symbol. *)
Definition complement_indices (alph_complement : Z -> Z) : Z * Z * Z * Z :=
  let idx_A := 0 in
  let idx_T := alph_complement idx_A in
  let idx_C := if negb (idx_T =? 1) then 1 else 2 in
  let idx_G := alph_complement idx_C in
  (idx_A, idx_T, idx_C, idx_G).

(** What the rounds use besides the collaborators of the scan: the
    score set that [set_up_score_set] makes for negative examples; for a
    GC content and a state of the generator, the windows in which the
    reader delivers the sequence that [gendb] writes, with the state of
    the generator after [gendb]; and whether [fopen] fails in a round. *)
Class SynthLibrary (X : Externals) : Type := {
  set_up_synth_score_set : SCORE_SET;
  synth_windows : double -> mt_state -> list SEGMENT * mt_state;
  fopen_fails : Z -> bool
}.

Section Synth.

Context {X : Externals} {Y : SynthLibrary X}.

Definition want : double := Fin 100000.       (* 1e5 *)
Definition seqlen : Z := 1000000.             (* 1e6 *)
Definition maxbp : double := Fin 1000000000.  (* 1e9 *)
Definition min_rounds : double := Fin 100.
Definition max_rounds : double := ddiv maxbp (of_int seqlen).

(** The variables of the loop; [gave_up] tells that the message "Giving up
    generating random sequences" was written, [last_returned] is the value
    that the scan of the round returned. *)
Record SYNTH_LOOP : Type := mkSynthLoop {
  round : Z;
  synth_score_set : SCORE_SET;
  synth_evd_set : EVD_SET EVD;
  synth_serial_no : Z;
  synth_prng : mt_state;
  db_size : double;
  found : Z;
  gave_up : bool;
  last_returned : double
}.

(** One pass of the loop of lines 1377-1469: the variables afterwards and
    whether the loop is left through a [break]. *)
Definition synth_round (dp_thresh min_gc max_gc : double) (s : SYNTH_LOOP)
  : RUN (SYNTH_LOOP * bool) :=
  if fopen_fails (round s)
  then Fatal "Unable to create file for random sequences"
  else
    let (u, prng1) := mts_drand (synth_prng s) in
    let gc := dadd min_gc (dmul (Fin u) (dsub max_gc min_gc)) in
    let (windows, prng2) := synth_windows gc prng1 in
    let db_size1 := dadd (db_size s) (of_int seqlen) in
    let st := mcast_read_and_score (synth_serial_no s) None (synth_score_set s)
                                   (synth_evd_set s) windows dp_thresh prng2 in
    let found1 := num_scores_seen (score_set st) in
    let after gave_up1 round1 :=
      mkSynthLoop round1 (score_set st) (initial_evd_set st) (serial_no st) (prng st)
                  db_size1 found1 gave_up1 (min_pvalue_discarded st) in
    if dge (of_int (round s)) min_rounds && dge (of_int found1) want
    then Finished (after false (round s), true)
    else if (10 <=? round s)
            && dlt (ddiv (of_int found1) want) (ddiv (of_int (round s)) max_rounds)
    then Finished (after true (round s), true)
    else Finished (after false (round s + 1), false).

(** The loop [while (round <= max_rounds)]; [None] when [passes] passes
    do not get to its end. *)
Fixpoint synth_loop (passes : nat) (dp_thresh min_gc max_gc : double) (s : SYNTH_LOOP)
  : option (RUN SYNTH_LOOP) :=
  match passes with
  | O => None
  | S passes' =>
      if dle (of_int (round s)) max_rounds then
        match synth_round dp_thresh min_gc max_gc s with
        | Fatal message => Some (Fatal message)
        | Finished (s1, true) => Some (Finished s1)
        | Finished (s1, false) => synth_loop passes' dp_thresh min_gc max_gc s1
        end
      else Some (Finished s)
  end.

(** Lines 1329-1335 and 1362-1469 of [mcast_generate_synth_seq]: the range
    of the GC contents, the score set for the random sequences with its
    capacity set, and the loop from round 1. *)
Definition synth_rounds (passes : nat) (score_set : SCORE_SET) (dp_thresh : double)
    (max_stored_scores : Z) (prng : mt_state) : option (RUN SYNTH_LOOP) :=
  let (min_gc, max_gc) := gc_range score_set in
  synth_loop passes dp_thresh min_gc max_gc
    (mkSynthLoop 1 (set_max_scores_saved set_up_synth_score_set max_stored_scores)
                 empty_evd_set 0 prng (Fin 0) 0 false (Fin 1)).

End Synth.

(** Random sequences for the examples: one window with one match in every
    round. *)
Definition toy_synth (X : Externals) : SynthLibrary X :=
  {| set_up_synth_score_set := mkScoreSet [] 0 0 0 0 0;
     synth_windows := fun _ g =>
       ([mkSegment (mkSeq EmptyString 5000 0 true)
                   [mkRawMatch 10 20 (Fin (1 # 2)) 11 1] 5000], g);
     fopen_fails := fun _ => false |}.

(** ** [get_min_max_pvalue] (lines 1177-1205) *)

(** The macros MAX and MIN of macros.h, which is not among the sources,
    taken as the usual ones: [a > b ? a : b] and [a < b ? a : b]. *)
Definition MAX (a b : double) : double := if dgt a b then a else b.
Definition MIN (a b : double) : double := if dlt a b then a else b.

(** [max_pvalues[gc_bin] = MAX(pvalue, max_pvalues[gc_bin])]; [None] when
    the index is outside the array. *)
Fixpoint raise_max_pvalue (max_pvalues : list double) (gc_bin : nat) (pvalue : double)
  : option (list double) :=
  match max_pvalues, gc_bin with
  | [], _ => None
  | x :: rest, O => Some (MAX pvalue x :: rest)
  | x :: rest, S b => option_map (cons x) (raise_max_pvalue rest b pvalue)
  end.

(** The minimum over the GC bins of the maximum p-value of the matches of
    the bin; [None] when the GC bin of a match is not a bin of the EVD
    set, where the C code writes outside its array. *)
Definition get_min_max_pvalue {EVD : Type} (evd_set : EVD_SET EVD)
    (mcast_matches : list MCAST_MATCH_T) : option double :=
  let num_gc_bins := evd_n evd_set in
  let max_pvalues0 := repeat (Fin 0) (Z.to_nat num_gc_bins) in
  let max_pvalues :=
    fold_left
      (fun array m =>
         match array with
         | Some a =>
             if match_gc_bin m <? 0 then None
             else raise_max_pvalue a (Z.to_nat (match_gc_bin m)) (match_pvalue m)
         | None => None
         end)
      mcast_matches (Some max_pvalues0) in
  option_map (fun a => fold_left (fun min_max_pvalue x => MIN x min_max_pvalue) a (Fin 1))
             max_pvalues.

(** What holds of the entry [v] of bin [b] once the matches [done] have
    been looked at: it is a number, not below 0, no match of the bin has a
    p-value above it, and it is 0 or the p-value of a match of the bin. *)
Definition bin_maximum (done : list MCAST_MATCH_T) (b : nat) (v : double) : Prop :=
  isnan v = false
  /\ dlt v (Fin 0) = false
  /\ (forall m, In m done -> match_gc_bin m = Z.of_nat b ->
                dgt (match_pvalue m) v = false)
  /\ (v = Fin 0
      \/ exists m, In m done /\ match_gc_bin m = Z.of_nat b /\ match_pvalue m = v).

(** ** The reader of the priors in [main] (lines 1806-1819) *)

Inductive PRIOR_READER : Type :=
| NoPriorReader                   (* psp_reader stays NULL *)
| PriorReaderFromWig              (* new_prior_reader_from_wig *)
| PriorReaderFromPsp.             (* new_prior_reader_from_psp *)

(** [strcmp(psp_filename + len - 4, ".wig") == 0] compares what follows
    the first len - 4 characters of the name; for a name of less than 4
    characters it starts before the name, which C leaves undefined
    ([None]). *)
Definition choose_prior_reader (psp_filename prior_distribution_filename : option string)
  : option PRIOR_READER :=
  match psp_filename, prior_distribution_filename with
  | Some psp, Some _ =>
      let len := String.length psp in
      if (len <? 4)%nat then None
      else if (substring (len - 4) 4 psp =? ".wig")%string
           then Some PriorReaderFromWig
           else Some PriorReaderFromPsp
  | _, _ => Some NoPriorReader
  end.

(** ** The matched sequence and its flanks (lines 949-962) *)

Definition preferred_flank_size : Z := 10.

(** [strncpy(dst, raw_seq + from, count)] followed by [dst[count] = 0], for
    a destination of [count + 1] characters: the [count] characters of
    [raw_seq] from [from] on, or those there are.  Outside the string, and
    for a negative count, C leaves the copy undefined ([None]). *)
Definition strncpy_from (raw_seq : string) (from count : Z) : option string :=
  if (from <? 0) || (Z.of_nat (String.length raw_seq) <? from) || (count <? 0)
  then None
  else Some (substring (Z.to_nat from) (Z.to_nat count) raw_seq).

(** The left flank, the matched sequence and the right flank of a match.
    [seq_length] is a [size_t], taken to have 64 bits, so that
    [seq_length - end_match - 2] is computed without sign. *)
Definition match_with_flanks (raw_seq : string) (seq_length start_match end_match : Z)
  : option (string * string * string) :=
  let match_length := end_match - start_match + 1 in
  let lflank_length :=
    if start_match - 1 >=? preferred_flank_size then preferred_flank_size
    else start_match - 1 in
  let unsigned_rest := (seq_length - end_match - 2) mod 2 ^ 64 in
  let rflank_length :=
    if unsigned_rest >=? preferred_flank_size then preferred_flank_size
    else unsigned_rest in
  match strncpy_from raw_seq start_match match_length,
        strncpy_from raw_seq (start_match - lflank_length) lflank_length,
        strncpy_from raw_seq (end_match + 1) rflank_length with
  | Some match_seq, Some lflank_seq, Some rflank_seq =>
      Some (lflank_seq, match_seq, rflank_seq)
  | _, _, _ => None
  end.

(** ** From the command line to the scan *)

(** What identifies a match: where it is and what it scored. *)
Definition match_site (m : MCAST_MATCH_T) : string * Z * Z * double * double :=
  (match_seq_name m, match_start m, match_stop m, match_score m, match_gc m).

(** The options as [mcast] uses them, from the options of the command
    line: text_only and p_thresh as
    [build_scan_options_from_mcast_options] copies them (lines 395 and
    401), max_stored_scores, and the dp_thresh that [mcast] computes from
    the HMM (lines 1543-1563). *)
Definition options_of_command_line (o : CommandLine.mcast_options) (dp_thresh : double)
  : MCAST_OPTIONS_T :=
  mkOptions (CommandLine.text_only o) (CommandLine.max_stored_scores o) dp_thresh
            (CommandLine.p_thresh o).

(** * Properties *)

(** ** The order of doubles *)

Lemma more_significant_refl a : more_significant a a = true.
Proof.
  destruct a as [|x]; simpl; auto.
  apply Qle_bool_iff. apply Qle_refl.
Qed.

Lemma more_significant_trans a b c :
  more_significant a b = true -> more_significant b c = true ->
  more_significant a c = true.
Proof.
  destruct a as [|x], b as [|y], c as [|z]; simpl; auto; try discriminate.
  rewrite !Qle_bool_iff. intros. eapply Qle_trans; eauto.
Qed.

Lemma more_significant_total a b :
  more_significant a b = false -> more_significant b a = true.
Proof.
  destruct a as [|x], b as [|y]; simpl; auto; try discriminate.
  intros H. apply Qle_bool_iff.
  destruct (Qlt_le_dec y x) as [Hlt|Hle].
  - apply Qlt_le_weak; assumption.
  - apply Qle_bool_iff in Hle. congruence.
Qed.

Lemma dge_more_significant a b : dge a b = true -> more_significant b a = true.
Proof.
  unfold dge, dle. destruct b as [|y], a as [|x]; simpl; auto; discriminate.
Qed.

(** A record at least as significant as one that is not [>=] the bound is
    not [>=] the bound either. *)
Lemma dge_false_below a b m :
  more_significant a b = true -> dge b m = false -> dge a m = false.
Proof.
  unfold dge, dle.
  destruct a as [|x], b as [|y], m as [|z]; simpl; auto; try discriminate.
  intros Hab Hb.
  destruct (Qle_bool z x) eqn:E; auto.
  apply Qle_bool_iff in Hab, E.
  assert (Hzy : (z <= y)%Q) by (eapply Qle_trans; eauto).
  apply Qle_bool_iff in Hzy. congruence.
Qed.

(** [a < b] and [b <= c] give [a < c]: when [a] is not [>= b] and [c] is,
    [a] is not [>= c]. *)
Lemma dge_false_trans a b c :
  dge a b = false -> dge c b = true -> dge a c = false.
Proof.
  unfold dge, dle.
  destruct a as [|x], b as [|y], c as [|z]; simpl; auto; try discriminate.
  intros Hab Hcb.
  destruct (Qle_bool z x) eqn:E; auto.
  apply Qle_bool_iff in Hcb, E.
  assert (Hyx : (y <= x)%Q) by (eapply Qle_trans; eauto).
  apply Qle_bool_iff in Hyx. congruence.
Qed.

Lemma dge_false_dlt a b : dge a b = false -> dlt b a = false.
Proof.
  unfold dlt, dge, dle. destruct a as [|x], b as [|y]; simpl; auto.
  intros H.
  destruct (Qle_bool x y) eqn:E; auto. exfalso.
  destruct (Qlt_le_dec x y) as [Hlt|Hle].
  - apply Qlt_le_weak, Qle_bool_iff in Hlt. congruence.
  - apply Qle_bool_iff in Hle. congruence.
Qed.

(** ** The heap *)

Lemma insert_node_perm m nodes : Permutation (insert_node m nodes) (m :: nodes).
Proof.
  induction nodes as [|x rest IH]; simpl; auto.
  destruct (more_significant (match_pvalue m) (match_pvalue x)); auto.
  eapply perm_trans; [apply perm_skip, IH | apply perm_swap].
Qed.

Lemma insert_node_length m nodes :
  List.length (insert_node m nodes) = S (List.length nodes).
Proof. exact (Permutation_length (insert_node_perm m nodes)). Qed.

Lemma insert_node_sorted m nodes :
  StronglySorted weaker_first nodes -> StronglySorted weaker_first (insert_node m nodes).
Proof.
  induction 1 as [|x rest Hs IH Hall]; simpl.
  - constructor; constructor.
  - destruct (more_significant (match_pvalue m) (match_pvalue x)) eqn:E.
    + constructor; auto.
      eapply Permutation_Forall.
      * symmetry. apply insert_node_perm.
      * constructor; auto.
    + apply more_significant_total in E.
      constructor.
      * constructor; auto.
      * constructor; [exact E|].
        eapply Forall_impl; [|exact Hall].
        intros y Hy. unfold weaker_first in *.
        eapply more_significant_trans; eauto.
Qed.

Lemma add_node_heap_ordered h m : heap_ordered h -> heap_ordered (add_node_heap h m).
Proof.
  unfold heap_ordered, add_node_heap. intros Hs.
  destruct (get_num_nodes h <? max_size h); simpl.
  - apply insert_node_sorted; assumption.
  - destruct (node_list h) as [|root rest] eqn:E; [rewrite E; assumption|].
    destruct (more_significant (match_pvalue root) (match_pvalue m)).
    + rewrite E; assumption.
    + simpl. apply insert_node_sorted. inversion Hs; assumption.
Qed.

Lemma add_node_heap_max_size h m : max_size (add_node_heap h m) = max_size h.
Proof.
  unfold add_node_heap.
  destruct (get_num_nodes h <? max_size h); auto.
  destruct (node_list h); auto.
  destruct (more_significant _ _); auto.
Qed.

(** The bounded heap never exceeds its capacity. *)
Lemma add_node_heap_bounded h m :
  0 <= max_size h -> get_num_nodes h <= max_size h ->
  get_num_nodes (add_node_heap h m) <= max_size h.
Proof.
  unfold add_node_heap, get_num_nodes. intros H0 Hle.
  destruct (Z.ltb_spec (Z.of_nat (List.length (node_list h))) (max_size h)); simpl.
  - rewrite insert_node_length. lia.
  - destruct (node_list h) as [|root rest] eqn:E; [rewrite E; simpl in *; lia|].
    destruct (more_significant _ _).
    + rewrite E. exact Hle.
    + simpl. rewrite insert_node_length. simpl in Hle. lia.
Qed.

(** A heap with room holds the new node with the nodes it held. *)
Lemma add_node_heap_room h m :
  get_num_nodes h < max_size h ->
  Permutation (node_list (add_node_heap h m)) (m :: node_list h).
Proof.
  unfold add_node_heap. intros H.
  apply Z.ltb_lt in H. rewrite H. simpl. apply insert_node_perm.
Qed.

(** Every node of the heap after an insertion is the new node or was in
    the heap. *)
Lemma add_node_heap_incl h m x :
  In x (node_list (add_node_heap h m)) -> x = m \/ In x (node_list h).
Proof.
  unfold add_node_heap.
  destruct (get_num_nodes h <? max_size h); simpl.
  - intros H. apply (Permutation_in _ (insert_node_perm m _)) in H.
    destruct H; auto.
  - destruct (node_list h) as [|root rest] eqn:E; [rewrite E; auto|].
    destruct (more_significant _ _); [rewrite E; auto|].
    simpl. intros H. apply (Permutation_in _ (insert_node_perm m _)) in H.
    destruct H; simpl; auto.
Qed.

(** ** purge_match_heap *)

Lemma last_cons_default {A} (x : A) l d d' : last (x :: l) d = last (x :: l) d'.
Proof.
  revert x. induction l as [|y l IH]; intros x; [reflexivity|].
  change (last (y :: l) d = last (y :: l) d'). apply IH.
Qed.

Lemma delete_bottom_half_spec count : forall h init,
  (count <= List.length (node_list h))%nat ->
  let r := delete_bottom_half count h init in
  purge_freed r = firstn count (node_list h)
  /\ node_list (purge_heap r) = skipn count (node_list h)
  /\ max_size (purge_heap r) = max_size h
  /\ purge_min_pvalue_discarded r
     = last (map match_pvalue (firstn count (node_list h))) init.
Proof.
  induction count as [|c IH]; intros h init Hle; simpl.
  - auto.
  - destruct h as [mx nodes]. unfold pop_heap_root. simpl in *.
    destruct nodes as [|v rest]; simpl in *; [lia|].
    specialize (IH (mkHeap mx rest) (get_mcast_match_pvalue v)).
    simpl in IH. destruct IH as (Hf & Hn & Hm & Hp); [lia|].
    repeat split; auto.
    + rewrite Hf. reflexivity.
    + rewrite Hp. unfold get_mcast_match_pvalue.
      destruct (firstn c rest) as [|w l]; [reflexivity|].
      change (last (map match_pvalue (w :: l)) (match_pvalue v)
              = last (map match_pvalue (w :: l)) init).
      apply last_cons_default.
Qed.

Lemma delete_tied_spec nodes m :
  let (freed, kept) := delete_tied nodes m in
  nodes = freed ++ kept
  /\ Forall (fun v => dge (match_pvalue v) m = true) freed
  /\ match kept with
     | [] => True
     | root :: _ => dge (match_pvalue root) m = false
     end.
Proof.
  induction nodes as [|v rest IH]; simpl.
  - auto.
  - unfold get_mcast_match_pvalue.
    destruct (dge (match_pvalue v) m) eqn:E.
    + destruct (delete_tied rest m) as [freed kept].
      destruct IH as (Hn & Hf & Hk). subst rest. auto.
    + simpl. auto.
Qed.

Lemma StronglySorted_app {A} (R : A -> A -> Prop) l1 l2 :
  StronglySorted R (l1 ++ l2) ->
  StronglySorted R l1 /\ StronglySorted R l2
  /\ (forall x y, In x l1 -> In y l2 -> R x y).
Proof.
  induction l1 as [|a l1 IH]; simpl; intros H.
  - repeat split; auto. constructor. intros x y [].
  - inversion H as [|? ? Hs Hall]; subst.
    destruct (IH Hs) as (H1 & H2 & H3).
    apply Forall_app in Hall. destruct Hall as [Ha1 Ha2].
    repeat split; auto.
    + constructor; auto.
    + intros x y [->|Hx] Hy.
      * rewrite Forall_forall in Ha2. auto.
      * auto.
Qed.

Lemma last_in {A} (l : list A) x d : In (last (x :: l) d) (x :: l).
Proof.
  revert x. induction l as [|y l IH]; intros x.
  - left; reflexivity.
  - right. apply (IH y).
Qed.

(** In a sorted list, the last element is at least as significant as every element. *)
Lemma sorted_last_least l x d :
  StronglySorted weaker_first (x :: l) ->
  Forall (fun v => more_significant (match_pvalue (last (x :: l) d)) (match_pvalue v) = true)
         (x :: l).
Proof.
  revert x. induction l as [|y l IH]; intros x H.
  - constructor; [apply more_significant_refl | constructor].
  - inversion H as [|? ? Hs Hall]; subst.
    specialize (IH y Hs).
    change (last (x :: y :: l) d) with (last (y :: l) d).
    constructor; auto.
    rewrite Forall_forall in Hall. apply Hall. apply last_in.
Qed.

Lemma half_to_nat (s : nat) : Z.to_nat (Z.quot (Z.of_nat s) 2) = Nat.div s 2.
Proof.
  rewrite Z.quot_div_nonneg by lia.
  change 2 with (Z.of_nat 2). rewrite <- Nat2Z.inj_div. apply Nat2Z.id.
Qed.

Lemma last_map {A B} (f : A -> B) l x d : last (map f (x :: l)) d = f (last (x :: l) x).
Proof.
  revert x. induction l as [|y l IH]; intros x; [reflexivity|].
  change (last (map f (y :: l)) d = f (last (y :: l) x)).
  rewrite IH. f_equal. apply last_cons_default.
Qed.

(** What a purge does to a heap in pop order. *)
Lemma purge_match_heap_outcome (h : HEAP) :
  heap_ordered h ->
  let nodes := node_list h in
  let k := Nat.div (List.length nodes) 2 in
  let r := purge_match_heap h in
  let m := purge_min_pvalue_discarded r in
  exists tied,
    purge_freed r = firstn k nodes ++ tied
    /\ nodes = purge_freed r ++ node_list (purge_heap r)
    /\ m = last (map match_pvalue (firstn k nodes)) one
    /\ Forall (fun v => dge (match_pvalue v) m = true) tied
    /\ Forall (fun e => dge (match_pvalue e) m = false) (node_list (purge_heap r))
    /\ (forall v e, In v (purge_freed r) -> In e (node_list (purge_heap r)) ->
        more_significant (match_pvalue e) (match_pvalue v) = true)
    /\ Forall (fun v => more_significant m (match_pvalue v) = true) (purge_freed r)
    /\ ((2 <= List.length nodes)%nat -> In m (map match_pvalue (purge_freed r))).
Proof.
  intros Hs nodes k r m.
  unfold heap_ordered in Hs. fold nodes in Hs.
  assert (Hk : (k <= List.length nodes)%nat).
  { subst k. apply Nat.Div0.div_le_upper_bound. lia. }
  pose proof (delete_bottom_half_spec k h one Hk) as Hb. simpl in Hb.
  destruct Hb as (Hf & Hn & Hm & Hp).
  subst r m. unfold purge_match_heap, num_matches_to_delete, get_num_nodes in *.
  fold nodes in Hf, Hn, Hp |- *.
  rewrite half_to_nat. fold k.
  set (first := delete_bottom_half k h one) in *.
  pose proof (delete_tied_spec (node_list (purge_heap first))
                               (purge_min_pvalue_discarded first)) as Ht.
  destruct (delete_tied (node_list (purge_heap first))
                        (purge_min_pvalue_discarded first)) as [tied kept].
  destruct Ht as (Hsplit & Htied & Hroot). simpl.
  rewrite Hn in Hsplit.
  assert (Hnodes : nodes = firstn k nodes ++ tied ++ kept).
  { rewrite <- Hsplit. symmetry. apply firstn_skipn. }
  rewrite Hnodes in Hs.
  apply StronglySorted_app in Hs. destruct Hs as (Hs1 & Hs23 & Hx1).
  apply StronglySorted_app in Hs23. destruct Hs23 as (Hs2 & Hs3 & Hx2).
  exists tied. rewrite Hf.
  assert (Hkept : Forall (fun e => dge (match_pvalue e) (purge_min_pvalue_discarded first) = false) kept).
  { destruct kept as [|root kept']; [constructor|].
    constructor; [exact Hroot|].
    inversion Hs3 as [|? ? _ Hall]; subst.
    eapply Forall_impl; [|exact Hall].
    intros e He. eapply dge_false_below; eauto. }
  repeat split; auto.
  - rewrite <- app_assoc. exact Hnodes.
  - intros v e Hv He. apply in_app_or in Hv. destruct Hv as [Hv|Hv].
    + apply (Hx1 v e); auto. apply in_or_app; auto.
    + apply (Hx2 v e); auto.
  - rewrite Hp. apply Forall_app. split.
    + destruct (firstn k nodes) as [|x l] eqn:E; [constructor|].
      rewrite (last_map match_pvalue l x one).
      apply sorted_last_least. exact Hs1.
    + eapply Forall_impl; [|exact Htied].
      intros v Hv. apply dge_more_significant. rewrite <- Hp. exact Hv.
  - intros Htwo. rewrite Hp. rewrite map_app. apply in_or_app. left.
    destruct (firstn k nodes) as [|x l] eqn:E.
    + exfalso. assert (Hlen : List.length (firstn k nodes) = k) by (apply firstn_length_le; exact Hk).
      rewrite E in Hlen. simpl in Hlen.
      assert (1 <= k)%nat by (subst k; apply Nat.div_le_lower_bound; lia). lia.
    + rewrite (last_map match_pvalue l x one). apply in_map. apply last_in.
Qed.

(** C1 (amended): on a heap of s records in pop order, purge_match_heap
    first frees exactly the floor(s/2) weakest records, then keeps freeing
    the root while its p-value is >= the p-value of the last record freed
    in the first phase (1.0 when s < 2), and returns that value.  Every
    record kept is not >= the value returned and at least as significant as
    every record freed; the value returned is, in the order of the heap,
    at or below the p-value of every freed record, and when s >= 2 it is
    the p-value of one of them: the minimum discarded. *)
Theorem purge_match_heap_floor_half (h : HEAP) :
  heap_ordered h ->
  let nodes := node_list h in
  let k := Nat.div (List.length nodes) 2 in
  let r := purge_match_heap h in
  let m := purge_min_pvalue_discarded r in
  exists tied,
    purge_freed r = firstn k nodes ++ tied
    /\ nodes = purge_freed r ++ node_list (purge_heap r)
    /\ m = last (map match_pvalue (firstn k nodes)) one
    /\ Forall (fun v => dge (match_pvalue v) m = true) tied
    /\ Forall (fun e => dge (match_pvalue e) m = false) (node_list (purge_heap r))
    /\ (forall v e, In v (purge_freed r) -> In e (node_list (purge_heap r)) ->
        more_significant (match_pvalue e) (match_pvalue v) = true)
    /\ Forall (fun v => more_significant m (match_pvalue v) = true) (purge_freed r)
    /\ ((2 <= List.length nodes)%nat -> In m (map match_pvalue (purge_freed r))).
Proof. exact (purge_match_heap_outcome h). Qed.

Lemma purge_match_heap_floor_half_witness :
  let h := heap_of_four in
  let nodes := node_list h in
  let k := Nat.div (List.length nodes) 2 in
  let r := purge_match_heap h in
  let m := purge_min_pvalue_discarded r in
  exists tied,
    purge_freed r = firstn k nodes ++ tied
    /\ nodes = purge_freed r ++ node_list (purge_heap r)
    /\ m = last (map match_pvalue (firstn k nodes)) one
    /\ Forall (fun v => dge (match_pvalue v) m = true) tied
    /\ Forall (fun e => dge (match_pvalue e) m = false) (node_list (purge_heap r))
    /\ (forall v e, In v (purge_freed r) -> In e (node_list (purge_heap r)) ->
        more_significant (match_pvalue e) (match_pvalue v) = true)
    /\ Forall (fun v => more_significant m (match_pvalue v) = true) (purge_freed r)
    /\ ((2 <= List.length nodes)%nat -> In m (map match_pvalue (purge_freed r))).
Proof.
  apply (purge_match_heap_floor_half heap_of_four).
  unfold heap_ordered, heap_of_four, weaker_first; simpl.
  repeat (constructor; try reflexivity).
Defined.

(** C1 as stated fails: of the three records of [heap_of_three] the purge
    frees one, the weakest, and not the two that the ceiling of 3/2 asks
    for. *)
Lemma purge_ceil_half_counterexample :
  heap_ordered heap_of_three
  /\ List.length (purge_freed (purge_match_heap heap_of_three)) = 1%nat
  /\ ~ purge_removes_ceil_half heap_of_three.
Proof.
  split; [|split].
  - unfold heap_ordered, heap_of_three, weaker_first; simpl.
    repeat (constructor; try reflexivity).
  - reflexivity.
  - intros [tied H]. vm_compute in H. discriminate H.
Qed.

Lemma more_significant_dlt a b : more_significant b a = true -> dlt a b = false.
Proof.
  unfold dlt. destruct a as [|x], b as [|y]; simpl; auto.
  intros H. rewrite H. reflexivity.
Qed.

(** A p-value that passes the test of line 911 is not [>=] the p-value of a
    record that is not below the bar. *)
Lemma passes_bar_apart p m d :
  dlt p m || isnan p = true -> dlt d m = false -> dge p d = false.
Proof.
  unfold dlt, dge, dle, isnan.
  destruct p as [|x], m as [|y], d as [|z]; simpl; auto; try discriminate.
  rewrite orb_false_r. intros Hp Hd.
  apply negb_true_iff in Hp. apply negb_false_iff in Hd.
  destruct (Qle_bool z x) eqn:E; auto.
  apply Qle_bool_iff in Hd, E.
  assert (Hyx : (y <= x)%Q) by (eapply Qle_trans; eauto).
  apply Qle_bool_iff in Hyx. congruence.
Qed.

Lemma kept_apart_freed pe b pv :
  more_significant pe b = true -> dge pe b = false ->
  more_significant b pv = true -> dge pe pv = false.
Proof.
  unfold dge, dle.
  destruct pe as [|x], b as [|y], pv as [|z]; simpl; auto; try discriminate.
  intros _ Hxy Hyz.
  destruct (Qle_bool z x) eqn:E; auto.
  apply Qle_bool_iff in Hyz, E.
  assert (Hyx : (y <= x)%Q) by (eapply Qle_trans; eauto).
  apply Qle_bool_iff in Hyx. congruence.
Qed.

Lemma purge_match_heap_max_size h :
  max_size (purge_heap (purge_match_heap h)) = max_size h.
Proof.
  unfold purge_match_heap.
  assert (Hk : (Z.to_nat (num_matches_to_delete h) <= List.length (node_list h))%nat).
  { unfold num_matches_to_delete, get_num_nodes. rewrite half_to_nat.
    apply Nat.Div0.div_le_upper_bound. lia. }
  pose proof (delete_bottom_half_spec _ h one Hk) as Hb. simpl in Hb.
  destruct Hb as (_ & _ & Hm & _).
  destruct (delete_tied _ _). simpl. exact Hm.
Qed.

(** No record kept by a purge is [>=] a record that it frees. *)
Lemma purge_match_heap_separates h v e :
  heap_ordered h ->
  In v (purge_freed (purge_match_heap h)) ->
  In e (node_list (purge_heap (purge_match_heap h))) ->
  dge (match_pvalue e) (match_pvalue v) = false.
Proof.
  intros Hs Hv He.
  destruct (purge_match_heap_outcome h Hs)
    as (tied & Hfreed & Hnodes & Hm & Htied & Hkept & Hord & Hleast & _).
  rewrite Forall_forall in Htied, Hkept, Hleast.
  rewrite Hfreed in Hv. apply in_app_or in Hv. destruct Hv as [Hv|Hv].
  - destruct (firstn (List.length (node_list h) / 2) (node_list h)) as [|x l] eqn:E;
      [contradiction|].
    rewrite (last_map match_pvalue l x one) in Hm.
    assert (Hlast : In (last (x :: l) x) (purge_freed (purge_match_heap h))).
    { rewrite Hfreed. apply in_or_app. left. apply last_in. }
    apply kept_apart_freed with (b := purge_min_pvalue_discarded (purge_match_heap h)).
    + rewrite Hm. apply Hord; assumption.
    + apply Hkept; assumption.
    + apply Hleast. rewrite Hfreed. apply in_or_app. left. exact Hv.
  - eapply dge_false_trans; [apply Hkept; exact He | apply Htied; exact Hv].
Qed.

(** ** The retention invariant through a purge, an insertion and a fit *)

Lemma retention_inv_init K got : 0 <= K -> retention_inv K (create_heap K) one got [].
Proof.
  intros HK. constructor; simpl; auto.
  - constructor.
  - unfold get_num_nodes; simpl; lia.
  - unfold get_num_nodes; simpl; lia.
  - constructor.
Qed.

Lemma purge_heap_suffix h :
  heap_ordered h ->
  heap_ordered (purge_heap (purge_match_heap h))
  /\ (List.length (node_list (purge_heap (purge_match_heap h)))
      <= List.length (node_list h))%nat
  /\ (forall x, In x (node_list (purge_heap (purge_match_heap h))) ->
                In x (node_list h))
  /\ (forall x, In x (purge_freed (purge_match_heap h)) -> In x (node_list h)).
Proof.
  intros Hs.
  destruct (purge_match_heap_outcome h Hs) as (tied & _ & Hnodes & _).
  unfold heap_ordered in *.
  rewrite Hnodes in Hs. apply StronglySorted_app in Hs.
  destruct Hs as (_ & Hs & _).
  repeat split.
  - exact Hs.
  - apply (f_equal (@List.length _)) in Hnodes. rewrite length_app in Hnodes. lia.
  - intros x Hx. rewrite Hnodes. apply in_or_app; auto.
  - intros x Hx. rewrite Hnodes. apply in_or_app; auto.
Qed.

Lemma store_match_inv K h min_pd got evs m :
  0 <= K ->
  retention_inv K h min_pd got evs ->
  dlt (match_pvalue m) min_pd || isnan (match_pvalue m) = true ->
  (got = false -> unset m) ->
  let '(h3, min3, evs3) := store_match h m min_pd evs in
  retention_inv K h3 min3 got evs3.
Proof.
  intros HK Hinv Hpass Hnan.
  destruct Hinv as [Hcap Hord Hbound Hroom Hunset Hapart Hbar Hsmall Hlarge Hret Hresc].
  unfold store_match.
  set (h2 := add_node_heap h m).
  assert (Hcap2 : max_size h2 = K) by (unfold h2; rewrite add_node_heap_max_size; exact Hcap).
  assert (Hord2 : heap_ordered h2) by (apply add_node_heap_ordered; exact Hord).
  assert (Hbound2 : get_num_nodes h2 <= K).
  { rewrite <- Hcap. apply add_node_heap_bounded; rewrite Hcap; assumption. }
  assert (Hin2 : forall x, In x (node_list h2) -> x = m \/ In x (node_list h))
    by (intros x; apply add_node_heap_incl).
  assert (Hunset2 : got = false -> Forall unset (node_list h2)).
  { intros Hg. destruct (Hunset Hg) as (Hu & _). rewrite Forall_forall in Hu.
    apply Forall_forall.
    intros x Hx. destruct (Hin2 x Hx) as [->|Hx']; auto. }
  assert (Hapart2 : forall e d, In e (node_list h2) -> In d (purged evs) ->
                                dge (match_pvalue e) (match_pvalue d) = false).
  { intros e d He Hd. destruct (Hin2 e He) as [->|He']; auto.
    eapply passes_bar_apart; [exact Hpass|].
    rewrite Forall_forall in Hbar. apply Hbar. exact Hd. }
  unfold get_max_size. rewrite Hcap2.
  destruct (Z.eqb_spec (get_num_nodes h2) K) as [Hfull|Hnotfull].
  - (* the heap is full: purge *)
    set (r := purge_match_heap h2).
    destruct (purge_heap_suffix h2 Hord2) as (Hord3 & Hlen3 & Hkept & Hfreed).
    fold r in Hord3, Hlen3, Hkept, Hfreed.
    destruct (purge_match_heap_outcome h2 Hord2)
      as (tied & Hf & Hnodes & Hm & Htied & Hk & Hoo & Hleast & Htwo).
    fold r in Hf, Hnodes, Hm, Htied, Hk, Hoo, Hleast, Htwo.
    assert (Hlen2 : Z.of_nat (List.length (node_list h2)) = K) by exact Hfull.
    constructor; simpl.
    + unfold r. rewrite purge_match_heap_max_size. exact Hcap2.
    + exact Hord3.
    + unfold get_num_nodes in *. lia.
    + intros Hbig.
      assert (Hhalf : (1 <= List.length (node_list h2) / 2)%nat).
      { apply Nat.div_le_lower_bound; lia. }
      apply (f_equal (@List.length _)) in Hnodes. rewrite length_app in Hnodes.
      apply (f_equal (@List.length _)) in Hf.
      rewrite length_app, length_firstn in Hf.
      unfold get_num_nodes in *. lia.
    + intros Hg. destruct (Hunset Hg) as (_ & Hup & Hr0).
      specialize (Hunset2 Hg).
      rewrite Forall_forall in Hunset2. rewrite Forall_forall in Hup.
      split; [|split; [|exact Hr0]].
      * apply Forall_forall. intros x Hx. apply Hunset2. apply Hkept. exact Hx.
      * apply Forall_forall. intros x Hx.
        apply in_app_or in Hx. destruct Hx as [Hx|Hx]; auto.
    + intros e d He Hd. apply in_app_or in Hd. destruct Hd as [Hd|Hd].
      * apply purge_match_heap_separates with (h := h2); assumption.
      * apply Hapart2; auto.
    + apply Forall_app. split.
      * eapply Forall_impl; [|exact Hleast].
        intros v Hv. apply more_significant_dlt. exact Hv.
      * destruct (Z.le_gt_cases 2 K) as [Hbig|Hlow].
        -- assert (H2n : (2 <= List.length (node_list h2))%nat) by lia.
           specialize (Htwo H2n). apply in_map_iff in Htwo.
           destruct Htwo as (v & Hpv & Hv).
           rewrite Forall_forall. intros d Hd. rewrite <- Hpv.
           apply dge_false_dlt. apply Hapart2; auto.
        -- assert (Hk0 : (List.length (node_list h2) / 2)%nat = 0%nat).
           { apply Nat.div_small. lia. }
           rewrite Hk0 in Hm. simpl in Hm. rewrite Hm.
           destruct Hsmall as (Hone & _); [lia|]. rewrite <- Hone. exact Hbar.
    + intros Hlow. split.
      * assert (Hk0 : (List.length (node_list h2) / 2)%nat = 0%nat).
        { apply Nat.div_small. lia. }
        rewrite Hk0 in Hm. simpl in Hm. exact Hm.
      * constructor; [|apply Hsmall; exact Hlow].
        assert (Hk0 : (List.length (node_list h2) / 2)%nat = 0%nat).
        { apply Nat.div_small. lia. }
        rewrite Hk0 in Hm. simpl in Hm. symmetry. exact Hm.
    + intros Hbig. constructor.
      * assert (H2n : (2 <= List.length (node_list h2))%nat) by lia.
        specialize (Htwo H2n). apply in_map_iff in Htwo.
        destruct Htwo as (v & Hpv & Hv).
        exists v. split; auto. apply in_or_app; auto.
      * eapply Forall_impl; [|apply Hlarge; exact Hbig].
        intros a (d & Hd & Hpd). exists d. split; auto. apply in_or_app; auto.
    + constructor; [exact Hret|].
      destruct (Z.le_gt_cases 2 K) as [Hbig|Hlow].
      * assert (H2n : (2 <= List.length (node_list h2))%nat) by lia.
        specialize (Htwo H2n). apply in_map_iff in Htwo.
        destruct Htwo as (v & Hpv & Hv).
        eapply Forall_impl; [|apply Hlarge; exact Hbig].
        intros a (d & Hd & Hpd). unfold not_above.
        rewrite <- Hpd, <- Hpv. apply dge_false_dlt. apply Hapart2; auto.
      * assert (Hk0 : (List.length (node_list h2) / 2)%nat = 0%nat).
        { apply Nat.div_small. lia. }
        rewrite Hk0 in Hm. simpl in Hm. rewrite Hm.
        destruct Hsmall as (_ & Hones); [lia|].
        eapply Forall_impl; [|exact Hones].
        intros a <-. reflexivity.
    + exact Hresc.
  - constructor; auto.
    + intros _. lia.
    + intros Hg. destruct (Hunset Hg) as (_ & Hup & Hr0). auto.
Qed.

(** ** The scan *)

Section ScanProperties.

Context {X : Externals}.

Lemma pop_all_all mx nodes :
  pop_all (List.length nodes) (mkHeap mx nodes) = (nodes, mkHeap mx []).
Proof.
  induction nodes as [|x rest IH]; simpl; [reflexivity|].
  unfold pop_heap_root. simpl. rewrite IH. reflexivity.
Qed.

(** Re-adding records to a heap that has room for all of them. *)
Lemma fold_add_node_heap_room l : forall h,
  Z.of_nat (List.length l) + get_num_nodes h <= max_size h ->
  heap_ordered h ->
  Permutation (node_list (fold_left add_node_heap l h)) (l ++ node_list h)
  /\ heap_ordered (fold_left add_node_heap l h)
  /\ max_size (fold_left add_node_heap l h) = max_size h.
Proof.
  induction l as [|m l IH]; intros h Hroom Hord; simpl.
  - auto.
  - cbn [List.length] in Hroom. rewrite Nat2Z.inj_succ in Hroom.
    assert (Hlt : get_num_nodes h < max_size h) by lia.
    pose proof (add_node_heap_room h m Hlt) as Hperm.
    destruct (IH (add_node_heap h m)) as (Hp & Ho & Hm).
    + rewrite add_node_heap_max_size. unfold get_num_nodes in *.
      rewrite (Permutation_length Hperm). cbn [List.length].
      rewrite Nat2Z.inj_succ. lia.
    + apply add_node_heap_ordered. exact Hord.
    + split; [|split].
      * eapply perm_trans; [exact Hp|].
        eapply perm_trans; [apply Permutation_app_head; exact Hperm|].
        symmetry. apply Permutation_middle.
      * exact Ho.
      * rewrite Hm. apply add_node_heap_max_size.
Qed.

Lemma calc_init_distr_failed score_set h dp_threshold :
  evd_n (calc_distr score_set) <= 0 ->
  calc_init_distr score_set h dp_threshold = (calc_distr score_set, h, false, []).
Proof.
  intros H. unfold calc_init_distr.
  apply Z.ltb_ge in H. rewrite H. reflexivity.
Qed.

(** A fit that succeeds: every record of the heap is popped, re-scored and
    put back. *)
Lemma calc_init_distr_fitted score_set h dp_threshold :
  0 < evd_n (calc_distr score_set) ->
  get_num_nodes h <= max_size h ->
  exists h',
    calc_init_distr score_set h dp_threshold
    = (calc_distr score_set, h', true,
       map (rescore (calc_distr score_set) dp_threshold) (node_list h))
    /\ Permutation (node_list h')
                   (map (rescore (calc_distr score_set) dp_threshold) (node_list h))
    /\ heap_ordered h'
    /\ max_size h' = max_size h.
Proof.
  intros Hfit Hbound. unfold calc_init_distr.
  apply Z.ltb_lt in Hfit. rewrite Hfit.
  unfold get_num_nodes. rewrite Nat2Z.id.
  destruct h as [mx nodes]. simpl in *.
  rewrite pop_all_all.
  set (rescored := map (rescore (calc_distr score_set) dp_threshold) nodes).
  destruct (fold_add_node_heap_room rescored (mkHeap mx [])) as (Hp & Ho & Hm).
  - unfold get_num_nodes in *. simpl in *. unfold rescored. rewrite length_map. lia.
  - constructor.
  - exists (fold_left add_node_heap rescored (mkHeap mx [])).
    split; [reflexivity|]. split; [|split]; auto.
    simpl in Hp. rewrite app_nil_r in Hp. exact Hp.
Qed.

Lemma init_distr_stage_inv K dp_thresh score_set1 st h :
  mcast_match_heap st = Some h ->
  retention_inv K h (min_pvalue_discarded st) (got_init_evd st) (events st) ->
  exists evd_set1 h1 got1 evs1,
    init_distr_stage dp_thresh score_set1 st = (evd_set1, Some h1, got1, evs1)
    /\ retention_inv K h1 (min_pvalue_discarded st) got1 evs1.
Proof.
  intros Hh Hinv. unfold init_distr_stage. rewrite Hh.
  destruct ((max_scores_saved score_set1 <=? n score_set1) && negb (got_init_evd st))
    eqn:Hcond.
  - apply andb_true_iff in Hcond. destruct Hcond as (_ & Hgot).
    apply negb_true_iff in Hgot. rewrite Hgot in Hinv.
    destruct Hinv as [Hcap Hord Hbound Hroom Hunset Hapart Hbar Hsmall Hlarge Hret Hresc].
    destruct (Hunset eq_refl) as (Hun & Hup & Hr0).
    destruct (Z.lt_ge_cases 0 (evd_n (calc_distr score_set1))) as [Hfit|Hnofit].
    + destruct (calc_init_distr_fitted score_set1 h dp_thresh Hfit)
        as (h' & Heq & Hperm & Hord' & Hmax'); [rewrite Hcap; exact Hbound|].
      rewrite Heq. do 4 eexists. split; [reflexivity|].
      constructor; simpl; auto.
      * congruence.
      * unfold get_num_nodes in *. rewrite (Permutation_length Hperm), length_map.
        exact Hbound.
      * unfold get_num_nodes in *. rewrite (Permutation_length Hperm), length_map.
        exact Hroom.
      * discriminate.
      * intros e d _ Hd. rewrite Forall_forall in Hup. specialize (Hup d Hd).
        unfold unset in Hup. destruct (match_pvalue d); [|discriminate].
        unfold dge, dle. destruct (match_pvalue e); reflexivity.
      * apply Z.ltb_lt in Hfit. rewrite Hfit. lia.
    + rewrite calc_init_distr_failed by lia.
      do 4 eexists. split; [reflexivity|].
      constructor; simpl; auto.
      * intros _. repeat split; auto.
        destruct (0 <? evd_n (calc_distr score_set1)) eqn:E; auto.
        apply Z.ltb_lt in E. lia.
      * destruct (0 <? evd_n (calc_distr score_set1)) eqn:E; auto.
        apply Z.ltb_lt in E. lia.
  - do 4 eexists. split; [reflexivity|]. exact Hinv.
Qed.

Lemma process_match_inv K dp_thresh sequence pm st :
  0 <= K -> scan_inv K st -> scan_inv K (process_match dp_thresh sequence pm st).
Proof.
  intros HK (h & Hh & Hinv). unfold scan_inv, process_match.
  destruct (save_score sequence pm (dsub (raw_score pm) dp_thresh)
              (score_set st) (serial_no st) (prng st))
    as [[[gc score_set1] serial_no1] prng1].
  destruct (init_distr_stage_inv K dp_thresh score_set1 st h Hh Hinv)
    as (evd_set1 & h1 & got1 & evs1 & Hstage & Hinv1).
  rewrite Hstage.
  set (pvalue := if got1 then evd_set_pvalue (dsub (raw_score pm) dp_thresh) gc 1 evd_set1
                 else NaN).
  set (gc_bin := if got1 then evd_set_bin gc evd_set1 else -1).
  destruct (dlt pvalue (min_pvalue_discarded st) || isnan pvalue) eqn:Hpass.
  - set (m := build_mcast_match sequence pm (dsub (raw_score pm) dp_thresh)
                                dp_thresh pvalue gc gc_bin).
    pose proof (store_match_inv K h1 (min_pvalue_discarded st) got1 evs1 m HK Hinv1)
      as Hstore.
    destruct (store_match h1 m (min_pvalue_discarded st) evs1) as [[h3 min3] evs3].
    simpl. exists h3. split; [reflexivity|].
    apply Hstore.
    + exact Hpass.
    + intros Hg. unfold unset, m, pvalue. simpl. rewrite Hg. reflexivity.
  - simpl. exists h1. split; [reflexivity|]. exact Hinv1.
Qed.

Lemma set_start_pos_inv K st p : scan_inv K st -> scan_inv K (set_start_pos st p).
Proof. intros (h & Hh & Hinv). exists h. split; assumption. Qed.

Lemma after_segment_inv K seg next st :
  scan_inv K st -> scan_inv K (after_segment seg next st).
Proof.
  intros (h & Hh & Hinv). unfold after_segment.
  destruct (negb (seq_is_complete (segment_seq seg))); exists h; split; assumption.
Qed.

(** ** The states of a scan *)

Lemma find_matches_scan_state dp_thresh sequence found : forall st0 st,
  scan_state dp_thresh st0 st ->
  scan_state dp_thresh st0 (find_matches dp_thresh sequence found st).
Proof.
  induction found as [|pm more IH]; intros st0 st Hst; simpl; [exact Hst|].
  destruct (match_action sequence pm (start_pos st)).
  - exact Hst.
  - apply IH. apply scan_skipped. exact Hst.
  - apply IH. apply scan_recorded. exact Hst.
Qed.

Lemma scan_segments_scan_state dp_thresh segments : forall st0 st,
  scan_state dp_thresh st0 st ->
  scan_state dp_thresh st0 (scan_segments dp_thresh segments st).
Proof.
  induction segments as [|seg rest IH]; intros st0 st Hst; simpl; [exact Hst|].
  apply IH. apply scan_window_done. apply find_matches_scan_state. exact Hst.
Qed.

(** The state at the return of [mcast_read_and_score] is a state of the
    scan. *)
Lemma mcast_read_and_score_scan_state serial0 heap0 score_set0 evd_set0 segments
    dp_thresh prng0 :
  scan_state dp_thresh
    (start_scan serial0 heap0 score_set0 evd_set0 segments prng0)
    (mcast_read_and_score serial0 heap0 score_set0 evd_set0 segments dp_thresh prng0).
Proof.
  unfold mcast_read_and_score. apply scan_segments_scan_state. apply scan_entered.
Qed.

Lemma scan_state_inv K dp_thresh st0 st :
  0 <= K -> scan_inv K st0 -> scan_state dp_thresh st0 st -> scan_inv K st.
Proof.
  intros HK H0 Hst. induction Hst.
  - exact H0.
  - apply set_start_pos_inv. exact IHHst.
  - apply process_match_inv; [exact HK|]. apply set_start_pos_inv. exact IHHst.
  - apply after_segment_inv. exact IHHst.
Qed.

(** The invariant holds when the scan is entered with an empty heap of
    capacity [K]. *)
Lemma start_scan_inv K serial0 score_set0 evd_set0 segments prng0 :
  0 <= K ->
  scan_inv K (start_scan serial0 (Some (create_heap K)) score_set0 evd_set0
                         segments prng0).
Proof.
  intros HK. exists (create_heap K). split; [reflexivity|]. simpl.
  apply retention_inv_init. exact HK.
Qed.

(** C2 (amended): in a scan that starts with an empty heap, at every state
    that the scan goes through, the state at its return among them, a
    record that a purge freed and a record that the heap retains, both
    with a p-value that is set (not NaN), satisfy pvalue(retained) <=
    pvalue(purged), and strictly so; in general the retained p-value is
    never >= the purged one in C's comparison. *)
Theorem retained_below_purged K serial0 score_set0 evd_set0 segments
    dp_thresh prng0 :
  0 <= K ->
  let st0 := start_scan serial0 (Some (create_heap K)) score_set0 evd_set0
                        segments prng0 in
  scan_state dp_thresh st0
    (mcast_read_and_score serial0 (Some (create_heap K)) score_set0 evd_set0
                          segments dp_thresh prng0)
  /\ forall st r1 r2,
       scan_state dp_thresh st0 st ->
       In r1 (purged (events st)) ->
       In r2 (retained st) ->
       dge (match_pvalue r2) (match_pvalue r1) = false
       /\ (isnan (match_pvalue r1) = false -> isnan (match_pvalue r2) = false ->
           dle (match_pvalue r2) (match_pvalue r1) = true
           /\ dlt (match_pvalue r2) (match_pvalue r1) = true).
Proof.
  intros HK st0. split; [apply mcast_read_and_score_scan_state|].
  intros st r1 r2 Hst H1 H2.
  destruct (scan_state_inv K dp_thresh st0 st HK
              (start_scan_inv K serial0 score_set0 evd_set0 segments prng0 HK) Hst)
    as (h & Hh & Hinv).
  assert (Hapart : dge (match_pvalue r2) (match_pvalue r1) = false).
  { apply (inv_apart _ _ _ _ _ Hinv); [|exact H1].
    unfold retained in H2. rewrite Hh in H2. exact H2. }
  split; [exact Hapart|].
  intros Hn1 Hn2. revert Hapart Hn1 Hn2.
  unfold dge, dle, dlt, isnan.
  destruct (match_pvalue r1) as [|y], (match_pvalue r2) as [|x];
    try discriminate.
  intros Hyx _ _. rewrite Hyx. split; [|reflexivity].
  apply Qle_bool_iff.
  destruct (Qlt_le_dec x y) as [Hlt|Hle].
  - apply Qlt_le_weak. exact Hlt.
  - apply Qle_bool_iff in Hle. congruence.
Qed.

(** C5: in a scan that starts with an empty heap of capacity K, at every
    state that the scan goes through, the state at its return among them,
    the heap holds no more than K records; it holds no more than K either
    between the insertion of a record and the purge (for K >= 2 there is
    room for the record, so that this does not rest on what the heap does
    with a record when it is full); and of the values returned by any two
    purges the later one is never above the earlier one. *)
Theorem heap_bounded_purges_non_increasing K serial0 score_set0 evd_set0
    segments dp_thresh prng0 :
  0 <= K ->
  let st0 := start_scan serial0 (Some (create_heap K)) score_set0 evd_set0
                        segments prng0 in
  scan_state dp_thresh st0
    (mcast_read_and_score serial0 (Some (create_heap K)) score_set0 evd_set0
                          segments dp_thresh prng0)
  /\ forall st,
       scan_state dp_thresh st0 st ->
       exists h,
         mcast_match_heap st = Some h
         /\ get_max_size h = K
         /\ get_num_nodes h <= K
         /\ (2 <= K -> get_num_nodes h + 1 <= K)
         /\ (forall m, get_num_nodes (add_node_heap h m) <= K)
         /\ StronglySorted not_above (purge_returns (events st)).
Proof.
  intros HK st0. split; [apply mcast_read_and_score_scan_state|].
  intros st Hst.
  destruct (scan_state_inv K dp_thresh st0 st HK
              (start_scan_inv K serial0 score_set0 evd_set0 segments prng0 HK) Hst)
    as (h & Hh & Hinv).
  exists h. split; [exact Hh|].
  pose proof (inv_capacity _ _ _ _ _ Hinv) as Hcap.
  pose proof (inv_bounded _ _ _ _ _ Hinv) as Hb.
  pose proof (inv_room _ _ _ _ _ Hinv) as Hr.
  split; [exact Hcap|]. split; [exact Hb|]. split; [|split].
  - intros Hbig. specialize (Hr Hbig). lia.
  - intros m. rewrite <- Hcap. apply add_node_heap_bounded; rewrite Hcap; assumption.
  - exact (inv_returns _ _ _ _ _ Hinv).
Qed.

(** What a tiny score leaves untouched. *)
Lemma save_score_tiny sequence pm viterbi_score score_set serial_no prng :
  dgt viterbi_score LOG_SMALL = false ->
  save_score sequence pm viterbi_score score_set serial_no prng
  = (Fin 0, score_set, serial_no, prng).
Proof. intros H. unfold save_score. rewrite H. reflexivity. Qed.

(** The score set, the serial number and the generator after a match are
    those that [save_score] leaves. *)
Lemma process_match_score_set dp_thresh sequence pm st :
  let '(_, score_set1, serial_no1, prng1) :=
    save_score sequence pm (dsub (raw_score pm) dp_thresh)
               (score_set st) (serial_no st) (prng st) in
  score_set (process_match dp_thresh sequence pm st) = score_set1
  /\ serial_no (process_match dp_thresh sequence pm st) = serial_no1
  /\ prng (process_match dp_thresh sequence pm st) = prng1.
Proof.
  unfold process_match.
  destruct (save_score sequence pm (dsub (raw_score pm) dp_thresh)
              (score_set st) (serial_no st) (prng st))
    as [[[gc score_set1] serial_no1] prng1].
  destruct (init_distr_stage dp_thresh score_set1 st) as [[[evd_set1 heap1] got1] evs1].
  destruct heap1 as [h|]; [|simpl; auto].
  destruct (dlt _ _ || isnan _); [|simpl; auto].
  destruct (store_match _ _ _ _) as [[h3 min3] evs3]. simpl. auto.
Qed.

(** C10: a match whose adjusted score (viterbi score minus dp_thresh) is
    not greater than LOG_SMALL leaves the score set as it was: the count
    of scores seen, the count and the content of the reservoir; no serial
    number is used and no random number is drawn. *)
Theorem tiny_score_not_counted dp_thresh sequence pm st :
  dgt (dsub (raw_score pm) dp_thresh) LOG_SMALL = false ->
  let st' := process_match dp_thresh sequence pm st in
  score_set st' = score_set st
  /\ num_scores_seen (score_set st') = num_scores_seen (score_set st)
  /\ scores (score_set st') = scores (score_set st)
  /\ n (score_set st') = n (score_set st)
  /\ serial_no st' = serial_no st
  /\ prng st' = prng st.
Proof.
  intros Htiny st'.
  pose proof (process_match_score_set dp_thresh sequence pm st) as H.
  rewrite (save_score_tiny _ _ _ _ _ _ Htiny) in H.
  destruct H as (Hs & Hn & Hp). fold st' in Hs, Hn, Hp.
  repeat split; try assumption; rewrite Hs; reflexivity.
Qed.

(** ** The provisional fit *)

Lemma save_score_grows sequence pm viterbi_score score_set serial_no prng :
  let '(_, score_set1, _, _) :=
    save_score sequence pm viterbi_score score_set serial_no prng in
  max_scores_saved score_set1 = max_scores_saved score_set
  /\ n score_set <= n score_set1.
Proof.
  unfold save_score.
  destruct (dgt viterbi_score LOG_SMALL); [|split; [reflexivity|lia]].
  unfold choose_slot.
  destruct (n score_set <? max_scores_saved score_set).
  - simpl. lia.
  - destruct (mts_drand prng) as [u prng'].
    destruct (_ <? _); simpl; lia.
Qed.


(** The flag, the fit and the events after a match are those that the fit
    stage leaves, but for the purge that may follow. *)
Lemma process_match_stage dp_thresh sequence pm st :
  let '(_, score_set1, _, _) :=
    save_score sequence pm (dsub (raw_score pm) dp_thresh)
               (score_set st) (serial_no st) (prng st) in
  let '(evd_set1, heap1, got1, evs1) := init_distr_stage dp_thresh score_set1 st in
  let st' := process_match dp_thresh sequence pm st in
  got_init_evd st' = got1
  /\ initial_evd_set st' = evd_set1
  /\ (events st' = evs1 \/ exists b victims, events st' = Purging b victims :: evs1)
  /\ (forall h1, heap1 = Some h1 ->
      exists m, forall x, In x (retained st') -> In x (node_list h1) \/ x = m).
Proof.
  unfold process_match.
  destruct (save_score sequence pm (dsub (raw_score pm) dp_thresh)
              (score_set st) (serial_no st) (prng st))
    as [[[gc score_set1] serial_no1] prng1].
  destruct (init_distr_stage dp_thresh score_set1 st) as [[[evd_set1 heap1] got1] evs1].
  destruct heap1 as [h|].
  - destruct (dlt _ _ || isnan _).
    + unfold store_match.
      destruct (_ =? _); simpl; (split; [reflexivity|split; [reflexivity|split]]).
      * right. eauto.
      * unfold retained; simpl. intros h1 Hh1. inversion Hh1; subst h1.
        set (m := build_mcast_match _ _ _ _ _ _ _) in *.
        exists m. intros x Hx.
        assert (Hx2 : In x (node_list (add_node_heap h m))).
        { revert Hx. generalize (add_node_heap h m). intros h2 Hx.
          unfold purge_match_heap in Hx.
          set (first := delete_bottom_half _ h2 one) in *.
          assert (Hk : (Z.to_nat (num_matches_to_delete h2)
                        <= List.length (node_list h2))%nat).
          { unfold num_matches_to_delete, get_num_nodes. rewrite half_to_nat.
            apply Nat.Div0.div_le_upper_bound. lia. }
          pose proof (delete_bottom_half_spec _ h2 one Hk) as Hb. simpl in Hb.
          fold first in Hb. destruct Hb as (_ & Hn & _ & _).
          pose proof (delete_tied_spec (node_list (purge_heap first))
                                       (purge_min_pvalue_discarded first)) as Ht.
          destruct (delete_tied _ _) as [tied kept].
          destruct Ht as (Hsplit & _ & _). simpl in Hx.
          rewrite <- (firstn_skipn (Z.to_nat (num_matches_to_delete h2)) (node_list h2)).
          apply in_or_app. right. rewrite <- Hn, Hsplit. apply in_or_app; auto. }
        apply add_node_heap_incl in Hx2. destruct Hx2 as [->|Hx2]; auto.
      * left. reflexivity.
      * unfold retained; simpl. intros h1 Hh1. inversion Hh1; subst h1.
        set (m := build_mcast_match _ _ _ _ _ _ _) in *.
        exists m. intros x Hx.
        apply add_node_heap_incl in Hx. destruct Hx as [->|Hx]; auto.
    + simpl. repeat split; auto. unfold retained; simpl.
      intros h1 Hh1. inversion Hh1; subst h1.
      exists allocate_mcast_match. auto.
  - simpl. repeat split; auto. discriminate.
Qed.








(** ** The match loop *)

Lemma match_action_deferred sequence pm cursor :
  seq_is_complete sequence = false ->
  seq_length sequence - OVERLAP_SIZE < start_match pm ->
  match_action sequence pm cursor = Deferred.
Proof.
  intros Hc Hs. unfold match_action. rewrite Hc. simpl.
  assert (H : (start_match pm >? seq_length sequence - OVERLAP_SIZE) = true)
    by (apply Z.gtb_lt; exact Hs).
  rewrite H. reflexivity.
Qed.

Lemma match_action_skipped sequence pm cursor :
  seq_is_complete sequence = true
  \/ start_match pm <= seq_length sequence - OVERLAP_SIZE ->
  start_match pm = cursor ->
  match_action sequence pm cursor = Skipped.
Proof.
  intros Hw Hs. unfold match_action.
  assert (H : negb (seq_is_complete sequence)
              && (start_match pm >? seq_length sequence - OVERLAP_SIZE) = false).
  { destruct Hw as [Hc|Hle].
    - rewrite Hc. reflexivity.
    - apply andb_false_iff. right. rewrite Z.gtb_ltb. apply Z.ltb_ge. exact Hle. }
  rewrite H. apply Z.eqb_eq in Hs. rewrite Hs. reflexivity.
Qed.

(** C7 (amended): (b) in a window that is not the last of its sequence, a
    match that starts beyond length - OVERLAP_SIZE ends the match loop of
    the window: nothing is recorded and the state, the scan cursor
    included, is as it was, so that the match is left to the next window;
    (a) a match that (b) does not defer, that is a match in a final window
    or one that starts at or before length - OVERLAP_SIZE, and that starts
    at the scan cursor is skipped: nothing is recorded, the cursor moves to
    the position after its end and the loop goes on. *)
Theorem deferred_or_skipped dp_thresh sequence pm more st :
  (seq_is_complete sequence = false ->
   seq_length sequence - OVERLAP_SIZE < start_match pm ->
   find_matches dp_thresh sequence (pm :: more) st = st)
  /\ (seq_is_complete sequence = true
      \/ start_match pm <= seq_length sequence - OVERLAP_SIZE ->
      start_match pm = start_pos st ->
      find_matches dp_thresh sequence (pm :: more) st
      = find_matches dp_thresh sequence more (set_start_pos st (end_match pm + 1))
      /\ score_set (set_start_pos st (end_match pm + 1)) = score_set st
      /\ mcast_match_heap (set_start_pos st (end_match pm + 1)) = mcast_match_heap st
      /\ num_matches (set_start_pos st (end_match pm + 1)) = num_matches st
      /\ start_pos (set_start_pos st (end_match pm + 1)) = end_match pm + 1).
Proof.
  split.
  - intros Hc Hs. simpl. rewrite (match_action_deferred _ _ _ Hc Hs). reflexivity.
  - intros Hw Hs. simpl. rewrite (match_action_skipped _ _ _ Hw Hs).
    repeat split; reflexivity.
Qed.

(** ** The significance finalizer *)

Lemma insert_by_pvalue_perm m sorted :
  Permutation (insert_by_pvalue m sorted) (m :: sorted).
Proof.
  induction sorted as [|x rest IH]; simpl; auto.
  destruct (compare_mcast_match_pvalues m x <=? 0); auto.
  eapply perm_trans; [apply perm_skip, IH | apply perm_swap].
Qed.

Lemma qsort_perm matches : Permutation (qsort matches) matches.
Proof.
  induction matches as [|m rest IH]; simpl; auto.
  eapply perm_trans; [apply insert_by_pvalue_perm|]. apply perm_skip. exact IH.
Qed.

(** Setting the q-values leaves the p-value and the E-value of every match. *)
Lemma set_qvalues_keeps (P : double -> double -> Prop) matches : forall qvalues,
  Forall (fun m => P (match_pvalue m) (match_evalue m)) matches ->
  Forall (fun m => P (match_pvalue m) (match_evalue m)) (set_qvalues matches qvalues).
Proof.
  induction matches as [|m ms IH]; intros qvalues H; simpl; [constructor|].
  destruct qvalues as [|q qs]; [exact H|].
  inversion H; subst. constructor; [simpl; assumption|]. apply IH. assumption.
Qed.

Lemma calc_pq_values_no_evd matches evd_set score_set0 dp_thresh N :
  evd_n evd_set <= 0 ->
  calc_pq_values matches evd_set score_set0 dp_thresh N = (matches, evd_set).
Proof.
  intros H. unfold calc_pq_values. apply Z.leb_le in H. rewrite H. reflexivity.
Qed.

Lemma calc_pq_values_evd_n matches evd_set score_set0 dp_thresh N :
  evd_n (snd (calc_pq_values matches evd_set score_set0 dp_thresh N)) = evd_n evd_set.
Proof.
  unfold calc_pq_values. destruct (evd_n evd_set <=? 0); reflexivity.
Qed.

Lemma calc_pq_values_evalue matches evd_set score_set0 dp_thresh N :
  0 < evd_n evd_set ->
  Forall (fun m => match_evalue m = dmul (of_int N) (match_pvalue m))
         (fst (calc_pq_values matches evd_set score_set0 dp_thresh N)).
Proof.
  intros H. unfold calc_pq_values.
  assert (Hn : (evd_n evd_set <=? 0) = false) by (apply Z.leb_gt; exact H).
  rewrite Hn. simpl.
  apply (set_qvalues_keeps (fun p e => e = dmul (of_int N) p)).
  eapply Permutation_Forall; [symmetry; apply qsort_perm|].
  apply Forall_forall. intros m Hm. apply in_map_iff in Hm.
  destruct Hm as (m0 & <- & _). reflexivity.
Qed.

Lemma calc_pq_values_evd_N matches evd_set score_set0 dp_thresh N :
  evd_N (snd (calc_pq_values matches evd_set score_set0 dp_thresh N)) = evd_N evd_set.
Proof.
  unfold calc_pq_values. destruct (evd_n evd_set <=? 0); reflexivity.
Qed.

Lemma set_qvalues_length matches : forall qvalues,
  List.length (set_qvalues matches qvalues) = List.length matches.
Proof.
  induction matches as [|m ms IH]; intros qvalues; simpl; [reflexivity|].
  destruct qvalues as [|q qs]; [reflexivity|]. simpl. rewrite IH. reflexivity.
Qed.

Lemma calc_pq_values_length matches evd_set score_set0 dp_thresh N :
  List.length (fst (calc_pq_values matches evd_set score_set0 dp_thresh N))
  = List.length matches.
Proof.
  unfold calc_pq_values. destruct (evd_n evd_set <=? 0); [reflexivity|].
  simpl. rewrite set_qvalues_length.
  rewrite (Permutation_length (qsort_perm _)). apply length_map.
Qed.

Lemma mcast_print_results_finished options dir evd_set matches p report :
  mcast_print_results options dir evd_set matches p = Finished report ->
  report = mkReport (0 <? evd_n evd_set) matches evd_set p.
Proof.
  unfold mcast_print_results.
  destruct (negb (text_only options) && negb dir); [discriminate|].
  intros H; inversion H; reflexivity.
Qed.

(** C6: when the EVD set with which [mcast] reports has n == 0, the
    matches reported are the records as the scan left them in the heap, no
    p-, E- or q-value having been assigned by the finalizer, they are
    reported with stats_available false, and on such an EVD set
    calc_pq_values returns every match and the set unchanged. *)
Theorem no_statistics_without_evd options output_dir_created alph segments prng0
    phases report :
  mcast options output_dir_created alph segments prng0 = (phases, Finished report) ->
  evd_n (report_evd_set report) <= 0 ->
  stats_available report = false
  /\ report_matches report = retained (real_scan options segments prng0)
  /\ forall matches score_set0 dp N,
       calc_pq_values matches (report_evd_set report) score_set0 dp N
       = (matches, report_evd_set report).
Proof.
  unfold mcast. fold (real_scan options segments prng0).
  set (st := real_scan options segments prng0).
  destruct (negb (text_only options) && negb output_dir_created);
    [intros H; inversion H|].
  assert (Hgoal : forall evd_set matches p,
            mcast_print_results options output_dir_created evd_set matches p
            = Finished report ->
            matches = retained st ->
            evd_n (report_evd_set report) <= 0 ->
            stats_available report = false
            /\ report_matches report = retained st
            /\ forall matches score_set0 dp N,
                 calc_pq_values matches (report_evd_set report) score_set0 dp N
                 = (matches, report_evd_set report)).
  { intros evd_set matches p Hp Hm Hn.
    apply mcast_print_results_finished in Hp. subst report. simpl in *.
    split; [apply Z.ltb_ge; exact Hn|]. split; [exact Hm|].
    intros. apply calc_pq_values_no_evd. exact Hn. }
  destruct (0 <? Z.of_nat (List.length (retained st))).
  - destruct (mcast_generate_synth_seq (score_set st) alph (prng st)) as [evd_set|msg];
      [|intros H; inversion H].
    destruct (0 <? evd_n evd_set) eqn:Hfit.
    + pose proof (calc_pq_values_evd_n (retained st)
                    (set_evd_N evd_set (num_scores_seen (score_set st))) (score_set st)
                    (dp_thresh options)
                    (evd_N (set_evd_N evd_set (num_scores_seen (score_set st))))) as Hn.
      destruct (calc_pq_values _ _ _ _ _) as [matches1 evd_set2].
      simpl in Hn. intros H Hle. inversion H as [[Hph Hrep]].
      apply mcast_print_results_finished in Hrep. subst report. simpl in Hle.
      apply Z.ltb_lt in Hfit. lia.
    + intros H Hle. inversion H as [[Hph Hrep]].
      eapply Hgoal; eauto.
  - intros H Hle. inversion H as [[Hph Hrep]]. eapply Hgoal; eauto.
Qed.

(** C8: when [mcast] has run the synthetic fit and reports with an EVD set
    that is fit, the E-value of every match reported is N * pvalue for N =
    score_set->num_scores_seen at the end of the scan of the real
    sequences, which is also the N of the EVD set; the matches reported
    are as many as the heap retained. *)
Theorem evalue_is_scores_seen_times_pvalue options output_dir_created alph segments
    prng0 phases report :
  mcast options output_dir_created alph segments prng0 = (phases, Finished report) ->
  In GenerateSynthetic phases ->
  0 < evd_n (report_evd_set report) ->
  let N := num_scores_seen (score_set (real_scan options segments prng0)) in
  evd_N (report_evd_set report) = N
  /\ Forall (fun m => match_evalue m = dmul (of_int N) (match_pvalue m))
            (report_matches report)
  /\ List.length (report_matches report)
     = List.length (retained (real_scan options segments prng0)).
Proof.
  unfold mcast. fold (real_scan options segments prng0).
  set (st := real_scan options segments prng0).
  destruct (negb (text_only options) && negb output_dir_created);
    [intros H; inversion H|].
  destruct (0 <? Z.of_nat (List.length (retained st))).
  - destruct (mcast_generate_synth_seq (score_set st) alph (prng st)) as [evd_set|msg];
      [|intros H; inversion H].
    destruct (0 <? evd_n evd_set) eqn:Hfit.
    + set (evd_set1 := set_evd_N evd_set (num_scores_seen (score_set st))).
      pose proof (calc_pq_values_evd_N (retained st) evd_set1 (score_set st)
                    (dp_thresh options) (evd_N evd_set1)) as HN.
      pose proof (calc_pq_values_evalue (retained st) evd_set1 (score_set st)
                    (dp_thresh options) (evd_N evd_set1)) as He.
      pose proof (calc_pq_values_length (retained st) evd_set1 (score_set st)
                    (dp_thresh options) (evd_N evd_set1)) as Hl.
      destruct (calc_pq_values _ _ _ _ _) as [matches1 evd_set2].
      simpl in HN, Hl. intros H _ _. inversion H as [[Hph Hrep]].
      apply mcast_print_results_finished in Hrep. subst report. simpl.
      split; [exact HN|]. split; [|exact Hl].
      apply He. apply Z.ltb_lt. exact Hfit.
    + intros H _ Hpos. inversion H as [[Hph Hrep]].
      apply mcast_print_results_finished in Hrep. subst report. simpl in Hpos.
      apply Z.ltb_ge in Hfit. lia.
  - intros H Hin. inversion H as [[Hph Hrep]]. subst phases.
    simpl in Hin. destruct Hin as [Hin|[Hin|[]]]; discriminate.
Qed.

(** C9: with an alphabet library in which the DNA alphabet has 4 core
    symbols in 2 complementary pairs and an alphabet equal to it has as
    many, a run whose alphabet has not exactly 4 core symbols in exactly 2
    complementary pairs ends in a fatal error before any stage of [mcast]
    is entered: no real sequence is read or scored. *)
Theorem unsuitable_alphabet_fatal_before_scan options motif_format file_alph
    num_motifs output_dir_created segments prng0 :
  alph_size_core alph_dna = 4 /\ alph_size_pairs alph_dna = 2 ->
  (forall a, alph_equal alph_dna a = true ->
             alph_size_core a = 4 /\ alph_size_pairs a = 2) ->
  let alph := match motif_format with
              | MEME_FORMAT => file_alph
              | TRANSFAC_FORMAT => alph_dna
              end in
  ~ (alph_size_core alph = 4 /\ alph_size_pairs alph = 2) ->
  exists message,
    main options motif_format file_alph num_motifs output_dir_created segments prng0
    = ([], Fatal message).
Proof.
  intros Hdna Heq alph Hbad. unfold main, read_motifs.
  destruct motif_format; simpl in alph.
  - destruct (alph_equal alph_dna file_alph) eqn:E.
    + exfalso. apply Hbad. apply Heq. exact E.
    + simpl. eauto.
  - exfalso. apply Hbad. exact Hdna.
Qed.

End ScanProperties.

(** ** The reservoir *)

Lemma double_eqb_eq a b : double_eqb a b = true <-> a = b.
Proof.
  destruct a as [|[xn xd]], b as [|[yn yd]]; simpl; split; intros H;
    try reflexivity; try discriminate.
  - apply andb_true_iff in H. destruct H as (Hn & Hd).
    apply Z.eqb_eq in Hn. apply Pos.eqb_eq in Hd. subst. reflexivity.
  - inversion H; subst. rewrite Z.eqb_refl, Pos.eqb_refl. reflexivity.
Qed.

Lemma score_eqb_eq x y : score_eqb x y = true <-> x = y.
Proof.
  unfold score_eqb. destruct x as [s1 t1 h1 p1 g1 n1], y as [s2 t2 h2 p2 g2 n2].
  simpl. rewrite !andb_true_iff, !double_eqb_eq, !Z.eqb_eq.
  split.
  - intros (((((-> & ->) & ->) & ->) & ->) & ->). reflexivity.
  - intros H; inversion H; subst. repeat split.
Qed.

Lemma in_reservoir_In x score_set : in_reservoir x score_set = true <-> In x (scores score_set).
Proof.
  unfold in_reservoir. rewrite existsb_exists. split.
  - intros (y & Hy & Heq). apply score_eqb_eq in Heq. subst. exact Hy.
  - intros H. exists x. split; [exact H|]. apply score_eqb_eq. reflexivity.
Qed.

Lemma write_slot_end l x : write_slot l (List.length l) x = l ++ [x].
Proof. induction l as [|y l IH]; simpl; [reflexivity|]. rewrite IH. reflexivity. Qed.

Lemma write_slot_length l : forall d x,
  (d < List.length l)%nat -> List.length (write_slot l d x) = List.length l.
Proof.
  induction l as [|y l IH]; intros d x Hd; simpl in *; [lia|].
  destruct d as [|d]; simpl; [reflexivity|]. rewrite IH by lia. reflexivity.
Qed.

(** What slot [d] of a full reservoir holds is lost to the new sample; the
    other slots keep theirs. *)
Lemma write_slot_In l : forall d x z,
  (d < List.length l)%nat -> NoDup l -> z <> x ->
  (In z (write_slot l d x) <-> In z l /\ nth_error l d <> Some z).
Proof.
  induction l as [|y l IH]; intros d x z Hd Hnd Hzx; simpl in *; [lia|].
  inversion Hnd as [|? ? Hy Hnd']; subst.
  destruct d as [|d]; simpl.
  - split.
    + intros [Hx|Hz]; [congruence|]. split; [right; exact Hz|].
      intros Heq. inversion Heq; subst. contradiction.
    + intros ([Hy'|Hz] & Hne); [subst; congruence|right; exact Hz].
  - rewrite (IH d x z) by (auto; lia). split.
    + intros [Hy'|(Hz & Hne)].
      * subst. split; [left; reflexivity|].
        intros Hn. apply nth_error_In in Hn. contradiction.
      * split; [right; exact Hz|exact Hne].
    + intros ([Hy'|Hz] & Hne); [left; exact Hy'|right; split; assumption].
Qed.

Lemma write_slot_incl l : forall d x z,
  In z (write_slot l d x) -> z = x \/ In z l.
Proof.
  induction l as [|y l IH]; intros d x z; destruct d as [|d]; simpl.
  - intros [H|[]]; auto.
  - intros [].
  - intros [H|H]; auto.
  - intros [H|H]; auto. apply IH in H. tauto.
Qed.

Lemma write_slot_NoDup l : forall d x,
  NoDup l -> ~ In x l -> NoDup (write_slot l d x).
Proof.
  induction l as [|y l IH]; intros d x Hnd Hx; destruct d as [|d]; simpl.
  - constructor; [intros []|constructor].
  - constructor.
  - inversion Hnd; subst. constructor; [|assumption].
    intros H. apply Hx. right. exact H.
  - inversion Hnd as [|? ? Hy Hnd']; subst. constructor.
    + intros H. apply write_slot_incl in H. destruct H as [->|H]; [|contradiction].
      apply Hx. left. reflexivity.
    + apply IH; [assumption|]. intros H. apply Hx. right. exact H.
Qed.

(** The scores of the reservoir after one more sample. *)
Lemma record_score_scores K N samples score_set y d :
  reservoir_state K N samples score_set ->
  scores (record_score score_set y (Z.of_nat d))
  = if (N <? K)%nat then scores score_set ++ [y]
    else if (d <? K)%nat then write_slot (scores score_set) d y
    else scores score_set.
Proof.
  intros [Hmax Hseen Hn Hsize Hincl Hnd].
  unfold record_score, choose_slot_at. rewrite Hn, Hmax, Hsize.
  destruct (Nat.ltb_spec N K) as [Hlt|Hge].
  - assert (H : (Z.of_nat (Nat.min N K) <? Z.of_nat K) = true)
      by (apply Z.ltb_lt; lia).
    rewrite H. simpl. rewrite Nat2Z.id. rewrite <- Hsize. apply write_slot_end.
  - assert (H : (Z.of_nat (Nat.min N K) <? Z.of_nat K) = false)
      by (apply Z.ltb_ge; lia).
    rewrite H.
    destruct (Nat.ltb_spec d K) as [Hd|Hd].
    + assert (H' : (Z.of_nat d <? Z.of_nat K) = true) by (apply Z.ltb_lt; lia).
      rewrite H'. simpl. rewrite Nat2Z.id. reflexivity.
    + assert (H' : (Z.of_nat d <? Z.of_nat K) = false) by (apply Z.ltb_ge; lia).
      rewrite H'. reflexivity.
Qed.

Lemma record_score_state K N samples score_set y d :
  reservoir_state K N samples score_set ->
  ~ In y samples ->
  reservoir_state K (S N) (samples ++ [y]) (record_score score_set y (Z.of_nat d)).
Proof.
  intros Hst Hy.
  pose proof (record_score_scores K N samples score_set y d Hst) as Hsc.
  destruct Hst as [Hmax Hseen Hn Hsize Hincl Hnd].
  assert (Hfields : max_scores_saved (record_score score_set y (Z.of_nat d)) = Z.of_nat K
                    /\ num_scores_seen (record_score score_set y (Z.of_nat d))
                       = Z.of_nat (S N)
                    /\ n (record_score score_set y (Z.of_nat d))
                       = if (N <? K)%nat then n score_set + 1 else n score_set).
  { unfold record_score, choose_slot_at. rewrite Hn, Hmax, Hsize, Hseen.
    rewrite Nat2Z.inj_succ.
    destruct (Nat.ltb_spec N K) as [Hlt|Hge].
    - assert (H : (Z.of_nat (Nat.min N K) <? Z.of_nat K) = true)
        by (apply Z.ltb_lt; lia).
      rewrite H. cbn -[Z.of_nat Z.add]. repeat split; lia.
    - assert (H : (Z.of_nat (Nat.min N K) <? Z.of_nat K) = false)
        by (apply Z.ltb_ge; lia).
      rewrite H. destruct (Z.of_nat d <? Z.of_nat K); cbn -[Z.of_nat Z.add];
        repeat split; lia. }
  destruct Hfields as (Hmax' & Hseen' & Hn').
  assert (Hy' : ~ In y (scores score_set)) by (intros H; apply Hy, Hincl, H).
  constructor; try assumption.
  - rewrite Hn', Hsc, Hn.
    destruct (Nat.ltb_spec N K) as [Hlt|Hge].
    + rewrite length_app. cbn [List.length]. lia.
    + destruct (Nat.ltb_spec d K) as [Hd|Hd]; [|reflexivity].
      rewrite write_slot_length by lia. reflexivity.
  - rewrite Hsc.
    destruct (Nat.ltb_spec N K) as [Hlt|Hge].
    + rewrite length_app. cbn [List.length]. lia.
    + destruct (Nat.ltb_spec d K) as [Hd|Hd].
      * rewrite write_slot_length by lia. lia.
      * lia.
  - intros z. rewrite Hsc.
    destruct (N <? K)%nat.
    + intros Hz. apply in_app_or in Hz. apply in_or_app.
      destruct Hz as [Hz|Hz]; auto.
    + destruct (d <? K)%nat.
      * intros Hz. apply write_slot_incl in Hz. apply in_or_app.
        destruct Hz as [->|Hz]; [right; left; reflexivity|auto].
      * intros Hz. apply in_or_app. auto.
  - intros Hnd'. apply NoDup_remove_1 with (a := y) in Hnd'.
    rewrite app_nil_r in Hnd'. specialize (Hnd Hnd').
    rewrite Hsc.
    destruct (N <? K)%nat.
    + apply NoDup_app; [exact Hnd|constructor; [intros []|constructor]|].
      intros z Hz [<-|[]]. exact (Hy' Hz).
    + destruct (d <? K)%nat; [|exact Hnd].
      apply write_slot_NoDup; assumption.
Qed.

Lemma combine_snoc {A B} (l1 : list A) : forall (l2 : list B) x y,
  List.length l1 = List.length l2 ->
  combine (l1 ++ [x]) (l2 ++ [y]) = combine l1 l2 ++ [(x, y)].
Proof.
  induction l1 as [|a l1 IH]; intros [|b l2] x y Hlen; simpl in *;
    try discriminate; [reflexivity|].
  rewrite IH by lia. reflexivity.
Qed.

Lemma reservoir_snoc max samples indices y d :
  List.length samples = List.length indices ->
  reservoir max (samples ++ [y]) (indices ++ [d])
  = record_score (reservoir max samples indices) y d.
Proof.
  intros Hlen. unfold reservoir.
  rewrite combine_snoc by exact Hlen. rewrite fold_left_app. reflexivity.
Qed.

Lemma index_sequences_snoc k ds :
  In ds (index_sequences (S k)) <->
  exists ds' d, In ds' (index_sequences k) /\ (d <= k)%nat /\ ds = ds' ++ [Z.of_nat d].
Proof.
  cbn [index_sequences]. rewrite in_flat_map. split.
  - intros (ds' & Hds' & Hin). apply in_map_iff in Hin.
    destruct Hin as (d & <- & Hd). apply in_seq in Hd.
    exists ds', d. repeat split; auto. lia.
  - intros (ds' & d & Hds' & Hd & ->). exists ds'. split; [exact Hds'|].
    apply in_map_iff. exists d. split; [reflexivity|]. apply in_seq. lia.
Qed.

Lemma index_sequences_length k : forall ds,
  In ds (index_sequences k) -> List.length ds = k.
Proof.
  induction k as [|k IH]; intros ds Hin.
  - destruct Hin as [<-|[]]. reflexivity.
  - apply index_sequences_snoc in Hin. destruct Hin as (ds' & d & Hds' & _ & ->).
    rewrite length_app, (IH ds' Hds'). simpl. lia.
Qed.

Lemma index_sequences_count k : List.length (index_sequences k) = fact k.
Proof.
  induction k as [|k IH]; [reflexivity|].
  cbn [index_sequences].
  rewrite flat_map_constant_length with (c := S k).
  - rewrite IH. cbn [fact]. lia.
  - intros ds _. rewrite length_map, length_seq. reflexivity.
Qed.

(** Every run of the experiment leaves a reservoir of min(N, K) samples,
    all from the stream and all different. *)
Lemma reservoir_state_run K samples : forall indices,
  NoDup samples ->
  In indices (index_sequences (List.length samples)) ->
  reservoir_state K (List.length samples) samples
                  (reservoir (Z.of_nat K) samples indices).
Proof.
  induction samples as [|y xs IH] using rev_ind; intros indices Hnd Hin.
  - destruct Hin as [<-|[]]. unfold reservoir. simpl.
    constructor; simpl; auto; try lia.
  - rewrite length_app in Hin |- *. simpl in Hin |- *.
    rewrite Nat.add_1_r in Hin |- *.
    apply index_sequences_snoc in Hin. destruct Hin as (ds & d & Hds & Hd & ->).
    assert (Hnd' : NoDup xs /\ ~ In y xs).
    { apply NoDup_remove in Hnd. rewrite app_nil_r in Hnd. exact Hnd. }
    destruct Hnd' as (Hndx & Hy).
    rewrite reservoir_snoc by (symmetry; apply index_sequences_length; exact Hds).
    apply record_score_state; [|exact Hy].
    apply IH; assumption.
Qed.

(** *** Counting *)

Lemma filter_flat_map {A B} (f : B -> bool) (g : A -> list B) l :
  filter f (flat_map g l) = flat_map (fun a => filter f (g a)) l.
Proof.
  induction l as [|a l IH]; simpl; [reflexivity|].
  rewrite filter_app, IH. reflexivity.
Qed.

Lemma filter_map_comp {A B} (f : B -> bool) (g : A -> B) l :
  filter f (map g l) = map g (filter (fun a => f (g a)) l).
Proof.
  induction l as [|a l IH]; simpl; [reflexivity|].
  destruct (f (g a)); simpl; rewrite IH; reflexivity.
Qed.

Lemma count_ext {A} (f g : A -> bool) l :
  (forall a, In a l -> f a = g a) ->
  List.length (filter f l) = List.length (filter g l).
Proof.
  intros H. rewrite (filter_ext_in f g l H). reflexivity.
Qed.

Lemma count_all {A} (l : list A) : List.length (filter (fun _ => true) l) = List.length l.
Proof. induction l; simpl; auto. Qed.

Lemma count_none {A} (l : list A) : List.length (filter (fun _ => false) l) = O.
Proof. induction l; simpl; auto. Qed.

(** Of the indices s .. s+len-1, those below [K]. *)
Lemma count_below K : forall len s,
  List.length (filter (fun d => (d <? K)%nat) (seq s len))
  = (Nat.min (s + len) K - Nat.min s K)%nat.
Proof.
  induction len as [|len IH]; intros s; simpl.
  - rewrite Nat.add_0_r. lia.
  - destruct (Nat.ltb_spec s K); simpl; rewrite IH; lia.
Qed.

(** Of the indices s .. s+len-1, those that are not [j]. *)
Lemma count_but_one j : forall len s,
  (s <= j < s + len)%nat ->
  List.length (filter (fun d => negb (d =? j)%nat) (seq s len)) = (len - 1)%nat.
Proof.
  induction len as [|len IH]; intros s Hj; simpl; [lia|].
  destruct (Nat.eqb_spec s j) as [->|Hne]; simpl.
  - rewrite (count_ext _ (fun _ => true)).
    + rewrite count_all, length_seq. lia.
    + intros d Hd. apply in_seq in Hd.
      destruct (Nat.eqb_spec d j); [lia|reflexivity].
  - rewrite IH by lia. destruct len; [lia|]. lia.
Qed.

Lemma list_sum_indicator {A} (b : A -> bool) (c : nat) l :
  list_sum (map (fun a => if b a then c else O) l)
  = (c * List.length (filter b l))%nat.
Proof.
  induction l as [|a l IH]; simpl; [lia|].
  rewrite IH. destruct (b a); simpl; lia.
Qed.

Lemma list_sum_const {A} (c : nat) (l : list A) :
  list_sum (map (fun _ => c) l) = (c * List.length l)%nat.
Proof. induction l as [|a l IH]; simpl; [lia|]. rewrite IH. lia. Qed.

Lemma list_sum_map_ext {A} (f g : A -> nat) l :
  (forall a, In a l -> f a = g a) -> list_sum (map f l) = list_sum (map g l).
Proof. intros H. rewrite (map_ext_in f g l H). reflexivity. Qed.

(** The count for a stream with one more sample, by the run before it and
    the last index. *)
Lemma count_runs_snoc P max samples y :
  count_runs P max (samples ++ [y])
  = list_sum
      (map (fun ds =>
              List.length
                (filter (fun d => P (record_score (reservoir max samples ds) y
                                                  (Z.of_nat d)))
                        (seq 0 (S (List.length samples)))))
           (index_sequences (List.length samples))).
Proof.
  unfold count_runs. rewrite length_app.
  change (List.length [y]) with 1%nat.
  rewrite Nat.add_1_r. cbn [index_sequences].
  rewrite filter_flat_map, length_flat_map.
  apply list_sum_map_ext. intros ds Hds.
  rewrite filter_map_comp, length_map.
  apply count_ext. intros d _.
  rewrite reservoir_snoc by (symmetry; apply index_sequences_length; exact Hds).
  reflexivity.
Qed.

Lemma write_slot_In_new l : forall d x,
  (d <= List.length l)%nat -> In x (write_slot l d x).
Proof.
  induction l as [|y l IH]; intros d x Hd; destruct d as [|d]; simpl in *;
    try lia; auto.
  right. apply IH. lia.
Qed.

Lemma bool_eq_iff (a b : bool) : (a = true <-> b = true) -> a = b.
Proof. destruct a, b; intuition congruence. Qed.

(** A sample of the stream so far, over the indices that the new sample
    may draw: once the reservoir is full, it survives all but one. *)
Lemma survivals_of_old K k samples score_set y x :
  reservoir_state K k samples score_set ->
  NoDup samples -> ~ In y samples -> In x samples ->
  List.length
    (filter (fun d => in_reservoir x (record_score score_set y (Z.of_nat d)))
            (seq 0 (S k)))
  = if in_reservoir x score_set then (if (k <? K)%nat then S k else k) else O.
Proof.
  intros Hst Hnd Hy Hx.
  assert (Hxy : x <> y) by (intros ->; contradiction).
  pose proof (rs_size _ _ _ _ Hst) as Hsize.
  pose proof (rs_nodup _ _ _ _ Hst Hnd) as Hnds.
  destruct (in_reservoir x score_set) eqn:E.
  - apply in_reservoir_In in E.
    destruct (Nat.ltb_spec k K) as [Hlt|Hge].
    + rewrite (count_ext _ (fun _ => true)); [rewrite count_all; apply length_seq|].
      intros d _. apply in_reservoir_In.
      rewrite (record_score_scores K k samples score_set y d Hst).
      apply Nat.ltb_lt in Hlt. rewrite Hlt. apply in_or_app. auto.
    + destruct (In_nth_error _ _ E) as (j & Hj).
      assert (Hjlt : (j < List.length (scores score_set))%nat).
      { apply nth_error_Some. rewrite Hj. discriminate. }
      rewrite (count_ext _ (fun d => negb (d =? j)%nat)).
      * rewrite count_but_one by lia. lia.
      * intros d _. apply bool_eq_iff.
        rewrite in_reservoir_In, negb_true_iff, Nat.eqb_neq.
        rewrite (record_score_scores K k samples score_set y d Hst).
        assert (Hk : (k <? K)%nat = false) by (apply Nat.ltb_ge; exact Hge).
        rewrite Hk.
        destruct (Nat.ltb_spec d K) as [Hd|Hd].
        -- rewrite write_slot_In by (auto; lia). split.
           ++ intros (_ & Hne) ->. contradiction.
           ++ intros Hne. split; [exact E|]. intros Hd'. apply Hne.
              rewrite NoDup_nth_error in Hnds. apply Hnds; [lia|congruence].
        -- split; [intros _; lia|intros _; exact E].
  - rewrite (count_ext _ (fun _ => false)); [apply count_none|].
    intros d _. apply not_true_iff_false. intros H.
    apply in_reservoir_In in H.
    rewrite (record_score_scores K k samples score_set y d Hst) in H.
    assert (Hin : In x (scores score_set)).
    { destruct (k <? K)%nat.
      - apply in_app_or in H. destruct H as [H|[H|[]]]; [exact H|congruence].
      - destruct (d <? K)%nat; [|exact H].
        apply write_slot_incl in H. destruct H as [H|H]; [congruence|exact H]. }
    apply in_reservoir_In in Hin. congruence.
Qed.

(** The new sample, over the indices that it may draw: it enters the
    reservoir when the index is below the capacity. *)
Lemma entries_of_new K k samples score_set y :
  reservoir_state K k samples score_set ->
  ~ In y samples ->
  List.length
    (filter (fun d => in_reservoir y (record_score score_set y (Z.of_nat d)))
            (seq 0 (S k)))
  = if (k <? K)%nat then S k else K.
Proof.
  intros Hst Hy.
  pose proof (rs_size _ _ _ _ Hst) as Hsize.
  assert (Hys : ~ In y (scores score_set)).
  { intros H. apply Hy. apply (rs_incl _ _ _ _ Hst). exact H. }
  destruct (Nat.ltb_spec k K) as [Hlt|Hge].
  - rewrite (count_ext _ (fun _ => true)); [rewrite count_all; apply length_seq|].
    intros d _. apply in_reservoir_In.
    rewrite (record_score_scores K k samples score_set y d Hst).
    apply Nat.ltb_lt in Hlt. rewrite Hlt. apply in_or_app. right. left. reflexivity.
  - rewrite (count_ext _ (fun d => (d <? K)%nat)).
    + rewrite count_below. lia.
    + intros d _. apply bool_eq_iff. rewrite in_reservoir_In.
      rewrite (record_score_scores K k samples score_set y d Hst).
      assert (Hk : (k <? K)%nat = false) by (apply Nat.ltb_ge; exact Hge).
      rewrite Hk. destruct (Nat.ltb_spec d K) as [Hd|Hd].
      * split; [reflexivity|]. intros _. apply write_slot_In_new. lia.
      * split; [contradiction|discriminate].
Qed.

(** Of the N! equally likely sequences of indices for a stream of N
    different samples, each sample is in the reservoir of capacity K at
    the end in a share min(N, K) / N of them. *)
Lemma times_sampled_share K samples : forall x,
  NoDup samples -> In x samples ->
  (times_sampled (Z.of_nat K) samples x * List.length samples
   = Nat.min (List.length samples) K * fact (List.length samples))%nat.
Proof.
  induction samples as [|y xs IH] using rev_ind; intros x Hnd Hx; [contradiction|].
  assert (Hnd' : NoDup xs /\ ~ In y xs).
  { apply NoDup_remove in Hnd. rewrite app_nil_r in Hnd. exact Hnd. }
  destruct Hnd' as (Hndx & Hy).
  set (k := List.length xs).
  assert (Hlen : List.length (xs ++ [y]) = S k).
  { rewrite length_app. simpl. unfold k. lia. }
  rewrite Hlen. unfold times_sampled. rewrite count_runs_snoc. fold k.
  assert (Hst : forall ds, In ds (index_sequences k) ->
                           reservoir_state K k xs (reservoir (Z.of_nat K) xs ds)).
  { intros ds Hds. apply reservoir_state_run; assumption. }
  apply in_app_or in Hx. destruct Hx as [Hx|[<-|[]]].
  - rewrite (list_sum_map_ext _
               (fun ds => if in_reservoir x (reservoir (Z.of_nat K) xs ds)
                          then (if (k <? K)%nat then S k else k) else O)).
    + rewrite list_sum_indicator.
      specialize (IH x Hndx Hx). fold k in IH.
      unfold times_sampled, count_runs in IH. fold k in IH.
      set (T := List.length (filter _ (index_sequences k))) in *.
      assert (Hk1 : (1 <= k)%nat).
      { unfold k. destruct xs; [contradiction|simpl; lia]. }
      cbn [fact].
      destruct (Nat.ltb_spec k K) as [Hlt|Hge].
      * rewrite Nat.min_l in IH by lia. rewrite Nat.min_l by lia.
        assert (HT : T = fact k) by nia. rewrite HT. nia.
      * rewrite Nat.min_r in IH by lia. rewrite Nat.min_r by lia. nia.
    + intros ds Hds. apply survivals_of_old with (samples := xs); auto.
  - rewrite (list_sum_map_ext _ (fun _ => if (k <? K)%nat then S k else K)).
    + rewrite list_sum_const, index_sequences_count. cbn [fact].
      destruct (Nat.ltb_spec k K) as [Hlt|Hge].
      * rewrite Nat.min_l by lia. nia.
      * rewrite Nat.min_r by lia. nia.
    + intros ds Hds. apply entries_of_new with (samples := xs); auto.
Qed.

(** *** Every set of K samples is as likely as any other *)

Lemma existsb_score_In x l : existsb (score_eqb x) l = true <-> In x l.
Proof.
  rewrite existsb_exists. split.
  - intros (y & Hy & Heq). apply score_eqb_eq in Heq. subst. exact Hy.
  - intros H. exists x. split; [exact H|]. apply score_eqb_eq. reflexivity.
Qed.

Lemma same_scores_spec chosen l :
  same_scores chosen l = true <-> (forall z, In z chosen <-> In z l).
Proof.
  unfold same_scores. rewrite andb_true_iff, !forallb_forall. split.
  - intros (H1 & H2) z. split; intros Hz.
    + apply existsb_score_In. apply H1. exact Hz.
    + apply existsb_score_In. apply H2. exact Hz.
  - intros H. split; intros z Hz; apply existsb_score_In; apply H; exact Hz.
Qed.

(** While the reservoir fills, it holds the stream. *)
Lemma reservoir_filling K samples : forall indices,
  NoDup samples -> (List.length samples <= K)%nat ->
  In indices (index_sequences (List.length samples)) ->
  scores (reservoir (Z.of_nat K) samples indices) = samples.
Proof.
  induction samples as [|y xs IH] using rev_ind; intros indices Hnd Hle Hin.
  - destruct Hin as [<-|[]]. reflexivity.
  - rewrite length_app in Hin, Hle. change (List.length [y]) with 1%nat in Hin, Hle.
    rewrite Nat.add_1_r in Hin.
    apply index_sequences_snoc in Hin. destruct Hin as (ds & d & Hds & Hd & ->).
    assert (Hnd' : NoDup xs /\ ~ In y xs).
    { apply NoDup_remove in Hnd. rewrite app_nil_r in Hnd. exact Hnd. }
    destruct Hnd' as (Hndx & Hy).
    rewrite reservoir_snoc by (symmetry; apply index_sequences_length; exact Hds).
    rewrite (record_score_scores K (List.length xs) xs)
      by (apply reservoir_state_run; assumption).
    assert (Hlt : (List.length xs <? K)%nat = true) by (apply Nat.ltb_lt; lia).
    rewrite Hlt. rewrite IH by (auto; lia). reflexivity.
Qed.

Lemma map_nth_seq {A} (l : list A) (def : A) :
  map (fun d => nth d l def) (seq 0 (List.length l)) = l.
Proof.
  induction l as [|a l IH]; simpl; [reflexivity|].
  rewrite <- seq_shift, map_map. simpl. rewrite IH. reflexivity.
Qed.

(** Counting the slots whose sample satisfies [P] is counting the samples
    that satisfy it. *)
Lemma count_slots {A} (P : A -> bool) (l : list A) (def : A) :
  List.length (filter (fun d => P (nth d l def)) (seq 0 (List.length l)))
  = List.length (filter P l).
Proof.
  transitivity (List.length (filter P (map (fun d => nth d l def)
                                           (seq 0 (List.length l))))).
  - rewrite filter_map_comp, length_map. reflexivity.
  - rewrite map_nth_seq. reflexivity.
Qed.

Lemma list_sum_plus {A} (f g : A -> nat) l :
  list_sum (map (fun a => (f a + g a)%nat) l)
  = (list_sum (map f l) + list_sum (map g l))%nat.
Proof. induction l as [|a l IH]; simpl; [reflexivity|]. rewrite IH. lia. Qed.

(** Counting pairs by rows or by columns. *)
Lemma count_swap {A B} (F : A -> B -> bool) (la : list A) (lb : list B) :
  list_sum (map (fun a => List.length (filter (F a) lb)) la)
  = list_sum (map (fun b => List.length (filter (fun a => F a b) la)) lb).
Proof.
  induction la as [|a la IH]; simpl.
  - rewrite (list_sum_const 0 lb). reflexivity.
  - rewrite IH.
    rewrite (list_sum_map_ext
               (fun b => List.length (if F a b then a :: filter (fun a0 => F a0 b) la
                                      else filter (fun a0 => F a0 b) la))
               (fun b => ((if F a b then 1 else 0)
                          + List.length (filter (fun a0 => F a0 b) la))%nat)).
    + rewrite list_sum_plus, list_sum_indicator. lia.
    + intros b _. destruct (F a b); reflexivity.
Qed.

(** Two duplicate-free selections of the same samples are as long. *)
Lemma count_same_members (p1 p2 : SCORE -> bool) l1 l2 :
  NoDup l1 -> NoDup l2 ->
  (forall z, In z l1 /\ p1 z = true <-> In z l2 /\ p2 z = true) ->
  List.length (filter p1 l1) = List.length (filter p2 l2).
Proof.
  intros H1 H2 H. apply Permutation_length. apply NoDup_Permutation.
  - apply NoDup_filter. exact H1.
  - apply NoDup_filter. exact H2.
  - intros z. rewrite !filter_In. apply H.
Qed.

(** The samples of the stream outside a duplicate-free part of it. *)
Lemma count_outside (chosen samples : list SCORE) :
  NoDup samples -> NoDup chosen -> incl chosen samples ->
  List.length (filter (fun z => negb (existsb (score_eqb z) chosen)) samples)
  = (List.length samples - List.length chosen)%nat.
Proof.
  intros Hs Hc Hincl.
  pose proof (filter_length (fun z => existsb (score_eqb z) chosen) samples) as Hlen.
  assert (Hin : List.length (filter (fun z => existsb (score_eqb z) chosen) samples)
                = List.length chosen).
  { apply Permutation_length. apply NoDup_Permutation.
    - apply NoDup_filter. exact Hs.
    - exact Hc.
    - intros z. rewrite filter_In, existsb_score_In. split; [tauto|].
      intros Hz. split; [apply Hincl; exact Hz|exact Hz]. }
  cbv beta in Hlen. rewrite Hin in Hlen. lia.
Qed.

Lemma count_not_below K k :
  (K <= S k)%nat ->
  List.length (filter (fun d => negb (d <? K)%nat) (seq 0 (S k))) = (S k - K)%nat.
Proof.
  intros HK.
  pose proof (filter_length (fun d => (d <? K)%nat) (seq 0 (S k))) as Hlen.
  rewrite count_below, length_seq in Hlen. lia.
Qed.

(** A set of K samples without the new one: the runs that had it keep it
    when the index drawn is not below the capacity. *)
Lemma draws_without_new K k samples score_set y chosen :
  (K <= k)%nat ->
  reservoir_state K k samples score_set ->
  ~ In y chosen ->
  List.length
    (filter (fun d => same_scores chosen
                        (scores (record_score score_set y (Z.of_nat d))))
            (seq 0 (S k)))
  = if same_scores chosen (scores score_set) then (S k - K)%nat else O.
Proof.
  intros HK Hst Hy.
  pose proof (rs_size _ _ _ _ Hst) as Hsize.
  assert (Hk : (k <? K)%nat = false) by (apply Nat.ltb_ge; exact HK).
  rewrite (count_ext _ (fun d => negb (d <? K)%nat
                                 && same_scores chosen (scores score_set))).
  - destruct (same_scores chosen (scores score_set)).
    + rewrite (count_ext _ (fun d => negb (d <? K)%nat)).
      * apply count_not_below. lia.
      * intros d _. apply andb_true_r.
    + rewrite (count_ext _ (fun _ => false)); [apply count_none|].
      intros d _. apply andb_false_r.
  - intros d _.
    rewrite (record_score_scores K k samples score_set y d Hst), Hk.
    destruct (Nat.ltb_spec d K) as [Hd|Hd]; simpl; [|reflexivity].
    apply not_true_iff_false. intros H. apply Hy.
    apply (proj1 (same_scores_spec _ _) H). apply write_slot_In_new. lia.
Qed.

(** A set of K samples with the new one, for a slot [d] of the full
    reservoir that holds [w]: the new sample in slot [d] makes the set
    just when the set with [w] for the new sample was in the reservoir. *)
Lemma same_scores_write_slot l d w y chosen :
  NoDup l -> ~ In y l -> In y chosen ->
  nth_error l d = Some w ->
  let others := filter (fun s => negb (score_eqb s y)) chosen in
  same_scores chosen (write_slot l d y)
  = negb (existsb (score_eqb w) others) && same_scores (w :: others) l.
Proof.
  intros Hnd Hyl Hyc Hw others.
  assert (Hd : (d < List.length l)%nat) by (apply nth_error_Some; congruence).
  assert (Hwl : In w l) by (eapply nth_error_In; eauto).
  assert (Hothers : forall z, In z others <-> In z chosen /\ z <> y).
  { intros z. unfold others. rewrite filter_In, negb_true_iff.
    split; intros (Hz & Hne); split; auto.
    - intros ->. rewrite (proj2 (score_eqb_eq y y) eq_refl) in Hne. discriminate.
    - apply not_true_iff_false. intros H. apply score_eqb_eq in H. contradiction. }
  apply bool_eq_iff.
  rewrite andb_true_iff, negb_true_iff, <- not_true_iff_false, existsb_score_In,
    !same_scores_spec.
  split.
  - intros H. split.
    + intros Hwo. apply Hothers in Hwo. destruct Hwo as (Hwc & Hwy).
      apply H in Hwc. apply write_slot_In in Hwc; auto. tauto.
    + intros z. split.
      * intros [<-|Hz]; [exact Hwl|].
        apply Hothers in Hz. destruct Hz as (Hzc & Hzy).
        apply H in Hzc. apply write_slot_In in Hzc; auto. tauto.
      * intros Hz.
        assert (Hzy : z <> y) by (intros ->; contradiction).
        destruct (score_eqb z w) eqn:E.
        -- apply score_eqb_eq in E. left. auto.
        -- right. apply Hothers. split; [|exact Hzy].
           apply H. apply write_slot_In; auto. split; [exact Hz|].
           intros Hn. rewrite Hw in Hn. inversion Hn; subst.
           rewrite (proj2 (score_eqb_eq z z) eq_refl) in E. discriminate.
  - intros (Hwo & H) z.
    destruct (score_eqb z y) eqn:E.
    + apply score_eqb_eq in E. subst z. split; intros _; [|exact Hyc].
      apply write_slot_In_new. lia.
    + assert (Hzy : z <> y).
      { intros ->. rewrite (proj2 (score_eqb_eq y y) eq_refl) in E. discriminate. }
      rewrite write_slot_In by auto. split.
      * intros Hzc. assert (Hzo : In z others) by (apply Hothers; auto).
        split; [apply H; right; exact Hzo|].
        intros Hn. rewrite Hw in Hn. inversion Hn; subst. contradiction.
      * intros (Hzl & Hn). apply H in Hzl. destruct Hzl as [<-|Hzo].
        -- contradiction.
        -- apply Hothers in Hzo. tauto.
Qed.

(** A set of K samples with the new one: the indices that make it are as
    many as the samples of the stream that can stand for the new one in a
    set that the reservoir held. *)
Lemma draws_with_new K k samples score_set y chosen :
  (K <= k)%nat ->
  reservoir_state K k samples score_set ->
  NoDup samples -> ~ In y samples -> In y chosen ->
  let others := filter (fun s => negb (score_eqb s y)) chosen in
  List.length
    (filter (fun d => same_scores chosen
                        (scores (record_score score_set y (Z.of_nat d))))
            (seq 0 (S k)))
  = List.length
      (filter (fun z => same_scores (z :: others) (scores score_set))
              (filter (fun z => negb (existsb (score_eqb z) others)) samples)).
Proof.
  intros HK Hst Hnd Hy Hyc others.
  pose proof (rs_size _ _ _ _ Hst) as Hsize.
  pose proof (rs_nodup _ _ _ _ Hst Hnd) as Hnds.
  assert (Hys : ~ In y (scores score_set)).
  { intros H. apply Hy. apply (rs_incl _ _ _ _ Hst). exact H. }
  assert (Hlen : List.length (scores score_set) = K) by lia.
  assert (Hk : (k <? K)%nat = false) by (apply Nat.ltb_ge; exact HK).
  replace (S k) with (K + (S k - K))%nat by lia.
  rewrite seq_app, filter_app, length_app.
  rewrite (count_ext _ (fun _ => false) (seq (0 + K) (S k - K))).
  - rewrite count_none, Nat.add_0_r.
    pose (g := fun w => negb (existsb (score_eqb w) others)
                        && same_scores (w :: others) (scores score_set)).
    rewrite (count_ext _ (fun d => g (nth d (scores score_set) y))).
    + pose proof (count_slots g (scores score_set) y) as Hslots.
      rewrite Hlen in Hslots. rewrite Hslots. unfold g.
      apply count_same_members.
      * exact Hnds.
      * apply NoDup_filter. exact Hnd.
      * intros z. rewrite filter_In, andb_true_iff. split.
        -- intros (Hz & Hno & Hsame). repeat split; auto.
           apply (rs_incl _ _ _ _ Hst). exact Hz.
        -- intros ((Hz & Hno) & Hsame). repeat split; auto.
           apply (proj1 (same_scores_spec _ _) Hsame). left. reflexivity.
    + intros d Hd. apply in_seq in Hd.
      rewrite (record_score_scores K k samples score_set y d Hst), Hk.
      assert (HdK : (d <? K)%nat = true) by (apply Nat.ltb_lt; lia).
      rewrite HdK. unfold g.
      apply same_scores_write_slot; auto.
      apply nth_error_nth'. lia.
  - intros d Hd. apply in_seq in Hd.
    rewrite (record_score_scores K k samples score_set y d Hst), Hk.
    assert (HdK : (d <? K)%nat = false) by (apply Nat.ltb_ge; lia).
    rewrite HdK. apply not_true_iff_false. intros H. apply Hys.
    apply (proj1 (same_scores_spec _ _) H). exact Hyc.
Qed.

(** A reservoir that the stream has just filled holds the stream in every
    run. *)
Lemma times_drawn_full K samples chosen :
  NoDup samples -> NoDup chosen -> incl chosen samples ->
  List.length chosen = K -> List.length samples = K ->
  times_drawn (Z.of_nat K) samples chosen = fact K.
Proof.
  intros Hnd Hc Hincl Hlc Hls.
  unfold times_drawn, count_runs.
  rewrite (count_ext _ (fun _ => true)).
  - rewrite count_all, index_sequences_count, Hls. reflexivity.
  - intros ds Hds. rewrite reservoir_filling by (auto; lia).
    apply same_scores_spec. intros z. split; [apply Hincl|].
    apply NoDup_length_incl; [exact Hc|lia|exact Hincl].
Qed.

(** Of the N! equally likely sequences of indices for a stream of N
    different samples, K!(N-K)! leave the reservoir of capacity K with a
    given set of K samples: one share in (N choose K), the same for every
    set. *)
Lemma times_drawn_uniform K samples :
  NoDup samples ->
  forall chosen,
    NoDup chosen -> incl chosen samples -> List.length chosen = K ->
    times_drawn (Z.of_nat K) samples chosen
    = (fact K * fact (List.length samples - K))%nat.
Proof.
  induction samples as [|y xs IH] using rev_ind; intros Hnd chosen Hc Hincl Hlc.
  - assert (HK : K = O).
    { destruct chosen as [|c ?]; [simpl in Hlc; lia|].
      exfalso. apply (Hincl c). left. reflexivity. }
    subst K. destruct chosen; [reflexivity|discriminate].
  - assert (Hnd' : NoDup xs /\ ~ In y xs).
    { apply NoDup_remove in Hnd. rewrite app_nil_r in Hnd. exact Hnd. }
    destruct Hnd' as (Hndx & Hy).
    set (k := List.length xs).
    assert (Hlen : List.length (xs ++ [y]) = S k).
    { rewrite length_app. simpl. unfold k. lia. }
    assert (HKle : (K <= S k)%nat).
    { rewrite <- Hlc, <- Hlen. apply NoDup_incl_length; assumption. }
    destruct (Nat.eq_dec K (S k)) as [Hfull|Hnotfull].
    + rewrite times_drawn_full by (auto; lia).
      rewrite Hlen, Hfull, Nat.sub_diag. change (fact 0) with 1%nat. lia.
    + assert (HK : (K <= k)%nat) by lia.
      rewrite Hlen. unfold times_drawn. rewrite count_runs_snoc. fold k.
      assert (Hst : forall ds, In ds (index_sequences k) ->
                               reservoir_state K k xs (reservoir (Z.of_nat K) xs ds)).
      { intros ds Hds. apply reservoir_state_run; assumption. }
      assert (Hfact : fact (S k - K) = ((S k - K) * fact (k - K))%nat).
      { replace (S k - K)%nat with (S (k - K)) by lia. reflexivity. }
      destruct (existsb (score_eqb y) chosen) eqn:Ey.
      * (* the set holds the new sample *)
        apply existsb_score_In in Ey.
        set (others := filter (fun s => negb (score_eqb s y)) chosen).
        set (outside := filter (fun z => negb (existsb (score_eqb z) others)) xs).
        assert (Hothers : forall z, In z others <-> In z chosen /\ z <> y).
        { intros z. unfold others. rewrite filter_In, negb_true_iff.
          split; intros (Hz & Hne); split; auto.
          - intros ->. rewrite (proj2 (score_eqb_eq y y) eq_refl) in Hne. discriminate.
          - apply not_true_iff_false. intros H. apply score_eqb_eq in H.
            contradiction. }
        assert (Hndo : NoDup others) by (apply NoDup_filter; exact Hc).
        assert (Hinclo : incl others xs).
        { intros z Hz. apply Hothers in Hz. destruct Hz as (Hz & Hzy).
          apply Hincl in Hz. apply in_app_or in Hz.
          destruct Hz as [Hz|[Hz|[]]]; [exact Hz|congruence]. }
        assert (Hleno : S (List.length others) = K).
        { rewrite <- Hlc. change (S (List.length others)) with (List.length (y :: others)).
          apply Permutation_length. apply NoDup_Permutation.
          - constructor; [|exact Hndo]. intros H. apply Hothers in H. tauto.
          - exact Hc.
          - intros z. simpl. rewrite Hothers. split.
            + intros [<-|(Hz & _)]; assumption.
            + intros Hz. destruct (score_eqb z y) eqn:E.
              * apply score_eqb_eq in E. left. auto.
              * right. split; [exact Hz|]. intros ->.
                rewrite (proj2 (score_eqb_eq y y) eq_refl) in E. discriminate. }
        rewrite (list_sum_map_ext _
                   (fun ds => List.length
                                (filter (fun z => same_scores (z :: others)
                                                    (scores (reservoir (Z.of_nat K) xs ds)))
                                        outside))).
        -- rewrite (count_swap
                      (fun ds z => same_scores (z :: others)
                                     (scores (reservoir (Z.of_nat K) xs ds)))).
           rewrite (list_sum_map_ext _ (fun _ => (fact K * fact (k - K))%nat)).
           ++ rewrite list_sum_const. unfold outside.
              rewrite count_outside by assumption. fold k. rewrite Hfact.
              replace (k - List.length others)%nat with (S k - K)%nat by lia. lia.
           ++ intros z Hz. unfold outside in Hz. apply filter_In in Hz.
              destruct Hz as (Hzx & Hzo).
              apply negb_true_iff in Hzo. apply not_true_iff_false in Hzo.
              rewrite existsb_score_In in Hzo.
              apply (IH Hndx (z :: others)).
              ** constructor; assumption.
              ** intros u [<-|Hu]; [exact Hzx|apply Hinclo; exact Hu].
              ** simpl. exact Hleno.
        -- intros ds Hds. apply (draws_with_new K k xs); auto.
      * (* the set does not hold the new sample *)
        apply not_true_iff_false in Ey. rewrite existsb_score_In in Ey.
        assert (Hinclx : incl chosen xs).
        { intros z Hz. pose proof (Hincl z Hz) as Hz'. apply in_app_or in Hz'.
          destruct Hz' as [Hz'|[<-|[]]]; [exact Hz'|contradiction]. }
        rewrite (list_sum_map_ext _
                   (fun ds => if same_scores chosen (scores (reservoir (Z.of_nat K) xs ds))
                              then (S k - K)%nat else O)).
        -- rewrite list_sum_indicator.
           pose proof (IH Hndx chosen Hc Hinclx Hlc) as IHc.
           unfold times_drawn, count_runs in IHc. fold k in IHc.
           rewrite IHc, Hfact. lia.
        -- intros ds Hds. apply draws_without_new with (samples := xs); auto.
Qed.

(** *** The update of the reservoir in the scan *)

(** The index of line 862 lies in [0, num_scores_seen). *)
Lemma to_int_range seen u :
  0 < seen -> (0 <= u)%Q -> (u < 1)%Q ->
  0 <= to_int (inject_Z seen * u) < seen.
Proof.
  intros Hseen H0 H1. unfold to_int.
  destruct u as [a b]. unfold Qle, Qlt in *. simpl in *.
  rewrite Z.mul_1_r in H0, H1.
  assert (Ha : 0 <= a) by lia.
  split.
  - apply Z.quot_pos; [nia|lia].
  - apply Z.quot_lt_upper_bound; [nia|lia|]. nia.
Qed.

(** Lines 849-885 on the counters and the slots. *)
Lemma record_score_update score_set x score_index :
  num_scores_seen (record_score score_set x score_index) = num_scores_seen score_set + 1
  /\ max_scores_saved (record_score score_set x score_index) = max_scores_saved score_set
  /\ (n score_set < max_scores_saved score_set ->
      n (record_score score_set x score_index) = n score_set + 1
      /\ scores (record_score score_set x score_index)
         = write_slot (scores score_set) (Z.to_nat (n score_set)) x)
  /\ (max_scores_saved score_set <= n score_set ->
      n (record_score score_set x score_index) = n score_set
      /\ scores (record_score score_set x score_index)
         = if score_index <? max_scores_saved score_set
           then write_slot (scores score_set) (Z.to_nat score_index) x
           else scores score_set).
Proof.
  unfold record_score, choose_slot_at.
  destruct (Z.ltb_spec (n score_set) (max_scores_saved score_set)) as [Hlt|Hge].
  - simpl. repeat split; auto; lia.
  - destruct (score_index <? max_scores_saved score_set); simpl;
      repeat split; auto; lia.
Qed.

(** The scan records a score above [LOG_SMALL] with the index that it
    computes from the random number. *)
Lemma save_score_records {X : Externals} sequence pm viterbi_score score_set serial
    g :
  dgt viterbi_score LOG_SMALL = true ->
  let score_index :=
    to_int (inject_Z (num_scores_seen score_set + 1) * fst (mts_drand g)) in
  let x := mkScore viterbi_score (raw_seq_length pm) (raw_nhits pm)
                   (end_match pm - start_match pm + 1) (gc_around sequence pm)
                   serial in
  let '(_, score_set', _, g') :=
    save_score sequence pm viterbi_score score_set serial g in
  score_set' = record_score score_set x score_index
  /\ g' = if n score_set <? max_scores_saved score_set then g else snd (mts_drand g).
Proof.
  intros Hbig. unfold save_score, choose_slot, record_score, choose_slot_at.
  rewrite Hbig.
  destruct (n score_set <? max_scores_saved score_set); simpl.
  - split; reflexivity.
  - destruct (mts_drand g) as [u g']. simpl.
    destruct (_ <? _); split; reflexivity.
Qed.

(** The index of line 862 is [d] for the numbers of [d/seen, (d+1)/seen):
    an interval of length 1/seen, whatever the index. *)
Lemma to_int_interval seen u d :
  0 < seen -> (0 <= u)%Q ->
  to_int (inject_Z seen * u) = d
  <-> (inject_Z d / inject_Z seen <= u /\ u < inject_Z (d + 1) / inject_Z seen)%Q.
Proof.
  intros Hseen H0. destruct seen as [|p|p]; try lia. destruct u as [a b].
  unfold to_int, Qle, Qlt, Qdiv, Qmult, Qinv, inject_Z in *.
  cbn [Qnum Qden] in *. rewrite !Pos.mul_1_l.
  rewrite Z.mul_1_r in H0. change (0 * Z.pos b) with 0 in H0.
  rewrite Z.quot_div_nonneg by lia.
  pose proof (Z.mul_div_le (Z.pos p * a) (Z.pos b) eq_refl) as Hlow.
  pose proof (Z.mul_succ_div_gt (Z.pos p * a) (Z.pos b) eq_refl) as Hhigh.
  split.
  - intros <-. lia.
  - intros (H1 & H2). symmetry.
    apply Z.div_unique with (r := Z.pos p * a - Z.pos b * d); lia.
Qed.

(** *** From the numbers drawn to the indices *)

Lemma write_slot_map (f : SCORE -> SCORE) l : forall d x,
  map f (write_slot l d x) = write_slot (map f l) d (f x).
Proof.
  induction l as [|y l IH]; intros [|d] x; simpl; try reflexivity.
  rewrite IH. reflexivity.
Qed.

(** Two score sets with the same counters and the same samples, serial
    numbers apart. *)
Lemma record_score_without_serial ss ss' x d :
  scores ss' = map without_serial (scores ss) ->
  n ss' = n ss -> max_scores_saved ss' = max_scores_saved ss ->
  num_scores_seen ss' = num_scores_seen ss ->
  let r := record_score ss x d in
  let r' := record_score ss' (without_serial x) d in
  scores r' = map without_serial (scores r)
  /\ n r' = n r /\ max_scores_saved r' = max_scores_saved r
  /\ num_scores_seen r' = num_scores_seen r.
Proof.
  intros Hs Hn Hmax Hseen. cbv zeta. unfold record_score, choose_slot_at.
  rewrite Hn, Hmax, Hseen.
  destruct (n ss <? max_scores_saved ss); simpl.
  - rewrite write_slot_map, Hs. auto.
  - destruct (d <? max_scores_saved ss); simpl.
    + rewrite write_slot_map, Hs. auto.
    + auto.
Qed.

(** While the reservoir has room the index plays no part. *)
Lemma record_score_room ss x d d' :
  n ss < max_scores_saved ss -> record_score ss x d = record_score ss x d'.
Proof.
  intros H. apply Z.ltb_lt in H. unfold record_score, choose_slot_at.
  rewrite H. reflexivity.
Qed.

Section DrawsToIndices.

Context {X : Externals}.

(** The body of the match loop on the score set and the generator, for a
    score above [LOG_SMALL]. *)
Lemma process_match_records dp_thresh sequence pm st :
  dgt (dsub (raw_score pm) dp_thresh) LOG_SMALL = true ->
  let st' := process_match dp_thresh sequence pm st in
  let score_index :=
    to_int (inject_Z (num_scores_seen (score_set st) + 1)
            * fst (mts_drand (prng st))) in
  exists x,
    without_serial x = sample_of dp_thresh (sequence, pm)
    /\ score_set st' = record_score (score_set st) x score_index
    /\ prng st' = if n (score_set st) <? max_scores_saved (score_set st)
                  then prng st else snd (mts_drand (prng st)).
Proof.
  intros Hbig st' score_index.
  pose proof (process_match_score_set dp_thresh sequence pm st) as Hs.
  pose proof (save_score_records sequence pm (dsub (raw_score pm) dp_thresh)
                (score_set st) (serial_no st) (prng st) Hbig) as Hr.
  destruct (save_score sequence pm (dsub (raw_score pm) dp_thresh)
              (score_set st) (serial_no st) (prng st))
    as [[[gc score_set1] serial_no1] prng1].
  destruct Hs as (Hs1 & _ & Hs3). destruct Hr as (Hr1 & Hr2).
  eexists. split; [|split].
  2: { unfold st'. rewrite Hs1. exact Hr1. }
  - reflexivity.
  - unfold st'. rewrite Hs3. exact Hr2.
Qed.

Lemma record_matches_cons dp_thresh m rest st :
  record_matches dp_thresh (m :: rest) st
  = record_matches dp_thresh rest (process_match dp_thresh (fst m) (snd m) st).
Proof. reflexivity. Qed.

(** While the reservoir fills, no number is drawn, and the samples are
    those of the experiment on the indices, whatever its indices. *)
Lemma record_matches_filling dp_thresh : forall stream st ss' pre,
  Forall (fun m => dgt (dsub (raw_score (snd m)) dp_thresh) LOG_SMALL = true) stream ->
  scores ss' = map without_serial (scores (score_set st)) ->
  n ss' = n (score_set st) ->
  max_scores_saved ss' = max_scores_saved (score_set st) ->
  num_scores_seen ss' = num_scores_seen (score_set st) ->
  n (score_set st) + Z.of_nat (List.length stream) <= max_scores_saved (score_set st) ->
  List.length pre = List.length stream ->
  let st1 := record_matches dp_thresh stream st in
  let ss1 := fold_left (fun ss xd => record_score ss (fst xd) (snd xd))
                       (combine (map (sample_of dp_thresh) stream) pre) ss' in
  scores ss1 = map without_serial (scores (score_set st1))
  /\ n ss1 = n (score_set st1)
  /\ max_scores_saved ss1 = max_scores_saved (score_set st1)
  /\ num_scores_seen ss1 = num_scores_seen (score_set st1)
  /\ prng st1 = prng st
  /\ n (score_set st1) = n (score_set st) + Z.of_nat (List.length stream)
  /\ max_scores_saved (score_set st1) = max_scores_saved (score_set st)
  /\ num_scores_seen (score_set st1)
     = num_scores_seen (score_set st) + Z.of_nat (List.length stream).
Proof.
  induction stream as [|[sequence pm] rest IH]; intros st ss' pre Hbig Hs Hn Hmax Hseen
    Hroom Hlen.
  - destruct pre; [|discriminate Hlen]. simpl. repeat split; auto; lia.
  - destruct pre as [|d pre]; [discriminate Hlen|].
    inversion Hbig as [|? ? Hm Hrest]; subst.
    cbn [List.length] in Hroom, Hlen. rewrite Nat2Z.inj_succ in Hroom.
    cbn [snd] in Hm.
    destruct (process_match_records dp_thresh sequence pm st Hm) as (x & Hx & Hss & Hg).
    assert (Hlt : n (score_set st) < max_scores_saved (score_set st)) by lia.
    rewrite (record_score_room _ x _ d Hlt) in Hss.
    assert (Hltb : (n (score_set st) <? max_scores_saved (score_set st)) = true)
      by (apply Z.ltb_lt; exact Hlt).
    rewrite Hltb in Hg.
    destruct (record_score_without_serial (score_set st) ss' x d Hs Hn Hmax Hseen)
      as (A1 & A2 & A3 & A4).
    rewrite Hx in A1, A2, A3, A4. rewrite <- Hss in A1, A2, A3, A4.
    destruct (record_score_update (score_set st) x d) as (U1 & U2 & U3 & _).
    destruct (U3 Hlt) as (U4 & _).
    rewrite <- Hss in U1, U2, U4.
    rewrite record_matches_cons. cbn [fst snd].
    set (st' := process_match dp_thresh sequence pm st) in *.
    specialize (IH st' _ pre Hrest A1 A2 A3 A4).
    cbn [fold_left map combine fst snd List.length].
    rewrite Nat2Z.inj_succ.
    destruct IH as (B1 & B2 & B3 & B4 & B5 & B6 & B7 & B8); [lia|lia|].
    repeat split; try assumption; try congruence; lia.
Qed.

(** Once the reservoir is full, a number is drawn for every sample, and
    the samples are those of the experiment on the indices that line 862
    computes from the numbers. *)
Lemma record_matches_full dp_thresh (replay : list Q -> mt_state) :
  (forall u us, mts_drand (replay (u :: us)) = (u, replay us)) ->
  forall stream st ss' us,
  Forall (fun m => dgt (dsub (raw_score (snd m)) dp_thresh) LOG_SMALL = true) stream ->
  scores ss' = map without_serial (scores (score_set st)) ->
  n ss' = n (score_set st) ->
  max_scores_saved ss' = max_scores_saved (score_set st) ->
  num_scores_seen ss' = num_scores_seen (score_set st) ->
  max_scores_saved (score_set st) <= n (score_set st) ->
  prng st = replay us ->
  List.length us = List.length stream ->
  let st1 := record_matches dp_thresh stream st in
  let ss1 := fold_left (fun ss xd => record_score ss (fst xd) (snd xd))
                       (combine (map (sample_of dp_thresh) stream)
                                (drawn_indices (num_scores_seen (score_set st)) us))
                       ss' in
  scores ss1 = map without_serial (scores (score_set st1)).
Proof.
  intros Hreplay.
  induction stream as [|[sequence pm] rest IH]; intros st ss' us Hbig Hs Hn Hmax Hseen
    Hfull Hg0 Hlen.
  - destruct us; [|discriminate Hlen]. simpl. exact Hs.
  - destruct us as [|u us]; [discriminate Hlen|].
    inversion Hbig as [|? ? Hm Hrest]; subst.
    cbn [List.length] in Hlen. cbn [snd] in Hm.
    destruct (process_match_records dp_thresh sequence pm st Hm) as (x & Hx & Hss & Hg).
    assert (Hltb : (n (score_set st) <? max_scores_saved (score_set st)) = false)
      by (apply Z.ltb_ge; exact Hfull).
    rewrite Hltb, Hg0, Hreplay in Hg. rewrite Hg0, Hreplay in Hss. simpl in Hg, Hss.
    set (d := to_int (inject_Z (num_scores_seen (score_set st) + 1) * u)) in *.
    destruct (record_score_without_serial (score_set st) ss' x d Hs Hn Hmax Hseen)
      as (A1 & A2 & A3 & A4).
    rewrite Hx in A1, A2, A3, A4. rewrite <- Hss in A1, A2, A3, A4.
    destruct (record_score_update (score_set st) x d) as (U1 & U2 & _ & U3).
    destruct (U3 Hfull) as (U4 & _).
    rewrite <- Hss in U1, U2, U4.
    rewrite record_matches_cons. cbn [fst snd].
    set (st' := process_match dp_thresh sequence pm st) in *.
    cbn [fold_left map combine fst snd List.length drawn_indices].
    fold d. rewrite <- U1.
    apply (IH st' _ us Hrest A1 A2 A3 A4); [lia|exact Hg|lia].
Qed.

Lemma combine_app_same {A B} (l1 : list A) : forall (l2 : list B) r1 r2,
  List.length l1 = List.length l2 ->
  combine (l1 ++ r1) (l2 ++ r2) = combine l1 l2 ++ combine r1 r2.
Proof.
  induction l1 as [|a l1 IH]; intros [|b l2] r1 r2 Hlen; simpl in *;
    try discriminate; [reflexivity|].
  rewrite IH by lia. reflexivity.
Qed.

(** A stream recorded by the scan from an empty reservoir of capacity [K],
    with a generator that returns the numbers [us]: the samples at the
    end are those of the experiment on the indices, with the indices that
    line 862 computes from [us] for the samples after the first [K], and
    any indices for the first [K]. *)
Lemma record_matches_reservoir dp_thresh (replay : list Q -> mt_state) K stream st0
    us pre :
  (forall u us, mts_drand (replay (u :: us)) = (u, replay us)) ->
  Forall (fun m => dgt (dsub (raw_score (snd m)) dp_thresh) LOG_SMALL = true) stream ->
  scores (score_set st0) = [] ->
  n (score_set st0) = 0 ->
  num_scores_seen (score_set st0) = 0 ->
  max_scores_saved (score_set st0) = Z.of_nat K ->
  List.length us = (List.length stream - K)%nat ->
  List.length pre = Nat.min (List.length stream) K ->
  sampled (record_matches dp_thresh stream (set_prng st0 (replay us)))
  = scores (reservoir (Z.of_nat K) (map (sample_of dp_thresh) stream)
                      (pre ++ drawn_indices
                                (Z.of_nat (Nat.min (List.length stream) K)) us)).
Proof.
  intros Hreplay Hbig Hs0 Hn0 Hseen0 Hmax0 Hus Hpre.
  set (N := List.length stream) in *.
  set (K' := Nat.min N K) in *.
  assert (Hsplit : stream = firstn K' stream ++ skipn K' stream)
    by (symmetry; apply firstn_skipn).
  set (s1 := firstn K' stream) in *. set (s2 := skipn K' stream) in *.
  assert (Hl1 : List.length s1 = K').
  { unfold s1. rewrite length_firstn. fold N. unfold K'. lia. }
  assert (Hl2 : List.length s2 = (N - K)%nat).
  { unfold s2. rewrite length_skipn. fold N. unfold K'. lia. }
  assert (Hbig12 : Forall (fun m => dgt (dsub (raw_score (snd m)) dp_thresh) LOG_SMALL
                                    = true) s1
                   /\ Forall (fun m => dgt (dsub (raw_score (snd m)) dp_thresh) LOG_SMALL
                                       = true) s2).
  { rewrite Hsplit in Hbig. apply Forall_app in Hbig. exact Hbig. }
  destruct Hbig12 as (Hbig1 & Hbig2).
  unfold sampled, reservoir. rewrite Hsplit at 1 2.
  unfold record_matches. rewrite fold_left_app, map_app.
  rewrite combine_app_same by (rewrite length_map; lia).
  rewrite fold_left_app.
  fold (record_matches dp_thresh s1 (set_prng st0 (replay us))).
  set (st_start := set_prng st0 (replay us)).
  set (ss_start := mkScoreSet [] 0 (Z.of_nat K) 0 0 0).
  destruct (record_matches_filling dp_thresh s1 st_start ss_start pre Hbig1)
    as (B1 & B2 & B3 & B4 & B5 & B6 & B7 & B8).
  - simpl. rewrite Hs0. reflexivity.
  - simpl. rewrite Hn0. reflexivity.
  - simpl. rewrite Hmax0. reflexivity.
  - simpl. rewrite Hseen0. reflexivity.
  - simpl. rewrite Hn0, Hmax0, Hl1. unfold K'. lia.
  - lia.
  - set (st1 := record_matches dp_thresh s1 st_start) in *.
    set (ss1 := fold_left _ (combine (map (sample_of dp_thresh) s1) pre) ss_start) in *.
    fold (record_matches dp_thresh s2 st1).
    simpl in B5, B6, B7, B8. rewrite Hn0, Hl1 in B6. rewrite Hseen0, Hl1 in B8.
    rewrite Hmax0 in B7.
    destruct (Nat.le_gt_cases K N) as [Hge|Hlt].
    + replace (Z.of_nat K') with (num_scores_seen (score_set st1)) by lia.
      symmetry.
      apply (record_matches_full dp_thresh replay Hreplay s2 st1 ss1 us Hbig2 B1 B2 B3 B4).
      * rewrite B6, B7. unfold K'. lia.
      * exact B5.
      * lia.
    + assert (Hnil2 : s2 = []) by (apply length_zero_iff_nil; lia).
      assert (Hnilu : us = []) by (apply length_zero_iff_nil; lia).
      rewrite Hnil2, Hnilu. simpl. symmetry. exact B1.
Qed.

End DrawsToIndices.

(** *** Counting over the numbers drawn *)

Lemma list_sum_flat_map {A B} (h : B -> nat) (G : A -> list B) l :
  list_sum (map h (flat_map G l))
  = list_sum (map (fun a => list_sum (map h (G a))) l).
Proof.
  induction l as [|a l IH]; simpl; [reflexivity|].
  rewrite map_app, list_sum_app, IH. reflexivity.
Qed.

Lemma list_sum_scaled {A} (c : nat) (h : A -> nat) l :
  list_sum (map (fun a => (c * h a)%nat) l) = (c * list_sum (map h l))%nat.
Proof. induction l as [|a l IH]; simpl; [lia|]. rewrite IH. lia. Qed.

Lemma drawn_indices_snoc us : forall seen u,
  drawn_indices seen (us ++ [u])
  = drawn_indices seen us
    ++ [to_int (inject_Z (seen + Z.of_nat (List.length us) + 1) * u)].
Proof.
  induction us as [|v us IH]; intros seen u.
  - simpl. rewrite Z.add_0_r. reflexivity.
  - cbn [app drawn_indices List.length]. rewrite IH. rewrite Nat2Z.inj_succ.
    replace (seen + 1 + Z.of_nat (List.length us) + 1)
      with (seen + Z.succ (Z.of_nat (List.length us)) + 1) by lia.
    reflexivity.
Qed.

Lemma draw_sequences_length M L : forall us,
  In us (draw_sequences M L) -> List.length us = L.
Proof.
  induction L as [|l IH]; intros us Hin.
  - destruct Hin as [<-|[]]. reflexivity.
  - cbn [draw_sequences] in Hin. apply in_flat_map in Hin.
    destruct Hin as (us' & Hus' & Hin). apply in_map_iff in Hin.
    destruct Hin as (j & <- & _). rewrite length_app, (IH us' Hus'). simpl. lia.
Qed.

Lemma draw_sequences_count M L : List.length (draw_sequences M L) = (M ^ L)%nat.
Proof.
  induction L as [|l IH]; [reflexivity|].
  cbn [draw_sequences].
  rewrite flat_map_constant_length with (c := M).
  - rewrite IH. cbn [Nat.pow]. lia.
  - intros us _. rewrite length_map, length_seq. reflexivity.
Qed.

(** The index that line 862 computes from the number j/(s m) of the grid,
    with s scores seen: j / m. *)
Lemma to_int_grid s m j :
  (j < s * m)%nat ->
  to_int (inject_Z (Z.of_nat s) * (Z.of_nat j # Pos.of_nat (s * m)))
  = Z.of_nat (j / m).
Proof.
  intros Hj.
  assert (Hm : (0 < m)%nat) by nia.
  assert (Hs : (0 < s)%nat) by nia.
  unfold to_int. cbn [Qmult Qnum Qden inject_Z]. rewrite Pos.mul_1_l.
  assert (Hpos : Z.pos (Pos.of_nat (s * m)) = Z.of_nat (s * m)).
  { rewrite <- positive_nat_Z. rewrite Nat2Pos.id by nia. reflexivity. }
  rewrite Hpos. rewrite Z.quot_div_nonneg by lia.
  rewrite Nat2Z.inj_mul, Z.div_mul_cancel_l by lia.
  rewrite Nat2Z.inj_div. reflexivity.
Qed.

(** Of the s m numbers of the grid, m give each of the s indices. *)
Lemma grid_sum (F : nat -> nat) m : forall s,
  list_sum (map (fun j => F (j / m)%nat) (seq 0 (s * m)))
  = (m * list_sum (map F (seq 0 s)))%nat.
Proof.
  induction s as [|s IH]; [simpl; lia|].
  replace (S s * m)%nat with (s * m + m)%nat by lia.
  rewrite seq_app, map_app, list_sum_app, IH.
  rewrite seq_S, map_app, list_sum_app. cbn [Nat.add map list_sum].
  rewrite (list_sum_map_ext (fun j => F (j / m)%nat) (fun _ => F s) (seq (s * m) m)).
  - rewrite list_sum_const, length_seq. simpl (list_sum [F s]). nia.
  - intros j Hj. apply in_seq in Hj. f_equal.
    symmetry. apply Nat.div_unique with (r := (j - s * m)%nat); lia.
Qed.

(** The sequences of draws against the sequences of indices: with a grid
    of [M] numbers, [M] a multiple of every number of scores seen at a
    draw, every sequence of indices is computed from the same number of
    sequences of draws. *)
Lemma draws_to_indices (M K' : nat) : forall L (f : list Z -> nat),
  (forall i, (i < L)%nat -> Nat.divide (S (K' + i)) M) ->
  (list_sum
     (map (fun pre =>
             list_sum (map (fun us => f (pre ++ drawn_indices (Z.of_nat K') us))
                           (draw_sequences M L)))
          (index_sequences K'))
   * fact (K' + L)
   = list_sum (map f (index_sequences (K' + L))) * M ^ L * fact K')%nat.
Proof.
  induction L as [|l IH]; intros f Hdiv.
  - rewrite Nat.add_0_r. simpl.
    rewrite (list_sum_map_ext _ f).
    + lia.
    + intros pre _. rewrite app_nil_r. lia.
  - destruct (Hdiv l (Nat.lt_succ_diag_r l)) as (m & Hm).
    set (s := S (K' + l)) in *.
    set (f' := fun ds => (m * list_sum (map (fun d => f (ds ++ [Z.of_nat d]))
                                         (seq 0 s)))%nat).
    assert (Hleft :
      list_sum
        (map (fun pre =>
                list_sum (map (fun us => f (pre ++ drawn_indices (Z.of_nat K') us))
                              (draw_sequences M (S l))))
             (index_sequences K'))
      = list_sum
          (map (fun pre =>
                  list_sum (map (fun us => f' (pre ++ drawn_indices (Z.of_nat K') us))
                                (draw_sequences M l)))
               (index_sequences K'))).
    { apply list_sum_map_ext. intros pre _.
      cbn [draw_sequences]. rewrite list_sum_flat_map.
      apply list_sum_map_ext. intros us Hus.
      rewrite map_map. unfold f'.
      rewrite <- (grid_sum (fun d => f ((pre ++ drawn_indices (Z.of_nat K') us)
                                         ++ [Z.of_nat d])) m s).
      replace (s * m)%nat with M by lia.
      apply list_sum_map_ext. intros j Hj. apply in_seq in Hj.
      rewrite drawn_indices_snoc, (draw_sequences_length M l us Hus).
      rewrite app_assoc.
      replace (Z.of_nat K' + Z.of_nat l + 1) with (Z.of_nat s) by (unfold s; lia).
      replace M with (s * m)%nat at 1 by lia.
      rewrite to_int_grid by lia. reflexivity. }
    assert (Hright :
      list_sum (map f (index_sequences (K' + S l)))
      = list_sum (map (fun ds => list_sum (map (fun d => f (ds ++ [Z.of_nat d]))
                                               (seq 0 s)))
                      (index_sequences (K' + l)))).
    { rewrite Nat.add_succ_r. cbn [index_sequences]. rewrite list_sum_flat_map.
      apply list_sum_map_ext. intros ds _. rewrite map_map. reflexivity. }
    rewrite Hleft, Hright.
    specialize (IH f' (fun i Hi => Hdiv i (Nat.lt_lt_succ_r _ _ Hi))).
    unfold f' in IH at 2. rewrite list_sum_scaled in IH.
    rewrite Nat.add_succ_r. cbn [fact Nat.pow]. fold s.
    set (A := list_sum (map _ (index_sequences K'))) in *.
    set (T := list_sum (map _ (index_sequences (K' + l)))) in *.
    set (P := (M ^ l)%nat) in *. rewrite Hm.
    transitivity (A * fact (K' + l) * s)%nat; [lia|].
    rewrite IH. lia.
Qed.

(** A number of the grid lies in [0, 1). *)
Lemma grid_number_range M j :
  (j < M)%nat ->
  (0 <= Z.of_nat j # Pos.of_nat M)%Q /\ (Z.of_nat j # Pos.of_nat M < 1)%Q.
Proof.
  intros Hj.
  assert (Hpos : Z.pos (Pos.of_nat M) = Z.of_nat M).
  { rewrite <- positive_nat_Z. rewrite Nat2Pos.id by lia. reflexivity. }
  unfold Qle, Qlt. cbn [Qnum Qden]. rewrite Hpos. lia.
Qed.

(** The indices computed from numbers of the grid are indices of the
    experiment on the indices. *)
Lemma drawn_indices_in_sequences M K' pre :
  In pre (index_sequences K') ->
  forall L us,
    In us (draw_sequences M L) ->
    In (pre ++ drawn_indices (Z.of_nat K') us) (index_sequences (K' + L)).
Proof.
  intros Hpre. induction L as [|l IH]; intros us Hus.
  - destruct Hus as [<-|[]]. simpl. rewrite app_nil_r, Nat.add_0_r. exact Hpre.
  - cbn [draw_sequences] in Hus. apply in_flat_map in Hus.
    destruct Hus as (us' & Hus' & Hin). apply in_map_iff in Hin.
    destruct Hin as (j & <- & Hj). apply in_seq in Hj.
    rewrite drawn_indices_snoc, (draw_sequences_length M l us' Hus'), app_assoc.
    rewrite Nat.add_succ_r. apply index_sequences_snoc.
    destruct (grid_number_range M j) as (H0 & H1); [lia|].
    pose proof (to_int_range (Z.of_nat K' + Z.of_nat l + 1)
                  (Z.of_nat j # Pos.of_nat M) ltac:(lia) H0 H1) as Hrange.
    set (d := to_int _) in *.
    exists (pre ++ drawn_indices (Z.of_nat K') us'), (Z.to_nat d).
    split; [apply IH; exact Hus'|]. split; [lia|].
    rewrite Z2Nat.id by lia. reflexivity.
Qed.

Section DrawsUniform.

Context {X : Externals}.

(** The experiment on the numbers drawn against the experiment on the
    indices: the counts are in the proportion of the sizes of the two
    experiments, M^(N-K) sequences of draws and N! sequences of indices. *)
Lemma count_draws_by_indices (P : list SCORE -> bool) dp_thresh
    (replay : list Q -> mt_state) K M stream st0 :
  (forall u us, mts_drand (replay (u :: us)) = (u, replay us)) ->
  Forall (fun m => dgt (dsub (raw_score (snd m)) dp_thresh) LOG_SMALL = true) stream ->
  scores (score_set st0) = [] ->
  n (score_set st0) = 0 ->
  num_scores_seen (score_set st0) = 0 ->
  max_scores_saved (score_set st0) = Z.of_nat K ->
  (forall k, (K < k <= List.length stream)%nat -> Nat.divide k M) ->
  (count_draws P M (List.length stream - K)
     (fun us => sampled (record_matches dp_thresh stream (set_prng st0 (replay us))))
   * fact (List.length stream)
   = count_runs (fun score_set => P (scores score_set)) (Z.of_nat K)
                (map (sample_of dp_thresh) stream)
     * M ^ (List.length stream - K))%nat.
Proof.
  intros Hreplay Hbig Hs0 Hn0 Hseen0 Hmax0 Hdiv.
  set (N := List.length stream) in *.
  set (K' := Nat.min N K). set (L := (N - K)%nat).
  set (samples := map (sample_of dp_thresh) stream).
  assert (HN : N = (K' + L)%nat) by (unfold K', L; lia).
  set (f := fun ds => if P (scores (reservoir (Z.of_nat K) samples ds))
                      then 1%nat else O).
  assert (Hd : forall i, (i < L)%nat -> Nat.divide (S (K' + i)) M).
  { intros i Hi. apply Hdiv. unfold K', L in *. lia. }
  pose proof (draws_to_indices M K' L f Hd) as Hpush.
  rewrite <- HN in Hpush.
  assert (Hleft :
    list_sum
      (map (fun pre =>
              list_sum (map (fun us => f (pre ++ drawn_indices (Z.of_nat K') us))
                            (draw_sequences M L)))
           (index_sequences K'))
    = (count_draws P M L
         (fun us => sampled (record_matches dp_thresh stream
                                            (set_prng st0 (replay us))))
       * fact K')%nat).
  { rewrite (list_sum_map_ext _
               (fun _ => count_draws P M L
                           (fun us => sampled (record_matches dp_thresh stream
                                                 (set_prng st0 (replay us)))))).
    - rewrite list_sum_const, index_sequences_count. reflexivity.
    - intros pre Hpre. apply index_sequences_length in Hpre.
      unfold count_draws.
      rewrite <- (Nat.mul_1_l (List.length (filter _ (draw_sequences M L)))).
      rewrite <- list_sum_indicator.
      apply list_sum_map_ext. intros us Hus.
      apply draw_sequences_length in Hus. unfold f.
      rewrite (record_matches_reservoir dp_thresh replay K stream st0 us pre);
        auto. }
  assert (Hright :
    list_sum (map f (index_sequences N))
    = count_runs (fun score_set => P (scores score_set)) (Z.of_nat K) samples).
  { unfold f. rewrite list_sum_indicator. unfold count_runs, samples.
    rewrite length_map. fold N. lia. }
  rewrite Hleft, Hright in Hpush.
  pose proof (fact_neq_0 K') as HK'.
  nia.
Qed.

End DrawsUniform.

(** C3: the update of the reservoir counts the sample; while n <
    max_scores_saved it puts the sample in slot n and counts it in n;
    otherwise it computes an index from the number drawn, puts the sample
    in that slot when the index is below max_scores_saved and drops it
    when not.  The index lies in [0, num_scores_seen) and is drawn
    uniformly when the number is: it is d for the numbers of the interval
    [d / num_scores_seen, (d+1) / num_scores_seen), of the same length for
    every d.  Over the N! equally likely sequences of indices for a stream
    of N different samples, the reservoir of capacity K ends with min(N, K)
    samples of the stream, each sample is in it in a share min(N, K) / N of
    the sequences, and when K <= N every set of K samples is the content of
    the reservoir in the same number K!(N-K)! of them.  And so does the
    scan: when it records a stream of N matches with different samples
    from an empty reservoir, with a generator that returns numbers of a
    grid 0, 1/M, ..., (M-1)/M whose size M is a multiple of every number
    of scores seen at a draw, its reservoir is that of the experiment on
    the indices computed from the numbers, it holds min(N, K) different
    samples of the stream, and of the M^(N-K) equally likely sequences of
    numbers a share min(N, K) / N leaves a given sample in the reservoir
    and a share K!(N-K)! / N! leaves it with a given set of K samples: a
    uniform sample. *)
Theorem reservoir_holds_uniform_sample {X : Externals} :
  (forall score_set x score_index,
     num_scores_seen (record_score score_set x score_index)
     = num_scores_seen score_set + 1
     /\ max_scores_saved (record_score score_set x score_index)
        = max_scores_saved score_set
     /\ (n score_set < max_scores_saved score_set ->
         n (record_score score_set x score_index) = n score_set + 1
         /\ scores (record_score score_set x score_index)
            = write_slot (scores score_set) (Z.to_nat (n score_set)) x)
     /\ (max_scores_saved score_set <= n score_set ->
         n (record_score score_set x score_index) = n score_set
         /\ scores (record_score score_set x score_index)
            = if score_index <? max_scores_saved score_set
              then write_slot (scores score_set) (Z.to_nat score_index) x
              else scores score_set))
  /\ (forall sequence pm viterbi_score score_set serial g,
        dgt viterbi_score LOG_SMALL = true ->
        let u := fst (mts_drand g) in
        let seen := num_scores_seen score_set + 1 in
        let score_index := to_int (inject_Z seen * u) in
        let x := mkScore viterbi_score (raw_seq_length pm) (raw_nhits pm)
                         (end_match pm - start_match pm + 1) (gc_around sequence pm)
                         serial in
        (let '(_, score_set', _, g') :=
           save_score sequence pm viterbi_score score_set serial g in
         score_set' = record_score score_set x score_index
         /\ g' = if n score_set <? max_scores_saved score_set
                 then g else snd (mts_drand g))
        /\ (0 <= num_scores_seen score_set -> (0 <= u)%Q -> (u < 1)%Q ->
            0 <= score_index < seen
            /\ forall d,
                 score_index = d
                 <-> (inject_Z d / inject_Z seen <= u
                      /\ u < inject_Z (d + 1) / inject_Z seen)%Q))
  /\ (forall (K : nat) samples,
        NoDup samples ->
        let N := List.length samples in
        List.length (index_sequences N) = fact N
        /\ (forall indices,
              In indices (index_sequences N) ->
              let score_set := reservoir (Z.of_nat K) samples indices in
              List.length (scores score_set) = Nat.min N K
              /\ n score_set = Z.of_nat (Nat.min N K)
              /\ num_scores_seen score_set = Z.of_nat N
              /\ incl (scores score_set) samples
              /\ NoDup (scores score_set))
        /\ (forall x, In x samples ->
              (times_sampled (Z.of_nat K) samples x * N = Nat.min N K * fact N)%nat)
        /\ (forall chosen,
              NoDup chosen -> incl chosen samples -> List.length chosen = K ->
              times_drawn (Z.of_nat K) samples chosen = (fact K * fact (N - K))%nat))
  /\ (forall (K M : nat) (replay : list Q -> mt_state) dp_thresh stream st0,
        (forall u us, mts_drand (replay (u :: us)) = (u, replay us)) ->
        Forall (fun m => dgt (dsub (raw_score (snd m)) dp_thresh) LOG_SMALL = true)
               stream ->
        NoDup (map (sample_of dp_thresh) stream) ->
        scores (score_set st0) = [] ->
        n (score_set st0) = 0 ->
        num_scores_seen (score_set st0) = 0 ->
        max_scores_saved (score_set st0) = Z.of_nat K ->
        let N := List.length stream in
        (forall k, (K < k <= N)%nat -> Nat.divide k M) ->
        let samples_after us :=
          sampled (record_matches dp_thresh stream (set_prng st0 (replay us))) in
        List.length (draw_sequences M (N - K)) = (M ^ (N - K))%nat
        /\ (forall us pre,
              List.length us = (N - K)%nat -> List.length pre = Nat.min N K ->
              samples_after us
              = scores (reservoir (Z.of_nat K) (map (sample_of dp_thresh) stream)
                                  (pre ++ drawn_indices (Z.of_nat (Nat.min N K)) us)))
        /\ (forall us,
              In us (draw_sequences M (N - K)) ->
              List.length (samples_after us) = Nat.min N K
              /\ incl (samples_after us) (map (sample_of dp_thresh) stream)
              /\ NoDup (samples_after us))
        /\ (forall m, In m stream ->
              (count_draws (existsb (score_eqb (sample_of dp_thresh m))) M (N - K)
                           samples_after * N
               = Nat.min N K * M ^ (N - K))%nat)
        /\ (forall chosen,
              NoDup chosen -> incl chosen (map (sample_of dp_thresh) stream) ->
              List.length chosen = K ->
              (count_draws (same_scores chosen) M (N - K) samples_after * fact N
               = fact K * fact (N - K) * M ^ (N - K))%nat)).
Proof.
  split; [|split; [|split]].
  - intros. apply record_score_update.
  - intros sequence pm viterbi_score score_set serial g Hbig u seen score_index x.
    split.
    + apply (save_score_records sequence pm viterbi_score score_set serial g Hbig).
    + intros Hseen H0 H1. split.
      * apply to_int_range; [unfold seen; lia|exact H0|exact H1].
      * intros d. apply to_int_interval; [unfold seen; lia|exact H0].
  - intros K samples Hnd N. split; [apply index_sequences_count|].
    split; [|split].
    + intros indices Hin score_set.
      pose proof (reservoir_state_run K samples indices Hnd Hin) as Hst.
      fold score_set in Hst. fold N in Hst.
      destruct Hst as [Hmax Hseen Hn Hsize Hincl Hnds].
      repeat split; auto. rewrite Hn, Hsize. reflexivity.
    + intros x Hx. apply times_sampled_share; assumption.
    + intros chosen Hc Hincl Hlen. apply times_drawn_uniform; assumption.
  - intros K M replay dp_thresh stream st0 Hreplay Hbig Hnd Hs0 Hn0 Hseen0 Hmax0 N Hdiv
      samples_after.
    assert (HN : List.length (map (sample_of dp_thresh) stream) = N)
      by apply length_map.
    split; [apply draw_sequences_count|]. split; [|split; [|split]].
    + intros us pre Hus Hpre.
      apply (record_matches_reservoir dp_thresh replay K stream st0 us pre); assumption.
    + intros us Hus.
      assert (Hsome : exists pre, In pre (index_sequences (Nat.min N K))).
      { pose proof (index_sequences_count (Nat.min N K)) as Hc.
        pose proof (fact_neq_0 (Nat.min N K)) as Hf.
        destruct (index_sequences (Nat.min N K)) as [|pre ?]; [simpl in Hc; lia|].
        exists pre. left. reflexivity. }
      destruct Hsome as (pre & Hpre).
      pose proof (drawn_indices_in_sequences M _ pre Hpre _ us Hus) as Hin.
      replace (Nat.min N K + (N - K))%nat with N in Hin by lia.
      rewrite <- HN in Hin.
      pose proof (reservoir_state_run K _ _ Hnd Hin) as Hst.
      rewrite HN in Hst.
      unfold samples_after.
      rewrite (record_matches_reservoir dp_thresh replay K stream st0 us pre);
        try assumption.
      * destruct Hst as [_ _ _ Hsize Hincl Hnds].
        split; [exact Hsize|]. split; [exact Hincl|exact (Hnds Hnd)].
      * apply (draw_sequences_length _ _ _ Hus).
      * apply (index_sequences_length _ _ Hpre).
    + intros m Hm.
      pose proof (count_draws_by_indices (existsb (score_eqb (sample_of dp_thresh m)))
                    dp_thresh replay K M stream st0 Hreplay Hbig Hs0 Hn0 Hseen0 Hmax0
                    Hdiv) as Hcount.
      fold N in Hcount. fold samples_after in Hcount.
      pose proof (times_sampled_share K (map (sample_of dp_thresh) stream)
                    (sample_of dp_thresh m) Hnd (in_map _ _ _ Hm)) as Hshare.
      rewrite HN in Hshare. unfold times_sampled in Hshare.
      change (count_runs (in_reservoir (sample_of dp_thresh m)))
        with (count_runs (fun score_set =>
                            existsb (score_eqb (sample_of dp_thresh m))
                                    (scores score_set))) in Hshare.
      pose proof (fact_neq_0 N) as HfN.
      nia.
    + intros chosen Hc Hincl Hlen.
      pose proof (count_draws_by_indices (same_scores chosen)
                    dp_thresh replay K M stream st0 Hreplay Hbig Hs0 Hn0 Hseen0 Hmax0
                    Hdiv) as Hcount.
      fold N in Hcount. fold samples_after in Hcount.
      pose proof (times_drawn_uniform K (map (sample_of dp_thresh) stream) Hnd
                    chosen Hc Hincl Hlen) as Hset.
      rewrite HN in Hset. unfold times_drawn in Hset.
      rewrite Hset in Hcount. exact Hcount.
Qed.

(** * The examples *)

Lemma retained_below_purged_witness :
  let st := toy_scan early_fit 2 three_matches tt in
  let r1 := hd (toy_match NaN) (purged (events st)) in
  let r2 := hd (toy_match NaN) (retained st) in
  dge (match_pvalue r2) (match_pvalue r1) = false
  /\ dle (match_pvalue r2) (match_pvalue r1) = true
  /\ dlt (match_pvalue r2) (match_pvalue r1) = true.
Proof.
  intros st r1 r2.
  destruct (@retained_below_purged early_fit 2 0 (mkScoreSet [] 0 2 0 0 0)
              empty_evd_set three_matches (Fin 0) tt) as [Hst Hall]; [lia|].
  destruct (Hall st r1 r2) as [H1 H2].
  - exact Hst.
  - vm_compute. left. reflexivity.
  - vm_compute. left. reflexivity.
  - split; [exact H1|]. apply H2; reflexivity.
Defined.

(** C2 as stated fails: with a provisional fit that succeeds only from the
    third score on, a heap of capacity 2 is purged while no p-value is
    set; the record freed has p-value NaN, the record kept is re-scored
    later to 1/4, and 1/4 <= NaN does not hold; under the fit the record
    freed would have had the p-value 1/8, below that of the record kept. *)
Lemma purged_not_below_retained_counterexample :
  let st := toy_scan late_fit 2 three_matches_rising tt in
  map match_pvalue (purged (events st)) = [NaN]
  /\ map match_pvalue (retained st) = [Fin (1 # 4)]
  /\ map (fun m => match_pvalue (rescore (initial_evd_set st) (Fin 0) m))
         (purged (events st)) = [Fin (1 # 8)]
  /\ ~ purged_not_below_retained st.
Proof.
  intros st. split; [reflexivity|]. split; [reflexivity|]. split; [reflexivity|].
  intros H.
  specialize (H (hd (toy_match NaN) (purged (events st)))
                (hd (toy_match NaN) (retained st))).
  assert (H1 : In (hd (toy_match NaN) (purged (events st))) (purged (events st)))
    by (vm_compute; left; reflexivity).
  assert (H2 : In (hd (toy_match NaN) (retained st)) (retained st))
    by (vm_compute; left; reflexivity).
  specialize (H H1 H2). vm_compute in H. discriminate H.
Qed.


Lemma heap_bounded_purges_non_increasing_witness :
  let st := toy_scan early_fit 2 three_matches tt in
  exists h,
    mcast_match_heap st = Some h
    /\ get_max_size h = 2
    /\ get_num_nodes h <= 2
    /\ (2 <= 2 -> get_num_nodes h + 1 <= 2)
    /\ (forall m, get_num_nodes (add_node_heap h m) <= 2)
    /\ StronglySorted not_above (purge_returns (events st)).
Proof.
  intros st.
  destruct (@heap_bounded_purges_non_increasing early_fit 2 0 (mkScoreSet [] 0 2 0 0 0)
              empty_evd_set three_matches (Fin 0) tt) as [Hst Hall]; [lia|].
  exact (Hall st Hst).
Defined.

Lemma tiny_score_not_counted_witness :
  let st := toy_scan no_fit 2 one_match tt in
  let st' := process_match (Fin 0) toy_window tiny_match st in
  score_set st' = score_set st
  /\ num_scores_seen (score_set st') = num_scores_seen (score_set st)
  /\ scores (score_set st') = scores (score_set st)
  /\ n (score_set st') = n (score_set st)
  /\ serial_no st' = serial_no st
  /\ prng st' = prng st.
Proof.
  apply (@tiny_score_not_counted no_fit (Fin 0) toy_window tiny_match
           (toy_scan no_fit 2 one_match tt)).
  vm_compute. reflexivity.
Defined.

Lemma deferred_or_skipped_witness :
  let st := toy_scan no_fit 2 [] tt in
  find_matches (Fin 0) open_window [late_match] st = st
  /\ find_matches (Fin 0) toy_window [cursor_match] st
     = find_matches (Fin 0) toy_window [] (set_start_pos st (end_match cursor_match + 1)).
Proof.
  intros st. split.
  - apply (proj1 (@deferred_or_skipped no_fit (Fin 0) open_window late_match [] st)).
    + reflexivity.
    + vm_compute. reflexivity.
  - apply (proj2 (@deferred_or_skipped no_fit (Fin 0) toy_window cursor_match [] st)).
    + left. reflexivity.
    + reflexivity.
Defined.

(** C7 (a) as stated fails: in a window that is not the last of its
    sequence, a match that starts at the scan cursor inside the trailing
    overlap region ends the match loop, and the cursor stays where it was,
    at 4500, instead of moving past the end of the match, to 4521. *)
Lemma skipped_at_cursor_counterexample :
  let st := set_start_pos (toy_scan no_fit 2 [] tt) 4500 in
  start_match late_match = start_pos st
  /\ start_pos (find_matches (Fin 0) open_window [late_match] st) = 4500
  /\ ~ @skipped_at_cursor no_fit.
Proof.
  intros st. split; [reflexivity|]. split; [reflexivity|].
  intros H.
  specialize (H (Fin 0) open_window late_match [] st eq_refl).
  apply (f_equal start_pos) in H. vm_compute in H. discriminate H.
Qed.

Lemma no_statistics_without_evd_witness :
  match snd (@mcast no_fit toy_options true (4, 2) three_matches tt) with
  | Finished report =>
      stats_available report = false
      /\ report_matches report
         = retained (@real_scan no_fit toy_options three_matches tt)
  | Fatal _ => False
  end.
Proof.
  destruct (@mcast no_fit toy_options true (4, 2) three_matches tt)
    as [phases [report|message]] eqn:E; simpl.
  - pose proof E as E'. vm_compute in E'. inversion E' as [[Hphases Hreport]].
    subst phases report.
    destruct (@no_statistics_without_evd no_fit toy_options true (4, 2) three_matches
                tt _ _ E) as (H1 & H2 & _).
    + vm_compute. intros H. discriminate H.
    + split; [exact H1|exact H2].
  - vm_compute in E. discriminate E.
Defined.

Lemma evalue_is_scores_seen_times_pvalue_witness :
  match snd (@mcast early_fit toy_options true (4, 2) three_matches tt) with
  | Finished report =>
      let N := num_scores_seen
                 (score_set (@real_scan early_fit toy_options three_matches tt)) in
      N = 3
      /\ evd_N (report_evd_set report) = N
      /\ Forall (fun m => match_evalue m = dmul (of_int N) (match_pvalue m))
                (report_matches report)
      /\ List.length (report_matches report) = 1%nat
  | Fatal _ => False
  end.
Proof.
  destruct (@mcast early_fit toy_options true (4, 2) three_matches tt)
    as [phases [report|message]] eqn:E; simpl.
  - pose proof E as E'. vm_compute in E'. inversion E' as [[Hphases Hreport]].
    subst phases report.
    destruct (@evalue_is_scores_seen_times_pvalue early_fit toy_options true (4, 2)
                three_matches tt _ _ E) as (H1 & H2 & H3).
    + right. left. reflexivity.
    + vm_compute. reflexivity.
    + split; [reflexivity|]. split; [exact H1|]. split; [exact H2|].
      rewrite H3. reflexivity.
  - vm_compute in E. discriminate E.
Defined.

Lemma unsuitable_alphabet_fatal_before_scan_witness :
  exists message,
    @main no_fit toy_options MEME_FORMAT (20, 0) 1 true three_matches tt
    = ([], Fatal message).
Proof.
  apply (@unsuitable_alphabet_fatal_before_scan no_fit toy_options MEME_FORMAT
           (20, 0) 1 true three_matches tt).
  - split; reflexivity.
  - intros [core pairs] H.
    change ((4 =? core) && (2 =? pairs) = true) in H.
    apply andb_true_iff in H. destruct H as (Hc & Hp).
    apply Z.eqb_eq in Hc. apply Z.eqb_eq in Hp.
    change (core = 4 /\ pairs = 2). split; congruence.
  - simpl. intros [H _]. discriminate H.
Defined.

Lemma four_scores_NoDup : NoDup four_scores.
Proof.
  unfold four_scores, toy_score. simpl.
  repeat constructor; simpl; intuition discriminate.
Qed.

Lemma four_matches_NoDup :
  NoDup (map (@sample_of replayed_draws (Fin 0)) four_matches).
Proof.
  unfold four_matches, sample_of. simpl.
  repeat constructor; simpl; intuition discriminate.
Qed.

Lemma reservoir_holds_uniform_sample_witness :
  (* a sample while the reservoir has room, and one when it is full *)
  (let score_set := mkScoreSet [toy_score 1] 1 2 1 10 0 in
   n (record_score score_set (toy_score 2) 0) = 2
   /\ scores (record_score score_set (toy_score 2) 0) = [toy_score 1; toy_score 2])
  /\ (let score_set := mkScoreSet [toy_score 1; toy_score 2] 2 2 2 10 0 in
      n (record_score score_set (toy_score 3) 1) = 2
      /\ scores (record_score score_set (toy_score 3) 1) = [toy_score 1; toy_score 3])
  (* the index that the scan computes from the number 1/2 after two scores *)
  /\ (let score_index :=
        to_int (inject_Z (2 + 1) * fst (@mts_drand replayed_draws [1 # 2])) in
      0 <= score_index < 2 + 1 /\ score_index = 1)
  (* four samples, two slots: 24 sequences of indices; a sample is kept in
     12 of them and a pair of samples in 4 *)
  /\ List.length (index_sequences 4) = 24%nat
  /\ (times_sampled 2 four_scores (toy_score 1) * 4 = 2 * 24)%nat
  /\ times_drawn 2 four_scores [toy_score 3; toy_score 1] = 4%nat
  (* four matches recorded by the scan, two slots, two numbers drawn from
     the grid 0, 1/12, ..., 11/12: of the 144 pairs of numbers, a share 2/4
     leaves the first match in the reservoir, and a share 4/24 leaves it
     with the third and the first *)
  /\ (let st0 := @start_scan replayed_draws 0 None (mkScoreSet [] 0 2 0 0 0)
                             empty_evd_set [] [] in
      let samples_after us :=
        sampled (record_matches (Fin 0) four_matches (set_prng st0 us)) in
      List.length (draw_sequences 12 2) = 144%nat
      /\ (count_draws
            (existsb (score_eqb (@sample_of replayed_draws (Fin 0)
                                            (toy_window, mkRawMatch 10 20 (Fin (1 # 2)) 11 1))))
            12 2 samples_after * 4
          = 2 * 144)%nat
      /\ (count_draws
            (same_scores
               [@sample_of replayed_draws (Fin 0)
                           (toy_window, mkRawMatch 50 60 (Fin (1 # 8)) 11 1);
                @sample_of replayed_draws (Fin 0)
                           (toy_window, mkRawMatch 10 20 (Fin (1 # 2)) 11 1)])
            12 2 samples_after * 24
          = 2 * 2 * 144)%nat).
Proof.
  destruct (@reservoir_holds_uniform_sample replayed_draws) as (H1 & H2 & H3 & H4).
  split; [|split; [|split; [|split; [|split; [|split]]]]].
  - intros score_set.
    destruct (H1 score_set (toy_score 2) 0) as (_ & _ & Hroom & _).
    destruct Hroom as (Hn & Hs); [vm_compute; reflexivity|].
    split; [exact Hn|exact Hs].
  - intros score_set.
    destruct (H1 score_set (toy_score 3) 1) as (_ & _ & _ & Hfull).
    destruct Hfull as (Hn & Hs); [vm_compute; intros H; discriminate H|].
    split; [exact Hn|exact Hs].
  - destruct (H2 toy_window second_match (Fin 1) (mkScoreSet [] 2 2 2 10 0) 0
                 [1 # 2]) as (_ & Hindex); [reflexivity|].
    destruct Hindex as (Hrange & Hiff).
    + simpl. lia.
    + vm_compute. intros H. discriminate H.
    + vm_compute. reflexivity.
    + intros score_index. split; [exact Hrange|].
      apply (proj2 (Hiff 1)). split.
      * vm_compute. intros H. discriminate H.
      * vm_compute. reflexivity.
  - destruct (H3 2%nat four_scores four_scores_NoDup) as (Hcount & _).
    exact Hcount.
  - destruct (H3 2%nat four_scores four_scores_NoDup) as (_ & _ & Hshare & _).
    apply (Hshare (toy_score 1)). left. reflexivity.
  - destruct (H3 2%nat four_scores four_scores_NoDup) as (_ & _ & _ & Hset).
    apply (Hset [toy_score 3; toy_score 1]).
    + unfold toy_score. repeat constructor; simpl; intuition discriminate.
    + intros z [<-|[<-|[]]]; simpl; auto.
    + reflexivity.
  - intros st0 samples_after.
    destruct (H4 2%nat 12%nat (fun us : list Q => us) (Fin 0) four_matches st0)
      as (Hruns & _ & _ & Hshare & Hset).
    + intros u us. reflexivity.
    + unfold four_matches. repeat constructor.
    + exact four_matches_NoDup.
    + reflexivity.
    + reflexivity.
    + reflexivity.
    + reflexivity.
    + intros k Hk. simpl in Hk.
      assert (Hcases : k = 3%nat \/ k = 4%nat) by lia.
      destruct Hcases as [->| ->]; [exists 4%nat|exists 3%nat]; reflexivity.
    + split; [exact Hruns|]. split.
      * apply (Hshare (toy_window, mkRawMatch 10 20 (Fin (1 # 2)) 11 1)).
        left. reflexivity.
      * apply (Hset [@sample_of replayed_draws (Fin 0)
                                (toy_window, mkRawMatch 50 60 (Fin (1 # 8)) 11 1);
                     @sample_of replayed_draws (Fin 0)
                                (toy_window, mkRawMatch 10 20 (Fin (1 # 2)) 11 1)]).
        -- unfold sample_of. simpl. repeat constructor; simpl; intuition discriminate.
        -- intros z [<-|[<-|[]]]; simpl; auto.
        -- reflexivity.
Defined.

(** * Further properties of the scan *)

Section ScanAccounting.

Context {X : Externals}.

(** What a recorded match leaves of the counters of sequences and windows
    and of the cursor. *)
Lemma process_match_counters dp_thresh sequence pm st :
  num_seqs (process_match dp_thresh sequence pm st) = num_seqs st
  /\ num_segments (process_match dp_thresh sequence pm st) = num_segments st
  /\ start_pos (process_match dp_thresh sequence pm st) = start_pos st.
Proof.
  unfold process_match.
  destruct (save_score sequence pm (dsub (raw_score pm) dp_thresh)
              (score_set st) (serial_no st) (prng st))
    as [[[gc score_set1] serial_no1] prng1].
  destruct (init_distr_stage dp_thresh score_set1 st) as [[[evd_set1 heap1] got1] evs1].
  destruct heap1 as [h|]; [|simpl; auto].
  destruct (dlt _ _ || isnan _); [|simpl; auto].
  destruct (store_match _ _ _ _) as [[h3 min3] evs3]. simpl. auto.
Qed.

(** ** A scan without a heap *)

Lemma process_match_no_heap dp_thresh sequence pm st :
  mcast_match_heap st = None ->
  let st' := process_match dp_thresh sequence pm st in
  mcast_match_heap st' = None
  /\ min_pvalue_discarded st' = min_pvalue_discarded st
  /\ initial_evd_set st' = initial_evd_set st
  /\ got_init_evd st' = got_init_evd st
  /\ events st' = events st
  /\ num_matches st' = num_matches st.
Proof.
  intros Hh. unfold process_match.
  destruct (save_score sequence pm (dsub (raw_score pm) dp_thresh)
              (score_set st) (serial_no st) (prng st))
    as [[[gc score_set1] serial_no1] prng1].
  unfold init_distr_stage. rewrite Hh. simpl. auto 6.
Qed.

Lemma scan_state_no_heap dp_thresh st0 st :
  mcast_match_heap st0 = None ->
  scan_state dp_thresh st0 st ->
  mcast_match_heap st = None
  /\ min_pvalue_discarded st = min_pvalue_discarded st0
  /\ initial_evd_set st = initial_evd_set st0
  /\ got_init_evd st = got_init_evd st0
  /\ events st = events st0
  /\ num_matches st = num_matches st0.
Proof.
  intros H0 Hst. induction Hst as [|st pm Hst IH|st sequence pm Hst IH|st seg next Hst IH].
  - auto 6.
  - exact IH.
  - destruct IH as (I1 & I2 & I3 & I4 & I5 & I6).
    destruct (process_match_no_heap dp_thresh sequence pm
                (set_start_pos st (end_match pm + 1)) I1)
      as (P1 & P2 & P3 & P4 & P5 & P6).
    simpl in *. repeat split; congruence.
  - unfold after_segment.
    destruct (negb (seq_is_complete (segment_seq seg))); simpl; exact IH.
Qed.

(** X1: When [mcast_read_and_score] is called without a heap (NULL, as for the
    random sequences), it stores no match, counts none, attempts no
    provisional fit and purges nothing: the EVD set is the one passed in,
    nothing is written about a fit or a purge, and the value returned is
    1.0. *)
Theorem scan_without_heap_stores_nothing serial0 score_set0 evd_set0 segments
    dp_thresh prng0 :
  let st := mcast_read_and_score serial0 None score_set0 evd_set0 segments
                                 dp_thresh prng0 in
  mcast_match_heap st = None
  /\ retained st = []
  /\ num_matches st = 0
  /\ initial_evd_set st = evd_set0
  /\ events st = []
  /\ min_pvalue_discarded st = one.
Proof.
  intros st.
  destruct (scan_state_no_heap dp_thresh
              (start_scan serial0 None score_set0 evd_set0 segments prng0) st
              eq_refl
              (mcast_read_and_score_scan_state serial0 None score_set0 evd_set0
                 segments dp_thresh prng0))
    as (H1 & H2 & H3 & H4 & H5 & H6).
  unfold retained. rewrite H1. simpl in *. auto 6.
Qed.

(** ** The statistics do not depend on the heap *)

Lemma process_match_same dp_thresh sequence pm st1 st2 :
  score_set st1 = score_set st2 -> serial_no st1 = serial_no st2 ->
  prng st1 = prng st2 ->
  score_set (process_match dp_thresh sequence pm st1)
  = score_set (process_match dp_thresh sequence pm st2)
  /\ serial_no (process_match dp_thresh sequence pm st1)
     = serial_no (process_match dp_thresh sequence pm st2)
  /\ prng (process_match dp_thresh sequence pm st1)
     = prng (process_match dp_thresh sequence pm st2).
Proof.
  intros Hs Hn Hp.
  pose proof (process_match_score_set dp_thresh sequence pm st1) as H1.
  pose proof (process_match_score_set dp_thresh sequence pm st2) as H2.
  rewrite Hs, Hn, Hp in H1.
  destruct (save_score sequence pm (dsub (raw_score pm) dp_thresh)
              (score_set st2) (serial_no st2) (prng st2))
    as [[[gc score_set1] serial_no1] prng1].
  destruct H1 as (A1 & A2 & A3). destruct H2 as (B1 & B2 & B3).
  repeat split; congruence.
Qed.

(** The part of the state that the statistics are made of. *)
Lemma find_matches_same dp_thresh sequence found : forall st1 st2,
  score_set st1 = score_set st2 -> serial_no st1 = serial_no st2 ->
  prng st1 = prng st2 -> num_seqs st1 = num_seqs st2 ->
  num_segments st1 = num_segments st2 -> start_pos st1 = start_pos st2 ->
  let r1 := find_matches dp_thresh sequence found st1 in
  let r2 := find_matches dp_thresh sequence found st2 in
  score_set r1 = score_set r2 /\ serial_no r1 = serial_no r2
  /\ prng r1 = prng r2 /\ num_seqs r1 = num_seqs r2
  /\ num_segments r1 = num_segments r2 /\ start_pos r1 = start_pos r2.
Proof.
  induction found as [|pm more IH]; intros st1 st2 Hs Hn Hp Hq Hg Hc; simpl.
  - auto 6.
  - rewrite Hc. destruct (match_action sequence pm (start_pos st2)).
    + auto 6.
    + apply IH; simpl; auto.
    + set (c1 := set_start_pos st1 (end_match pm + 1)).
      set (c2 := set_start_pos st2 (end_match pm + 1)).
      destruct (process_match_same dp_thresh sequence pm c1 c2) as (A1 & A2 & A3);
        [exact Hs|exact Hn|exact Hp|].
      destruct (process_match_counters dp_thresh sequence pm c1) as (B1 & B2 & B3).
      destruct (process_match_counters dp_thresh sequence pm c2) as (C1 & C2 & C3).
      apply IH; try assumption.
      * rewrite B1, C1. exact Hq.
      * rewrite B2, C2. exact Hg.
      * rewrite B3, C3. reflexivity.
Qed.

Lemma scan_segments_same dp_thresh segments : forall st1 st2,
  score_set st1 = score_set st2 -> serial_no st1 = serial_no st2 ->
  prng st1 = prng st2 -> num_seqs st1 = num_seqs st2 ->
  num_segments st1 = num_segments st2 -> start_pos st1 = start_pos st2 ->
  let r1 := scan_segments dp_thresh segments st1 in
  let r2 := scan_segments dp_thresh segments st2 in
  score_set r1 = score_set r2 /\ serial_no r1 = serial_no r2
  /\ prng r1 = prng r2 /\ num_seqs r1 = num_seqs r2
  /\ num_segments r1 = num_segments r2 /\ start_pos r1 = start_pos r2.
Proof.
  induction segments as [|seg rest IH]; intros st1 st2 Hs Hn Hp Hq Hg Hc; simpl.
  - auto 6.
  - destruct (find_matches_same dp_thresh (segment_seq seg) (segment_found seg)
                st1 st2 Hs Hn Hp Hq Hg Hc) as (A1 & A2 & A3 & A4 & A5 & A6).
    apply IH; unfold after_segment;
      destruct (negb (seq_is_complete (segment_seq seg)));
      destruct (hd_error rest); simpl;
      rewrite ?A1, ?A2, ?A3, ?A4, ?A5, ?A6; reflexivity.
Qed.

(** X2: The score set (the reservoir with its counters and the total length),
    the serial number, the state of the random number generator, the
    counts of sequences and windows and the cursor at the return of
    [mcast_read_and_score] are the same whatever heap is passed (none, or
    one of any capacity and content) and whatever EVD set: what is stored
    of the matches has no influence on the score statistics. *)
Theorem statistics_independent_of_heap serial0 heap1 heap2 score_set0 evd_set1
    evd_set2 segments dp_thresh prng0 :
  let st1 := mcast_read_and_score serial0 heap1 score_set0 evd_set1 segments
                                  dp_thresh prng0 in
  let st2 := mcast_read_and_score serial0 heap2 score_set0 evd_set2 segments
                                  dp_thresh prng0 in
  score_set st1 = score_set st2
  /\ serial_no st1 = serial_no st2
  /\ prng st1 = prng st2
  /\ num_seqs st1 = num_seqs st2
  /\ num_segments st1 = num_segments st2
  /\ start_pos st1 = start_pos st2.
Proof.
  intros st1 st2. unfold st1, st2, mcast_read_and_score.
  apply scan_segments_same; reflexivity.
Qed.

End ScanAccounting.
Section ScanCounters.

Context {X : Externals}.

(** ** Windows, sequences and total length *)

Lemma save_score_total_length sequence pm viterbi_score score_set serial_no prng :
  let '(_, score_set1, _, _) :=
    save_score sequence pm viterbi_score score_set serial_no prng in
  total_length score_set1 = total_length score_set.
Proof.
  unfold save_score.
  destruct (dgt viterbi_score LOG_SMALL); [|reflexivity].
  unfold choose_slot.
  destruct (n score_set <? max_scores_saved score_set).
  - reflexivity.
  - destruct (mts_drand prng) as [u prng'].
    destruct (_ <? _); reflexivity.
Qed.

Lemma find_matches_counters dp_thresh sequence found : forall st,
  let r := find_matches dp_thresh sequence found st in
  num_seqs r = num_seqs st
  /\ num_segments r = num_segments st
  /\ total_length (score_set r) = total_length (score_set st).
Proof.
  induction found as [|pm more IH]; intros st; simpl; [auto|].
  destruct (match_action sequence pm (start_pos st)); [auto| |].
  - destruct (IH (set_start_pos st (end_match pm + 1))) as (A1 & A2 & A3).
    simpl in *. auto.
  - set (c := set_start_pos st (end_match pm + 1)).
    destruct (IH (process_match dp_thresh sequence pm c)) as (A1 & A2 & A3).
    destruct (process_match_counters dp_thresh sequence pm c) as (B1 & B2 & _).
    pose proof (process_match_score_set dp_thresh sequence pm c) as Hs.
    pose proof (save_score_total_length sequence pm (dsub (raw_score pm) dp_thresh)
                  (score_set c) (serial_no c) (prng c)) as Ht.
    destruct (save_score sequence pm (dsub (raw_score pm) dp_thresh)
                (score_set c) (serial_no c) (prng c))
      as [[[gc score_set1] serial_no1] prng1].
    destruct Hs as (Hs & _).
    rewrite A1, A2, A3, B1, B2, Hs, Ht. simpl. auto.
Qed.

Lemma scan_segments_counters dp_thresh segments : forall st,
  let r := scan_segments dp_thresh segments st in
  num_segments r = num_segments st + Z.of_nat (List.length segments)
  /\ num_seqs r
     = num_seqs st
       + Z.of_nat (List.length
                     (filter (fun seg => seq_is_complete (segment_seq seg)) segments))
  /\ total_length (score_set r)
     = total_length (score_set st)
       + match segments with
         | [] => 0
         | seg :: rest => window_lengths (negb (seq_is_complete (segment_seq seg))) rest
         end.
Proof.
  induction segments as [|seg rest IH]; intros st.
  - simpl. repeat split; lia.
  - cbn [scan_segments].
    set (st1 := find_matches dp_thresh (segment_seq seg) (segment_found seg) st).
    destruct (find_matches_counters dp_thresh (segment_seq seg) (segment_found seg) st)
      as (A1 & A2 & A3). fold st1 in A1, A2, A3.
    destruct (IH (after_segment seg (hd_error rest) st1)) as (B1 & B2 & B3).
    cbv zeta. rewrite B1, B2, B3. clear B1 B2 B3 IH.
    cbn [List.length filter]. rewrite Nat2Z.inj_succ.
    unfold after_segment.
    destruct (seq_is_complete (segment_seq seg)) eqn:Hc; cbn [negb];
      destruct rest as [|nx rest']; cbn [hd_error window_lengths List.length];
      cbn [num_segments num_seqs score_set total_length add_total_length];
      rewrite ?A1, ?A2, ?A3; rewrite ?Nat2Z.inj_succ; repeat split; lia.
Qed.

(** X3: At the return of [mcast_read_and_score] the count of windows is the
    number of windows read, and the count of sequences ([num_seqs]) is the
    number of windows that were the last of their sequence. *)
Theorem windows_and_sequences_counted serial0 heap0 score_set0 evd_set0 segments
    dp_thresh prng0 :
  let st := mcast_read_and_score serial0 heap0 score_set0 evd_set0 segments
                                 dp_thresh prng0 in
  num_segments st = Z.of_nat (List.length segments)
  /\ num_seqs st
     = Z.of_nat (List.length
                   (filter (fun seg => seq_is_complete (segment_seq seg)) segments)).
Proof.
  intros st. unfold st, mcast_read_and_score.
  destruct (scan_segments_counters dp_thresh segments
              (start_scan serial0 heap0 score_set0 evd_set0 segments prng0))
    as (A1 & A2 & _).
  cbv zeta in A1, A2. rewrite A1, A2. simpl. split; lia.
Qed.

(** X4: The scan adds to score_set->total_length the length of every window,
    less OVERLAP_SIZE for a window that continues the sequence of the
    window before it: the symbols that two windows of a sequence share are
    counted once. *)
Theorem total_length_counts_overlap_once serial0 heap0 score_set0 evd_set0 segments
    dp_thresh prng0 :
  let st := mcast_read_and_score serial0 heap0 score_set0 evd_set0 segments
                                 dp_thresh prng0 in
  total_length (score_set st)
  = total_length score_set0 + window_lengths false segments.
Proof.
  intros st. unfold st, mcast_read_and_score.
  destruct (scan_segments_counters dp_thresh segments
              (start_scan serial0 heap0 score_set0 evd_set0 segments prng0))
    as (_ & _ & A3).
  cbv zeta in A3. rewrite A3.
  destruct segments as [|seg rest]; simpl; lia.
Qed.

(** ** The value returned *)

Lemma process_match_returns dp_thresh sequence pm st :
  min_pvalue_discarded st = hd one (purge_returns (events st)) ->
  let st' := process_match dp_thresh sequence pm st in
  min_pvalue_discarded st' = hd one (purge_returns (events st')).
Proof.
  intros Hinv. unfold process_match.
  destruct (save_score sequence pm (dsub (raw_score pm) dp_thresh)
              (score_set st) (serial_no st) (prng st))
    as [[[gc score_set1] serial_no1] prng1].
  assert (Hev : forall evd_set1 heap1 got1 evs1,
            init_distr_stage dp_thresh score_set1 st = (evd_set1, heap1, got1, evs1) ->
            purge_returns evs1 = purge_returns (events st)).
  { unfold init_distr_stage. intros evd_set1 heap1 got1 evs1.
    destruct (mcast_match_heap st) as [h|].
    - destruct ((max_scores_saved score_set1 <=? n score_set1)
                && negb (got_init_evd st)).
      + destruct (calc_init_distr score_set1 h dp_thresh) as [[[e h'] g] r].
        intros H; inversion H; reflexivity.
      + intros H; inversion H; reflexivity.
    - intros H; inversion H; reflexivity. }
  destruct (init_distr_stage dp_thresh score_set1 st)
    as [[[evd_set1 heap1] got1] evs1] eqn:Hstage.
  specialize (Hev _ _ _ _ eq_refl).
  destruct heap1 as [h|]; [|simpl; congruence].
  destruct (dlt _ _ || isnan _); [|simpl; congruence].
  unfold store_match. destruct (_ =? _); simpl; [reflexivity|congruence].
Qed.

Lemma scan_state_returns dp_thresh st0 st :
  scan_state dp_thresh st0 st ->
  min_pvalue_discarded st0 = hd one (purge_returns (events st0)) ->
  min_pvalue_discarded st = hd one (purge_returns (events st)).
Proof.
  intros Hst H0.
  induction Hst as [|st pm Hst IH|st sequence pm Hst IH|st seg next Hst IH].
  - exact H0.
  - exact IH.
  - apply process_match_returns. exact IH.
  - unfold after_segment.
    destruct (negb (seq_is_complete (segment_seq seg))); simpl; exact IH.
Qed.

(** X5: The value that [mcast_read_and_score] returns (min_pvalue_discarded)
    is, at every state of the scan and at its return, 1.0 as long as no
    purge has taken place and the value returned by the latest purge
    after that. *)
Theorem returns_latest_purge_or_one serial0 heap0 score_set0 evd_set0 segments
    dp_thresh prng0 :
  let st0 := start_scan serial0 heap0 score_set0 evd_set0 segments prng0 in
  scan_state dp_thresh st0
    (mcast_read_and_score serial0 heap0 score_set0 evd_set0 segments dp_thresh prng0)
  /\ forall st,
       scan_state dp_thresh st0 st ->
       min_pvalue_discarded st = hd one (purge_returns (events st)).
Proof.
  intros st0. split; [apply mcast_read_and_score_scan_state|].
  intros st Hst. apply (scan_state_returns dp_thresh st0 st Hst). reflexivity.
Qed.

End ScanCounters.
Section ScanStore.

Context {X : Externals}.

(** ** Every match stored is in the heap or was freed by a purge *)

Lemma init_distr_stage_length dp_thresh score_set1 st h evd_set1 h1 got1 evs1 :
  mcast_match_heap st = Some h ->
  get_num_nodes h <= max_size h ->
  init_distr_stage dp_thresh score_set1 st = (evd_set1, Some h1, got1, evs1) ->
  List.length (node_list h1) = List.length (node_list h)
  /\ purged evs1 = purged (events st).
Proof.
  intros Hh Hbound. unfold init_distr_stage. rewrite Hh.
  destruct ((max_scores_saved score_set1 <=? n score_set1) && negb (got_init_evd st)).
  - destruct (Z.lt_ge_cases 0 (evd_n (calc_distr score_set1))) as [Hfit|Hnofit].
    + destruct (calc_init_distr_fitted score_set1 h dp_thresh Hfit Hbound)
        as (h' & Heq & Hperm & _).
      rewrite Heq. intros H; inversion H; subst. split; [|reflexivity].
      rewrite (Permutation_length Hperm). apply length_map.
    + rewrite calc_init_distr_failed by lia.
      intros H; inversion H; subst. split; reflexivity.
  - intros H; inversion H; subst. split; reflexivity.
Qed.

Lemma store_match_count h m min_pd evs :
  heap_ordered h ->
  get_num_nodes h < max_size h ->
  let '(h3, _, evs3) := store_match h m min_pd evs in
  (List.length (node_list h3) + List.length (purged evs3)
   = S (List.length (node_list h) + List.length (purged evs)))%nat.
Proof.
  intros Hord Hroom. unfold store_match.
  pose proof (Permutation_length (add_node_heap_room h m Hroom)) as Hlen.
  cbn [List.length] in Hlen.
  destruct (_ =? _).
  - destruct (purge_match_heap_outcome (add_node_heap h m)
                (add_node_heap_ordered h m Hord)) as (tied & _ & Hnodes & _).
    apply (f_equal (@List.length _)) in Hnodes. rewrite length_app in Hnodes.
    cbn [purged]. rewrite length_app. lia.
  - lia.
Qed.

Lemma process_match_count K dp_thresh sequence pm st :
  2 <= K ->
  scan_inv K st ->
  num_matches st
  = Z.of_nat (List.length (retained st)) + Z.of_nat (List.length (purged (events st))) ->
  let st' := process_match dp_thresh sequence pm st in
  num_matches st'
  = Z.of_nat (List.length (retained st'))
    + Z.of_nat (List.length (purged (events st'))).
Proof.
  intros HK (h & Hh & Hinv) Hcount. unfold process_match.
  destruct (save_score sequence pm (dsub (raw_score pm) dp_thresh)
              (score_set st) (serial_no st) (prng st))
    as [[[gc score_set1] serial_no1] prng1].
  destruct (init_distr_stage_inv K dp_thresh score_set1 st h Hh Hinv)
    as (evd_set1 & h1 & got1 & evs1 & Hstage & Hinv1).
  assert (Hbound : get_num_nodes h <= max_size h).
  { rewrite (inv_capacity _ _ _ _ _ Hinv). exact (inv_bounded _ _ _ _ _ Hinv). }
  destruct (init_distr_stage_length dp_thresh score_set1 st h _ _ _ _ Hh Hbound Hstage)
    as (Hlen & Hpurged).
  rewrite Hstage.
  unfold retained in Hcount. rewrite Hh in Hcount.
  destruct (dlt _ _ || isnan _).
  - match goal with
    | |- context [store_match h1 ?m ?p evs1] =>
        pose proof (store_match_count h1 m p evs1 (inv_ordered _ _ _ _ _ Hinv1)) as Hs;
        destruct (store_match h1 m p evs1) as [[h3 min3] evs3]
    end.
    unfold retained. simpl.
    rewrite (inv_capacity _ _ _ _ _ Hinv1) in Hs.
    specialize (Hs (inv_room _ _ _ _ _ Hinv1 HK)).
    rewrite Hlen, Hpurged in Hs. lia.
  - unfold retained. simpl. rewrite Hlen, Hpurged. exact Hcount.
Qed.

(** X6: In a scan that starts with an empty heap of capacity K >= 2, at every
    state of the scan and at its return, the count of matches stored
    (num_matches) is the number of records in the heap plus the number of
    records that the purges have freed: a stored match is lost in no other
    way. *)
Theorem stored_matches_in_heap_or_purged K serial0 score_set0 evd_set0 segments
    dp_thresh prng0 :
  2 <= K ->
  let st0 := start_scan serial0 (Some (create_heap K)) score_set0 evd_set0
                        segments prng0 in
  scan_state dp_thresh st0
    (mcast_read_and_score serial0 (Some (create_heap K)) score_set0 evd_set0
                          segments dp_thresh prng0)
  /\ forall st,
       scan_state dp_thresh st0 st ->
       num_matches st
       = Z.of_nat (List.length (retained st))
         + Z.of_nat (List.length (purged (events st))).
Proof.
  intros HK st0. split; [apply mcast_read_and_score_scan_state|].
  assert (H0 : 0 <= K) by lia.
  pose proof (start_scan_inv K serial0 score_set0 evd_set0 segments prng0 H0) as Hinv0.
  fold st0 in Hinv0.
  intros st Hst.
  induction Hst as [|st pm Hst IH|st sequence pm Hst IH|st seg next Hst IH].
  - reflexivity.
  - exact IH.
  - apply (process_match_count K); [exact HK| |exact IH].
    apply set_start_pos_inv. apply (scan_state_inv K dp_thresh st0); assumption.
  - unfold after_segment, retained in *.
    destruct (negb (seq_is_complete (segment_seq seg))); simpl; exact IH.
Qed.

(** ** The provisional fit, once had, is kept *)

Lemma process_match_keeps_fit dp_thresh sequence pm st :
  got_init_evd st = true ->
  let st' := process_match dp_thresh sequence pm st in
  got_init_evd st' = true /\ initial_evd_set st' = initial_evd_set st.
Proof.
  intros Hgot.
  pose proof (process_match_stage dp_thresh sequence pm st) as Hs.
  destruct (save_score sequence pm (dsub (raw_score pm) dp_thresh)
              (score_set st) (serial_no st) (prng st))
    as [[[gc score_set1] serial_no1] prng1].
  assert (Hstage : init_distr_stage dp_thresh score_set1 st
                   = (initial_evd_set st, mcast_match_heap st, true, events st)).
  { unfold init_distr_stage. rewrite Hgot.
    rewrite andb_false_r. destruct (mcast_match_heap st); reflexivity. }
  rewrite Hstage in Hs. destruct Hs as (H1 & H2 & _). split; assumption.
Qed.

(** X7: Once a provisional fit has succeeded (got_init_evd is true), every
    later state of the scan has the same EVD set: the fit is neither
    computed again nor replaced, and the matches that follow get their
    provisional p-values from it. *)
Theorem provisional_fit_is_kept dp_thresh st1 st2 :
  scan_state dp_thresh st1 st2 ->
  got_init_evd st1 = true ->
  got_init_evd st2 = true /\ initial_evd_set st2 = initial_evd_set st1.
Proof.
  intros Hst Hgot.
  induction Hst as [|st pm Hst IH|st sequence pm Hst IH|st seg next Hst IH].
  - auto.
  - exact IH.
  - destruct IH as (I1 & I2).
    destruct (process_match_keeps_fit dp_thresh sequence pm
                (set_start_pos st (end_match pm + 1)) I1) as (P1 & P2).
    split; [exact P1|]. rewrite P2. exact I2.
  - unfold after_segment.
    destruct (negb (seq_is_complete (segment_seq seg))); simpl; exact IH.
Qed.

End ScanStore.
Section ScanReservoir.

Context {X : Externals}.

(** ** The reservoir stays within its array *)

Lemma write_slot_values (f : SCORE -> Z) l : forall d x v,
  In v (map f (write_slot l d x)) -> v = f x \/ In v (map f l).
Proof.
  intros d x v Hv. apply in_map_iff in Hv. destruct Hv as (z & <- & Hz).
  apply write_slot_incl in Hz. destruct Hz as [->|Hz]; [left; reflexivity|].
  right. apply in_map. exact Hz.
Qed.

Lemma write_slot_values_NoDup (f : SCORE -> Z) l : forall d x,
  NoDup (map f l) -> ~ In (f x) (map f l) -> NoDup (map f (write_slot l d x)).
Proof.
  induction l as [|y l IH]; intros d x Hnd Hx; destruct d as [|d]; simpl.
  - constructor; [intros []|constructor].
  - constructor.
  - simpl in Hnd. inversion Hnd; subst. constructor; [|assumption].
    intros H. apply Hx. right. exact H.
  - simpl in Hnd. inversion Hnd as [|? ? Hy Hnd']; subst. constructor.
    + intros H. apply write_slot_values in H. destruct H as [H|H]; [|contradiction].
      apply Hx. left. exact H.
    + apply IH; [assumption|]. intros H. apply Hx. right. exact H.
Qed.

Lemma write_slot_Forall (P : SCORE -> Prop) l d x :
  Forall P l -> P x -> Forall P (write_slot l d x).
Proof.
  intros Hl Hx. apply Forall_forall. intros z Hz.
  apply write_slot_incl in Hz. destruct Hz as [->|Hz]; [exact Hx|].
  rewrite Forall_forall in Hl. apply Hl. exact Hz.
Qed.

Lemma store_score_reservoir_inv score_set serial index viterbi_score t nhits span gc
    seen' n' :
  let x := mkScore viterbi_score t nhits span gc serial in
  let counted := mkScoreSet (scores score_set) n' (max_scores_saved score_set)
                            seen' (max_t score_set) (total_length score_set) in
  Forall (fun sc => score_serial_no sc < serial) (scores score_set) ->
  NoDup (map score_serial_no (scores score_set)) ->
  Forall (fun sc => score_t sc <= max_t score_set) (scores score_set) ->
  n' = Z.of_nat (List.length (write_slot (scores score_set) (Z.to_nat index) x)) ->
  n' <= max_scores_saved score_set ->
  n' <= seen' ->
  (n' < max_scores_saved score_set -> seen' = n') ->
  reservoir_inv (store_score counted index x) (serial + 1).
Proof.
  intros x counted Hser Hnd Hmax Hn Hcap Hseen Hall.
  constructor; simpl; try assumption.
  - apply write_slot_Forall.
    + eapply Forall_impl; [|exact Hser]. simpl. intros sc Hsc. lia.
    + simpl. lia.
  - apply write_slot_values_NoDup; [exact Hnd|].
    intros Hin. apply in_map_iff in Hin. destruct Hin as (z & Hz & Hin).
    rewrite Forall_forall in Hser. specialize (Hser z Hin). simpl in Hz. lia.
  - apply write_slot_Forall.
    + eapply Forall_impl; [|exact Hmax]. simpl. intros sc Hsc.
      destruct (max_t score_set <? t) eqn:E; [apply Z.ltb_lt in E|]; lia.
    + simpl. destruct (max_t score_set <? t) eqn:E; [|apply Z.ltb_ge in E]; lia.
Qed.

Lemma save_score_reservoir_inv sequence pm viterbi_score score_set serial g :
  (forall g0, (0 <= fst (mts_drand g0))%Q /\ (fst (mts_drand g0) < 1)%Q) ->
  reservoir_inv score_set serial ->
  let '(_, score_set1, serial1, _) :=
    save_score sequence pm viterbi_score score_set serial g in
  reservoir_inv score_set1 serial1 /\ serial <= serial1.
Proof.
  intros Hrand [Hfill Hcap Hseen Hall Hser Hnd Hmax].
  unfold save_score.
  destruct (dgt viterbi_score LOG_SMALL);
    [|split; [constructor; assumption|lia]].
  unfold choose_slot.
  destruct (Z.ltb_spec (n score_set) (max_scores_saved score_set)) as [Hroom|Hfull].
  - split; [|lia].
    apply store_score_reservoir_inv; try assumption; try lia.
    rewrite Hfill, Nat2Z.id, write_slot_end, length_app. simpl. lia.
  - pose proof (Hrand g) as (Hu0 & Hu1).
    destruct (mts_drand g) as [u g']. simpl in Hu0, Hu1.
    assert (Hidx : 0 <= to_int (inject_Z (num_scores_seen score_set + 1) * u)
                   < num_scores_seen score_set + 1).
    { apply to_int_range; [lia|assumption|assumption]. }
    destruct (Z.ltb_spec (to_int (inject_Z (num_scores_seen score_set + 1) * u))
                         (max_scores_saved score_set)) as [Hin|Hout].
    + split; [|lia].
      apply store_score_reservoir_inv; try assumption; try lia.
      rewrite write_slot_length; [exact Hfill|]. lia.
    + split; [|lia]. constructor; simpl; try assumption; lia.
Qed.

(** X8: In a scan whose random numbers lie in [0, 1), started on a score set
    that is well formed (a fresh one is), at every state of the scan and at
    its return: the reservoir holds n samples in the slots 0 .. n-1 with
    n <= max_scores_saved, so that no sample is written outside the
    array; n <= num_scores_seen, with equality while the reservoir is not
    full; the samples carry different serial numbers, all below the
    current one, which never goes down; and max_t is at least the length
    recorded with each sample. *)
Theorem reservoir_stays_within_bounds serial0 heap0 score_set0 evd_set0 segments
    dp_thresh prng0 :
  (forall g, (0 <= fst (mts_drand g))%Q /\ (fst (mts_drand g) < 1)%Q) ->
  reservoir_inv score_set0 serial0 ->
  let st0 := start_scan serial0 heap0 score_set0 evd_set0 segments prng0 in
  scan_state dp_thresh st0
    (mcast_read_and_score serial0 heap0 score_set0 evd_set0 segments dp_thresh prng0)
  /\ forall st,
       scan_state dp_thresh st0 st ->
       reservoir_inv (score_set st) (serial_no st) /\ serial0 <= serial_no st.
Proof.
  intros Hrand Hinv0 st0. split; [apply mcast_read_and_score_scan_state|].
  assert (Hadd : forall ss d serial,
            reservoir_inv ss serial -> reservoir_inv (add_total_length ss d) serial).
  { intros ss d serial [H1 H2 H3 H4 H5 H6 H7]. constructor; assumption. }
  intros st Hst.
  induction Hst as [|st pm Hst IH|st sequence pm Hst IH|st seg next Hst IH].
  - split; [|simpl; lia]. unfold st0, start_scan. simpl.
    destruct segments as [|seg rest]; [exact Hinv0|]. apply Hadd. exact Hinv0.
  - exact IH.
  - destruct IH as (IH & Hle).
    set (c := set_start_pos st (end_match pm + 1)).
    pose proof (process_match_score_set dp_thresh sequence pm c) as Hs.
    pose proof (save_score_reservoir_inv sequence pm (dsub (raw_score pm) dp_thresh)
                  (score_set c) (serial_no c) (prng c) Hrand IH) as Hr.
    destruct (save_score sequence pm (dsub (raw_score pm) dp_thresh)
                (score_set c) (serial_no c) (prng c))
      as [[[gc score_set1] serial_no1] prng1].
    destruct Hs as (Hs1 & Hs2 & _). destruct Hr as (Hr & Hup).
    rewrite Hs1, Hs2. split; [exact Hr|]. simpl in Hup. lia.
  - destruct IH as (IH & Hle). unfold after_segment.
    destruct (negb (seq_is_complete (segment_seq seg))); destruct next; simpl;
      split; try exact Hle; try exact IH; apply Hadd; exact IH.
Qed.

End ScanReservoir.
(** * [motif_num_cmp] *)

(** The number that [motif_num_cmp] takes for the absolute value. *)
Lemma motif_num_cmp_cases i1 i2 :
  let a1 := if i1 <? 0 then int_neg i1 else i1 in
  let a2 := if i2 <? 0 then int_neg i2 else i2 in
  (motif_num_cmp i1 i2 = -1 /\ (a1 < a2 \/ (a1 = a2 /\ i2 < i1)))
  \/ (motif_num_cmp i1 i2 = 0 /\ a1 = a2 /\ i1 = i2)
  \/ (motif_num_cmp i1 i2 = 1 /\ (a2 < a1 \/ (a1 = a2 /\ i1 < i2))).
Proof.
  intros a1 a2. unfold motif_num_cmp. fold a1 a2.
  destruct (Z.ltb_spec a1 a2); [left; split; [reflexivity|lia]|].
  destruct (Z.gtb_spec a1 a2); [right; right; split; [reflexivity|lia]|].
  destruct (Z.gtb_spec i1 i2); [left; split; [reflexivity|lia]|].
  destruct (Z.eqb_spec i1 i2); [right; left; split; [reflexivity|lia]|].
  right; right; split; [reflexivity|lia].
Qed.

(** X9: [motif_num_cmp] is the comparison of a total order, as a tree needs
    it: it returns -1, 0 or 1; 0 for equal numbers only; swapping the
    arguments changes the sign; and "before" (-1) is transitive.  This
    holds for all numbers, INT_MIN and its overflowing negation included. *)
Theorem motif_num_cmp_total_order i1 i2 i3 :
  (motif_num_cmp i1 i2 = -1 \/ motif_num_cmp i1 i2 = 0 \/ motif_num_cmp i1 i2 = 1)
  /\ (motif_num_cmp i1 i2 = 0 <-> i1 = i2)
  /\ motif_num_cmp i2 i1 = - motif_num_cmp i1 i2
  /\ (motif_num_cmp i1 i2 = -1 -> motif_num_cmp i2 i3 = -1 ->
      motif_num_cmp i1 i3 = -1).
Proof.
  pose proof (motif_num_cmp_cases i1 i2) as H12.
  pose proof (motif_num_cmp_cases i2 i1) as H21.
  pose proof (motif_num_cmp_cases i2 i3) as H23.
  pose proof (motif_num_cmp_cases i1 i3) as H13.
  cbv zeta in *.
  set (a1 := if i1 <? 0 then int_neg i1 else i1) in *.
  set (a2 := if i2 <? 0 then int_neg i2 else i2) in *.
  set (a3 := if i3 <? 0 then int_neg i3 else i3) in *.
  clearbody a1 a3.
  split; [lia|]. split; [|split].
  - split; [lia|]. intros ->.
    unfold motif_num_cmp. rewrite Z.ltb_irrefl.
    assert (Hgt : forall z, (z >? z) = false).
    { intros z. destruct (Z.gtb_spec z z); [lia|reflexivity]. }
    rewrite !Hgt, Z.eqb_refl. reflexivity.
  - clearbody a2. lia.
  - clearbody a2. lia.
Qed.

(** X10: For numbers other than INT_MIN, [motif_num_cmp] puts first the number
    of smaller absolute value and, of a number and its negative, the
    positive one: the order 1, -1, 2, -2, ... of a motif and its reverse
    complement.  INT_MIN, whose negation overflows, comes before every
    other number, 0 included. *)
Theorem motif_num_cmp_orders_by_abs i1 i2 :
  INT_MIN < i1 -> INT_MIN < i2 ->
  (motif_num_cmp i1 i2 = -1
   <-> Z.abs i1 < Z.abs i2 \/ (Z.abs i1 = Z.abs i2 /\ i2 < i1))
  /\ motif_num_cmp INT_MIN i2 = -1.
Proof.
  intros H1 H2.
  pose proof (motif_num_cmp_cases i1 i2) as H12.
  pose proof (motif_num_cmp_cases INT_MIN i2) as Hm.
  cbv zeta in *. unfold int_neg in *.
  change (INT_MIN <? 0) with true in Hm. cbv iota in Hm.
  rewrite Z.eqb_refl in Hm.
  destruct (Z.eqb_spec i1 INT_MIN) as [E1|_]; [lia|].
  destruct (Z.eqb_spec i2 INT_MIN) as [E2|_]; [lia|].
  destruct (Z.ltb_spec i1 0), (Z.ltb_spec i2 0); unfold INT_MIN in *; lia.
Qed.

Lemma motif_num_cmp_orders_by_abs_witness :
  (motif_num_cmp 3 (-3) = -1
   <-> Z.abs 3 < Z.abs (-3) \/ (Z.abs 3 = Z.abs (-3) /\ -3 < 3))
  /\ motif_num_cmp INT_MIN (-3) = -1.
Proof.
  apply (motif_num_cmp_orders_by_abs 3 (-3)); unfold INT_MIN; lia.
Defined.
(** * The loop of [read_motifs] *)

Section MotifProperties.

Context {M : MotifLibrary}.

Lemma rbtree_make_last tree key value :
  Forall (fun kv => motif_num_cmp key (fst kv) = 1) tree ->
  rbtree_make motif_num_cmp tree key value = tree ++ [(key, value)].
Proof.
  induction 1 as [|[k v] rest Hk Hrest IH]; simpl; [reflexivity|].
  simpl in Hk. rewrite Hk. simpl. rewrite IH. reflexivity.
Qed.

(** A new motif number comes after the numbers in the tree, and the
    number of its reverse complement after the motif's. *)
Lemma motif_num_cmp_after i k :
  1 <= i <= INT_MAX -> - i < k < i -> motif_num_cmp i k = 1.
Proof.
  intros Hi Hk. pose proof (motif_num_cmp_cases i k) as H. cbv zeta in H.
  unfold int_neg, INT_MIN, INT_MAX in *.
  destruct (Z.eqb_spec k (-2147483648)); [lia|].
  destruct (Z.ltb_spec i 0), (Z.ltb_spec k 0); lia.
Qed.

Lemma motif_num_cmp_after_rc i k :
  1 <= i <= INT_MAX -> - i < k <= i -> motif_num_cmp (- i) k = 1.
Proof.
  intros Hi Hk. pose proof (motif_num_cmp_cases (- i) k) as H. cbv zeta in H.
  unfold int_neg, INT_MIN, INT_MAX in *.
  destruct (Z.eqb_spec k (-2147483648)); [lia|].
  destruct (Z.eqb_spec (- i) (-2147483648)); [lia|].
  destruct (Z.ltb_spec (- i) 0), (Z.ltb_spec k 0); lia.
Qed.

Lemma combined_width_app l1 l2 :
  combined_width (l1 ++ l2) = combined_width l1 + combined_width l2.
Proof.
  induction l1 as [|m l1 IH]; simpl; [reflexivity|].
  unfold combined_width in *. simpl. rewrite IH. lia.
Qed.

Lemma wide_enough_width l :
  Forall (fun motif => 2 <= get_motif_length motif) (wide_enough l).
Proof.
  apply Forall_forall. intros m Hm. unfold wide_enough in Hm.
  apply filter_In in Hm. destruct Hm as (_ & Hw).
  apply negb_true_iff in Hw. apply Z.ltb_ge in Hw. exact Hw.
Qed.

Lemma combined_width_nonneg l :
  Forall (fun motif => 2 <= get_motif_length motif) l -> 0 <= combined_width l.
Proof.
  induction 1 as [|m l Hm Hl IH]; unfold combined_width in *; simpl; lia.
Qed.

Lemma wide_enough_app l1 l2 : wide_enough (l1 ++ l2) = wide_enough l1 ++ wide_enough l2.
Proof. apply filter_app. Qed.

Lemma motif_loop_inv_init max_total_width :
  motif_loop_inv max_total_width [] (mkMotifLoop 1 (-1) 0 0 0 []).
Proof.
  constructor; simpl; try reflexivity.
  - constructor.
  - exists [], []. repeat split; try reflexivity; congruence.
Qed.

Ltac loop_fields :=
  cbn [motif_i rc_motif_i total_width n_skipped_total n_skipped_width motifs].

Lemma read_motif_inv max_total_width processed st motif :
  Z.of_nat (List.length processed) < INT_MAX ->
  motif_loop_inv max_total_width processed st ->
  motif_loop_inv max_total_width (processed ++ [motif])
                 (read_motif max_total_width st motif).
Proof.
  intros Hlen [Hi Hrc Htot Hshort Hkeys (kept & rest & Hwide & Harr & Hskip & Hall
                                         & Hfit & Hover)].
  assert (Hrange : 1 <= motif_i st <= INT_MAX) by lia.
  assert (Hlen1 : Z.of_nat (List.length (processed ++ [motif]))
                  = Z.of_nat (List.length processed) + 1).
  { rewrite length_app, Nat2Z.inj_add. reflexivity. }
  unfold read_motif.
  destruct (Z.ltb_spec (get_motif_length motif) 2) as [Hnarrow|Hwidth].
  - (* too short *)
    assert (Hw : wide_enough (processed ++ [motif]) = wide_enough processed).
    { rewrite wide_enough_app. unfold wide_enough at 2. simpl.
      destruct (Z.ltb_spec (get_motif_length motif) 2); [|lia].
      simpl. apply app_nil_r. }
    constructor; loop_fields; rewrite ?Hw, ?Hlen1.
    + lia.
    + lia.
    + exact Htot.
    + lia.
    + eapply Forall_impl; [|exact Hkeys]. simpl. intros kv Hkv. lia.
    + exists kept, rest. repeat split; assumption.
  - assert (Hw : wide_enough (processed ++ [motif]) = wide_enough processed ++ [motif]).
    { rewrite wide_enough_app. unfold wide_enough at 2. simpl.
      destruct (Z.ltb_spec (get_motif_length motif) 2); [lia|reflexivity]. }
    assert (Hw1 : Z.of_nat (List.length (wide_enough processed ++ [motif]))
                  = Z.of_nat (List.length (wide_enough processed)) + 1).
    { rewrite length_app, Nat2Z.inj_add. reflexivity. }
    assert (Hone : combined_width [motif] = get_motif_length motif).
    { unfold combined_width. simpl. lia. }
    pose proof (wide_enough_width processed) as Hwidths.
    rewrite Hwide in Hwidths. apply Forall_app in Hwidths.
    destruct Hwidths as (Hwk & Hwr).
    destruct ((max_total_width =? -1)
              || (total_width st + get_motif_length motif <=? max_total_width))
      eqn:Hroom.
    + (* kept *)
      assert (Hrest : rest = []).
      { destruct rest as [|m0 rest']; [reflexivity|exfalso].
        specialize (Hover m0 rest' eq_refl).
        apply orb_true_iff in Hroom. destruct Hroom as [Hno|Hle].
        - apply Z.eqb_eq in Hno. specialize (Hall Hno). discriminate Hall.
        - apply Z.leb_le in Hle. rewrite Htot, Hwide in Hle.
          rewrite combined_width_app in Hle. rewrite combined_width_app in Hover.
          inversion Hwr as [|? ? Hm0 Hr']; subst.
          pose proof (combined_width_nonneg rest' Hr') as Hnn.
          change (m0 :: rest') with ([m0] ++ rest') in Hle.
          rewrite combined_width_app in Hle. lia. }
      subst rest. rewrite app_nil_r in Hwide.
      set (m1 := set_motif_strands motif).
      assert (Htree1 : rbtree_make motif_num_cmp (motifs st) (motif_i st) m1
                       = motifs st ++ [(motif_i st, m1)]).
      { apply rbtree_make_last. eapply Forall_impl; [|exact Hkeys].
        simpl. intros kv Hkv. apply motif_num_cmp_after; assumption. }
      rewrite Htree1, Hrc.
      assert (Htree2 : rbtree_make motif_num_cmp (motifs st ++ [(motif_i st, m1)])
                                   (- motif_i st) (dup_rc_motif m1)
                       = (motifs st ++ [(motif_i st, m1)])
                         ++ [(- motif_i st, dup_rc_motif m1)]).
      { apply rbtree_make_last. apply Forall_app. split.
        - eapply Forall_impl; [|exact Hkeys].
          simpl. intros kv Hkv. apply motif_num_cmp_after_rc; [assumption|lia].
        - constructor; [|constructor]. simpl.
          apply motif_num_cmp_after_rc; [assumption|lia]. }
      rewrite Htree2.
      constructor; loop_fields; rewrite ?Hw, ?Hlen1, ?Hw1.
      * lia.
      * lia.
      * rewrite combined_width_app, Hone. lia.
      * lia.
      * apply Forall_app. split; [apply Forall_app; split|].
        -- eapply Forall_impl; [|exact Hkeys]. simpl. intros kv Hkv. lia.
        -- constructor; [simpl; lia|constructor].
        -- constructor; [simpl; lia|constructor].
      * exists (kept ++ [motif]), []. rewrite Hwide.
        split; [rewrite app_nil_r; reflexivity|]. split.
        -- unfold motif_tree_to_array in *. rewrite !map_app, Harr, flat_map_app.
           simpl. rewrite <- app_assoc. reflexivity.
        -- split; [exact Hskip|]. split; [reflexivity|]. split.
           ++ intros Hmax _. apply orb_true_iff in Hroom.
              destruct Hroom as [Hno|Hle]; [apply Z.eqb_eq in Hno; contradiction|].
              apply Z.leb_le in Hle. rewrite Htot, Hwide in Hle.
              rewrite combined_width_app, Hone. exact Hle.
           ++ intros m rest' H. discriminate H.
    + (* over the total width *)
      apply orb_false_iff in Hroom. destruct Hroom as (Hno & Hgt).
      apply Z.eqb_neq in Hno. apply Z.leb_gt in Hgt.
      constructor; loop_fields; rewrite ?Hw, ?Hlen1, ?Hw1.
      * lia.
      * lia.
      * rewrite combined_width_app, Hone. lia.
      * lia.
      * eapply Forall_impl; [|exact Hkeys]. simpl. intros kv Hkv. lia.
      * exists kept, (rest ++ [motif]). rewrite Hwide, app_assoc.
        split; [reflexivity|]. split; [exact Harr|].
        split; [rewrite length_app, Nat2Z.inj_add; simpl; lia|].
        split; [intros Hmax; contradiction|]. split; [exact Hfit|].
        intros m rest' Hm.
        destruct rest as [|m0 rest0].
        -- simpl in Hm. inversion Hm; subst m rest'.
           rewrite app_nil_r in Hwide. rewrite Htot, Hwide in Hgt.
           rewrite combined_width_app, Hone. exact Hgt.
        -- simpl in Hm. inversion Hm; subst m rest'. apply (Hover m0 rest0 eq_refl).
Qed.

Lemma read_motifs_fold_inv max_total_width file_motifs : forall processed st,
  Z.of_nat (List.length (processed ++ file_motifs)) <= INT_MAX ->
  motif_loop_inv max_total_width processed st ->
  motif_loop_inv max_total_width (processed ++ file_motifs)
                 (fold_left (read_motif max_total_width) file_motifs st).
Proof.
  induction file_motifs as [|motif more IH]; intros processed st Hlen Hinv; simpl.
  - rewrite app_nil_r. exact Hinv.
  - change (motif :: more) with ([motif] ++ more). rewrite app_assoc.
    apply IH.
    + rewrite <- app_assoc. exact Hlen.
    + apply read_motif_inv; [|exact Hinv].
      rewrite length_app in Hlen. simpl in Hlen. lia.
Qed.

Lemma read_motifs_loop_inv max_total_width file_motifs :
  Z.of_nat (List.length file_motifs) <= INT_MAX ->
  motif_loop_inv max_total_width file_motifs
                 (read_motifs_loop max_total_width file_motifs).
Proof.
  intros Hlen. unfold read_motifs_loop.
  apply (read_motifs_fold_inv max_total_width file_motifs []); [exact Hlen|].
  apply motif_loop_inv_init.
Qed.

Lemma pairs_nth_error kept : forall k,
  nth_error (flat_map with_reverse_complement kept) (2 * k)
  = option_map set_motif_strands (nth_error kept k)
  /\ nth_error (flat_map with_reverse_complement kept) (2 * k + 1)
     = option_map (fun motif => dup_rc_motif (set_motif_strands motif))
                  (nth_error kept k).
Proof.
  induction kept as [|m kept IH]; intros k.
  - simpl. rewrite !nth_error_nil. destruct k; split; reflexivity.
  - destruct k as [|k].
    + split; reflexivity.
    + replace (2 * S k)%nat with (S (S (2 * k))) by lia.
      replace (S (S (2 * k)) + 1)%nat with (S (S (2 * k + 1))) by lia.
      cbn [flat_map with_reverse_complement app nth_error]. apply IH.
Qed.

Lemma pairs_length kept :
  List.length (flat_map with_reverse_complement kept) = (2 * List.length kept)%nat.
Proof. induction kept as [|m kept IH]; simpl; [reflexivity|]. rewrite IH. lia. Qed.

(** X11: The array of motifs that the loop of [read_motifs] yields for a file
    of at most INT_MAX motifs lists, in the order of the file, each motif
    kept followed by its reverse complement: the positions 2k and 2k+1
    hold the k-th motif kept (from 0) and its reverse complement, so that
    i_motif / 2 + 1 is the same for both.  The motifs kept are the first
    ones of the motifs of the file that have a width of 2 or more. *)
Theorem motif_array_pairs_in_file_order max_total_width file_motifs :
  Z.of_nat (List.length file_motifs) <= INT_MAX ->
  let motif_array :=
    motif_tree_to_array (motifs (read_motifs_loop max_total_width file_motifs)) in
  exists kept rest,
    wide_enough file_motifs = kept ++ rest
    /\ motif_array = flat_map with_reverse_complement kept
    /\ List.length motif_array = (2 * List.length kept)%nat
    /\ forall k motif,
         nth_error kept k = Some motif ->
         nth_error motif_array (2 * k) = Some (set_motif_strands motif)
         /\ nth_error motif_array (2 * k + 1)
            = Some (dup_rc_motif (set_motif_strands motif)).
Proof.
  intros Hlen motif_array.
  destruct (read_motifs_loop_inv max_total_width file_motifs Hlen)
    as [_ _ _ _ _ (kept & rest & Hwide & Harr & _)].
  exists kept, rest. fold motif_array in Harr.
  split; [exact Hwide|]. split; [exact Harr|]. rewrite Harr.
  split; [apply pairs_length|].
  intros k motif Hk. destruct (pairs_nth_error kept k) as (H1 & H2).
  rewrite H1, H2, Hk. split; reflexivity.
Qed.

(** X12: With a limit on the total width (max_total_width other than -1) the
    motifs kept are the longest run of first motifs, among those of width
    2 or more, whose combined width is within the limit: their combined
    width is at most the limit, the first motif skipped would have taken
    it above the limit, and every motif after it is skipped as well.
    Without a limit every motif of width 2 or more is kept. *)
Theorem motifs_kept_within_max_total_width max_total_width file_motifs :
  Z.of_nat (List.length file_motifs) <= INT_MAX ->
  let st := read_motifs_loop max_total_width file_motifs in
  exists kept rest,
    wide_enough file_motifs = kept ++ rest
    /\ motif_tree_to_array (motifs st) = flat_map with_reverse_complement kept
    /\ n_skipped_total st = Z.of_nat (List.length rest)
    /\ (max_total_width = -1 -> rest = [])
    /\ (max_total_width <> -1 -> kept <> [] ->
        combined_width kept <= max_total_width)
    /\ (forall motif rest', rest = motif :: rest' ->
        max_total_width < combined_width (kept ++ [motif])).
Proof.
  intros Hlen st.
  destruct (read_motifs_loop_inv max_total_width file_motifs Hlen)
    as [_ _ _ _ _ Hkept].
  exact Hkept.
Qed.

(** X13: At the end of the loop, for a limit that the command line admits (-1
    or not negative): the counter of motifs is one more than the number of
    motifs read; total_width is the combined width of all the motifs of
    width 2 or more, skipped ones included; the motifs read are those
    skipped for their width, those skipped for the total width and those
    of which the array holds two entries; and the message about the total
    width is written exactly when a motif was skipped for it. *)
Theorem skipped_motifs_are_counted max_total_width file_motifs :
  Z.of_nat (List.length file_motifs) <= INT_MAX ->
  max_total_width = -1 \/ 0 <= max_total_width ->
  let st := read_motifs_loop max_total_width file_motifs in
  motif_i st = 1 + Z.of_nat (List.length file_motifs)
  /\ rc_motif_i st = - motif_i st
  /\ total_width st = combined_width (wide_enough file_motifs)
  /\ 0 <= n_skipped_width st
  /\ 0 <= n_skipped_total st
  /\ 2 * Z.of_nat (List.length file_motifs)
     = Z.of_nat (List.length (motif_tree_to_array (motifs st)))
       + 2 * n_skipped_width st + 2 * n_skipped_total st
  /\ (warns_total_width max_total_width st = true <-> 0 < n_skipped_total st).
Proof.
  intros Hlen Hmax st.
  destruct (read_motifs_loop_inv max_total_width file_motifs Hlen)
    as [Hi Hrc Htot Hshort _ (kept & rest & Hwide & Harr & Hskip & Hall & Hfit & Hover)].
  fold st in Hi, Hrc, Htot, Hshort, Harr, Hskip.
  pose proof (wide_enough_width file_motifs) as Hwidths.
  rewrite Hwide in Hwidths. apply Forall_app in Hwidths.
  destruct Hwidths as (Hwk & Hwr).
  assert (Hfiltered : (List.length (wide_enough file_motifs)
                       <= List.length file_motifs)%nat).
  { unfold wide_enough. apply filter_length_le. }
  assert (Hsplit : List.length (wide_enough file_motifs)
                   = (List.length kept + List.length rest)%nat).
  { rewrite Hwide. apply length_app. }
  split; [exact Hi|]. split; [exact Hrc|]. split; [exact Htot|].
  split; [lia|]. split; [lia|]. split.
  - rewrite Harr, pairs_length. lia.
  - unfold warns_total_width. rewrite andb_true_iff, negb_true_iff.
    rewrite Z.eqb_neq, Z.ltb_lt, Htot, Hwide, combined_width_app.
    split.
    + intros (Hno & Hgt).
      destruct rest as [|m0 rest0]; [exfalso|simpl in Hskip; lia].
      change (combined_width []) with 0 in Hgt.
      destruct kept as [|k0 kept0].
      * change (combined_width []) with 0 in Hgt. lia.
      * assert (Hne : k0 :: kept0 <> []) by discriminate.
        specialize (Hfit Hno Hne). lia.
    + intros Hpos.
      destruct rest as [|m0 rest0]; [simpl in Hskip; lia|].
      split.
      * intros Hno. specialize (Hall Hno). discriminate Hall.
      * specialize (Hover m0 rest0 eq_refl). rewrite combined_width_app in Hover.
        inversion Hwr as [|? ? Hm0 Hr0]; subst.
        pose proof (combined_width_nonneg rest0 Hr0) as Hnn.
        change (m0 :: rest0) with ([m0] ++ rest0).
        rewrite combined_width_app. lia.
Qed.

(** X14: The MEME branch of [read_motifs], for a file in the DNA alphabet,
    ends the program ("No valid motifs could be read") exactly when no
    motif of the file has a width of 2 or more, or the first such motif is
    by itself wider than the limit on the total width; when it returns,
    the array holds an even number of motifs, two at least. *)
Theorem read_motifs_fatal_without_motif max_total_width file_motifs :
  Z.of_nat (List.length file_motifs) <= INT_MAX ->
  ((exists message,
      read_meme_motifs max_total_width true file_motifs = Fatal message)
   <-> match wide_enough file_motifs with
       | [] => True
       | motif :: _ =>
           max_total_width <> -1 /\ max_total_width < get_motif_length motif
       end)
  /\ (forall motif_array,
        read_meme_motifs max_total_width true file_motifs = Finished motif_array ->
        exists pairs, List.length motif_array = (2 * S pairs)%nat).
Proof.
  intros Hlen.
  destruct (read_motifs_loop_inv max_total_width file_motifs Hlen)
    as [_ _ _ _ _ (kept & rest & Hwide & Harr & Hskip & Hall & Hfit & Hover)].
  pose proof (wide_enough_width file_motifs) as Hwidths.
  rewrite Hwide in Hwidths. apply Forall_app in Hwidths.
  destruct Hwidths as (Hwk & Hwr).
  unfold read_meme_motifs. cbn [negb]. cbv zeta. rewrite Harr, pairs_length, Hwide.
  split.
  - destruct kept as [|k0 kept0].
    + cbn [List.length Nat.mul Z.of_nat Z.leb Z.compare app].
      split; [intros _|intros _; eexists; reflexivity].
      destruct rest as [|m0 rest0]; [exact I|].
      specialize (Hover m0 rest0 eq_refl).
      unfold combined_width in Hover. simpl in Hover.
      split; [|lia]. intros Hno. specialize (Hall Hno). discriminate Hall.
    + destruct (Z.leb_spec (Z.of_nat (2 * List.length (k0 :: kept0))) 0) as [Hz|Hz];
        [simpl in Hz; lia|].
      split; [intros (message & H); discriminate H|].
      cbn [app]. intros (Hno & Hgt). exfalso.
      assert (Hne : k0 :: kept0 <> []) by discriminate.
      specialize (Hfit Hno Hne).
      inversion Hwk as [|? ? Hk0 Hk']; subst.
      pose proof (combined_width_nonneg kept0 Hk') as Hnn.
      change (k0 :: kept0) with ([k0] ++ kept0) in Hfit.
      rewrite combined_width_app in Hfit.
      unfold combined_width at 1 in Hfit. simpl in Hfit. lia.
  - intros motif_array.
    destruct (Z.leb_spec (Z.of_nat (2 * List.length kept)) 0) as [Hz|Hz];
      [intros H; discriminate H|].
    intros H. inversion H; subst motif_array. rewrite pairs_length.
    destruct kept as [|k0 kept0]; [simpl in Hz; lia|].
    exists (List.length kept0). reflexivity.
Qed.

End MotifProperties.

(** A file of four motifs of widths 3, 1, 4 and 5, read with a limit of 8
    on the total width. *)
Lemma motif_array_pairs_in_file_order_witness :
  exists kept rest,
    @wide_enough toy_motifs [3; 1; 4; 5] = kept ++ rest
    /\ motif_tree_to_array (motifs (@read_motifs_loop toy_motifs 8 [3; 1; 4; 5]))
       = flat_map with_reverse_complement kept
    /\ List.length
         (motif_tree_to_array (motifs (@read_motifs_loop toy_motifs 8 [3; 1; 4; 5])))
       = (2 * List.length kept)%nat
    /\ forall k motif,
         nth_error kept k = Some motif ->
         nth_error
           (motif_tree_to_array (motifs (@read_motifs_loop toy_motifs 8 [3; 1; 4; 5])))
           (2 * k) = Some (set_motif_strands motif)
         /\ nth_error
              (motif_tree_to_array
                 (motifs (@read_motifs_loop toy_motifs 8 [3; 1; 4; 5])))
              (2 * k + 1)
            = Some (dup_rc_motif (set_motif_strands motif)).
Proof.
  apply (@motif_array_pairs_in_file_order toy_motifs 8 [3; 1; 4; 5]).
  unfold INT_MAX. simpl. lia.
Defined.

Lemma motifs_kept_within_max_total_width_witness :
  exists kept rest,
    @wide_enough toy_motifs [3; 1; 4; 5] = kept ++ rest
    /\ motif_tree_to_array (motifs (@read_motifs_loop toy_motifs 8 [3; 1; 4; 5]))
       = flat_map with_reverse_complement kept
    /\ n_skipped_total (@read_motifs_loop toy_motifs 8 [3; 1; 4; 5])
       = Z.of_nat (List.length rest)
    /\ (8 = -1 -> rest = [])
    /\ (8 <> -1 -> kept <> [] -> combined_width kept <= 8)
    /\ (forall motif rest', rest = motif :: rest' ->
        8 < combined_width (kept ++ [motif])).
Proof.
  apply (@motifs_kept_within_max_total_width toy_motifs 8 [3; 1; 4; 5]).
  unfold INT_MAX. simpl. lia.
Defined.

Lemma skipped_motifs_are_counted_witness :
  let st := @read_motifs_loop toy_motifs 8 [3; 1; 4; 5] in
  motif_i st = 5 /\ n_skipped_width st = 1 /\ n_skipped_total st = 1
  /\ warns_total_width 8 st = true.
Proof.
  intros st.
  destruct (@skipped_motifs_are_counted toy_motifs 8 [3; 1; 4; 5])
    as (H1 & _ & _ & _ & _ & _ & H7).
  - unfold INT_MAX. simpl. lia.
  - right. lia.
  - split; [exact H1|]. split; [reflexivity|]. split; [reflexivity|].
    apply H7. vm_compute. reflexivity.
Defined.

Lemma read_motifs_fatal_without_motif_witness :
  exists message, @read_meme_motifs toy_motifs 2 true [1; 3; 2] = Fatal message.
Proof.
  destruct (@read_motifs_fatal_without_motif toy_motifs 2 [1; 3; 2]) as (H & _).
  - unfold INT_MAX. simpl. lia.
  - apply H. simpl. lia.
Defined.
(** * [process_command_line] *)

Section OptionProperties.

Import CommandLine.

Context {C : CLibrary}.

Ltac option_cases H :=
  unfold assign_option in H;
  repeat match type of H with
         | context [if ?c then _ else _] => destruct c eqn:?
         | context [match sscanf_u32 ?v with _ => _ end] =>
             destruct (sscanf_u32 v) eqn:?
         end;
  try discriminate H; inversion H; subst; clear H.

Lemma default_options_checked : checked_options default_options /\ one_threshold default_options.
Proof.
  unfold checked_options, one_threshold. simpl.
  unfold DEFAULT_MAX_GAP, DEFAULT_MAX_STORED_SCORES.
  repeat split; try reflexivity; lia.
Qed.

Lemma assign_option_checked option_name option_value o verbosity o1 verbosity1 :
  assign_option option_name option_value o verbosity = Returned (o1, verbosity1) ->
  checked_options o -> checked_options o1.
Proof.
  intros H Hc. unfold checked_options in *.
  option_cases H; simpl in *;
    repeat match goal with
           | E : (_ <? _)%Z = false |- _ => apply Z.ltb_ge in E
           | E : _ || _ = false |- _ => apply orb_false_iff in E; destruct E
           end;
    intuition lia.
Qed.

Lemma assign_option_one_threshold option_name option_value o verbosity o1 verbosity1 :
  assign_option option_name option_value o verbosity = Returned (o1, verbosity1) ->
  one_threshold o -> one_threshold o1.
Proof.
  intros H Hc. unfold one_threshold in *.
  option_cases H; simpl in *;
    repeat match goal with
           | E : _ || _ = false |- _ => apply orb_false_iff in E; destruct E
           end;
    try exact Hc; auto.
Qed.

Lemma read_options_checked parsed : forall o verbosity o1 verbosity1,
  read_options parsed o verbosity = Returned (o1, verbosity1) ->
  checked_options o /\ one_threshold o ->
  checked_options o1 /\ one_threshold o1.
Proof.
  induction parsed as [|item more IH]; intros o verbosity o1 verbosity1 H Hc; simpl in H.
  - inversion H; subst. exact Hc.
  - destruct item as [option_name option_value|message]; [|discriminate H].
    destruct (assign_option option_name option_value o verbosity)
      as [[o2 verbosity2]| | |] eqn:Hstep; try discriminate H.
    apply (IH _ _ _ _ H). destruct Hc as (H1 & H2). split.
    + eapply assign_option_checked; eassumption.
    + eapply assign_option_one_threshold; eassumption.
Qed.

(** What [process_command_line] does after the loop. *)
Lemma process_command_line_returned parsed arguments verbosity0 o verbosity1 :
  process_command_line parsed arguments verbosity0 = Returned (o, verbosity1) ->
  exists o0 motifs_argument sequences_argument,
    read_options parsed default_options verbosity0 = Returned (o0, verbosity1)
    /\ arguments = [motifs_argument; sequences_argument]
    /\ o = set_seq_filename (set_motif_filename o0 (Some motifs_argument))
                            (Some sequences_argument)
    /\ (psp_filename o0 = None <-> prior_distribution_filename o0 = None).
Proof.
  unfold process_command_line.
  destruct (read_options parsed default_options verbosity0)
    as [[o0 v]| | |]; try discriminate.
  destruct arguments as [|m [|s [|x rest]]]; try discriminate.
  simpl.
  destruct (psp_filename o0) eqn:Hpsp, (prior_distribution_filename o0) eqn:Hprior;
    try discriminate; intros H; inversion H; subst;
    exists o0, m, s; repeat split; try reflexivity; try assumption;
    intros; congruence.
Qed.

(** X15: When [process_command_line] returns, the options have passed its
    checks: max_gap and max_stored_scores are not negative,
    max_total_width is -1 (no limit) or at least 1, motif_pthresh and alpha
    are neither below 0 nor above 1 in C's comparison, exactly two
    arguments were left for the motif file and the sequence file, and the
    file of priors and the file of their distribution are both given or
    both absent. *)
Theorem returned_options_are_checked parsed arguments verbosity0 o verbosity1 :
  process_command_line parsed arguments verbosity0 = Returned (o, verbosity1) ->
  (0 <= max_gap o
   /\ 0 <= max_stored_scores o
   /\ (max_total_width o = -1 \/ 1 <= max_total_width o)
   /\ dlt (motif_pthresh o) (Fin 0) = false /\ dgt (motif_pthresh o) (Fin 1) = false
   /\ dlt (alpha o) (Fin 0) = false /\ dgt (alpha o) (Fin 1) = false)
  /\ (exists motifs_argument sequences_argument,
        arguments = [motifs_argument; sequences_argument]
        /\ motif_filename o = Some motifs_argument
        /\ seq_filename o = Some sequences_argument)
  /\ (psp_filename o = None <-> prior_distribution_filename o = None).
Proof.
  intros H.
  destruct (process_command_line_returned _ _ _ _ _ H)
    as (o0 & m & s & Hread & Hargs & Ho & Hpsp).
  destruct (read_options_checked _ _ _ _ _ Hread default_options_checked) as (Hc & _).
  subst o. split; [exact Hc|]. split; [|exact Hpsp].
  exists m, s. repeat split. exact Hargs.
Qed.

(** What C's comparisons with 0 and 1 leave of a threshold. *)
Lemma dle_zero_false a : dle a (Fin 0) = false -> nan_or_positive a.
Proof.
  destruct a as [|x]; [left; reflexivity|]. simpl. intros H. right.
  exists x. split; [reflexivity|].
  destruct (Qlt_le_dec 0 x) as [Hpos|Hle]; [exact Hpos|].
  apply Qle_bool_iff in Hle. congruence.
Qed.

Lemma within_unit a :
  dlt a (Fin 0) = false -> dgt a (Fin 1) = false -> nan_or_in_unit a.
Proof.
  destruct a as [|x]; [left; reflexivity|]. unfold dgt. simpl. intros H0 H1. right.
  exists x. split; [reflexivity|].
  apply negb_false_iff in H0. apply negb_false_iff in H1.
  apply Qle_bool_iff in H0. apply Qle_bool_iff in H1. split; assumption.
Qed.

(** With an [atof] that never reads a NaN, no threshold becomes a NaN. *)
Lemma assign_option_numbers option_name option_value o verbosity o1 verbosity1 :
  (forall text, isnan (atof text) = false) ->
  assign_option option_name option_value o verbosity = Returned (o1, verbosity1) ->
  thresholds_are_numbers o -> thresholds_are_numbers o1.
Proof.
  intros Hatof H Hc. unfold thresholds_are_numbers in *.
  option_cases H; simpl in *; repeat split; try apply Hatof; try reflexivity;
    apply Hc.
Qed.

Lemma read_options_numbers parsed : forall o verbosity o1 verbosity1,
  (forall text, isnan (atof text) = false) ->
  read_options parsed o verbosity = Returned (o1, verbosity1) ->
  thresholds_are_numbers o -> thresholds_are_numbers o1.
Proof.
  induction parsed as [|item more IH]; intros o verbosity o1 verbosity1 Hatof H Hc;
    simpl in H.
  - inversion H; subst. exact Hc.
  - destruct item as [option_name option_value|message]; [|discriminate H].
    destruct (assign_option option_name option_value o verbosity)
      as [[o2 verbosity2]| | |] eqn:Hstep; try discriminate H.
    apply (IH _ _ _ _ Hatof H).
    eapply assign_option_numbers; eassumption.
Qed.

(** X16: When [process_command_line] returns, one output threshold is in
    force and the other two are at their neutral values: with
    output_thresh_type EVALUE, p_thresh and q_thresh are 1.0 and e_thresh
    is a number above 0 or NaN; with PVALUE, e_thresh is DBL_MAX, q_thresh
    is 1.0 and p_thresh is a number of [0, 1] or NaN; with QVALUE, e_thresh
    and p_thresh are 1.0 and q_thresh is a number of [0, 1] or NaN.  The
    checks are C comparisons, which a NaN passes; a threshold is NaN only
    when [atof] read one: with an [atof] that reads no NaN, the three
    thresholds are numbers. *)
Theorem returned_options_have_one_threshold parsed arguments verbosity0 o verbosity1 :
  process_command_line parsed arguments verbosity0 = Returned (o, verbosity1) ->
  match output_thresh_type o with
  | EVALUE =>
      nan_or_positive (e_thresh o) /\ p_thresh o = Fin 1 /\ q_thresh o = Fin 1
  | PVALUE =>
      e_thresh o = DBL_MAX /\ q_thresh o = Fin 1 /\ nan_or_in_unit (p_thresh o)
  | QVALUE =>
      e_thresh o = Fin 1 /\ p_thresh o = Fin 1 /\ nan_or_in_unit (q_thresh o)
  end
  /\ ((forall text, isnan (atof text) = false) ->
      isnan (e_thresh o) = false /\ isnan (p_thresh o) = false
      /\ isnan (q_thresh o) = false).
Proof.
  intros H.
  destruct (process_command_line_returned _ _ _ _ _ H)
    as (o0 & m & s & Hread & Hargs & Ho & Hpsp).
  destruct (read_options_checked _ _ _ _ _ Hread default_options_checked) as (_ & Ht).
  subst o. split.
  - unfold one_threshold in Ht. simpl.
    destruct (output_thresh_type o0).
    + destruct Ht as (He & Hp & Hq). split; [apply dle_zero_false; exact He|].
      split; assumption.
    + destruct Ht as (He & Hq & Hp0 & Hp1). split; [exact He|]. split; [exact Hq|].
      apply within_unit; assumption.
    + destruct Ht as (He & Hp & Hq0 & Hq1). split; [exact He|]. split; [exact Hp|].
      apply within_unit; assumption.
  - intros Hatof.
    apply (read_options_numbers _ _ _ _ _ Hatof Hread).
    repeat split.
Qed.

Lemma read_options_app before : forall after o verbosity,
  read_options (before ++ after) o verbosity
  = match read_options before o verbosity with
    | Returned (o1, verbosity1) => read_options after o1 verbosity1
    | stop => stop
    end.
Proof.
  induction before as [|item more IH]; intros after o verbosity; simpl.
  - reflexivity.
  - destruct item as [option_name option_value|message]; [|reflexivity].
    destruct (assign_option option_name option_value o verbosity)
      as [[o2 verbosity2]| | |]; try reflexivity.
    apply IH.
Qed.

Lemma assign_option_keeps_thresholds option_name option_value o verbosity o1
    verbosity1 :
  sets_threshold (GetoptOption option_name option_value) = false ->
  assign_option option_name option_value o verbosity = Returned (o1, verbosity1) ->
  output_thresh_type o1 = output_thresh_type o
  /\ e_thresh o1 = e_thresh o /\ p_thresh o1 = p_thresh o /\ q_thresh o1 = q_thresh o.
Proof.
  intros Hs H. simpl in Hs.
  apply orb_false_iff in Hs. destruct Hs as (Hs & Hq).
  apply orb_false_iff in Hs. destruct Hs as (He & Hp).
  option_cases H; simpl; try congruence; auto.
Qed.

Lemma read_options_keeps_thresholds after : forall o verbosity o1 verbosity1,
  forallb (fun item => negb (sets_threshold item)) after = true ->
  read_options after o verbosity = Returned (o1, verbosity1) ->
  output_thresh_type o1 = output_thresh_type o
  /\ e_thresh o1 = e_thresh o /\ p_thresh o1 = p_thresh o /\ q_thresh o1 = q_thresh o.
Proof.
  induction after as [|item more IH]; intros o verbosity o1 verbosity1 Hall H;
    simpl in H.
  - inversion H; subst. auto.
  - simpl in Hall. apply andb_true_iff in Hall. destruct Hall as (Hitem & Hall).
    apply negb_true_iff in Hitem.
    destruct item as [option_name option_value|message]; [|discriminate H].
    destruct (assign_option option_name option_value o verbosity)
      as [[o2 verbosity2]| | |] eqn:Hstep; try discriminate H.
    destruct (assign_option_keeps_thresholds _ _ _ _ _ _ Hitem Hstep)
      as (A1 & A2 & A3 & A4).
    destruct (IH _ _ _ _ Hall H) as (B1 & B2 & B3 & B4).
    repeat split; congruence.
Qed.

(** X17: Of the options --output-ethresh, --output-pthresh and
    --output-qthresh the last one on the command line decides: when
    [process_command_line] returns, output_thresh_type is the type of that
    option and the threshold of that type is the value read from it, what
    ever thresholds were given before it. *)
Theorem last_threshold_option_decides before option_name option_value after
    arguments verbosity0 o verbosity1 :
  process_command_line (before ++ GetoptOption option_name option_value :: after)
                       arguments verbosity0
  = Returned (o, verbosity1) ->
  forallb (fun item => negb (sets_threshold item)) after = true ->
  (option_name = "output-ethresh"%string ->
   output_thresh_type o = EVALUE /\ e_thresh o = atof option_value)
  /\ (option_name = "output-pthresh"%string ->
      output_thresh_type o = PVALUE /\ p_thresh o = atof option_value)
  /\ (option_name = "output-qthresh"%string ->
      output_thresh_type o = QVALUE /\ q_thresh o = atof option_value).
Proof.
  intros H Hafter.
  destruct (process_command_line_returned _ _ _ _ _ H)
    as (o0 & m & s & Hread & Hargs & Ho & Hpsp).
  rewrite read_options_app in Hread.
  destruct (read_options before default_options verbosity0)
    as [[o1 v1]| | |]; try discriminate Hread.
  simpl in Hread.
  destruct (assign_option option_name option_value o1 v1)
    as [[o2 v2]| | |] eqn:Hstep; try discriminate Hread.
  destruct (read_options_keeps_thresholds _ _ _ _ _ Hafter Hread)
    as (B1 & B2 & B3 & B4).
  subst o. simpl. rewrite B1, B2, B3, B4.
  split; [|split]; intros ->; option_cases Hstep; simpl in *; try congruence;
    split; reflexivity.
Qed.

(** X18: The option --version ends the program with the version printed and
    EXIT_SUCCESS as soon as it is read: whatever follows it on the command
    line, valid or not, and whether or not the two required arguments are
    there, provided the options before it were accepted. *)
Theorem version_option_exits_with_success before option_value after arguments
    verbosity0 o1 verbosity1 :
  read_options before default_options verbosity0 = Returned (o1, verbosity1) ->
  process_command_line (before ++ GetoptOption "version" option_value :: after)
                       arguments verbosity0
  = VersionPrinted.
Proof.
  intros Hbefore. unfold process_command_line.
  rewrite read_options_app, Hbefore. reflexivity.
Qed.

End OptionProperties.

(** The command line [--text --output-pthresh 0.7 --hardmask m.meme s.fa]. *)
Lemma returned_options_are_checked_witness :
  match @CommandLine.process_command_line toy_library
          [CommandLine.GetoptOption "text" "";
           CommandLine.GetoptOption "output-pthresh" "0.7";
           CommandLine.GetoptOption "hardmask" ""]
          ["m.meme"; "s.fa"]%string 2
  with
  | CommandLine.Returned (o, _) =>
      0 <= CommandLine.max_stored_scores o
      /\ (CommandLine.psp_filename o = None
          <-> CommandLine.prior_distribution_filename o = None)
  | _ => False
  end.
Proof.
  destruct (@CommandLine.process_command_line toy_library
              [CommandLine.GetoptOption "text" "";
               CommandLine.GetoptOption "output-pthresh" "0.7";
               CommandLine.GetoptOption "hardmask" ""]
              ["m.meme"; "s.fa"]%string 2) as [[o v]|message|message|] eqn:H;
    try (vm_compute in H; discriminate H).
  destruct (@returned_options_are_checked toy_library
              _ _ _ _ _ H) as ((_ & Hstored & _) & _ & Hpsp).
  split; [exact Hstored|exact Hpsp].
Defined.

(** The command line [--output-ethresh 0.7 --text m.meme s.fa]. *)
Lemma returned_options_have_one_threshold_witness :
  match @CommandLine.process_command_line toy_library
          [CommandLine.GetoptOption "output-ethresh" "0.7";
           CommandLine.GetoptOption "text" ""]
          ["m.meme"; "s.fa"]%string 2
  with
  | CommandLine.Returned (o, _) =>
      CommandLine.output_thresh_type o = CommandLine.EVALUE
      /\ CommandLine.e_thresh o = Fin (7 # 10)
      /\ CommandLine.nan_or_positive (CommandLine.e_thresh o)
      /\ CommandLine.p_thresh o = Fin 1 /\ CommandLine.q_thresh o = Fin 1
      /\ isnan (CommandLine.e_thresh o) = false
  | _ => False
  end.
Proof.
  destruct (@CommandLine.process_command_line toy_library
              [CommandLine.GetoptOption "output-ethresh" "0.7";
               CommandLine.GetoptOption "text" ""]
              ["m.meme"; "s.fa"]%string 2) as [[o v]|message|message|] eqn:H;
    try (vm_compute in H; discriminate H).
  destruct (@returned_options_have_one_threshold toy_library _ _ _ _ _ H)
    as (Hone & Hnum).
  assert (Ho : CommandLine.output_thresh_type o = CommandLine.EVALUE
               /\ CommandLine.e_thresh o = Fin (7 # 10)).
  { vm_compute in H. inversion H. split; reflexivity. }
  destruct Ho as (Htype & He).
  rewrite Htype in Hone. destruct Hone as (Hpos & Hp & Hq).
  destruct Hnum as (Hnum & _); [reflexivity|].
  repeat split; assumption.
Defined.

(** The checks of the thresholds are C comparisons: the command line
    [--output-pthresh nan m.meme s.fa] is accepted, with the threshold
    NaN. *)
Lemma nan_threshold_is_accepted :
  match @CommandLine.process_command_line nan_library
          [CommandLine.GetoptOption "output-pthresh" "nan"]
          ["m.meme"; "s.fa"]%string 2
  with
  | CommandLine.Returned (o, _) =>
      CommandLine.output_thresh_type o = CommandLine.PVALUE
      /\ CommandLine.p_thresh o = NaN
  | _ => False
  end.
Proof.
  destruct (@CommandLine.process_command_line nan_library
              [CommandLine.GetoptOption "output-pthresh" "nan"]
              ["m.meme"; "s.fa"]%string 2) as [[o v]|message|message|] eqn:H;
    try (vm_compute in H; discriminate H).
  vm_compute in H. inversion H. split; reflexivity.
Qed.

Lemma last_threshold_option_decides_witness :
  match @CommandLine.process_command_line toy_library
          ([CommandLine.GetoptOption "output-ethresh" "0.7"]
           ++ CommandLine.GetoptOption "output-qthresh" "0.7"
              :: [CommandLine.GetoptOption "text" ""])
          ["m.meme"; "s.fa"]%string 2
  with
  | CommandLine.Returned (o, _) =>
      CommandLine.output_thresh_type o = CommandLine.QVALUE
      /\ CommandLine.q_thresh o = Fin (7 # 10)
  | _ => False
  end.
Proof.
  destruct (@CommandLine.process_command_line toy_library
              ([CommandLine.GetoptOption "output-ethresh" "0.7"]
               ++ CommandLine.GetoptOption "output-qthresh" "0.7"
                  :: [CommandLine.GetoptOption "text" ""])
              ["m.meme"; "s.fa"]%string 2) as [[o v]|message|message|] eqn:H;
    try (vm_compute in H; discriminate H).
  destruct (@last_threshold_option_decides toy_library
              _ _ _ _ _ _ _ _ H eq_refl) as (_ & _ & Hq).
  exact (Hq eq_refl).
Defined.

Lemma version_option_exits_with_success_witness :
  @CommandLine.process_command_line toy_library
    ([CommandLine.GetoptOption "text" ""]
     ++ CommandLine.GetoptOption "version" "" :: [CommandLine.GetoptError "unknown"])
    [] 2
  = CommandLine.VersionPrinted.
Proof.
  apply (@version_option_exits_with_success toy_library
           [CommandLine.GetoptOption "text" ""] "" [CommandLine.GetoptError "unknown"]
           [] 2 (CommandLine.set_text_only CommandLine.default_options true) 2).
  reflexivity.
Defined.
(** * The rounds of [mcast_generate_synth_seq] *)

Section SynthProperties.

Context {X : Externals} {Y : SynthLibrary X}.

Lemma max_rounds_value : max_rounds = Fin (1000000000 # 1000000).
Proof. reflexivity. Qed.

(** The comparisons of the loop, over the integers. *)
Lemma round_within_max r : dle (of_int r) max_rounds = (r <=? 1000).
Proof.
  rewrite max_rounds_value. unfold dle, of_int, Qle_bool, inject_Z. cbn [Qnum Qden].
  destruct (Z.leb_spec (r * Z.pos 1000000) (1000000000 * 1)), (Z.leb_spec r 1000);
    try reflexivity; lia.
Qed.

Lemma round_reaches_min r : dge (of_int r) min_rounds = (100 <=? r).
Proof.
  unfold dge, dle, of_int, min_rounds, Qle_bool, inject_Z. cbn [Qnum Qden].
  destruct (Z.leb_spec (100 * 1) (r * 1)), (Z.leb_spec 100 r); try reflexivity; lia.
Qed.

Lemma found_reaches_want f : dge (of_int f) want = (100000 <=? f).
Proof.
  unfold dge, dle, of_int, want, Qle_bool, inject_Z. cbn [Qnum Qden].
  destruct (Z.leb_spec (100000 * 1) (f * 1)), (Z.leb_spec 100000 f);
    try reflexivity; lia.
Qed.

Lemma progress_too_slow f r :
  dlt (ddiv (of_int f) want) (ddiv (of_int r) max_rounds) = (f <? 100 * r).
Proof.
  rewrite max_rounds_value.
  unfold dlt, ddiv, of_int, want, inject_Z.
  change (Qeq_bool (100000 # 1) 0) with false.
  change (Qeq_bool (1000000000 # 1000000) 0) with false.
  cbv iota. unfold Qle_bool, Qdiv, Qmult, Qinv. cbn [Qnum Qden].
  change (Z.pos (1 * 100000)) with 100000.
  change (Z.pos (1 * 1000000000)) with 1000000000.
  destruct (Z.leb_spec (r * 1000000 * 100000) (f * 1 * 1000000000)),
           (Z.ltb_spec f (100 * r)); try reflexivity; lia.
Qed.

Lemma dadd_of_int a b : dadd (of_int a) (of_int b) = of_int (a + b).
Proof.
  unfold dadd, of_int, inject_Z, Qplus. cbn [Qnum Qden].
  change (1 * 1)%positive with 1%positive. rewrite !Z.mul_1_r. reflexivity.
Qed.

(** The capacity of the reservoir is the same at every state of a scan. *)
Lemma scan_state_capacity dp_thresh st0 st :
  scan_state dp_thresh st0 st ->
  max_scores_saved (score_set st) = max_scores_saved (score_set st0).
Proof.
  intros Hst.
  induction Hst as [|st pm Hst IH|st sequence pm Hst IH|st seg next Hst IH].
  - reflexivity.
  - exact IH.
  - set (c := set_start_pos st (end_match pm + 1)).
    pose proof (process_match_score_set dp_thresh sequence pm c) as Hs.
    pose proof (save_score_grows sequence pm (dsub (raw_score pm) dp_thresh)
                  (score_set c) (serial_no c) (prng c)) as Hg.
    destruct (save_score sequence pm (dsub (raw_score pm) dp_thresh)
                (score_set c) (serial_no c) (prng c))
      as [[[gc score_set1] serial_no1] prng1].
    destruct Hs as (Hs & _). destruct Hg as (Hg & _).
    rewrite Hs, Hg. exact IH.
  - unfold after_segment.
    destruct (negb (seq_is_complete (segment_seq seg))); destruct next; simpl;
      exact IH.
Qed.

(** One round: what it leaves, and when it leaves the loop. *)
Lemma synth_round_cases dp_thresh min_gc max_gc s :
  match synth_round dp_thresh min_gc max_gc s with
  | Fatal _ => fopen_fails (round s) = true
  | Finished (s1, stop) =>
      fopen_fails (round s) = false
      /\ db_size s1 = dadd (db_size s) (of_int seqlen)
      /\ found s1 = num_scores_seen (synth_score_set s1)
      /\ synth_evd_set s1 = synth_evd_set s
      /\ last_returned s1 = one
      /\ max_scores_saved (synth_score_set s1) = max_scores_saved (synth_score_set s)
      /\ (if stop
          then round s1 = round s
               /\ (if gave_up s1
                   then 10 <= round s /\ found s1 < 100 * round s
                   else 100 <= round s /\ 100000 <= found s1)
          else round s1 = round s + 1
               /\ gave_up s1 = false
               /\ (round s < 100 \/ found s1 < 100000)
               /\ (round s < 10 \/ 100 * round s <= found s1))
  end.
Proof.
  unfold synth_round.
  destruct (fopen_fails (round s)); [reflexivity|].
  destruct (mts_drand (synth_prng s)) as [u prng1].
  destruct (synth_windows _ prng1) as [windows prng2].
  set (st := mcast_read_and_score (synth_serial_no s) None (synth_score_set s)
                                  (synth_evd_set s) windows dp_thresh prng2).
  pose proof (mcast_read_and_score_scan_state (synth_serial_no s) None
                (synth_score_set s) (synth_evd_set s) windows dp_thresh prng2) as Hst.
  fold st in Hst.
  destruct (scan_state_no_heap dp_thresh
              (start_scan (synth_serial_no s) None (synth_score_set s)
                          (synth_evd_set s) windows prng2) st eq_refl Hst)
    as (_ & Hmin & Hevd & _).
  pose proof (scan_state_capacity dp_thresh _ st Hst) as Hcap.
  assert (Hcap' : max_scores_saved (score_set st)
                  = max_scores_saved (synth_score_set s)).
  { rewrite Hcap. unfold start_scan. simpl. destruct windows; reflexivity. }
  simpl in Hmin, Hevd.
  rewrite round_reaches_min, found_reaches_want, progress_too_slow.
  destruct (Z.leb_spec 100 (round s)), (Z.leb_spec 100000 (num_scores_seen (score_set st)));
    destruct (Z.leb_spec 10 (round s)),
             (Z.ltb_spec (num_scores_seen (score_set st)) (100 * round s));
    simpl; repeat split; auto; lia.
Qed.

Lemma synth_loop_ends dp_thresh min_gc max_gc evd_set0 capacity : forall passes s,
  Z.of_nat passes + round s = 1001 ->
  1 <= round s <= 1000 ->
  db_size s = of_int (seqlen * (round s - 1)) ->
  synth_evd_set s = evd_set0 ->
  max_scores_saved (synth_score_set s) = capacity ->
  (exists outcome, synth_loop passes dp_thresh min_gc max_gc s = Some outcome)
  /\ forall s',
       synth_loop passes dp_thresh min_gc max_gc s = Some (Finished s') ->
       10 <= round s' <= 1000
       /\ db_size s' = of_int (seqlen * round s')
       /\ found s' = num_scores_seen (synth_score_set s')
       /\ synth_evd_set s' = evd_set0
       /\ last_returned s' = one
       /\ max_scores_saved (synth_score_set s') = capacity
       /\ (if gave_up s'
           then found s' < 100 * round s'
           else 100 <= round s' /\ 100000 <= found s').
Proof.
  induction passes as [|passes IH]; intros s Hsum Hround Hdb Hevd Hcap; [lia|].
  cbn [synth_loop]. rewrite round_within_max.
  destruct (Z.leb_spec (round s) 1000) as [_|Hover]; [|lia].
  pose proof (synth_round_cases dp_thresh min_gc max_gc s) as Hcases.
  destruct (synth_round dp_thresh min_gc max_gc s) as [[s1 stop]|message].
  - destruct Hcases as (_ & Hdb1 & Hfound & Hevd1 & Hret & Hcap1 & Hstop).
    assert (Hsize : db_size s1 = of_int (seqlen * round s)).
    { rewrite Hdb1, Hdb, dadd_of_int. f_equal. unfold seqlen. lia. }
    destruct stop.
    + destruct Hstop as (Hr & Hwhy). split; [eexists; reflexivity|].
      intros s' H. inversion H; subst s'. rewrite Hr.
      repeat split; try assumption; try congruence; try lia.
      * destruct (gave_up s1); lia.
      * destruct (gave_up s1); [lia|exact Hwhy].
    + destruct Hstop as (Hr & Hgave & Hmin & Hslow).
      assert (Hnext : round s < 1000).
      { destruct (Z.eq_dec (round s) 1000) as [E|E]; [|lia]. exfalso.
        rewrite E in Hmin, Hslow. lia. }
      apply IH; try lia; try congruence.
      rewrite Hsize, Hr. f_equal. lia.
  - split; [eexists; reflexivity|]. intros s' H. discriminate H.
Qed.

(** X19: The loop of [mcast_generate_synth_seq] always ends, in round 1000 at
    the latest, and never because its condition round <= max_rounds
    fails: it is left through one of its two breaks (or [die], when the
    file cannot be created).  When it is left, between 10 and 1000 rounds
    were run, db_size is a million times their number, and either the
    message of giving up was written, with less than 100 matches per round
    found, or at least 100 rounds were run and 100000 matches found. *)
Theorem synth_loop_ends_by_break score_set dp_thresh max_stored_scores prng0 :
  (exists outcome,
     synth_rounds 1000 score_set dp_thresh max_stored_scores prng0 = Some outcome)
  /\ forall s,
       synth_rounds 1000 score_set dp_thresh max_stored_scores prng0
       = Some (Finished s) ->
       10 <= round s <= 1000
       /\ db_size s = of_int (seqlen * round s)
       /\ found s = num_scores_seen (synth_score_set s)
       /\ (if gave_up s
           then found s < 100 * round s
           else 100 <= round s /\ 100000 <= found s).
Proof.
  unfold synth_rounds. destruct (gc_range score_set) as [min_gc max_gc].
  match goal with
  | |- context [synth_loop 1000 _ _ _ ?s0] =>
      destruct (synth_loop_ends dp_thresh min_gc max_gc empty_evd_set
                  max_stored_scores 1000 s0) as (Hends & Hall);
        try reflexivity; [simpl; lia|]
  end.
  split; [exact Hends|].
  intros s Hs. destruct (Hall s Hs) as (H1 & H2 & H3 & _ & _ & _ & H7).
  auto.
Qed.

(** X20: The scans of the random sequences are made without a heap and
    with an EVD set that is still empty when the loop is left: whatever
    the number of rounds, no provisional fit was made and no p-value
    computed in them; the scan of the last round returned 1.0; and the
    reservoir of the random scores keeps the capacity max_stored_scores. *)
Theorem synth_rounds_fit_nothing score_set dp_thresh max_stored_scores prng0 s :
  synth_rounds 1000 score_set dp_thresh max_stored_scores prng0 = Some (Finished s) ->
  synth_evd_set s = empty_evd_set
  /\ last_returned s = one
  /\ max_scores_saved (synth_score_set s) = max_stored_scores.
Proof.
  unfold synth_rounds. destruct (gc_range score_set) as [min_gc max_gc].
  match goal with
  | |- context [synth_loop 1000 _ _ _ ?s0] =>
      destruct (synth_loop_ends dp_thresh min_gc max_gc empty_evd_set
                  max_stored_scores 1000 s0) as (Hends & Hall);
        try reflexivity; [simpl; lia|]
  end.
  intros Hs. destruct (Hall s Hs) as (_ & _ & _ & H4 & H5 & H6 & _).
  auto.
Qed.

End SynthProperties.
(** ** The range of the GC contents and the indices of the symbols *)

Lemma dlt_irrefl a : dlt a a = false.
Proof.
  destruct a as [|x]; [reflexivity|]. unfold dlt.
  assert (H : Qle_bool x x = true) by (apply Qle_bool_iff; apply Qle_refl).
  rewrite H. reflexivity.
Qed.

(** A number that is not below [b] is not below a number that is not
    above [b]. *)
Lemma dlt_false_le a b c :
  isnan b = false -> dlt a b = false -> dgt c b = false -> isnan c = false ->
  dlt a c = false.
Proof.
  unfold dlt, dgt, isnan.
  destruct a as [|x], b as [|y], c as [|z]; try discriminate; try reflexivity.
  intros _ Hxy Hzy _. apply negb_false_iff in Hxy, Hzy. apply negb_false_iff.
  apply Qle_bool_iff in Hxy, Hzy. apply Qle_bool_iff.
  eapply Qle_trans; eassumption.
Qed.

Lemma dgt_false_ge a b c :
  isnan b = false -> dgt a b = false -> dlt c b = false -> isnan c = false ->
  dgt a c = false.
Proof.
  unfold dlt, dgt, isnan.
  destruct a as [|x], b as [|y], c as [|z]; try discriminate; try reflexivity.
  intros _ Hxy Hzy _. apply negb_false_iff in Hxy, Hzy. apply negb_false_iff.
  apply Qle_bool_iff in Hxy, Hzy. apply Qle_bool_iff.
  eapply Qle_trans; eassumption.
Qed.

Lemma gc_range_fold l : forall lo hi,
  isnan lo = false -> isnan hi = false ->
  let range :=
    fold_left
      (fun range sc =>
         let gc := score_gc sc in
         let min_gc := if dlt gc (fst range) then gc else fst range in
         let max_gc := if dgt gc (snd range) then gc else snd range in
         (min_gc, max_gc))
      l (lo, hi) in
  isnan (fst range) = false /\ isnan (snd range) = false
  /\ dgt (fst range) lo = false /\ dlt (snd range) hi = false
  /\ (fst range = lo \/ exists sc, In sc l /\ fst range = score_gc sc)
  /\ (snd range = hi \/ exists sc, In sc l /\ snd range = score_gc sc)
  /\ forall sc, In sc l ->
       dlt (score_gc sc) (fst range) = false /\ dgt (score_gc sc) (snd range) = false.
Proof.
  induction l as [|sc l IH]; intros lo hi Hlo Hhi; cbn [fold_left fst snd].
  - cbv zeta. cbn [fst snd]. repeat split; auto;
      try (unfold dgt; apply dlt_irrefl); contradiction.
  - set (lo1 := if dlt (score_gc sc) lo then score_gc sc else lo).
    set (hi1 := if dgt (score_gc sc) hi then score_gc sc else hi).
    assert (Hlo1 : isnan lo1 = false).
    { unfold lo1. destruct (dlt (score_gc sc) lo) eqn:E; [|exact Hlo].
      unfold dlt in E. destruct (score_gc sc); [discriminate E|reflexivity]. }
    assert (Hhi1 : isnan hi1 = false).
    { unfold hi1. destruct (dgt (score_gc sc) hi) eqn:E; [|exact Hhi].
      unfold dgt, dlt in E. destruct hi, (score_gc sc); try discriminate E; reflexivity. }
    assert (Hlo_le : dgt lo1 lo = false).
    { unfold lo1. destruct (dlt (score_gc sc) lo) eqn:E.
      - unfold dgt, dlt in *. destruct (score_gc sc) as [|g], lo as [|x];
          try discriminate; try reflexivity.
        apply negb_true_iff in E. apply negb_false_iff. apply Qle_bool_iff.
        destruct (Qlt_le_dec g x) as [Hlt|Hle]; [apply Qlt_le_weak; exact Hlt|].
        apply Qle_bool_iff in Hle. congruence.
      - unfold dgt. apply dlt_irrefl. }
    assert (Hhi_ge : dlt hi1 hi = false).
    { unfold hi1. destruct (dgt (score_gc sc) hi) eqn:E.
      - unfold dgt, dlt in *. destruct (score_gc sc) as [|g], hi as [|x];
          try discriminate; try reflexivity.
        apply negb_true_iff in E. apply negb_false_iff. apply Qle_bool_iff.
        destruct (Qlt_le_dec x g) as [Hlt|Hle]; [apply Qlt_le_weak; exact Hlt|].
        apply Qle_bool_iff in Hle. congruence.
      - apply dlt_irrefl. }
    assert (Hsc_lo : dlt (score_gc sc) lo1 = false).
    { unfold lo1. destruct (dlt (score_gc sc) lo) eqn:E; [apply dlt_irrefl|exact E]. }
    assert (Hsc_hi : dgt (score_gc sc) hi1 = false).
    { unfold hi1. destruct (dgt (score_gc sc) hi) eqn:E; [|exact E].
      unfold dgt. apply dlt_irrefl. }
    destruct (IH lo1 hi1 Hlo1 Hhi1) as (N1 & N2 & B1 & B2 & A1 & A2 & Hall).
    cbv zeta in *.
    set (range := fold_left _ l (lo1, hi1)) in *.
    split; [exact N1|]. split; [exact N2|]. split; [|split; [|split; [|split]]].
    + unfold dgt in *. apply (dlt_false_le lo lo1 (fst range)); auto.
    + unfold dgt in *. apply (dgt_false_ge hi hi1 (snd range)); auto.
    + destruct A1 as [A1|(sc' & Hin & A1)].
      * rewrite A1. unfold lo1. destruct (dlt (score_gc sc) lo); [|left; reflexivity].
        right. exists sc. split; [left; reflexivity|reflexivity].
      * right. exists sc'. split; [right; exact Hin|exact A1].
    + destruct A2 as [A2|(sc' & Hin & A2)].
      * rewrite A2. unfold hi1. destruct (dgt (score_gc sc) hi); [|left; reflexivity].
        right. exists sc. split; [left; reflexivity|reflexivity].
      * right. exists sc'. split; [right; exact Hin|exact A2].
    + intros sc' [<-|Hin]; [|apply Hall; exact Hin]. split.
      * apply (dlt_false_le (score_gc sc) lo1 (fst range)); auto.
      * apply (dgt_false_ge (score_gc sc) hi1 (snd range)); auto.
Qed.

(** X21: The range of GC contents from which [mcast_generate_synth_seq] draws
    the GC content of a random sequence: min_gc is 1 or the GC content of a
    sample of the reservoir, max_gc is 0 or the GC content of a sample,
    neither is NaN, min_gc is not above 1 and max_gc not below 0, and no
    sample of the reservoir has a GC content below min_gc or above max_gc
    (a GC content that is NaN is passed over). *)
Theorem gc_range_brackets_reservoir score_set :
  let min_gc := fst (gc_range score_set) in
  let max_gc := snd (gc_range score_set) in
  isnan min_gc = false /\ isnan max_gc = false
  /\ dgt min_gc (Fin 1) = false /\ dlt max_gc (Fin 0) = false
  /\ (min_gc = Fin 1
      \/ exists sc, In sc (saved_scores score_set) /\ min_gc = score_gc sc)
  /\ (max_gc = Fin 0
      \/ exists sc, In sc (saved_scores score_set) /\ max_gc = score_gc sc)
  /\ forall sc, In sc (saved_scores score_set) ->
       dlt (score_gc sc) min_gc = false /\ dgt (score_gc sc) max_gc = false.
Proof.
  exact (gc_range_fold (saved_scores score_set) (Fin 1) (Fin 0) eq_refl eq_refl).
Qed.

(** X22: For an alphabet of four symbols in which the complement of a symbol is
    another symbol and the complement of the complement is the symbol
    itself, the indices idx_A, idx_T, idx_C and idx_G that
    [mcast_generate_synth_seq] computes are the four indices 0, 1, 2 and 3,
    each once: every frequency of the background is set. *)
Theorem complement_indices_are_distinct (alph_complement : Z -> Z) :
  (forall i, 0 <= i < 4 ->
     0 <= alph_complement i < 4 /\ alph_complement i <> i
     /\ alph_complement (alph_complement i) = i) ->
  let '(idx_A, idx_T, idx_C, idx_G) := complement_indices alph_complement in
  NoDup [idx_A; idx_T; idx_C; idx_G]
  /\ Forall (fun i => 0 <= i < 4) [idx_A; idx_T; idx_C; idx_G]
  /\ alph_complement idx_A = idx_T /\ alph_complement idx_C = idx_G.
Proof.
  intros Hc. unfold complement_indices.
  destruct (Hc 0 ltac:(lia)) as (R0 & N0 & I0).
  destruct (Hc 1 ltac:(lia)) as (R1 & N1 & I1).
  destruct (Hc 2 ltac:(lia)) as (R2 & N2 & I2).
  set (t := alph_complement 0) in *.
  destruct (Z.eqb_spec t 1) as [E|E]; cbn [negb].
  - (* idx_T = 1, idx_C = 2 *)
    set (g := alph_complement 2) in *.
    assert (Hg0 : g <> 0).
    { intros H. rewrite H in I2. fold t in I2. lia. }
    assert (Hg1 : g <> 1).
    { intros H. rewrite H in I2. rewrite <- E in I2. rewrite I0 in I2. lia. }
    split; [|split; [|split; reflexivity]].
    + repeat constructor; simpl; lia.
    + repeat constructor; lia.
  - (* idx_C = 1 *)
    set (g := alph_complement 1) in *.
    assert (Hg0 : g <> 0).
    { intros H. rewrite H in I1. fold t in I1. lia. }
    assert (Hgt : g <> t).
    { intros H. rewrite H in I1. rewrite I0 in I1. lia. }
    split; [|split; [|split; reflexivity]].
    + repeat constructor; simpl; lia.
    + repeat constructor; lia.
Qed.

(** The complement of the DNA alphabet in the order A, C, G, T. *)
Lemma complement_indices_are_distinct_witness :
  let '(idx_A, idx_T, idx_C, idx_G) := complement_indices (fun i => 3 - i) in
  NoDup [idx_A; idx_T; idx_C; idx_G]
  /\ Forall (fun i => 0 <= i < 4) [idx_A; idx_T; idx_C; idx_G]
  /\ 3 - idx_A = idx_T /\ 3 - idx_C = idx_G.
Proof.
  apply (complement_indices_are_distinct (fun i => 3 - i)).
  intros i Hi. lia.
Defined.
(** * [get_min_max_pvalue] *)

Lemma MAX_spec p x :
  isnan x = false ->
  isnan (MAX p x) = false
  /\ dlt (MAX p x) x = false
  /\ dgt p (MAX p x) = false
  /\ (MAX p x = x \/ MAX p x = p).
Proof.
  intros Hx. unfold MAX. destruct (dgt p x) eqn:E.
  - assert (Hp : isnan p = false).
    { unfold dgt, dlt in E. destruct x, p; try discriminate E; reflexivity. }
    split; [exact Hp|]. split; [|split; [unfold dgt; apply dlt_irrefl|right; reflexivity]].
    unfold dgt, dlt in *. destruct x as [|a], p as [|b]; try discriminate.
    apply negb_true_iff in E. apply negb_false_iff. apply Qle_bool_iff.
    destruct (Qlt_le_dec a b) as [Hlt|Hle]; [apply Qlt_le_weak; exact Hlt|].
    apply Qle_bool_iff in Hle. congruence.
  - split; [exact Hx|]. split; [apply dlt_irrefl|]. split; [exact E|left; reflexivity].
Qed.

Lemma raise_max_pvalue_spec a : forall b p a',
  raise_max_pvalue a b p = Some a' ->
  List.length a' = List.length a
  /\ (exists x, nth_error a b = Some x /\ nth_error a' b = Some (MAX p x))
  /\ forall c, c <> b -> nth_error a' c = nth_error a c.
Proof.
  induction a as [|x rest IH]; intros b p a' H; destruct b as [|b]; simpl in H;
    try discriminate H.
  - inversion H; subst. split; [reflexivity|]. split.
    + exists x. split; reflexivity.
    + intros [|c] Hc; [contradiction|reflexivity].
  - destruct (raise_max_pvalue rest b p) as [rest'|] eqn:E; [|discriminate H].
    simpl in H. inversion H; subst.
    destruct (IH b p rest' E) as (Hlen & (y & Hy & Hy') & Hother).
    split; [simpl; congruence|]. split.
    + exists y. split; assumption.
    + intros [|c] Hc; [reflexivity|]. simpl. apply Hother. congruence.
Qed.

Lemma max_pvalues_fold ms : forall done a a',
  (forall b v, nth_error a b = Some v -> bin_maximum done b v) ->
  fold_left
    (fun array m =>
       match array with
       | Some a0 =>
           if match_gc_bin m <? 0 then None
           else raise_max_pvalue a0 (Z.to_nat (match_gc_bin m)) (match_pvalue m)
       | None => None
       end)
    ms (Some a) = Some a' ->
  List.length a' = List.length a
  /\ (forall b v, nth_error a' b = Some v -> bin_maximum (done ++ ms) b v)
  /\ Forall (fun m => 0 <= match_gc_bin m < Z.of_nat (List.length a)) ms.
Proof.
  induction ms as [|m ms IH]; intros done a a' Hinv H; simpl in H.
  - inversion H; subst. rewrite app_nil_r. auto.
  - destruct (Z.ltb_spec (match_gc_bin m) 0) as [Hneg|Hpos].
    { exfalso. clear -H. induction ms as [|m' ms IH]; simpl in H; [discriminate H|auto]. }
    destruct (raise_max_pvalue a (Z.to_nat (match_gc_bin m)) (match_pvalue m))
      as [a1|] eqn:E.
    2:{ exfalso. clear -H. induction ms as [|m' ms IH]; simpl in H; [discriminate H|auto]. }
    destruct (raise_max_pvalue_spec _ _ _ _ E) as (Hlen & (x & Hx & Hx') & Hother).
    assert (Hinv1 : forall b v, nth_error a1 b = Some v -> bin_maximum (done ++ [m]) b v).
    { intros b v Hv.
      destruct (Nat.eq_dec b (Z.to_nat (match_gc_bin m))) as [Hb|Hb].
      - subst b. rewrite Hx' in Hv. inversion Hv; subst v.
        destruct (Hinv _ _ Hx) as (N & P & U & A).
        destruct (MAX_spec (match_pvalue m) x N) as (M1 & M2 & M3 & M4).
        split; [exact M1|]. split; [|split].
        + apply (dlt_false_le _ x _); auto.
        + intros m' Hin Hbin. apply in_app_or in Hin. destruct Hin as [Hin|[<-|[]]].
          * apply (dgt_false_ge _ x _); auto.
          * exact M3.
        + destruct M4 as [M4|M4]; rewrite M4.
          * destruct A as [A|(m' & Hin & Hbin & Hp)]; [left; exact A|].
            right. exists m'. split; [apply in_or_app; left; exact Hin|]. auto.
          * right. exists m. split; [apply in_or_app; right; left; reflexivity|].
            split; [lia|reflexivity].
      - rewrite (Hother b Hb) in Hv.
        destruct (Hinv _ _ Hv) as (N & P & U & A).
        split; [exact N|]. split; [exact P|]. split.
        + intros m' Hin Hbin. apply in_app_or in Hin. destruct Hin as [Hin|[<-|[]]].
          * apply U; assumption.
          * exfalso. apply Hb. rewrite Hbin. rewrite Nat2Z.id. reflexivity.
        + destruct A as [A|(m' & Hin & Hbin & Hp)]; [left; exact A|].
          right. exists m'. split; [apply in_or_app; left; exact Hin|]. auto. }
    destruct (IH (done ++ [m]) a1 a' Hinv1 H) as (Hlen' & Hinv' & Hrange).
    rewrite <- app_assoc in Hinv'. simpl in Hinv'.
    split; [congruence|]. split; [exact Hinv'|].
    constructor; [|rewrite <- Hlen; exact Hrange].
    assert (Hsome : nth_error a (Z.to_nat (match_gc_bin m)) <> None) by congruence.
    apply nth_error_Some in Hsome. lia.
Qed.

Lemma min_pvalues_fold a : forall acc,
  isnan acc = false ->
  Forall (fun x => isnan x = false) a ->
  let r := fold_left (fun min_max_pvalue x => MIN x min_max_pvalue) a acc in
  isnan r = false
  /\ dgt r acc = false
  /\ (forall x, In x a -> dgt r x = false)
  /\ (r = acc \/ In r a).
Proof.
  induction a as [|x a IH]; intros acc Hacc Hall; simpl.
  - split; [exact Hacc|]. split; [unfold dgt; apply dlt_irrefl|].
    split; [intros x []|left; reflexivity].
  - inversion Hall as [|? ? Hx Hrest]; subst.
    assert (Hmin : isnan (MIN x acc) = false
                   /\ dgt (MIN x acc) acc = false /\ dgt (MIN x acc) x = false
                   /\ (MIN x acc = acc \/ MIN x acc = x)).
    { unfold MIN. destruct (dlt x acc) eqn:E.
      - split; [exact Hx|]. split; [|split; [unfold dgt; apply dlt_irrefl|right; reflexivity]].
        unfold dgt, dlt in *. destruct x as [|p], acc as [|q]; try discriminate.
        apply negb_true_iff in E. apply negb_false_iff. apply Qle_bool_iff.
        destruct (Qlt_le_dec p q) as [Hlt|Hle]; [apply Qlt_le_weak; exact Hlt|].
        apply Qle_bool_iff in Hle. congruence.
      - split; [exact Hacc|]. split; [unfold dgt; apply dlt_irrefl|].
        split; [|left; reflexivity].
        unfold dgt. unfold dlt in *. destruct x as [|p], acc as [|q]; try discriminate.
        apply negb_false_iff in E. apply negb_false_iff.
        apply Qle_bool_iff in E. apply Qle_bool_iff.
        destruct (Qlt_le_dec p q) as [Hlt|Hle]; [|exact Hle].
        exfalso. apply (Qlt_not_le _ _ Hlt). exact E. }
    destruct Hmin as (M1 & M2 & M3 & M4).
    destruct (IH (MIN x acc) M1 Hrest) as (R1 & R2 & R3 & R4).
    cbv zeta in *.
    set (r := fold_left _ a (MIN x acc)) in *.
    split; [exact R1|]. split; [|split].
    + apply (dgt_false_ge r (MIN x acc) acc); auto.
    + intros y [<-|Hy]; [|apply R3; exact Hy].
      apply (dgt_false_ge r (MIN x acc) x); auto.
    + destruct R4 as [R4|R4]; [|right; right; exact R4].
      rewrite R4. destruct M4 as [->| ->]; [left; reflexivity|right; left; reflexivity].
Qed.

(** X23: When [get_min_max_pvalue] stays within its array (the GC bin of every
    match is a bin of the EVD set), its result is a number not above 1.0;
    it is not above the maximum of any bin, where the maximum of a bin is
    the largest p-value of its matches, or 0.0 when that is larger or the
    bin has no match; and it is 1.0 or the maximum of a bin.  So a bin
    without a match makes the result 0.0 or less. *)
Theorem get_min_max_pvalue_is_least_bin_maximum {EVD : Type} (evd_set : EVD_SET EVD)
    mcast_matches r :
  get_min_max_pvalue evd_set mcast_matches = Some r ->
  Forall (fun m => 0 <= match_gc_bin m < evd_n evd_set) mcast_matches
  /\ isnan r = false
  /\ dgt r (Fin 1) = false
  /\ (forall b, 0 <= b < evd_n evd_set ->
        exists v, bin_maximum mcast_matches (Z.to_nat b) v /\ dgt r v = false)
  /\ (r = Fin 1
      \/ exists b, 0 <= b < evd_n evd_set /\ bin_maximum mcast_matches (Z.to_nat b) r)
  /\ (forall b, 0 <= b < evd_n evd_set ->
        (forall m, In m mcast_matches -> match_gc_bin m <> b) ->
        dgt r (Fin 0) = false).
Proof.
  unfold get_min_max_pvalue. intros H.
  set (bins := Z.to_nat (evd_n evd_set)) in *.
  destruct (fold_left _ mcast_matches (Some (repeat (Fin 0) bins)))
    as [a|] eqn:Hfold; [|discriminate H].
  simpl in H. inversion H as [Hr]. clear H.
  assert (Hinit : forall b v, nth_error (repeat (Fin 0) bins) b = Some v ->
                              bin_maximum [] b v).
  { intros b v Hv. apply nth_error_In in Hv. apply repeat_spec in Hv. subst v.
    unfold bin_maximum. repeat split; auto. intros m []. }
  destruct (max_pvalues_fold mcast_matches [] _ a Hinit Hfold) as (Hlen & Hinv & Hrange).
  rewrite repeat_length in Hlen, Hrange. simpl in Hinv.
  assert (Hnum : Forall (fun x => isnan x = false) a).
  { apply Forall_forall. intros x Hx. apply In_nth_error in Hx.
    destruct Hx as (b & Hb). destruct (Hinv b x Hb) as (N & _). exact N. }
  destruct (min_pvalues_fold a (Fin 1) eq_refl Hnum) as (R1 & R2 & R3 & R4).
  cbv zeta in *. rewrite Hr in *.
  assert (Hbin : forall b, 0 <= b < evd_n evd_set ->
                 exists v, bin_maximum mcast_matches (Z.to_nat b) v /\ dgt r v = false).
  { intros b Hb.
    destruct (nth_error a (Z.to_nat b)) as [v|] eqn:Hv.
    - exists v. split; [apply Hinv; exact Hv|]. apply R3.
      apply nth_error_In in Hv. exact Hv.
    - apply nth_error_None in Hv. unfold bins in Hlen. lia. }
  split.
  { eapply Forall_impl; [|exact Hrange]. simpl. intros m Hm. unfold bins in Hm. lia. }
  split; [exact R1|]. split; [exact R2|]. split; [exact Hbin|]. split.
  - destruct R4 as [R4|R4]; [left; exact R4|right].
    apply In_nth_error in R4. destruct R4 as (b & Hb).
    exists (Z.of_nat b). rewrite Nat2Z.id.
    assert (Hsome : nth_error a b <> None) by congruence.
    apply nth_error_Some in Hsome. unfold bins in Hlen.
    split; [lia|]. apply Hinv. exact Hb.
  - intros b Hb Hnone. destruct (Hbin b Hb) as (v & (N & P & U & A) & Hle).
    destruct A as [A|(m & Hin & Hm & _)]; [rewrite A in Hle; exact Hle|].
    exfalso. apply (Hnone m Hin). rewrite Hm. lia.
Qed.

(** Two bins and two matches, of p-values 0.3 in bin 0 and 0.2 in bin 1. *)
Lemma get_min_max_pvalue_is_least_bin_maximum_witness :
  let evd_set := @mkEvdSet unit [] 2 0 0 (Fin 0) (Fin 0) in
  let m0 := mkMatch EmptyString 0 0 (Fin 0) (Fin 0) 0 (Fin (3 # 10)) NaN NaN in
  let m1 := mkMatch EmptyString 0 0 (Fin 0) (Fin 0) 1 (Fin (2 # 10)) NaN NaN in
  get_min_max_pvalue evd_set [m0; m1] = Some (Fin (2 # 10))
  /\ dgt (Fin (2 # 10)) (Fin 1) = false
  /\ (Fin (2 # 10) = Fin 1
      \/ exists b, 0 <= b < 2 /\ bin_maximum [m0; m1] (Z.to_nat b) (Fin (2 # 10))).
Proof.
  intros evd_set m0 m1.
  assert (H : get_min_max_pvalue evd_set [m0; m1] = Some (Fin (2 # 10)))
    by reflexivity.
  destruct (get_min_max_pvalue_is_least_bin_maximum evd_set [m0; m1] _ H)
    as (_ & _ & H3 & _ & H5 & _).
  split; [exact H|]. split; [exact H3|exact H5].
Defined.
(** * The reader of the priors, and the flanks of a match *)

Section Strings.

Local Open Scope string_scope.

Lemma substring_all t : substring 0 (String.length t) t = t.
Proof. induction t as [|c t IH]; simpl; [reflexivity|]. rewrite IH. reflexivity. Qed.

Lemma substring_suffix stem t :
  substring (String.length stem) (String.length t) (stem ++ t) = t.
Proof. induction stem as [|c stem IH]; simpl; [apply substring_all|exact IH]. Qed.

Lemma string_length_append s t :
  String.length (s ++ t) = (String.length s + String.length t)%nat.
Proof. induction s as [|c s IH]; simpl; [reflexivity|]. rewrite IH. reflexivity. Qed.

Lemma substring_add s : forall n m1 m2,
  substring n (m1 + m2) s = substring n m1 s ++ substring (n + m1) m2 s.
Proof.
  induction s as [|c s IH]; intros n m1 m2.
  - destruct n, m1, m2; reflexivity.
  - destruct n as [|n].
    + destruct m1 as [|m1].
      * reflexivity.
      * simpl. rewrite (IH 0%nat m1 m2). reflexivity.
    + simpl. apply IH.
Qed.

Lemma substring_length s : forall n m,
  (n + m <= String.length s)%nat -> String.length (substring n m s) = m.
Proof.
  induction s as [|c s IH]; intros n m H; simpl in H.
  - destruct n, m; simpl; try reflexivity; lia.
  - destruct n as [|n].
    + destruct m as [|m]; [reflexivity|]. simpl. rewrite IH; [reflexivity|lia].
    + simpl. apply IH. lia.
Qed.

Lemma string_split s k :
  (k <= String.length s)%nat ->
  s = substring 0 k s ++ substring k (String.length s - k) s.
Proof.
  intros H. pose proof (substring_add s 0 k (String.length s - k)) as Hadd.
  cbn [Nat.add] in Hadd. rewrite <- Hadd.
  replace (k + (String.length s - k))%nat with (String.length s) by lia.
  symmetry. apply substring_all.
Qed.

(** X24: When both files of priors are given and the name of the file of
    priors has 4 characters or more, [main] reads the priors with the
    reader of wiggle files exactly when the name ends in ".wig", and with
    the reader of PSP files otherwise. *)
Theorem prior_reader_chosen_by_suffix psp dist :
  (4 <= String.length psp)%nat ->
  (choose_prior_reader (Some psp) (Some dist) = Some PriorReaderFromWig
   <-> exists stem, psp = stem ++ ".wig")
  /\ (choose_prior_reader (Some psp) (Some dist) = Some PriorReaderFromPsp
      <-> ~ exists stem, psp = stem ++ ".wig").
Proof.
  intros Hlen. unfold choose_prior_reader.
  destruct (Nat.ltb_spec (String.length psp) 4) as [Hshort|_]; [lia|].
  assert (Hiff : substring (String.length psp - 4) 4 psp = ".wig"
                 <-> exists stem, psp = stem ++ ".wig").
  { split.
    - intros H. exists (substring 0 (String.length psp - 4) psp).
      rewrite (string_split psp (String.length psp - 4)) at 1 by lia.
      replace (String.length psp - (String.length psp - 4))%nat with 4%nat by lia.
      rewrite H. reflexivity.
    - intros (stem & ->). rewrite string_length_append. simpl.
      replace (String.length stem + 4 - 4)%nat with (String.length stem) by lia.
      apply (substring_suffix stem ".wig"). }
  destruct (String.eqb_spec (substring (String.length psp - 4) 4 psp) ".wig") as [E|E].
  - split; split; try discriminate; auto.
    + intros _. apply Hiff. exact E.
    + intros Hno. exfalso. apply Hno. apply Hiff. exact E.
  - split; split; try discriminate; auto.
    + intros Hex. exfalso. apply E. apply Hiff. exact Hex.
    + intros _ Hex. apply E. apply Hiff. exact Hex.
Qed.

Lemma prior_reader_chosen_by_suffix_witness :
  choose_prior_reader (Some "priors.wig") (Some "priors.dist") = Some PriorReaderFromWig.
Proof.
  destruct (prior_reader_chosen_by_suffix "priors.wig" "priors.dist") as ((_ & H) & _).
  - simpl. lia.
  - apply H. exists "priors". reflexivity.
Defined.

Local Open Scope Z_scope.

(** X25: For a match that lies between the two X that pad the sequence
    (1 <= start_match <= end_match <= seq_length - 2), the copies succeed:
    the matched sequence has end_match - start_match + 1 symbols, the
    flanks have 10 symbols or as many as there are between the match and
    the padding, the left flank, the match and the right flank are one
    stretch of the sequence, and that stretch includes neither X. *)
Theorem flanks_stay_within_sequence raw_seq seq_length start_match end_match :
  Z.of_nat (String.length raw_seq) = seq_length ->
  seq_length < 2 ^ 64 ->
  1 <= start_match -> start_match <= end_match -> end_match <= seq_length - 2 ->
  exists lflank_seq match_seq rflank_seq,
    match_with_flanks raw_seq seq_length start_match end_match
    = Some (lflank_seq, match_seq, rflank_seq)
    /\ Z.of_nat (String.length match_seq) = end_match - start_match + 1
    /\ Z.of_nat (String.length lflank_seq) = Z.min 10 (start_match - 1)
    /\ Z.of_nat (String.length rflank_seq) = Z.min 10 (seq_length - end_match - 2)
    /\ (lflank_seq ++ match_seq ++ rflank_seq)%string
       = substring (Z.to_nat (start_match - Z.of_nat (String.length lflank_seq)))
                   (String.length lflank_seq + String.length match_seq
                    + String.length rflank_seq)
                   raw_seq
    /\ 1 <= start_match - Z.of_nat (String.length lflank_seq)
    /\ end_match + Z.of_nat (String.length rflank_seq) <= seq_length - 2.
Proof.
  intros Hlen Hsize Hstart Hle Hend.
  unfold match_with_flanks, preferred_flank_size.
  set (ll := if start_match - 1 >=? 10 then 10 else start_match - 1).
  assert (Hll : ll = Z.min 10 (start_match - 1)).
  { unfold ll. destruct (Z.geb_spec (start_match - 1) 10); lia. }
  rewrite (Z.mod_small (seq_length - end_match - 2)) by lia.
  set (rl := if seq_length - end_match - 2 >=? 10 then 10 else seq_length - end_match - 2).
  assert (Hrl : rl = Z.min 10 (seq_length - end_match - 2)).
  { unfold rl. destruct (Z.geb_spec (seq_length - end_match - 2) 10); lia. }
  unfold strncpy_from. rewrite Hlen.
  assert (C1 : (start_match <? 0) || (seq_length <? start_match)
               || (end_match - start_match + 1 <? 0) = false).
  { destruct (Z.ltb_spec start_match 0), (Z.ltb_spec seq_length start_match),
      (Z.ltb_spec (end_match - start_match + 1) 0); try reflexivity; lia. }
  assert (C2 : (start_match - ll <? 0) || (seq_length <? start_match - ll)
               || (ll <? 0) = false).
  { destruct (Z.ltb_spec (start_match - ll) 0), (Z.ltb_spec seq_length (start_match - ll)),
      (Z.ltb_spec ll 0); try reflexivity; lia. }
  assert (C3 : (end_match + 1 <? 0) || (seq_length <? end_match + 1)
               || (rl <? 0) = false).
  { destruct (Z.ltb_spec (end_match + 1) 0), (Z.ltb_spec seq_length (end_match + 1)),
      (Z.ltb_spec rl 0); try reflexivity; lia. }
  rewrite C1, C2, C3. do 3 eexists. split; [reflexivity|].
  assert (L1 : String.length (substring (Z.to_nat start_match)
                                        (Z.to_nat (end_match - start_match + 1)) raw_seq)
               = Z.to_nat (end_match - start_match + 1)).
  { apply substring_length. lia. }
  assert (L2 : String.length (substring (Z.to_nat (start_match - ll)) (Z.to_nat ll) raw_seq)
               = Z.to_nat ll).
  { apply substring_length. lia. }
  assert (L3 : String.length (substring (Z.to_nat (end_match + 1)) (Z.to_nat rl) raw_seq)
               = Z.to_nat rl).
  { apply substring_length. lia. }
  rewrite L1, L2, L3.
  split; [lia|]. split; [lia|]. split; [lia|]. split; [|lia].
  rewrite Z2Nat.id by lia.
  rewrite <- Nat.add_assoc, !substring_add.
  replace (Z.to_nat (start_match - ll) + Z.to_nat ll)%nat
    with (Z.to_nat start_match) by lia.
  replace (Z.to_nat start_match + Z.to_nat (end_match - start_match + 1))%nat
    with (Z.to_nat (end_match + 1)) by lia.
  reflexivity.
Qed.

Lemma flanks_stay_within_sequence_witness :
  exists lflank_seq match_seq rflank_seq,
    match_with_flanks "XACGTACGTACGTACGTX" 18 3 5
    = Some (lflank_seq, match_seq, rflank_seq)
    /\ Z.of_nat (String.length match_seq) = 5 - 3 + 1
    /\ Z.of_nat (String.length lflank_seq) = Z.min 10 (3 - 1)
    /\ Z.of_nat (String.length rflank_seq) = Z.min 10 (18 - 5 - 2)
    /\ (lflank_seq ++ match_seq ++ rflank_seq)%string
       = substring (Z.to_nat (3 - Z.of_nat (String.length lflank_seq)))
                   (String.length lflank_seq + String.length match_seq
                    + String.length rflank_seq)
                   "XACGTACGTACGTACGTX"
    /\ 1 <= 3 - Z.of_nat (String.length lflank_seq)
    /\ 5 + Z.of_nat (String.length rflank_seq) <= 18 - 2.
Proof.
  apply (flanks_stay_within_sequence "XACGTACGTACGTACGTX" 18 3 5);
    [reflexivity|reflexivity|lia|lia|lia].
Defined.

End Strings.
(** * From the command line to the report *)

Section Run.

Context {X : Externals}.

Lemma set_qvalues_pvalues matches : forall qvalues,
  map match_pvalue (set_qvalues matches qvalues) = map match_pvalue matches.
Proof.
  induction matches as [|m ms IH]; intros qvalues; simpl; [reflexivity|].
  destruct qvalues as [|q qs]; [reflexivity|]. simpl. rewrite IH. reflexivity.
Qed.

Lemma set_qvalues_sites matches : forall qvalues,
  map match_site (set_qvalues matches qvalues) = map match_site matches.
Proof.
  induction matches as [|m ms IH]; intros qvalues; simpl; [reflexivity|].
  destruct qvalues as [|q qs]; [reflexivity|]. simpl. rewrite IH. reflexivity.
Qed.

Lemma set_qvalues_qvalues matches : forall qvalues,
  List.length qvalues = List.length matches ->
  map match_qvalue (set_qvalues matches qvalues) = qvalues.
Proof.
  induction matches as [|m ms IH]; intros qvalues Hlen; simpl.
  - destruct qvalues; [reflexivity|discriminate Hlen].
  - destruct qvalues as [|q qs]; [discriminate Hlen|].
    simpl. rewrite IH; [reflexivity|]. simpl in Hlen. lia.
Qed.

Lemma set_qvalues_Forall (P : MCAST_MATCH_T -> Prop) matches : forall qvalues,
  (forall m q, P m -> P (set_mcast_match_qvalue m q)) ->
  Forall P matches -> Forall P (set_qvalues matches qvalues).
Proof.
  induction matches as [|m ms IH]; intros qvalues Hq H; simpl; [constructor|].
  destruct qvalues as [|q qs]; [exact H|].
  inversion H; subst. constructor; [apply Hq; assumption|]. apply IH; assumption.
Qed.

(** X26: With an EVD set that is fit, and a [compute_qvalues] that returns as
    many q-values as it is given p-values, [calc_pq_values] returns the
    matches it was given, none lost and none twice, in some order, each
    with the GC bin and the p-value that the EVD set gives for its own
    score and GC content; and the q-values of the matches, in the order in
    which they are returned, are what [compute_qvalues] returned for their
    p-values in that order. *)
Theorem calc_pq_values_scores_every_match matches evd_set score_set0 dp_thresh N :
  0 < evd_n evd_set ->
  (forall seen pvalues sampled,
     List.length (compute_qvalues seen pvalues sampled) = List.length pvalues) ->
  let result := calc_pq_values matches evd_set score_set0 dp_thresh N in
  Permutation (map match_site (fst result)) (map match_site matches)
  /\ Forall (fun m =>
               match_gc_bin m = evd_set_bin (match_gc m) (snd result)
               /\ match_pvalue m
                  = evd_set_pvalue (dsub (match_score m) dp_thresh) (match_gc m)
                                   IGNORE_QUERY_LENGTH (snd result))
            (fst result)
  /\ exists sampled_pvalues,
       map match_qvalue (fst result)
       = compute_qvalues (num_scores_seen score_set0)
                         (map match_pvalue (fst result)) sampled_pvalues.
Proof.
  intros Hfit Hlen. unfold calc_pq_values.
  assert (Hn : (evd_n evd_set <=? 0) = false) by (apply Z.leb_gt; exact Hfit).
  rewrite Hn. cbv zeta. cbn [fst snd].
  set (evd_set1 := mkEvdSet (evds evd_set) (evd_n evd_set) (evd_N evd_set) 0 BIG (Fin 0)).
  set (matches2 := qsort (map (set_pvalue_evalue evd_set1 dp_thresh N) matches)).
  split; [|split].
  - rewrite set_qvalues_sites. unfold matches2.
    rewrite (Permutation_map match_site (qsort_perm _)).
    rewrite map_map. apply Permutation_refl.
  - apply set_qvalues_Forall; [intros m q H; exact H|].
    unfold matches2. eapply Permutation_Forall; [symmetry; apply qsort_perm|].
    apply Forall_forall. intros m Hm. apply in_map_iff in Hm.
    destruct Hm as (m0 & <- & _). split; reflexivity.
  - eexists. rewrite set_qvalues_pvalues.
    apply set_qvalues_qvalues. rewrite Hlen. apply length_map.
Qed.

(** X27: For every command line that [process_command_line] accepts, the scan
    of the real sequences that [mcast] runs with its options keeps the
    heap within max_stored_scores records at every state, and the p-value
    threshold that it starts from is not above 1.0: the check of
    --max-stored-scores makes the capacity of the heap a capacity. *)
Theorem accepted_command_line_bounds_heap {C : CLibrary} parsed arguments verbosity0
    o verbosity1 dp_thresh0 segments prng0 :
  CommandLine.process_command_line parsed arguments verbosity0
  = CommandLine.Returned (o, verbosity1) ->
  let options := options_of_command_line o dp_thresh0 in
  let K := max_stored_scores options in
  let st0 := start_scan 0 (Some (create_heap K))
                        (set_max_scores_saved set_up_score_set K)
                        empty_evd_set segments prng0 in
  0 <= K
  /\ dgt (p_thresh options) (Fin 1) = false
  /\ scan_state (dp_thresh options) st0 (real_scan options segments prng0)
  /\ forall st,
       scan_state (dp_thresh options) st0 st ->
       exists h, mcast_match_heap st = Some h
                 /\ get_max_size h = K /\ get_num_nodes h <= K.
Proof.
  intros H options K st0.
  destruct (process_command_line_returned _ _ _ _ _ H)
    as (o0 & m & s & Hread & Hargs & Ho & Hpsp).
  destruct (read_options_checked _ _ _ _ _ Hread
              default_options_checked) as (Hc & Ht).
  assert (HK : 0 <= K).
  { unfold K, options. simpl. subst o. simpl. destruct Hc as (_ & Hs & _). exact Hs. }
  split; [exact HK|]. split.
  - unfold options. simpl. subst o. simpl.
    unfold CommandLine.one_threshold in Ht.
    destruct (CommandLine.output_thresh_type o0).
    + destruct Ht as (_ & -> & _). reflexivity.
    + destruct Ht as (_ & _ & _ & Hp). exact Hp.
    + destruct Ht as (_ & -> & _). reflexivity.
  - split; [apply mcast_read_and_score_scan_state|].
    intros st Hst.
    destruct (scan_state_inv K (dp_thresh options) st0 st HK
                (start_scan_inv K 0 _ empty_evd_set segments prng0 HK) Hst)
      as (h & Hh & Hinv).
    exists h. split; [exact Hh|]. split.
    + exact (inv_capacity _ _ _ _ _ Hinv).
    + exact (inv_bounded _ _ _ _ _ Hinv).
Qed.


End Run.
(** * Examples for the further properties *)

Lemma stored_matches_in_heap_or_purged_witness :
  let st := toy_scan early_fit 2 three_matches tt in
  num_matches st
  = Z.of_nat (List.length (retained st))
    + Z.of_nat (List.length (purged (events st))).
Proof.
  intros st.
  destruct (@stored_matches_in_heap_or_purged early_fit 2 0 (mkScoreSet [] 0 2 0 0 0)
              empty_evd_set three_matches (Fin 0) tt) as [Hst Hall]; [lia|].
  exact (Hall st Hst).
Defined.

(** A scan with a reservoir of one score has its fit with its first
    match; the fit is that of the state after the second match. *)
Lemma provisional_fit_is_kept_witness :
  let st1 := toy_scan early_fit 1 one_match tt in
  let st2 := @process_match early_fit (Fin 0) toy_window second_match
               (set_start_pos st1 (end_match second_match + 1)) in
  got_init_evd st2 = true /\ initial_evd_set st2 = initial_evd_set st1.
Proof.
  intros st1 st2.
  apply (@provisional_fit_is_kept early_fit (Fin 0) st1 st2).
  - unfold st2. apply scan_recorded. apply scan_entered.
  - vm_compute. reflexivity.
Defined.

Lemma reservoir_stays_within_bounds_witness :
  let st := toy_scan early_fit 2 three_matches tt in
  reservoir_inv (score_set st) (serial_no st) /\ 0 <= serial_no st.
Proof.
  intros st.
  destruct (@reservoir_stays_within_bounds early_fit 0 (Some (create_heap 2))
              (mkScoreSet [] 0 2 0 0 0) empty_evd_set three_matches (Fin 0) tt)
    as [Hst Hall].
  - intros g. simpl. unfold Qle, Qlt. simpl. lia.
  - constructor; simpl; try lia; constructor.
  - exact (Hall st Hst).
Defined.

(** Random sequences with one match each: the rounds are given up in
    round 10. *)
Lemma synth_rounds_fit_nothing_witness :
  match @synth_rounds early_fit (toy_synth early_fit) 1000 (mkScoreSet [] 0 2 0 0 0)
                      (Fin 0) 2 tt with
  | Some (Finished s) =>
      synth_evd_set s = empty_evd_set
      /\ last_returned s = one
      /\ max_scores_saved (synth_score_set s) = 2
  | _ => False
  end.
Proof.
  destruct (@synth_rounds early_fit (toy_synth early_fit) 1000
              (mkScoreSet [] 0 2 0 0 0) (Fin 0) 2 tt) as [[s|message]|] eqn:H;
    try (vm_compute in H; discriminate H).
  exact (@synth_rounds_fit_nothing early_fit (toy_synth early_fit) _ _ _ _ _ H).
Defined.

Lemma calc_pq_values_scores_every_match_witness :
  let evd_set := @mkEvdSet (@EVD early_fit) [] 1 0 0 (Fin 0) (Fin 0) in
  let result := @calc_pq_values early_fit [toy_match NaN; toy_match (Fin 1)] evd_set
                                (mkScoreSet [] 0 2 7 0 0) (Fin 0) 7 in
  Permutation (map match_site (fst result))
              (map match_site [toy_match NaN; toy_match (Fin 1)])
  /\ List.length (fst result) = 2%nat.
Proof.
  intros evd_set result.
  destruct (@calc_pq_values_scores_every_match early_fit
              [toy_match NaN; toy_match (Fin 1)] evd_set (mkScoreSet [] 0 2 7 0 0)
              (Fin 0) 7) as (Hperm & _).
  - simpl. lia.
  - intros seen pvalues sampled. reflexivity.
  - split; [exact Hperm|reflexivity].
Defined.

(** The command line [--max-stored-scores 7 --text m.meme s.fa]. *)
Lemma accepted_command_line_bounds_heap_witness :
  match @CommandLine.process_command_line toy_library
          [CommandLine.GetoptOption "max-stored-scores" "7";
           CommandLine.GetoptOption "text" ""]
          ["m.meme"; "s.fa"]%string 2
  with
  | CommandLine.Returned (o, _) =>
      0 <= max_stored_scores (options_of_command_line o (Fin 0))
      /\ dgt (p_thresh (options_of_command_line o (Fin 0))) (Fin 1) = false
  | _ => False
  end.
Proof.
  destruct (@CommandLine.process_command_line toy_library
              [CommandLine.GetoptOption "max-stored-scores" "7";
               CommandLine.GetoptOption "text" ""]
              ["m.meme"; "s.fa"]%string 2) as [[o v]|message|message|] eqn:H;
    try (vm_compute in H; discriminate H).
  destruct (@accepted_command_line_bounds_heap early_fit toy_library _ _ _ o v (Fin 0)
              three_matches tt H) as (HK & Hp & _).
  split; [exact HK|exact Hp].
Defined.

(** * Before the fit: what is stored and what a purge removes *)

Section BeforeFit.

Context {X : Externals}.

(** X29: In a scan that starts with an empty heap of capacity K >= 2, a
    recorded match after which no provisional fit has succeeded is always
    stored, whatever its score: num_matches goes up by one, and the record,
    with the name and the coordinates of the match, a p-value that is NaN
    and the GC bin -1, is in the heap or among the records that the purge
    after it has freed. *)
Theorem no_match_turned_away_before_fit K serial0 score_set0 evd_set0 segments
    dp_thresh prng0 st sequence pm :
  2 <= K ->
  scan_state dp_thresh
    (start_scan serial0 (Some (create_heap K)) score_set0 evd_set0 segments prng0) st ->
  let st' := process_match dp_thresh sequence pm st in
  got_init_evd st' = false ->
  num_matches st' = num_matches st + 1
  /\ exists m,
       (In m (retained st') \/ In m (purged (events st')))
       /\ match_pvalue m = NaN
       /\ match_gc_bin m = -1
       /\ match_seq_name m = seq_name sequence
       /\ match_start m = seq_offset sequence + start_match pm - 1
       /\ match_stop m = seq_offset sequence + end_match pm - 1.
Proof.
  intros HK Hst st' Hgot.
  assert (H0 : 0 <= K) by lia.
  destruct (scan_state_inv K dp_thresh _ st H0
              (start_scan_inv K serial0 score_set0 evd_set0 segments prng0 H0) Hst)
    as (h & Hh & Hinv).
  pose proof (process_match_stage dp_thresh sequence pm st) as Hstage.
  fold st' in Hstage. revert Hgot Hstage. unfold st', process_match.
  destruct (save_score sequence pm (dsub (raw_score pm) dp_thresh)
              (score_set st) (serial_no st) (prng st))
    as [[[gc score_set1] serial_no1] prng1].
  destruct (init_distr_stage_inv K dp_thresh score_set1 st h Hh Hinv)
    as (evd_set1 & h1 & got1 & evs1 & Heq & Hinv1).
  rewrite Heq. intros Hgot (Hg & _).
  assert (Hno : got1 = false) by congruence.
  subst got1. cbn [orb isnan dlt].
  replace (dlt NaN (min_pvalue_discarded st) || true) with true
    by (destruct (dlt NaN (min_pvalue_discarded st)); reflexivity).
  set (m := build_mcast_match sequence pm (dsub (raw_score pm) dp_thresh) dp_thresh
                              NaN gc (-1)).
  pose proof (add_node_heap_room h1 m) as Hroom.
  rewrite (inv_capacity _ _ _ _ _ Hinv1) in Hroom.
  specialize (Hroom (inv_room _ _ _ _ _ Hinv1 HK)).
  assert (Hin : In m (node_list (add_node_heap h1 m))).
  { apply (Permutation_in _ (Permutation_sym Hroom)). left. reflexivity. }
  unfold store_match.
  destruct (get_num_nodes (add_node_heap h1 m) =? get_max_size (add_node_heap h1 m)).
  - destruct (purge_match_heap_outcome (add_node_heap h1 m)
                (add_node_heap_ordered h1 m (inv_ordered _ _ _ _ _ Hinv1)))
      as (tied & _ & Hnodes & _).
    cbn [num_matches retained mcast_match_heap events purged].
    split; [reflexivity|]. exists m. split; [|repeat split].
    rewrite Hnodes in Hin. apply in_app_or in Hin.
    destruct Hin as [Hin|Hin]; [right; apply in_or_app; left; exact Hin|left; exact Hin].
  - cbn [num_matches retained mcast_match_heap events].
    split; [reflexivity|]. exists m. split; [left; exact Hin|repeat split].
Qed.

End BeforeFit.

Lemma firstn_member (A : Type) (k : nat) (l : list A) (x : A) :
  In x (firstn k l) -> In x l.
Proof.
  intros H. rewrite <- (firstn_skipn k l). apply in_or_app. left. exact H.
Qed.

Lemma last_of_equal (v d : double) l :
  l <> [] -> Forall (fun x => x = v) l -> last l d = v.
Proof.
  induction l as [|x l IH]; intros Hne Hall; [contradiction|].
  inversion Hall as [|? ? Hx Hl]; subst.
  destruct l as [|y l]; [reflexivity|].
  change (last (v :: y :: l) d) with (last (y :: l) d).
  apply IH; [discriminate|exact Hl].
Qed.

(** X30: Two edges of a purge, for an ordered heap of s >= 2 records.  When
    all the p-values are the same number, the purge frees every record
    and leaves the heap empty, returning that number.  When all the
    p-values are NaN, as before a provisional fit, it frees the first
    floor(s/2) records and no more, and returns NaN. *)
Theorem purge_of_equal_pvalues h :
  heap_ordered h ->
  (2 <= List.length (node_list h))%nat ->
  (forall p, Forall (fun m => match_pvalue m = Fin p) (node_list h) ->
     node_list (purge_heap (purge_match_heap h)) = []
     /\ purge_freed (purge_match_heap h) = node_list h
     /\ purge_min_pvalue_discarded (purge_match_heap h) = Fin p)
  /\ (Forall (fun m => match_pvalue m = NaN) (node_list h) ->
      purge_freed (purge_match_heap h)
      = firstn (List.length (node_list h) / 2) (node_list h)
      /\ node_list (purge_heap (purge_match_heap h))
         = skipn (List.length (node_list h) / 2) (node_list h)
      /\ purge_min_pvalue_discarded (purge_match_heap h) = NaN).
Proof.
  intros Hord Hlen.
  destruct (purge_match_heap_outcome h Hord)
    as (tied & Hf & Hnodes & Hm & Htied & Hkept & _).
  set (k := (List.length (node_list h) / 2)%nat) in *.
  assert (Hk : (1 <= k)%nat) by (apply Nat.div_le_lower_bound; lia).
  assert (Hkl : (k <= List.length (node_list h))%nat).
  { apply Nat.Div0.div_le_upper_bound. lia. }
  assert (Hfirst : map match_pvalue (firstn k (node_list h)) <> []).
  { intros E. apply (f_equal (@List.length _)) in E.
    rewrite length_map, length_firstn in E. simpl in E. lia. }
  split.
  - intros p Hall.
    assert (Hmin : purge_min_pvalue_discarded (purge_match_heap h) = Fin p).
    { rewrite Hm. apply last_of_equal; [exact Hfirst|].
      apply Forall_forall. intros x Hx. apply in_map_iff in Hx.
      destruct Hx as (m & <- & Hin). apply firstn_member in Hin.
      rewrite Forall_forall in Hall. apply Hall. exact Hin. }
    assert (Hempty : node_list (purge_heap (purge_match_heap h)) = []).
    { destruct (node_list (purge_heap (purge_match_heap h))) as [|e rest] eqn:E;
        [reflexivity|exfalso].
      inversion Hkept as [|? ? He _]; subst.
      rewrite Forall_forall in Hall.
      assert (Hp : match_pvalue e = Fin p).
      { apply Hall. rewrite Hnodes. apply in_or_app. right. left. reflexivity. }
      rewrite Hp, Hmin in He. unfold dge, dle in He.
      assert (Hpp : Qle_bool p p = true) by (apply Qle_bool_iff; apply Qle_refl).
      congruence. }
    split; [exact Hempty|]. split; [|exact Hmin].
    rewrite Hempty, app_nil_r in Hnodes. symmetry. exact Hnodes.
  - intros Hall.
    assert (Hnone : tied = []).
    { destruct tied as [|v rest]; [reflexivity|exfalso].
      inversion Htied as [|? ? Hv _]; subst.
      rewrite Forall_forall in Hall.
      assert (Hp : match_pvalue v = NaN).
      { apply Hall. rewrite Hnodes, Hf. apply in_or_app. left.
        apply in_or_app. right. left. reflexivity. }
      rewrite Hp in Hv. unfold dge, dle in Hv.
      destruct (purge_min_pvalue_discarded (purge_match_heap h)); discriminate Hv. }
    subst tied. rewrite app_nil_r in Hf.
    split; [exact Hf|]. split.
    + rewrite Hf in Hnodes.
      rewrite <- (firstn_skipn k (node_list h)) in Hnodes at 1.
      apply app_inv_head in Hnodes. symmetry. exact Hnodes.
    + rewrite Hm. apply last_of_equal; [exact Hfirst|].
      apply Forall_forall. intros x Hx. apply in_map_iff in Hx.
      destruct Hx as (m & <- & Hin). apply firstn_member in Hin.
      rewrite Forall_forall in Hall. apply Hall. exact Hin.
Qed.

(** A heap without a fit, before its second match; a heap of two records
    of p-value 0.2. *)
Lemma no_match_turned_away_before_fit_witness :
  let st := @start_scan no_fit 0 (Some (create_heap 2)) (mkScoreSet [] 0 2 0 0 0)
                        empty_evd_set one_match tt in
  num_matches (@process_match no_fit (Fin 0) toy_window second_match st)
  = num_matches st + 1.
Proof.
  intros st.
  destruct (@no_match_turned_away_before_fit no_fit 2 0 (mkScoreSet [] 0 2 0 0 0)
              empty_evd_set one_match (Fin 0) tt st toy_window second_match)
    as (H & _).
  - lia.
  - apply scan_entered.
  - vm_compute. reflexivity.
  - exact H.
Defined.

Lemma purge_of_equal_pvalues_witness :
  let h := mkHeap 2 [toy_match (Fin (2 # 10)); toy_match (Fin (2 # 10))] in
  node_list (purge_heap (purge_match_heap h)) = []
  /\ purge_freed (purge_match_heap h) = node_list h
  /\ purge_min_pvalue_discarded (purge_match_heap h) = Fin (2 # 10).
Proof.
  intros h.
  destruct (purge_of_equal_pvalues h) as (H & _).
  - repeat constructor.
  - simpl. lia.
  - apply (H (2 # 10)). repeat constructor.
Defined.
